(** * lparser.c: LL(1) parser and code generator for Lua

    A shallow embedding of [src/lparser.c] (revision 1.141).  The parser is
    a family of state transformers over [LexState]; errors ([longjmp] in the
    C code) are a result value.  The lexer, the bytecode writer ([luaK_*]),
    the allocator and the error reporter are external collaborators of the
    parser: the token stream is data of the state, the bytecode writer is an
    interface ([Emitter]) the parser is parametric in. *)

From Stdlib Require Import ZArith Lia Ascii String.
From Stdlib Require QArith_base.
From stdpp Require Import base list gmap strings.

Open Scope Z_scope.

(** ** Strings, numbers and tokens *)

(** [TString *]: strings are interned ([luaS_new]), so equality of pointers
    in the C code is equality of contents here. *)
Abbreviation TString := string (only parsing).

(** [lua_Number]: the parser only carries a number from its token to
    [luaK_number]; it never computes with it. *)
Abbreviation lua_Number := QArith_base.Q (only parsing).

(** [l_c(c)]: a single-character token is its character code. *)
Definition l_c (c : ascii) : Z := Z.of_N (N_of_ascii c).
Arguments l_c c%_char.

(** Modelled from the spec: llex.h is not among the sources; the token
    kinds of 6 (EXTERNAL INTERFACES), numbered from [FIRST_RESERVED]
    upwards so that they differ from every character code. *)
Definition FIRST_RESERVED : Z := 257.
Definition TK_AND : Z := FIRST_RESERVED.
Definition TK_BREAK : Z := FIRST_RESERVED + 1.
Definition TK_DO : Z := FIRST_RESERVED + 2.
Definition TK_ELSE : Z := FIRST_RESERVED + 3.
Definition TK_ELSEIF : Z := FIRST_RESERVED + 4.
Definition TK_END : Z := FIRST_RESERVED + 5.
Definition TK_FOR : Z := FIRST_RESERVED + 6.
Definition TK_FUNCTION : Z := FIRST_RESERVED + 7.
Definition TK_IF : Z := FIRST_RESERVED + 8.
Definition TK_LOCAL : Z := FIRST_RESERVED + 9.
Definition TK_NIL : Z := FIRST_RESERVED + 10.
Definition TK_NOT : Z := FIRST_RESERVED + 11.
Definition TK_OR : Z := FIRST_RESERVED + 12.
Definition TK_REPEAT : Z := FIRST_RESERVED + 13.
Definition TK_RETURN : Z := FIRST_RESERVED + 14.
Definition TK_THEN : Z := FIRST_RESERVED + 15.
Definition TK_UNTIL : Z := FIRST_RESERVED + 16.
Definition TK_WHILE : Z := FIRST_RESERVED + 17.
Definition TK_NAME : Z := FIRST_RESERVED + 18.
Definition TK_CONCAT : Z := FIRST_RESERVED + 19.
Definition TK_DOTS : Z := FIRST_RESERVED + 20.
Definition TK_EQ : Z := FIRST_RESERVED + 21.
Definition TK_GE : Z := FIRST_RESERVED + 22.
Definition TK_LE : Z := FIRST_RESERVED + 23.
Definition TK_NE : Z := FIRST_RESERVED + 24.
Definition TK_NUMBER : Z := FIRST_RESERVED + 25.
Definition TK_STRING : Z := FIRST_RESERVED + 26.
Definition TK_EOS : Z := FIRST_RESERVED + 27.

(** [SemInfo]: the semantic payload of a token.  The C union is kept as
    two fields; the parser reads [r] only at a [TK_NUMBER] and [ts] only at
    a [TK_NAME] or [TK_STRING]. *)
Record SemInfo := mkSemInfo { si_r : lua_Number; si_ts : TString }.

Record Token := mkToken { tk_token : Z; tk_seminfo : SemInfo }.

(** What the lexer hands over for one call of [luaX_lex]: the token and
    the line the lexer has reached when it returns. *)
Record LexItem := mkLexItem { lx_token : Token; lx_line : Z }.

(** ** Instructions and expression descriptors *)

(** Modelled from the spec: lopcodes.h is not among the sources; the
    opcodes the parser names itself, and those the reference bytecode
    writer below emits. *)
Inductive OpCode :=
| OP_RETURN | OP_CALL | OP_PUSHNIL | OP_POP | OP_PUSHINT | OP_PUSHSTRING
| OP_PUSHNUM | OP_PUSHUPVALUE | OP_GETLOCAL | OP_GETGLOBAL | OP_GETTABLE
| OP_PUSHSELF | OP_CREATETABLE | OP_SETLOCAL | OP_SETGLOBAL | OP_SETTABLE
| OP_SETLIST | OP_SETMAP | OP_ADD | OP_SUB | OP_MULT | OP_DIV | OP_POW
| OP_CONCAT | OP_MINUS | OP_NOT | OP_JMPNE | OP_JMPEQ | OP_JMPLT | OP_JMPLE
| OP_JMPGT | OP_JMPGE | OP_JMPT | OP_JMPF | OP_JMPONT | OP_JMPONF | OP_JMP
| OP_PUSHNILJMP | OP_FORPREP | OP_FORLOOP | OP_LFORPREP | OP_LFORLOOP
| OP_CLOSURE.

Global Instance OpCode_eq_dec : EqDecision OpCode.
Proof. solve_decision. Defined.

(** Modelled from the spec: lopcodes.h is not among the sources; an
    instruction is an opcode with no operand, one operand U (or S, signed),
    or two operands A and B.  [SETARG_U] overwrites the U operand and
    keeps the opcode. *)
Inductive Instruction :=
| CREATE_0 (o : OpCode)
| CREATE_U (o : OpCode) (u : Z)
| CREATE_S (o : OpCode) (s : Z)
| CREATE_AB (o : OpCode) (a b : Z).

Global Instance Instruction_eq_dec : EqDecision Instruction.
Proof. solve_decision. Defined.

Definition GET_OPCODE (i : Instruction) : OpCode :=
  match i with
  | CREATE_0 o | CREATE_U o _ | CREATE_S o _ | CREATE_AB o _ _ => o
  end.

Definition SETARG_U (i : Instruction) (u : Z) : Instruction :=
  CREATE_U (GET_OPCODE i) u.

Inductive expkind := VGLOBAL | VLOCAL | VINDEXED | VEXP.

Global Instance expkind_eq_dec : EqDecision expkind.
Proof. solve_decision. Defined.

(** [expdesc]: [k] and the union [u], whose members [index] and [l.t],
    [l.f] are kept as separate fields (the code reads only the member that
    [k] selects). *)
Record expdesc := mkexpdesc {
  k : expkind;
  u_index : Z;
  u_l_t : Z;
  u_l_f : Z
}.

Global Instance expdesc_eq_dec : EqDecision expdesc.
Proof. solve_decision. Defined.

(** An automatic [expdesc v;] declared without initialiser: the parser
    writes every field before it reads it, so any filling does. *)
Definition expdesc_auto : expdesc := mkexpdesc VGLOBAL 0 0 0.

Definition set_k (v : expdesc) (x : expkind) : expdesc :=
  mkexpdesc x (u_index v) (u_l_t v) (u_l_f v).
Definition set_u_index (v : expdesc) (i : Z) : expdesc :=
  mkexpdesc (k v) i (u_l_t v) (u_l_f v).
Definition set_u_l (v : expdesc) (t f : Z) : expdesc :=
  mkexpdesc (k v) (u_index v) t f.

Inductive UnOpr := OPR_MINUS | OPR_NOT | OPR_NOUNOPR.

Inductive BinOpr :=
| OPR_ADD | OPR_SUB | OPR_MULT | OPR_DIV | OPR_POW | OPR_CONCAT
| OPR_NE | OPR_EQ | OPR_LT | OPR_LE | OPR_GT | OPR_GE
| OPR_AND | OPR_OR | OPR_NOBINOPR.

(** ** Prototypes, function states, the lexical state *)

Record LocVar := mkLocVar { varname : TString; startpc : Z; endpc : Z }.

(** [Proto]: each vector is the map from its indices to its elements (a C
    array whose used length is kept elsewhere, in [FuncState]) next to its
    allocated size. *)
#[warnings="-register-all"]
Inductive Proto := mkProto {
  f_code : gmap Z Instruction;
  f_sizecode : Z;
  f_kstr : gmap Z TString;
  f_sizekstr : Z;
  f_knum : gmap Z lua_Number;
  f_sizeknum : Z;
  f_kproto : gmap Z Proto;
  f_sizekproto : Z;
  f_locvars : gmap Z LocVar;
  f_sizelocvars : Z;
  f_lineinfo : gmap Z Z;
  f_sizelineinfo : Z;
  f_nupvalues : Z;
  f_numparams : Z;
  f_is_vararg : Z;
  f_maxstacksize : Z;
  f_source : TString;
  f_lineDefined : Z
}.

Record Breaklabel := mkBreaklabel { bl_breaklist : Z; bl_stacklevel : Z }.

(** [FuncState]: the chain through [prev] is the list [ls_fs] of the
    lexical state (innermost function first); the chain of break labels
    through [previous] is the list [fs_bl]. *)
Record FuncState := mkFuncState {
  fs_f : Proto;
  fs_pc : Z;
  fs_lasttarget : Z;
  fs_jlt : Z;
  fs_stacklevel : Z;
  fs_nactloc : Z;
  fs_lastline : Z;
  fs_nlineinfo : Z;
  fs_nkstr : Z;
  fs_nknum : Z;
  fs_nkproto : Z;
  fs_nlocvars : Z;
  fs_bl : list Breaklabel;
  fs_upvalues : gmap Z expdesc;
  fs_actloc : gmap Z Z
}.

(** [LexState].  [ls_z] is the input still to be lexed, as the tokens
    [luaX_lex] will return; [ls_constindex] holds the field
    [u.s.constindex] of every interned string (a hint shared by all the
    functions being compiled; 0 in a string that has none yet). *)
Record LexState := mkLexState {
  ls_t : Token;
  ls_lookahead : Token;
  ls_fs : list FuncState;
  ls_linenumber : Z;
  ls_lastline : Z;
  ls_source : TString;
  ls_z : list LexItem;
  ls_constindex : gmap string Z
}.

(** ** Errors and the parser monad *)

(** The error reporters never return.  Each constructor is one of them with
    what it was given: [luaK_error ls msg], [luaX_syntaxerror ls msg near],
    [error_expected ls token], the long form of [check_match],
    [luaX_checklimit] beyond its limit, [luaD_error] of the allocator;
    [E_null] is the use of a null pointer and [E_assert] a [lua_assert]
    that fails where assertions are compiled in. *)
Inductive Error :=
| E_error (msg : string)
| E_syntaxerror (msg : string) (near : TString)
| E_expected (token : Z)
| E_expected_to_close (what who where_ : Z)
| E_limit (msg : string) (limit : Z)
| E_mem (msg : string)
| E_null
| E_assert.

Inductive Res (A : Type) :=
| Ok (a : A)
| Err (e : Error)
| Timeout.
Arguments Ok {A} a.
Arguments Err {A} e.
Arguments Timeout {A}.

(** A parser action: a transformer of the lexical state that returns a
    value, raises an error, or runs out of the fuel its loops were given. *)
Definition P (A : Type) : Type := LexState -> Res (A * LexState).

Definition Res_bind {A B} (g : A -> Res B) (m : Res A) : Res B :=
  match m with
  | Ok a => g a
  | Err e => Err e
  | Timeout => Timeout
  end.
Global Instance Res_mbind : MBind Res := @Res_bind.
Global Instance Res_mret : MRet Res := @Ok.

Definition ret {A} (a : A) : P A := fun ls => Ok (a, ls).

Definition bind {A B} (g : A -> P B) (m : P A) : P B :=
  fun ls =>
    match m ls with
    | Ok (a, ls') => g a ls'
    | Err e => Err e
    | Timeout => Timeout
    end.
Global Instance P_mbind : MBind P := @bind.
Global Instance P_mret : MRet P := @ret.

Definition throw {A} (e : Error) : P A := fun _ => Err e.
Definition timeout {A} : P A := fun _ => Timeout.
Definition get : P LexState := fun ls => Ok (ls, ls).
Definition put (ls : LexState) : P unit := fun _ => Ok (tt, ls).

(** ** Field updates *)

Definition set_f_code (f : Proto) (x : gmap Z Instruction) : Proto :=
  mkProto x (f_sizecode f) (f_kstr f) (f_sizekstr f) (f_knum f) (f_sizeknum f)
    (f_kproto f) (f_sizekproto f) (f_locvars f) (f_sizelocvars f)
    (f_lineinfo f) (f_sizelineinfo f) (f_nupvalues f) (f_numparams f)
    (f_is_vararg f) (f_maxstacksize f) (f_source f) (f_lineDefined f).
Definition set_f_sizecode (f : Proto) (x : Z) : Proto :=
  mkProto (f_code f) x (f_kstr f) (f_sizekstr f) (f_knum f) (f_sizeknum f)
    (f_kproto f) (f_sizekproto f) (f_locvars f) (f_sizelocvars f)
    (f_lineinfo f) (f_sizelineinfo f) (f_nupvalues f) (f_numparams f)
    (f_is_vararg f) (f_maxstacksize f) (f_source f) (f_lineDefined f).
Definition set_f_kstr (f : Proto) (x : gmap Z TString) : Proto :=
  mkProto (f_code f) (f_sizecode f) x (f_sizekstr f) (f_knum f) (f_sizeknum f)
    (f_kproto f) (f_sizekproto f) (f_locvars f) (f_sizelocvars f)
    (f_lineinfo f) (f_sizelineinfo f) (f_nupvalues f) (f_numparams f)
    (f_is_vararg f) (f_maxstacksize f) (f_source f) (f_lineDefined f).
Definition set_f_sizekstr (f : Proto) (x : Z) : Proto :=
  mkProto (f_code f) (f_sizecode f) (f_kstr f) x (f_knum f) (f_sizeknum f)
    (f_kproto f) (f_sizekproto f) (f_locvars f) (f_sizelocvars f)
    (f_lineinfo f) (f_sizelineinfo f) (f_nupvalues f) (f_numparams f)
    (f_is_vararg f) (f_maxstacksize f) (f_source f) (f_lineDefined f).
Definition set_f_knum (f : Proto) (x : gmap Z lua_Number) : Proto :=
  mkProto (f_code f) (f_sizecode f) (f_kstr f) (f_sizekstr f) x (f_sizeknum f)
    (f_kproto f) (f_sizekproto f) (f_locvars f) (f_sizelocvars f)
    (f_lineinfo f) (f_sizelineinfo f) (f_nupvalues f) (f_numparams f)
    (f_is_vararg f) (f_maxstacksize f) (f_source f) (f_lineDefined f).
Definition set_f_sizeknum (f : Proto) (x : Z) : Proto :=
  mkProto (f_code f) (f_sizecode f) (f_kstr f) (f_sizekstr f) (f_knum f) x
    (f_kproto f) (f_sizekproto f) (f_locvars f) (f_sizelocvars f)
    (f_lineinfo f) (f_sizelineinfo f) (f_nupvalues f) (f_numparams f)
    (f_is_vararg f) (f_maxstacksize f) (f_source f) (f_lineDefined f).
Definition set_f_kproto (f : Proto) (x : gmap Z Proto) : Proto :=
  mkProto (f_code f) (f_sizecode f) (f_kstr f) (f_sizekstr f) (f_knum f)
    (f_sizeknum f) x (f_sizekproto f) (f_locvars f) (f_sizelocvars f)
    (f_lineinfo f) (f_sizelineinfo f) (f_nupvalues f) (f_numparams f)
    (f_is_vararg f) (f_maxstacksize f) (f_source f) (f_lineDefined f).
Definition set_f_sizekproto (f : Proto) (x : Z) : Proto :=
  mkProto (f_code f) (f_sizecode f) (f_kstr f) (f_sizekstr f) (f_knum f)
    (f_sizeknum f) (f_kproto f) x (f_locvars f) (f_sizelocvars f)
    (f_lineinfo f) (f_sizelineinfo f) (f_nupvalues f) (f_numparams f)
    (f_is_vararg f) (f_maxstacksize f) (f_source f) (f_lineDefined f).
Definition set_f_locvars (f : Proto) (x : gmap Z LocVar) : Proto :=
  mkProto (f_code f) (f_sizecode f) (f_kstr f) (f_sizekstr f) (f_knum f)
    (f_sizeknum f) (f_kproto f) (f_sizekproto f) x (f_sizelocvars f)
    (f_lineinfo f) (f_sizelineinfo f) (f_nupvalues f) (f_numparams f)
    (f_is_vararg f) (f_maxstacksize f) (f_source f) (f_lineDefined f).
Definition set_f_sizelocvars (f : Proto) (x : Z) : Proto :=
  mkProto (f_code f) (f_sizecode f) (f_kstr f) (f_sizekstr f) (f_knum f)
    (f_sizeknum f) (f_kproto f) (f_sizekproto f) (f_locvars f) x
    (f_lineinfo f) (f_sizelineinfo f) (f_nupvalues f) (f_numparams f)
    (f_is_vararg f) (f_maxstacksize f) (f_source f) (f_lineDefined f).
Definition set_f_lineinfo (f : Proto) (x : gmap Z Z) : Proto :=
  mkProto (f_code f) (f_sizecode f) (f_kstr f) (f_sizekstr f) (f_knum f)
    (f_sizeknum f) (f_kproto f) (f_sizekproto f) (f_locvars f)
    (f_sizelocvars f) x (f_sizelineinfo f) (f_nupvalues f) (f_numparams f)
    (f_is_vararg f) (f_maxstacksize f) (f_source f) (f_lineDefined f).
Definition set_f_sizelineinfo (f : Proto) (x : Z) : Proto :=
  mkProto (f_code f) (f_sizecode f) (f_kstr f) (f_sizekstr f) (f_knum f)
    (f_sizeknum f) (f_kproto f) (f_sizekproto f) (f_locvars f)
    (f_sizelocvars f) (f_lineinfo f) x (f_nupvalues f) (f_numparams f)
    (f_is_vararg f) (f_maxstacksize f) (f_source f) (f_lineDefined f).
Definition set_f_nupvalues (f : Proto) (x : Z) : Proto :=
  mkProto (f_code f) (f_sizecode f) (f_kstr f) (f_sizekstr f) (f_knum f)
    (f_sizeknum f) (f_kproto f) (f_sizekproto f) (f_locvars f)
    (f_sizelocvars f) (f_lineinfo f) (f_sizelineinfo f) x (f_numparams f)
    (f_is_vararg f) (f_maxstacksize f) (f_source f) (f_lineDefined f).
Definition set_f_numparams (f : Proto) (x : Z) : Proto :=
  mkProto (f_code f) (f_sizecode f) (f_kstr f) (f_sizekstr f) (f_knum f)
    (f_sizeknum f) (f_kproto f) (f_sizekproto f) (f_locvars f)
    (f_sizelocvars f) (f_lineinfo f) (f_sizelineinfo f) (f_nupvalues f) x
    (f_is_vararg f) (f_maxstacksize f) (f_source f) (f_lineDefined f).
Definition set_f_is_vararg (f : Proto) (x : Z) : Proto :=
  mkProto (f_code f) (f_sizecode f) (f_kstr f) (f_sizekstr f) (f_knum f)
    (f_sizeknum f) (f_kproto f) (f_sizekproto f) (f_locvars f)
    (f_sizelocvars f) (f_lineinfo f) (f_sizelineinfo f) (f_nupvalues f)
    (f_numparams f) x (f_maxstacksize f) (f_source f) (f_lineDefined f).
Definition set_f_maxstacksize (f : Proto) (x : Z) : Proto :=
  mkProto (f_code f) (f_sizecode f) (f_kstr f) (f_sizekstr f) (f_knum f)
    (f_sizeknum f) (f_kproto f) (f_sizekproto f) (f_locvars f)
    (f_sizelocvars f) (f_lineinfo f) (f_sizelineinfo f) (f_nupvalues f)
    (f_numparams f) (f_is_vararg f) x (f_source f) (f_lineDefined f).
Definition set_f_source (f : Proto) (x : TString) : Proto :=
  mkProto (f_code f) (f_sizecode f) (f_kstr f) (f_sizekstr f) (f_knum f)
    (f_sizeknum f) (f_kproto f) (f_sizekproto f) (f_locvars f)
    (f_sizelocvars f) (f_lineinfo f) (f_sizelineinfo f) (f_nupvalues f)
    (f_numparams f) (f_is_vararg f) (f_maxstacksize f) x (f_lineDefined f).
Definition set_f_lineDefined (f : Proto) (x : Z) : Proto :=
  mkProto (f_code f) (f_sizecode f) (f_kstr f) (f_sizekstr f) (f_knum f)
    (f_sizeknum f) (f_kproto f) (f_sizekproto f) (f_locvars f)
    (f_sizelocvars f) (f_lineinfo f) (f_sizelineinfo f) (f_nupvalues f)
    (f_numparams f) (f_is_vararg f) (f_maxstacksize f) (f_source f) x.

Definition set_fs_f (fs : FuncState) (x : Proto) : FuncState :=
  mkFuncState x (fs_pc fs) (fs_lasttarget fs) (fs_jlt fs) (fs_stacklevel fs)
    (fs_nactloc fs) (fs_lastline fs) (fs_nlineinfo fs) (fs_nkstr fs)
    (fs_nknum fs) (fs_nkproto fs) (fs_nlocvars fs) (fs_bl fs)
    (fs_upvalues fs) (fs_actloc fs).
Definition set_fs_pc (fs : FuncState) (x : Z) : FuncState :=
  mkFuncState (fs_f fs) x (fs_lasttarget fs) (fs_jlt fs) (fs_stacklevel fs)
    (fs_nactloc fs) (fs_lastline fs) (fs_nlineinfo fs) (fs_nkstr fs)
    (fs_nknum fs) (fs_nkproto fs) (fs_nlocvars fs) (fs_bl fs)
    (fs_upvalues fs) (fs_actloc fs).
Definition set_fs_lasttarget (fs : FuncState) (x : Z) : FuncState :=
  mkFuncState (fs_f fs) (fs_pc fs) x (fs_jlt fs) (fs_stacklevel fs)
    (fs_nactloc fs) (fs_lastline fs) (fs_nlineinfo fs) (fs_nkstr fs)
    (fs_nknum fs) (fs_nkproto fs) (fs_nlocvars fs) (fs_bl fs)
    (fs_upvalues fs) (fs_actloc fs).
Definition set_fs_jlt (fs : FuncState) (x : Z) : FuncState :=
  mkFuncState (fs_f fs) (fs_pc fs) (fs_lasttarget fs) x (fs_stacklevel fs)
    (fs_nactloc fs) (fs_lastline fs) (fs_nlineinfo fs) (fs_nkstr fs)
    (fs_nknum fs) (fs_nkproto fs) (fs_nlocvars fs) (fs_bl fs)
    (fs_upvalues fs) (fs_actloc fs).
Definition set_fs_stacklevel (fs : FuncState) (x : Z) : FuncState :=
  mkFuncState (fs_f fs) (fs_pc fs) (fs_lasttarget fs) (fs_jlt fs) x
    (fs_nactloc fs) (fs_lastline fs) (fs_nlineinfo fs) (fs_nkstr fs)
    (fs_nknum fs) (fs_nkproto fs) (fs_nlocvars fs) (fs_bl fs)
    (fs_upvalues fs) (fs_actloc fs).
Definition set_fs_nactloc (fs : FuncState) (x : Z) : FuncState :=
  mkFuncState (fs_f fs) (fs_pc fs) (fs_lasttarget fs) (fs_jlt fs)
    (fs_stacklevel fs) x (fs_lastline fs) (fs_nlineinfo fs) (fs_nkstr fs)
    (fs_nknum fs) (fs_nkproto fs) (fs_nlocvars fs) (fs_bl fs)
    (fs_upvalues fs) (fs_actloc fs).
Definition set_fs_nlineinfo (fs : FuncState) (x : Z) : FuncState :=
  mkFuncState (fs_f fs) (fs_pc fs) (fs_lasttarget fs) (fs_jlt fs)
    (fs_stacklevel fs) (fs_nactloc fs) (fs_lastline fs) x (fs_nkstr fs)
    (fs_nknum fs) (fs_nkproto fs) (fs_nlocvars fs) (fs_bl fs)
    (fs_upvalues fs) (fs_actloc fs).
Definition set_fs_nkstr (fs : FuncState) (x : Z) : FuncState :=
  mkFuncState (fs_f fs) (fs_pc fs) (fs_lasttarget fs) (fs_jlt fs)
    (fs_stacklevel fs) (fs_nactloc fs) (fs_lastline fs) (fs_nlineinfo fs) x
    (fs_nknum fs) (fs_nkproto fs) (fs_nlocvars fs) (fs_bl fs)
    (fs_upvalues fs) (fs_actloc fs).
Definition set_fs_nknum (fs : FuncState) (x : Z) : FuncState :=
  mkFuncState (fs_f fs) (fs_pc fs) (fs_lasttarget fs) (fs_jlt fs)
    (fs_stacklevel fs) (fs_nactloc fs) (fs_lastline fs) (fs_nlineinfo fs)
    (fs_nkstr fs) x (fs_nkproto fs) (fs_nlocvars fs) (fs_bl fs)
    (fs_upvalues fs) (fs_actloc fs).
Definition set_fs_nkproto (fs : FuncState) (x : Z) : FuncState :=
  mkFuncState (fs_f fs) (fs_pc fs) (fs_lasttarget fs) (fs_jlt fs)
    (fs_stacklevel fs) (fs_nactloc fs) (fs_lastline fs) (fs_nlineinfo fs)
    (fs_nkstr fs) (fs_nknum fs) x (fs_nlocvars fs) (fs_bl fs)
    (fs_upvalues fs) (fs_actloc fs).
Definition set_fs_nlocvars (fs : FuncState) (x : Z) : FuncState :=
  mkFuncState (fs_f fs) (fs_pc fs) (fs_lasttarget fs) (fs_jlt fs)
    (fs_stacklevel fs) (fs_nactloc fs) (fs_lastline fs) (fs_nlineinfo fs)
    (fs_nkstr fs) (fs_nknum fs) (fs_nkproto fs) x (fs_bl fs)
    (fs_upvalues fs) (fs_actloc fs).
Definition set_fs_bl (fs : FuncState) (x : list Breaklabel) : FuncState :=
  mkFuncState (fs_f fs) (fs_pc fs) (fs_lasttarget fs) (fs_jlt fs)
    (fs_stacklevel fs) (fs_nactloc fs) (fs_lastline fs) (fs_nlineinfo fs)
    (fs_nkstr fs) (fs_nknum fs) (fs_nkproto fs) (fs_nlocvars fs) x
    (fs_upvalues fs) (fs_actloc fs).
Definition set_fs_upvalues (fs : FuncState) (x : gmap Z expdesc) : FuncState :=
  mkFuncState (fs_f fs) (fs_pc fs) (fs_lasttarget fs) (fs_jlt fs)
    (fs_stacklevel fs) (fs_nactloc fs) (fs_lastline fs) (fs_nlineinfo fs)
    (fs_nkstr fs) (fs_nknum fs) (fs_nkproto fs) (fs_nlocvars fs) (fs_bl fs)
    x (fs_actloc fs).
Definition set_fs_actloc (fs : FuncState) (x : gmap Z Z) : FuncState :=
  mkFuncState (fs_f fs) (fs_pc fs) (fs_lasttarget fs) (fs_jlt fs)
    (fs_stacklevel fs) (fs_nactloc fs) (fs_lastline fs) (fs_nlineinfo fs)
    (fs_nkstr fs) (fs_nknum fs) (fs_nkproto fs) (fs_nlocvars fs) (fs_bl fs)
    (fs_upvalues fs) x.

Definition set_ls_t (ls : LexState) (x : Token) : LexState :=
  mkLexState x (ls_lookahead ls) (ls_fs ls) (ls_linenumber ls)
    (ls_lastline ls) (ls_source ls) (ls_z ls) (ls_constindex ls).
Definition set_ls_lookahead (ls : LexState) (x : Token) : LexState :=
  mkLexState (ls_t ls) x (ls_fs ls) (ls_linenumber ls)
    (ls_lastline ls) (ls_source ls) (ls_z ls) (ls_constindex ls).
Definition set_ls_fs (ls : LexState) (x : list FuncState) : LexState :=
  mkLexState (ls_t ls) (ls_lookahead ls) x (ls_linenumber ls)
    (ls_lastline ls) (ls_source ls) (ls_z ls) (ls_constindex ls).
Definition set_ls_linenumber (ls : LexState) (x : Z) : LexState :=
  mkLexState (ls_t ls) (ls_lookahead ls) (ls_fs ls) x
    (ls_lastline ls) (ls_source ls) (ls_z ls) (ls_constindex ls).
Definition set_ls_lastline (ls : LexState) (x : Z) : LexState :=
  mkLexState (ls_t ls) (ls_lookahead ls) (ls_fs ls) (ls_linenumber ls)
    x (ls_source ls) (ls_z ls) (ls_constindex ls).
Definition set_ls_z (ls : LexState) (x : list LexItem) : LexState :=
  mkLexState (ls_t ls) (ls_lookahead ls) (ls_fs ls) (ls_linenumber ls)
    (ls_lastline ls) (ls_source ls) x (ls_constindex ls).
Definition set_ls_constindex (ls : LexState) (x : gmap string Z) : LexState :=
  mkLexState (ls_t ls) (ls_lookahead ls) (ls_fs ls) (ls_linenumber ls)
    (ls_lastline ls) (ls_source ls) (ls_z ls) x.

(** ** External collaborators *)

(** The constants of llimits.h, lopcodes.h and lcode.h the parser names;
    these headers are not among the sources, so the parser is parametric
    in them. *)
Class Config := {
  MAXARG_U : Z;
  MAXARG_A : Z;
  MAX_INT : Z;
  MAXLOCALS : Z;
  MAXUPVALUES : Z;
  MAXPARAMS : Z;
  MAXVARSLH : Z;
  LFIELDS_PER_FLUSH : Z;
  RFIELDS_PER_FLUSH : Z;
  MULT_RET : Z;
  NO_JUMP : Z;
  LUA_COMPAT_ARGRET : bool
}.

(** The bytecode writer (lcode.c), which is not among the sources: the
    [luaK_*] functions the parser calls.  Each works on the function being
    compiled and may read the lexical state (line numbers); an [expdesc]
    passed by pointer is returned updated, and so is the list head that
    [luaK_concat] receives by pointer. *)
Class Emitter := {
  luaK_code1 : LexState -> FuncState -> OpCode -> Z -> Res (Z * FuncState);
  luaK_code2 :
    LexState -> FuncState -> OpCode -> Z -> Z -> Res (Z * FuncState);
  luaK_kstr : LexState -> FuncState -> Z -> Res (unit * FuncState);
  luaK_number :
    LexState -> FuncState -> lua_Number -> Res (unit * FuncState);
  luaK_adjuststack : LexState -> FuncState -> Z -> Res (unit * FuncState);
  luaK_deltastack : LexState -> FuncState -> Z -> Res (unit * FuncState);
  luaK_lastisopen : FuncState -> bool;
  luaK_setcallreturns :
    LexState -> FuncState -> Z -> Res (unit * FuncState);
  luaK_tostack :
    LexState -> FuncState -> expdesc -> Z -> Res (expdesc * FuncState);
  luaK_storevar :
    LexState -> FuncState -> expdesc -> Res (unit * FuncState);
  luaK_getlabel : LexState -> FuncState -> Res (Z * FuncState);
  luaK_jump : LexState -> FuncState -> Res (Z * FuncState);
  luaK_patchlist :
    LexState -> FuncState -> Z -> Z -> Res (unit * FuncState);
  luaK_concat : LexState -> FuncState -> Z -> Z -> Res (Z * FuncState);
  luaK_goiftrue :
    LexState -> FuncState -> expdesc -> Z -> Res (expdesc * FuncState);
  luaK_prefix :
    LexState -> FuncState -> UnOpr -> expdesc -> Res (expdesc * FuncState);
  luaK_infix :
    LexState -> FuncState -> BinOpr -> expdesc -> Res (expdesc * FuncState);
  luaK_posfix :
    LexState -> FuncState -> BinOpr -> expdesc -> expdesc ->
    Res (expdesc * FuncState);
  luaK_fixfor : LexState -> FuncState -> Z -> Z -> Res (unit * FuncState)
}.

(** Modelled from the spec: llex.c is not among the sources;
    [luaX_checklimit] raises the size-limit error that names the resource
    when the value exceeds the limit (5, resource caps; 8, boundary
    behaviors: at the limit ok, one above an error). *)
Definition luaX_checklimit (val limit : Z) (msg : string) : P unit :=
  if val >? limit then throw (E_limit msg limit) else mret tt.

(** Modelled from the spec: llex.c and lcode.c are not among the sources;
    the error reporters receive a message and never return (6, error
    reporter). *)
Definition luaX_syntaxerror {A} (msg : string) (near : TString) : P A :=
  throw (E_syntaxerror msg near).
Definition luaK_error {A} (msg : string) : P A := throw (E_error msg).

(** Modelled from the spec: lmem.c is not among the sources; a vector
    doubles on demand (4.3, growth discipline) from a minimum size, up to
    its limit, beyond which the allocator raises the given error.  The
    result is the new allocated size. *)
Definition MINPOWER2 : Z := 4.
Definition luaM_growaux (size limit : Z) (errormsg : string) : Res Z :=
  let newsize := size * 2 in
  if newsize <? MINPOWER2 then Ok MINPOWER2
  else if size >=? Z.quot limit 2 then
    if size <? limit - MINPOWER2 then Ok limit else Err (E_mem errormsg)
  else Ok newsize.
Definition luaM_growvector (nelems size limit : Z) (e : string) : Res Z :=
  if nelems + 1 >? size then luaM_growaux size limit e else Ok size.

(** Modelled from the spec: llex.c is not among the sources; [luaX_lex]
    returns the next token of the input and [TK_EOS] at its end, storing
    the token's payload through the pointer it is given, and advances
    [linenumber]. *)
Definition luaX_lex (ls : LexState) (seminfo : SemInfo) : Token * LexState :=
  match ls_z ls with
  | [] => (mkToken TK_EOS seminfo, ls)
  | it :: z => (lx_token it, set_ls_linenumber (set_ls_z ls z) (lx_line it))
  end.

(** Modelled from the spec: lfunc.c is not among the sources;
    [luaF_newproto] allocates a fresh prototype with empty vectors and
    every counter zero (4.3, open_func). *)
Definition luaF_newproto : Proto :=
  mkProto ∅ 0 ∅ 0 ∅ 0 ∅ 0 ∅ 0 ∅ 0 0 0 0 0 ""%string 0.

(** ** The parser: lexer driver *)

Definition next : P unit := fun ls =>
  let ls := set_ls_lastline ls (ls_linenumber ls) in
  if negb (tk_token (ls_lookahead ls) =? TK_EOS) then
    let ls := set_ls_t ls (ls_lookahead ls) in
    Ok (tt, set_ls_lookahead ls
              (mkToken TK_EOS (tk_seminfo (ls_lookahead ls))))
  else
    let '(tok, ls) := luaX_lex ls (tk_seminfo (ls_t ls)) in
    Ok (tt, set_ls_t ls tok).

Definition lookahead : P unit := fun ls =>
  let '(tok, ls) := luaX_lex ls (tk_seminfo (ls_lookahead ls)) in
  Ok (tt, set_ls_lookahead ls tok).

Definition error_expected {A} (token : Z) : P A := throw (E_expected token).

Definition check (c : Z) : P unit :=
  ls ← get;
  (if negb (tk_token (ls_t ls) =? c) then error_expected c else mret tt);;
  next.

Definition check_condition (c : bool) (msg : string) : P unit :=
  if negb c then luaK_error msg else mret tt.

(** [lua_assert(c)] of a build that compiles assertions in. *)
Definition lua_assert (c : bool) : P unit :=
  if c then mret tt else throw E_assert.

Definition optional (c : Z) : P Z :=
  ls ← get;
  if tk_token (ls_t ls) =? c then next;; mret 1 else mret 0.

Definition check_match (what who where_ : Z) : P unit :=
  ls ← get;
  (if negb (tk_token (ls_t ls) =? what) then
     if where_ =? ls_linenumber ls then error_expected what
     else throw (E_expected_to_close what who where_)
   else mret tt);;
  next.

(** The current token and the function being compiled, [ls->fs]. *)
Definition token : P Z := fun ls => Ok (tk_token (ls_t ls), ls).

Definition getfs : P FuncState := fun ls =>
  match ls_fs ls with
  | fs :: _ => Ok (fs, ls)
  | [] => Err E_null
  end.

Definition putfs (fs : FuncState) : P unit := fun ls =>
  match ls_fs ls with
  | _ :: prev => Ok (tt, set_ls_fs ls (fs :: prev))
  | [] => Err E_null
  end.

(** A call of the bytecode writer on the function being compiled. *)
Definition emit {A} (op : LexState -> FuncState -> Res (A * FuncState))
  : P A := fun ls =>
  match ls_fs ls with
  | fs :: prev =>
      match op ls fs with
      | Ok (a, fs') => Ok (a, set_ls_fs ls (fs' :: prev))
      | Err e => Err e
      | Timeout => Timeout
      end
  | [] => Err E_null
  end.

Section Parser.
Context {cfg : Config} {emt : Emitter}.

(** ** Constants and local variables *)

(** [string_constant fs s], on the function state [fs] and the hints
    [constindex] of the interned strings.  An index outside the vector
    holds no string, so a hint that points there finds no match. *)
Definition string_constant (fs : FuncState) (s : TString)
    (constindex : gmap string Z) : Res (Z * FuncState * gmap string Z) :=
  let f := fs_f fs in
  let c := default 0 (constindex !! s) in
  if (c >=? fs_nkstr fs) || negb (bool_decide (f_kstr f !! c = Some s)) then
    size ← luaM_growvector (fs_nkstr fs) (f_sizekstr f) MAXARG_U
           "constant table overflow";
    let c := fs_nkstr fs in
    let f := set_f_kstr (set_f_sizekstr f size) (<[c := s]> (f_kstr f)) in
    Ok (c, set_fs_f (set_fs_nkstr fs (c + 1)) f, <[s := c]> constindex)
  else Ok (c, fs, constindex).

(** [string_constant(ls->fs, s)] *)
Definition string_constant_fs (s : TString) : P Z := fun ls =>
  match ls_fs ls with
  | fs :: prev =>
      '(c, fs', ci) ← string_constant fs s (ls_constindex ls);
      Ok (c, set_ls_constindex (set_ls_fs ls (fs' :: prev)) ci)
  | [] => Err E_null
  end.

(** [string_constant(fs->prev, s)], for [fs = ls->fs] with a non-null
    [prev] *)
Definition string_constant_prev (s : TString) : P Z := fun ls =>
  match ls_fs ls with
  | fs :: pfs :: prev =>
      '(c, pfs', ci) ← string_constant pfs s (ls_constindex ls);
      Ok (c, set_ls_constindex (set_ls_fs ls (fs :: pfs' :: prev)) ci)
  | _ => Err E_null
  end.

Definition code_string (s : TString) : P unit :=
  c ← string_constant_fs s;
  emit (fun ls fs => luaK_kstr ls fs c).

Definition str_checkname : P TString :=
  ls ← get;
  check_condition (tk_token (ls_t ls) =? TK_NAME) "<name> expected";;
  let ts := si_ts (tk_seminfo (ls_t ls)) in
  next;;
  mret ts.

Definition checkname : P Z :=
  s ← str_checkname;
  string_constant_fs s.

Definition luaI_registerlocalvar (varname_ : TString) : P Z :=
  fs ← getfs;
  let f := fs_f fs in
  size ← (fun ls =>
            size ← luaM_growvector (fs_nlocvars fs) (f_sizelocvars f)
                   MAX_INT "";
            Ok (size, ls));
  let n := fs_nlocvars fs in
  let old := default (mkLocVar ""%string 0 0) (f_locvars f !! n) in
  let lv := mkLocVar varname_ (startpc old) (endpc old) in
  let f := set_f_locvars (set_f_sizelocvars f size) (<[n := lv]> (f_locvars f)) in
  putfs (set_fs_f (set_fs_nlocvars fs (n + 1)) f);;
  mret n.

Definition new_localvar (name : TString) (n : Z) : P unit :=
  fs ← getfs;
  luaX_checklimit (fs_nactloc fs + n + 1) MAXLOCALS "local variables";;
  reg ← luaI_registerlocalvar name;
  fs ← getfs;
  putfs (set_fs_actloc fs (<[fs_nactloc fs + n := reg]> (fs_actloc fs))).

(** [locvars[actloc[i]]] updated by [g]; nothing is written when the slot
    or the record it names was never filled. *)
Definition alter_locvar (g : LocVar -> LocVar) (i : Z) (fs : FuncState)
  : FuncState :=
  match fs_actloc fs !! i with
  | Some a => set_fs_f fs (set_f_locvars (fs_f fs) (alter g a (f_locvars (fs_f fs))))
  | None => fs
  end.

(** One turn of the loop of [adjustlocalvars]:
    [locvars[actloc[nactloc++]].startpc = pc]. *)
Definition adjustlocalvars_step (fs : FuncState) : FuncState :=
  let i := fs_nactloc fs in
  let fs := set_fs_nactloc fs (i + 1) in
  alter_locvar (fun lv => mkLocVar (varname lv) (fs_pc fs) (endpc lv)) i fs.

Definition adjustlocalvars (nvars : Z) : P unit :=
  fs ← getfs;
  putfs (Nat.iter (Z.to_nat nvars) adjustlocalvars_step fs).

(** One turn of the loop of [removelocalvars]:
    [locvars[actloc[--nactloc]].endpc = pc]. *)
Definition removelocalvars_step (fs : FuncState) : FuncState :=
  let i := fs_nactloc fs - 1 in
  let fs := set_fs_nactloc fs i in
  alter_locvar (fun lv => mkLocVar (varname lv) (startpc lv) (fs_pc fs)) i fs.

Definition removelocalvars (nvars : Z) : P unit :=
  fs ← getfs;
  putfs (Nat.iter (Z.to_nat nvars) removelocalvars_step fs).

(** [luaS_new] interns its argument: the string itself. *)
Definition new_localvarstr (name : string) (n : Z) : P unit :=
  new_localvar name n.

(** ** Name resolution *)

(** The name of the active local in slot [i]:
    [fs->f->locvars[fs->actloc[i]].varname]. *)
Definition actloc_name (fs : FuncState) (i : Z) : option TString :=
  a ← fs_actloc fs !! i;
  lv ← f_locvars (fs_f fs) !! a;
  Some (varname lv).

(** The inner loop of [search_local], [for (i=fs->nactloc-1; i >= 0; i--)],
    with [i + 1] slots still to visit. *)
Fixpoint search_actloc (fs : FuncState) (n : TString) (i : nat) : option Z :=
  match i with
  | O => None
  | S i' =>
      if bool_decide (actloc_name fs (Z.of_nat i') = Some n)
      then Some (Z.of_nat i')
      else search_actloc fs n i'
  end.

(** The outer loop of [search_local], [for (fs=ls->fs; fs; fs=fs->prev)]. *)
Fixpoint search_chain (chain : list FuncState) (n : TString) (var : expdesc)
    (level : Z) : Z * expdesc :=
  match chain with
  | [] => (-1, set_k var VGLOBAL)
  | fs :: prev =>
      match search_actloc fs n (Z.to_nat (fs_nactloc fs)) with
      | Some i => (level, set_u_index (set_k var VLOCAL) i)
      | None => search_chain prev n var (level + 1)
      end
  end.

Definition search_local (ls : LexState) (n : TString) (var : expdesc)
  : Z * expdesc :=
  search_chain (ls_fs ls) n var 0.

Definition singlevar (n : TString) (var : expdesc) : P expdesc :=
  ls ← get;
  let '(level, var) := search_local ls n var in
  if level >=? 1 then
    luaX_syntaxerror "cannot access a variable in outer function" n
  else if level =? -1 then
    c ← string_constant_fs n;
    mret (set_u_index var c)
  else mret var.

(** The loop of [indexupvalue] from index [i], with [count] entries still
    to compare. *)
Fixpoint indexupvalue_loop (fs : FuncState) (v : expdesc) (i : Z)
    (count : nat) : option Z :=
  match count with
  | O => None
  | S count' =>
      match fs_upvalues fs !! i with
      | Some u =>
          if bool_decide (k u = k v) && (u_index u =? u_index v)
          then Some i
          else indexupvalue_loop fs v (i + 1) count'
      | None => indexupvalue_loop fs v (i + 1) count'
      end
  end.

Definition indexupvalue (v : expdesc) : P Z :=
  fs ← getfs;
  let n := f_nupvalues (fs_f fs) in
  match indexupvalue_loop fs v 0 (Z.to_nat n) with
  | Some i => mret i
  | None =>
      luaX_checklimit (n + 1) MAXUPVALUES "upvalues";;
      putfs (set_fs_f (set_fs_upvalues fs (<[n := v]> (fs_upvalues fs)))
               (set_f_nupvalues (fs_f fs) (n + 1)));;
      mret n
  end.

Definition pushupvalue (n : TString) : P unit :=
  ls ← get;
  let '(level, v) := search_local ls n expdesc_auto in
  v ← (if level =? -1 then
         (match ls_fs ls with
          | [] => throw E_null
          | [_] => luaX_syntaxerror "cannot access an upvalue at top level" n
          | _ :: _ :: _ => mret tt
          end);;
         c ← string_constant_prev n;
         mret (set_u_index v c)
       else if negb (level =? 1) then
         luaX_syntaxerror
           "upvalue must be global or local to immediately outer function" n
       else mret v);
  i ← indexupvalue v;
  emit (fun ls fs => luaK_code1 ls fs OP_PUSHUPVALUE i);;
  mret tt.

Definition adjust_mult_assign (nvars nexps : Z) : P unit :=
  fs ← getfs;
  let diff := nexps - nvars in
  diff ← (if (nexps >? 0) && luaK_lastisopen fs then
            let diff := diff - 1 in
            if diff <=? 0 then
              emit (fun ls fs => luaK_setcallreturns ls fs (- diff));;
              mret 0
            else
              emit (fun ls fs => luaK_setcallreturns ls fs 0);;
              mret diff
          else mret diff);
  emit (fun ls fs => luaK_adjuststack ls fs diff).

Definition cast_short (x : Z) : Z := (x + 2 ^ 15) mod 2 ^ 16 - 2 ^ 15.

Definition code_params (nparams : Z) (dots : Z) : P unit :=
  adjustlocalvars nparams;;
  fs ← getfs;
  luaX_checklimit (fs_nactloc fs) MAXPARAMS "parameters";;
  putfs (set_fs_f fs
           (set_f_is_vararg
              (set_f_numparams (fs_f fs) (cast_short (fs_nactloc fs)))
              dots));;
  (if negb (dots =? 0) then
     new_localvarstr "arg" 0;;
     adjustlocalvars 1
   else mret tt);;
  fs ← getfs;
  emit (fun ls fs' => luaK_deltastack ls fs' (fs_nactloc fs)).

(** ** Break labels and function states *)

Definition enterbreak : P unit :=
  fs ← getfs;
  putfs (set_fs_bl fs (mkBreaklabel NO_JUMP (fs_stacklevel fs) :: fs_bl fs)).

(** [leavebreak(fs, &bl)], where [bl] is the label [enterbreak] pushed:
    the head of the chain. *)
Definition leavebreak : P unit :=
  fs ← getfs;
  match fs_bl fs with
  | bl :: previous =>
      putfs (set_fs_bl fs previous);;
      target ← emit luaK_getlabel;
      emit (fun ls fs => luaK_patchlist ls fs (bl_breaklist bl) target)
  | [] => throw E_null
  end.

(** The loop of [pushclosure] from upvalue [i], [count] upvalues to go. *)
Fixpoint pushclosure_loop (func : FuncState) (i : Z) (count : nat) : P unit :=
  match count with
  | O => mret tt
  | S count' =>
      emit (fun ls fs =>
              luaK_tostack ls fs
                (default expdesc_auto (fs_upvalues func !! i)) 1);;
      pushclosure_loop func (i + 1) count'
  end.

Definition pushclosure (func : FuncState) : P unit :=
  pushclosure_loop func 0 (Z.to_nat (f_nupvalues (fs_f func)));;
  fs ← getfs;
  let f := fs_f fs in
  size ← (fun ls =>
            size ← luaM_growvector (fs_nkproto fs) (f_sizekproto f)
                   MAXARG_A "constant table overflow";
            Ok (size, ls));
  let n := fs_nkproto fs in
  let f := set_f_kproto (set_f_sizekproto f size)
             (<[n := fs_f func]> (f_kproto f)) in
  putfs (set_fs_f (set_fs_nkproto fs (n + 1)) f);;
  emit (fun ls fs =>
          luaK_code2 ls fs OP_CLOSURE (n + 1 - 1) (f_nupvalues (fs_f func)));;
  mret tt.

Definition open_func : P unit := fun ls =>
  let f := set_f_source luaF_newproto (ls_source ls) in
  let f := set_f_code f ∅ in
  let f := set_f_maxstacksize f 0 in
  let f := set_f_numparams f 0 in
  let f := set_f_is_vararg f 0 in
  let fs := mkFuncState f 0 0 NO_JUMP 0 0 0 0 0 0 0 0 [] ∅ ∅ in
  Ok (tt, set_ls_fs ls (fs :: ls_fs ls)).

(** [luaM_reallocvector(L, v, oldn, n, t)]: the vector cut to [n]
    elements. *)
Definition luaM_reallocvector {A} (v : gmap Z A) (n : Z) : gmap Z A :=
  filter (fun kv => kv.1 < n) v.

(** [close_func] returns the function state it closes, which its callers
    hold as a local variable ([funcstate], [new_fs]). *)
Definition close_func : P FuncState :=
  fs ← getfs;
  emit (fun ls fs' => luaK_code1 ls fs' OP_RETURN (fs_nactloc fs));;
  emit luaK_getlabel;;
  fs ← getfs;
  removelocalvars (fs_nactloc fs);;
  fs ← getfs;
  let f := fs_f fs in
  let f := set_f_sizecode
             (set_f_code f (luaM_reallocvector (f_code f) (fs_pc fs)))
             (fs_pc fs) in
  let f := set_f_sizekstr
             (set_f_kstr f (luaM_reallocvector (f_kstr f) (fs_nkstr fs)))
             (fs_nkstr fs) in
  let f := set_f_sizeknum
             (set_f_knum f (luaM_reallocvector (f_knum f) (fs_nknum fs)))
             (fs_nknum fs) in
  let f := set_f_sizekproto
             (set_f_kproto f
                (luaM_reallocvector (f_kproto f) (fs_nkproto fs)))
             (fs_nkproto fs) in
  let f := set_f_sizelocvars
             (set_f_locvars f
                (luaM_reallocvector (f_locvars f) (fs_nlocvars fs)))
             (fs_nlocvars fs) in
  let f := set_f_lineinfo f
             (<[fs_nlineinfo fs := MAX_INT]>
                (luaM_reallocvector (f_lineinfo f) (fs_nlineinfo fs + 1))) in
  let fs := set_fs_nlineinfo fs (fs_nlineinfo fs + 1) in
  let f := set_f_sizelineinfo f (fs_nlineinfo fs) in
  let fs := set_fs_f fs f in
  ls ← get;
  put (set_ls_fs ls (tail (ls_fs ls)));;
  mret fs.

(** ** Grammar rules *)

(** [Constdesc]: [n] is the number of elements, [k] tells a list
    constructor (0) from a record constructor (1) or an empty one (the
    token [;] or [}] that follows it). *)
Record Constdesc := mkConstdesc { cd_n : Z; cd_k : Z }.

Section Grammar.

(** The recursive non-terminals that lparser.c declares ahead of their
    definitions ([body], [chunk], [constructor], [expr]); [fuel] bounds the
    turns of every loop and the depth of the direct recursions. *)
Variable body : Z -> Z -> P unit.
Variable chunk : P unit.
Variable constructor : P unit.
Variable expr : expdesc -> P expdesc.
Variable fuel : nat.

Definition exp1 : P unit :=
  v ← expr expdesc_auto;
  emit (fun ls fs => luaK_tostack ls fs v 1);;
  mret tt.

(** The loop of [explist1]. *)
Fixpoint explist1_loop (turns : nat) (v : expdesc) (n : Z)
  : P (expdesc * Z) :=
  match turns with
  | O => timeout
  | S turns' =>
      tok ← token;
      if tok =? l_c "," then
        next;;
        v ← emit (fun ls fs => luaK_tostack ls fs v 1);
        v ← expr v;
        explist1_loop turns' v (n + 1)
      else mret (v, n)
  end.

Definition explist1 : P Z :=
  v ← expr expdesc_auto;
  '(v, n) ← explist1_loop fuel v 1;
  emit (fun ls fs => luaK_tostack ls fs v 0);;
  mret n.

Definition funcargs (slf : Z) : P unit :=
  fs ← getfs;
  let slevel := fs_stacklevel fs - slf - 1 in
  ls ← get;
  let tok := tk_token (ls_t ls) in
  (if tok =? l_c "(" then
     let line := ls_linenumber ls in
     next;;
     tok ← token;
     nargs ← (if negb (tok =? l_c ")") then explist1 else mret 0);
     check_match (l_c ")") (l_c "(") line;;
     if LUA_COMPAT_ARGRET && (nargs >? 0) then
       emit (fun ls fs => luaK_setcallreturns ls fs 1)
     else mret tt
   else if tok =? l_c "{" then constructor
   else if tok =? TK_STRING then
     code_string (si_ts (tk_seminfo (ls_t ls)));;
     next
   else luaK_error "function arguments expected");;
  fs ← getfs;
  putfs (set_fs_stacklevel fs slevel);;
  emit (fun ls fs => luaK_code2 ls fs OP_CALL slevel MULT_RET);;
  mret tt.

(** *** Constructors *)

Definition recfield : P unit :=
  tok ← token;
  (if tok =? TK_NAME then
     c ← checkname;
     emit (fun ls fs => luaK_kstr ls fs c)
   else if tok =? l_c "[" then
     next;;
     exp1;;
     check (l_c "]")
   else luaK_error "<name> or `[' expected");;
  check (l_c "=");;
  exp1.

(** The loop of [recfields]; its condition reads a comma and then looks
    at the token behind it. *)
Fixpoint recfields_loop (turns : nat) (t n : Z) : P Z :=
  match turns with
  | O => timeout
  | S turns' =>
      tok ← token;
      if tok =? l_c "," then
        next;;
        tok ← token;
        if negb (tok =? l_c ";") && negb (tok =? l_c "}") then
          (if Z.rem n RFIELDS_PER_FLUSH =? 0 then
             emit (fun ls fs => luaK_code1 ls fs OP_SETMAP t);;
             mret tt
           else mret tt);;
          recfield;;
          recfields_loop turns' t (n + 1)
        else mret n
      else mret n
  end.

Definition recfields : P Z :=
  fs ← getfs;
  let t := fs_stacklevel fs - 1 in
  recfield;;
  n ← recfields_loop fuel t 1;
  emit (fun ls fs => luaK_code1 ls fs OP_SETMAP t);;
  mret n.

(** The loop of [listfields]. *)
Fixpoint listfields_loop (turns : nat) (t : Z) (v : expdesc) (n : Z)
  : P (expdesc * Z) :=
  match turns with
  | O => timeout
  | S turns' =>
      tok ← token;
      if tok =? l_c "," then
        next;;
        tok ← token;
        if negb (tok =? l_c ";") && negb (tok =? l_c "}") then
          v ← emit (fun ls fs => luaK_tostack ls fs v 1);
          luaX_checklimit (Z.quot n LFIELDS_PER_FLUSH) MAXARG_A
            "`item groups' in a list initializer";;
          (if Z.rem n LFIELDS_PER_FLUSH =? 0 then
             emit (fun ls fs =>
                     luaK_code2 ls fs OP_SETLIST
                       (Z.quot (n - 1) LFIELDS_PER_FLUSH) t);;
             mret tt
           else mret tt);;
          v ← expr v;
          listfields_loop turns' t v (n + 1)
        else mret (v, n)
      else mret (v, n)
  end.

Definition listfields : P Z :=
  fs ← getfs;
  let t := fs_stacklevel fs - 1 in
  v ← expr expdesc_auto;
  '(v, n) ← listfields_loop fuel t v 1;
  emit (fun ls fs => luaK_tostack ls fs v 0);;
  emit (fun ls fs =>
          luaK_code2 ls fs OP_SETLIST (Z.quot (n - 1) LFIELDS_PER_FLUSH) t);;
  mret n.

Definition constructor_part : P Constdesc :=
  tok ← token;
  if (tok =? l_c ";") || (tok =? l_c "}") then mret (mkConstdesc 0 tok)
  else
    is_rec ← (if tok =? TK_NAME then
                lookahead;;
                ls ← get;
                mret (tk_token (ls_lookahead ls) =? l_c "=")
              else mret (tok =? l_c "["));
    if is_rec : bool then
      n ← recfields;
      mret (mkConstdesc n 1)
    else
      n ← listfields;
      mret (mkConstdesc n 0).

(** [constructor], which is [constructor_def] once the recursion is tied.
    [fs->f->code[pc]] is read and written in the function being compiled;
    a [pc] that holds no instruction is left alone. *)
Definition constructor_def : P unit :=
  ls ← get;
  let line := ls_linenumber ls in
  pc ← emit (fun ls fs => luaK_code1 ls fs OP_CREATETABLE 0);
  check (l_c "{");;
  cd ← constructor_part;
  let nelems := cd_n cd in
  sep ← optional (l_c ";");
  nelems ← (if negb (sep =? 0) then
              other_cd ← constructor_part;
              check_condition (negb (cd_k cd =? cd_k other_cd))
                "invalid constructor syntax";;
              mret (nelems + cd_n other_cd)
            else mret nelems);
  check_match (l_c "}") (l_c "{") line;;
  luaX_checklimit nelems MAXARG_U "elements in a table constructor";;
  fs ← getfs;
  putfs (set_fs_f fs
           (set_f_code (fs_f fs)
              (alter (fun i => SETARG_U i nelems) pc (f_code (fs_f fs))))).

(** *** Expression parsing *)

(** The descriptor of a value that is on the stack:
    [v->k = VEXP; v->u.l.t = v->u.l.f = NO_JUMP]. *)
Definition set_VEXP (v : expdesc) : expdesc :=
  set_u_l (set_k v VEXP) NO_JUMP NO_JUMP.

Definition primaryexp (v : expdesc) : P expdesc :=
  ls ← get;
  let tok := tk_token (ls_t ls) in
  if tok =? TK_NUMBER then
    let r := si_r (tk_seminfo (ls_t ls)) in
    next;;
    emit (fun ls fs => luaK_number ls fs r);;
    mret (set_VEXP v)
  else if tok =? TK_STRING then
    code_string (si_ts (tk_seminfo (ls_t ls)));;
    next;;
    mret (set_VEXP v)
  else if tok =? TK_NIL then
    emit (fun ls fs => luaK_adjuststack ls fs (-1));;
    next;;
    mret (set_VEXP v)
  else if tok =? l_c "{" then
    constructor;;
    mret (set_VEXP v)
  else if tok =? TK_FUNCTION then
    next;;
    ls ← get;
    body 0 (ls_linenumber ls);;
    mret (set_VEXP v)
  else if tok =? l_c "(" then
    next;;
    v ← expr v;
    check (l_c ")");;
    mret v
  else if tok =? TK_NAME then
    n ← str_checkname;
    singlevar n v
  else if tok =? l_c "%" then
    next;;
    n ← str_checkname;
    pushupvalue n;;
    mret (set_VEXP v)
  else luaK_error "unexpected symbol".

(** The loop [for (;;)] of [simpleexp]. *)
Fixpoint simpleexp_loop (turns : nat) (v : expdesc) : P expdesc :=
  match turns with
  | O => timeout
  | S turns' =>
      tok ← token;
      if tok =? l_c "." then
        next;;
        v ← emit (fun ls fs => luaK_tostack ls fs v 1);
        c ← checkname;
        emit (fun ls fs => luaK_kstr ls fs c);;
        simpleexp_loop turns' (set_k v VINDEXED)
      else if tok =? l_c "[" then
        next;;
        v ← emit (fun ls fs => luaK_tostack ls fs v 1);
        let v := set_k v VINDEXED in
        exp1;;
        check (l_c "]");;
        simpleexp_loop turns' v
      else if tok =? l_c ":" then
        next;;
        v ← emit (fun ls fs => luaK_tostack ls fs v 1);
        c ← checkname;
        emit (fun ls fs => luaK_code1 ls fs OP_PUSHSELF c);;
        funcargs 1;;
        simpleexp_loop turns' (set_VEXP v)
      else if (tok =? l_c "(") || (tok =? TK_STRING) || (tok =? l_c "{") then
        v ← emit (fun ls fs => luaK_tostack ls fs v 1);
        funcargs 0;;
        simpleexp_loop turns' (set_VEXP v)
      else mret v
  end.

Definition simpleexp (v : expdesc) : P expdesc :=
  v ← primaryexp v;
  simpleexp_loop fuel v.

Definition getunopr (op : Z) : UnOpr :=
  if op =? TK_NOT then OPR_NOT
  else if op =? l_c "-" then OPR_MINUS
  else OPR_NOUNOPR.

Definition getbinopr (op : Z) : BinOpr :=
  if op =? l_c "+" then OPR_ADD
  else if op =? l_c "-" then OPR_SUB
  else if op =? l_c "*" then OPR_MULT
  else if op =? l_c "/" then OPR_DIV
  else if op =? l_c "^" then OPR_POW
  else if op =? TK_CONCAT then OPR_CONCAT
  else if op =? TK_NE then OPR_NE
  else if op =? TK_EQ then OPR_EQ
  else if op =? l_c "<" then OPR_LT
  else if op =? TK_LE then OPR_LE
  else if op =? l_c ">" then OPR_GT
  else if op =? TK_GE then OPR_GE
  else if op =? TK_AND then OPR_AND
  else if op =? TK_OR then OPR_OR
  else OPR_NOBINOPR.

(** [priority[op].left] and [priority[op].right]; the table has no entry
    for [OPR_NOBINOPR], which the parser never looks up. *)
Definition priority (op : BinOpr) : Z * Z :=
  match op with
  | OPR_ADD | OPR_SUB => (5, 5)
  | OPR_MULT | OPR_DIV => (6, 6)
  | OPR_POW => (9, 8)
  | OPR_CONCAT => (4, 3)
  | OPR_NE | OPR_EQ => (2, 2)
  | OPR_LT | OPR_LE | OPR_GT | OPR_GE => (2, 2)
  | OPR_AND | OPR_OR => (1, 1)
  | OPR_NOBINOPR => (0, 0)
  end.

Definition UNARY_PRIORITY : Z := 7.

Definition is_binopr (op : BinOpr) : bool :=
  match op with OPR_NOBINOPR => false | _ => true end.

Definition is_unopr (op : UnOpr) : bool :=
  match op with OPR_NOUNOPR => false | _ => true end.

(** The loop of [subexpr], which expands while operators have priorities
    higher than [limit]; [sub] is [subexpr] itself, one level down. *)
Fixpoint subexpr_loop (sub : expdesc -> Z -> P (BinOpr * expdesc))
    (limit : Z) (turns : nat) (op : BinOpr) (v : expdesc)
  : P (BinOpr * expdesc) :=
  match turns with
  | O => timeout
  | S turns' =>
      if is_binopr op && ((priority op).1 >? limit) then
        next;;
        v ← emit (fun ls fs => luaK_infix ls fs op v);
        '(nextop, v2) ← sub expdesc_auto (priority op).2;
        v ← emit (fun ls fs => luaK_posfix ls fs op v v2);
        subexpr_loop sub limit turns' nextop v
      else mret (op, v)
  end.

Fixpoint subexpr (depth : nat) (v : expdesc) (limit : Z)
  : P (BinOpr * expdesc) :=
  match depth with
  | O => timeout
  | S depth' =>
      tok ← token;
      let uop := getunopr tok in
      v ← (if is_unopr uop then
             next;;
             '(_, v) ← subexpr depth' v UNARY_PRIORITY;
             emit (fun ls fs => luaK_prefix ls fs uop v)
           else simpleexp v);
      tok ← token;
      subexpr_loop (subexpr depth') limit depth' (getbinopr tok) v
  end.

(** [expr], which is [expr_def] once the recursion is tied. *)
Definition expr_def (v : expdesc) : P expdesc :=
  '(_, v) ← subexpr fuel v (-1);
  mret v.

(** *** Statements *)

Definition block_follow (tok : Z) : bool :=
  (tok =? TK_ELSE) || (tok =? TK_ELSEIF) || (tok =? TK_END)
  || (tok =? TK_UNTIL) || (tok =? TK_EOS).

Definition block : P unit :=
  fs ← getfs;
  let nactloc := fs_nactloc fs in
  chunk;;
  fs ← getfs;
  emit (fun ls fs' => luaK_adjuststack ls fs' (fs_nactloc fs - nactloc));;
  fs ← getfs;
  removelocalvars (fs_nactloc fs - nactloc).

Fixpoint assignment (depth : nat) (v : expdesc) (nvars : Z) : P Z :=
  match depth with
  | O => timeout
  | S depth' =>
      luaX_checklimit nvars MAXVARSLH "variables in a multiple assignment";;
      tok ← token;
      left ← (if tok =? l_c "," then
                next;;
                nv ← simpleexp expdesc_auto;
                check_condition (negb (bool_decide (k nv = VEXP)))
                  "syntax error";;
                assignment depth' nv (nvars + 1)
              else
                check (l_c "=");;
                nexps ← explist1;
                adjust_mult_assign nvars nexps;;
                mret 0);
      if negb (bool_decide (k v = VINDEXED)) then
        emit (fun ls fs => luaK_storevar ls fs v);;
        mret left
      else
        emit (fun ls fs => luaK_code2 ls fs OP_SETTABLE (left + nvars + 2) 1);;
        mret (left + 2)
  end.

Definition cond (v : expdesc) : P expdesc :=
  v ← expr v;
  emit (fun ls fs => luaK_goiftrue ls fs v 0).

Definition whilestat (line : Z) : P unit :=
  while_init ← emit luaK_getlabel;
  enterbreak;;
  next;;
  v ← cond expdesc_auto;
  check TK_DO;;
  block;;
  j ← emit luaK_jump;
  emit (fun ls fs => luaK_patchlist ls fs j while_init);;
  l ← emit luaK_getlabel;
  emit (fun ls fs => luaK_patchlist ls fs (u_l_f v) l);;
  check_match TK_END TK_WHILE line;;
  leavebreak.

Definition repeatstat (line : Z) : P unit :=
  repeat_init ← emit luaK_getlabel;
  enterbreak;;
  next;;
  block;;
  check_match TK_UNTIL TK_REPEAT line;;
  v ← cond expdesc_auto;
  emit (fun ls fs => luaK_patchlist ls fs (u_l_f v) repeat_init);;
  leavebreak.

Definition forbody (nvar : Z) (prepfor loopfor : OpCode) : P unit :=
  prep ← emit (fun ls fs => luaK_code1 ls fs prepfor NO_JUMP);
  blockinit ← emit luaK_getlabel;
  check TK_DO;;
  adjustlocalvars nvar;;
  block;;
  j ← emit (fun ls fs => luaK_code1 ls fs loopfor NO_JUMP);
  emit (fun ls fs => luaK_patchlist ls fs j blockinit);;
  l ← emit luaK_getlabel;
  emit (fun ls fs => luaK_fixfor ls fs prep l);;
  removelocalvars nvar.

Definition fornum (varname_ : TString) : P unit :=
  check (l_c "=");;
  exp1;;
  check (l_c ",");;
  exp1;;
  c ← optional (l_c ",");
  (if negb (c =? 0) then exp1
   else emit (fun ls fs => luaK_code1 ls fs OP_PUSHINT 1);; mret tt);;
  new_localvar varname_ 0;;
  new_localvarstr "(limit)" 1;;
  new_localvarstr "(step)" 2;;
  forbody 3 OP_FORPREP OP_FORLOOP.

Definition forlist (indexname : TString) : P unit :=
  check (l_c ",");;
  valname ← str_checkname;
  ls ← get;
  check_condition
    ((tk_token (ls_t ls) =? TK_NAME)
     && bool_decide (si_ts (tk_seminfo (ls_t ls)) = "in"%string))
    "`in' expected";;
  next;;
  exp1;;
  new_localvarstr "(table)" 0;;
  new_localvarstr "(index)" 1;;
  new_localvar indexname 2;;
  new_localvar valname 3;;
  forbody 4 OP_LFORPREP OP_LFORLOOP.

Definition forstat (line : Z) : P unit :=
  enterbreak;;
  next;;
  varname_ ← str_checkname;
  tok ← token;
  (if tok =? l_c "=" then fornum varname_
   else if tok =? l_c "," then forlist varname_
   else luaK_error "`=' or `,' expected");;
  check_match TK_END TK_FOR line;;
  leavebreak.

Definition test_then_block (v : expdesc) : P expdesc :=
  next;;
  v ← cond v;
  check TK_THEN;;
  block;;
  mret v.

(** The loop of [ifstat] over the [elseif] parts. *)
Fixpoint ifstat_loop (turns : nat) (v : expdesc) (escapelist : Z)
  : P (expdesc * Z) :=
  match turns with
  | O => timeout
  | S turns' =>
      tok ← token;
      if tok =? TK_ELSEIF then
        j ← emit luaK_jump;
        escapelist ← emit (fun ls fs => luaK_concat ls fs escapelist j);
        l ← emit luaK_getlabel;
        emit (fun ls fs => luaK_patchlist ls fs (u_l_f v) l);;
        v ← test_then_block v;
        ifstat_loop turns' v escapelist
      else mret (v, escapelist)
  end.

Definition ifstat (line : Z) : P unit :=
  v ← test_then_block expdesc_auto;
  '(v, escapelist) ← ifstat_loop fuel v NO_JUMP;
  tok ← token;
  escapelist ← (if tok =? TK_ELSE then
                  j ← emit luaK_jump;
                  escapelist ←
                    emit (fun ls fs => luaK_concat ls fs escapelist j);
                  l ← emit luaK_getlabel;
                  emit (fun ls fs => luaK_patchlist ls fs (u_l_f v) l);;
                  next;;
                  block;;
                  mret escapelist
                else
                  emit (fun ls fs => luaK_concat ls fs escapelist (u_l_f v)));
  l ← emit luaK_getlabel;
  emit (fun ls fs => luaK_patchlist ls fs escapelist l);;
  check_match TK_END TK_IF line.

(** The loop [do ... while] of [localstat] over the declared names. *)
Fixpoint localstat_loop (turns : nat) (nvars : Z) : P Z :=
  match turns with
  | O => timeout
  | S turns' =>
      next;;
      n ← str_checkname;
      new_localvar n nvars;;
      let nvars := nvars + 1 in
      tok ← token;
      if tok =? l_c "," then localstat_loop turns' nvars else mret nvars
  end.

Definition localstat : P unit :=
  nvars ← localstat_loop fuel 0;
  c ← optional (l_c "=");
  nexps ← (if negb (c =? 0) then explist1 else mret 0);
  adjust_mult_assign nvars nexps;;
  adjustlocalvars nvars.

(** The loop of [funcname] over the [.NAME] parts. *)
Fixpoint funcname_loop (turns : nat) (v : expdesc) : P expdesc :=
  match turns with
  | O => timeout
  | S turns' =>
      tok ← token;
      if tok =? l_c "." then
        next;;
        v ← emit (fun ls fs => luaK_tostack ls fs v 1);
        c ← checkname;
        emit (fun ls fs => luaK_kstr ls fs c);;
        funcname_loop turns' (set_k v VINDEXED)
      else mret v
  end.

Definition funcname (v : expdesc) : P (Z * expdesc) :=
  n ← str_checkname;
  v ← singlevar n v;
  v ← funcname_loop fuel v;
  tok ← token;
  if tok =? l_c ":" then
    next;;
    v ← emit (fun ls fs => luaK_tostack ls fs v 1);
    c ← checkname;
    emit (fun ls fs => luaK_kstr ls fs c);;
    mret (1, set_k v VINDEXED)
  else mret (0, v).

Definition funcstat (line : Z) : P unit :=
  next;;
  '(needself, v) ← funcname expdesc_auto;
  body needself line;;
  emit (fun ls fs => luaK_storevar ls fs v);;
  mret tt.

Definition exprstat : P unit :=
  v ← simpleexp expdesc_auto;
  if bool_decide (k v = VEXP) then
    fs ← getfs;
    check_condition (luaK_lastisopen fs) "syntax error";;
    emit (fun ls fs => luaK_setcallreturns ls fs 0)
  else
    left ← assignment fuel v 1;
    emit (fun ls fs => luaK_adjuststack ls fs left).

Definition retstat : P unit :=
  next;;
  tok ← token;
  (if negb (block_follow tok) && negb (tok =? l_c ";") then
     explist1;; mret tt
   else mret tt);;
  fs ← getfs;
  emit (fun ls fs' => luaK_code1 ls fs' OP_RETURN (fs_nactloc fs));;
  fs ← getfs;
  putfs (set_fs_stacklevel fs (fs_nactloc fs)).

Definition breakstat : P unit :=
  fs ← getfs;
  let currentlevel := fs_stacklevel fs in
  match fs_bl fs with
  | [] => luaK_error "no loop to break"
  | bl :: _ =>
      next;;
      emit (fun ls fs =>
              luaK_adjuststack ls fs (currentlevel - bl_stacklevel bl));;
      j ← emit luaK_jump;
      fs ← getfs;
      match fs_bl fs with
      | [] => throw E_null
      | bl' :: previous =>
          l ← emit (fun ls fs => luaK_concat ls fs (bl_breaklist bl') j);
          fs ← getfs;
          match fs_bl fs with
          | [] => throw E_null
          | bl' :: previous =>
              putfs (set_fs_bl fs
                       (mkBreaklabel l (bl_stacklevel bl') :: previous))
          end;;
          fs ← getfs;
          match fs_bl fs with
          | [] => throw E_null
          | bl' :: _ =>
              emit (fun ls fs =>
                      luaK_adjuststack ls fs
                        (bl_stacklevel bl' - currentlevel))
          end
      end
  end.

Definition statement : P Z :=
  ls ← get;
  let line := ls_linenumber ls in
  let tok := tk_token (ls_t ls) in
  if tok =? TK_IF then ifstat line;; mret 0
  else if tok =? TK_WHILE then whilestat line;; mret 0
  else if tok =? TK_DO then
    next;;
    block;;
    check_match TK_END TK_DO line;;
    mret 0
  else if tok =? TK_FOR then forstat line;; mret 0
  else if tok =? TK_REPEAT then repeatstat line;; mret 0
  else if tok =? TK_FUNCTION then
    lookahead;;
    ls ← get;
    (if tk_token (ls_lookahead ls) =? l_c "(" then exprstat
     else funcstat line);;
    mret 0
  else if tok =? TK_LOCAL then localstat;; mret 0
  else if tok =? TK_RETURN then retstat;; mret 1
  else if tok =? TK_BREAK then breakstat;; mret 1
  else exprstat;; mret 0.

(** The loop [do ... while] of [parlist]. *)
Fixpoint parlist_loop (turns : nat) (nparams : Z) : P (Z * Z) :=
  match turns with
  | O => timeout
  | S turns' =>
      tok ← token;
      '(nparams, dots) ←
        (if tok =? TK_DOTS then next;; mret (nparams, 1)
         else if tok =? TK_NAME then
           n ← str_checkname;
           new_localvar n nparams;;
           mret (nparams + 1, 0)
         else luaK_error "<name> or `...' expected");
      if dots =? 0 then
        c ← optional (l_c ",");
        if negb (c =? 0) then parlist_loop turns' nparams
        else mret (nparams, dots)
      else mret (nparams, dots)
  end.

Definition parlist : P unit :=
  tok ← token;
  '(nparams, dots) ←
    (if negb (tok =? l_c ")") then parlist_loop fuel 0 else mret (0, 0));
  code_params nparams dots.

(** [body], which is [body_def] once the recursion is tied. *)
Definition body_def (needself line : Z) : P unit :=
  open_func;;
  fs ← getfs;
  putfs (set_fs_f fs (set_f_lineDefined (fs_f fs) line));;
  check (l_c "(");;
  (if negb (needself =? 0) then
     new_localvarstr "self" 0;;
     adjustlocalvars 1
   else mret tt);;
  parlist;;
  check (l_c ")");;
  chunk;;
  check_match TK_END TK_FUNCTION line;;
  new_fs ← close_func;
  pushclosure new_fs.

(** The loop of [chunk]; the assertion [stacklevel == nactloc] that ends
    each turn is a comment of the compiled code. *)
Fixpoint chunk_loop (turns : nat) (islast : Z) : P unit :=
  match turns with
  | O => timeout
  | S turns' =>
      tok ← token;
      if (islast =? 0) && negb (block_follow tok) then
        islast ← statement;
        optional (l_c ";");;
        chunk_loop turns' islast
      else mret tt
  end.

(** [chunk], which is [chunk_def] once the recursion is tied. *)
Definition chunk_def : P unit := chunk_loop fuel 0.

(** The loop of [chunk] with its assertion compiled in:
    [lua_assert(ls->fs->stacklevel == ls->fs->nactloc)] ends each turn. *)
Fixpoint chunk_loop_assert (turns : nat) (islast : Z) : P unit :=
  match turns with
  | O => timeout
  | S turns' =>
      tok ← token;
      if (islast =? 0) && negb (block_follow tok) then
        islast ← statement;
        optional (l_c ";");;
        fs ← getfs;
        lua_assert (fs_stacklevel fs =? fs_nactloc fs);;
        chunk_loop_assert turns' islast
      else mret tt
  end.

Definition chunk_assert_def : P unit := chunk_loop_assert fuel 0.

End Grammar.

(** ** Tying the recursion *)

Record Grammar := mkGrammar {
  g_body : Z -> Z -> P unit;
  g_chunk : P unit;
  g_constructor : P unit;
  g_expr : expdesc -> P expdesc
}.

(** The four recursive non-terminals with [fuel] levels of mutual
    recursion left; at level 0 they time out. *)
Fixpoint grammar (fuel : nat) : Grammar :=
  match fuel with
  | O => mkGrammar (fun _ _ => timeout) timeout timeout (fun _ => timeout)
  | S fuel' =>
      let g := grammar fuel' in
      mkGrammar
        (body_def (g_chunk g) fuel')
        (chunk_def (g_body g) (g_chunk g) (g_constructor g) (g_expr g) fuel')
        (constructor_def (g_expr g) fuel')
        (expr_def (g_body g) (g_constructor g) (g_expr g) fuel')
  end.

(** The same with the assertion of [chunk] compiled in. *)
Fixpoint grammar_assert (fuel : nat) : Grammar :=
  match fuel with
  | O => mkGrammar (fun _ _ => timeout) timeout timeout (fun _ => timeout)
  | S fuel' =>
      let g := grammar_assert fuel' in
      mkGrammar
        (body_def (g_chunk g) fuel')
        (chunk_assert_def (g_body g) (g_chunk g) (g_constructor g) (g_expr g)
           fuel')
        (constructor_def (g_expr g) fuel')
        (expr_def (g_body g) (g_constructor g) (g_expr g) fuel')
  end.

Definition body (fuel : nat) : Z -> Z -> P unit := g_body (grammar fuel).
Definition chunk (fuel : nat) : P unit := g_chunk (grammar fuel).
Definition constructor (fuel : nat) : P unit := g_constructor (grammar fuel).
Definition expr (fuel : nat) : expdesc -> P expdesc := g_expr (grammar fuel).

(** ** The driver *)

(** Modelled from the spec: llex.c is not among the sources;
    [luaX_setinput] starts the lexical state on the input with no
    look-ahead token, no function state, and line 1.  [L] is the hints of
    the interned strings of the Lua state. *)
Definition luaX_setinput (L : gmap string Z) (z : list LexItem)
    (source : TString) : LexState :=
  let nothing := mkToken TK_EOS (mkSemInfo (QArith_base.Qmake 0 1) "") in
  mkLexState nothing nothing [] 1 1 source z L.

Definition luaY_parser (fuel : nat) (L : gmap string Z) (z : list LexItem)
    (zname : TString) : Res Proto :=
  let lexstate := luaX_setinput L z zname in
  '(f, _) ← (open_func;;
             next;;
             chunk fuel;;
             tok ← token;
             check_condition (tok =? TK_EOS) "<eof> expected";;
             funcstate ← close_func;
             mret (fs_f funcstate)) lexstate;
  Ok f.

(** [luaY_parser] with the assertion of [chunk] compiled in. *)
Definition luaY_parser_assert (fuel : nat) (L : gmap string Z)
    (z : list LexItem) (zname : TString) : Res Proto :=
  let lexstate := luaX_setinput L z zname in
  '(f, _) ← (open_func;;
             next;;
             g_chunk (grammar_assert fuel);;
             tok ← token;
             check_condition (tok =? TK_EOS) "<eof> expected";;
             funcstate ← close_func;
             mret (fs_f funcstate)) lexstate;
  Ok f.

End Parser.

(** ** A reference bytecode writer *)

(** Modelled from the spec: lcode.c, lopcodes.h and llimits.h are not
    among the sources.  This writer does what 6 (emitter contract), 3
    (FuncState, jump lists) and 9 (jump-list backpatching) say of the
    bytecode writer, with neither line information nor the coalescing of
    instructions: every instruction is appended, its effect on the
    symbolic stack is counted, a push or pop of nothing emits nothing, a
    jump list is chained through the displacements of its jumps, and an
    open call is a last instruction [CALL] whose result count is still
    [MULT_RET].  It instantiates the interface the parser is
    parametric in; the limits are given the values of a default build. *)
Module Writer.

#[global] Instance config : Config := {|
  MAXARG_U := 2 ^ 26 - 1;
  MAXARG_A := 2 ^ 17 - 1;
  MAX_INT := 2 ^ 31 - 3;
  MAXLOCALS := 200;
  MAXUPVALUES := 32;
  MAXPARAMS := 100;
  MAXVARSLH := 100;
  LFIELDS_PER_FLUSH := 64;
  RFIELDS_PER_FLUSH := 32;
  MULT_RET := 255;
  NO_JUMP := -1;
  LUA_COMPAT_ARGRET := false
|}.

Definition MAXARG_S : Z := 2 ^ 25 - 1.
Definition MAXSTACK : Z := 250.

(** A writer action on the function being compiled. *)
Definition K (A : Type) : Type := FuncState -> Res (A * FuncState).

Definition K_bind {A B} (g : A -> K B) (m : K A) : K B :=
  fun fs =>
    match m fs with
    | Ok (a, fs') => g a fs'
    | Err e => Err e
    | Timeout => Timeout
    end.
#[global] Instance K_mbind : MBind K := @K_bind.
#[global] Instance K_mret : MRet K := fun A a fs => Ok (a, fs).

Definition K_get : K FuncState := fun fs => Ok (fs, fs).
Definition K_put (fs : FuncState) : K unit := fun _ => Ok (tt, fs).
Definition K_error {A} (msg : string) : K A := fun _ => Err (E_error msg).

Inductive Mode := iO | iU | iS | iAB.

Definition ISJUMP (o : OpCode) : bool :=
  match o with
  | OP_JMPNE | OP_JMPEQ | OP_JMPLT | OP_JMPLE | OP_JMPGT | OP_JMPGE
  | OP_JMPT | OP_JMPF | OP_JMPONT | OP_JMPONF | OP_JMP => true
  | _ => false
  end.

Definition opmode (o : OpCode) : Mode :=
  match o with
  | OP_CALL | OP_SETTABLE | OP_SETLIST | OP_CLOSURE => iAB
  | OP_PUSHINT | OP_PUSHNILJMP | OP_FORPREP | OP_FORLOOP | OP_LFORPREP
  | OP_LFORLOOP => iS
  | OP_GETTABLE | OP_ADD | OP_SUB | OP_MULT | OP_DIV | OP_POW | OP_MINUS
  | OP_NOT => iO
  | _ => if ISJUMP o then iS else iU
  end.

(** The effect of an instruction on the symbolic stack: the values it
    pushes less the values it pops, as the descriptors of 3 (an indexed
    variable has its table and key on the stack, an expression its result
    on top), the statements of 4.6 and the scenarios of 8 imply them.
    [SETLIST] and [SETMAP] leave the stack just above the table, whose
    slot is their operand; a [CALL] counts no result until its result
    count is set; of the two instructions [PUSHNILJMP] and [PUSHINT] that
    end a comparison only one runs, so only one is counted. *)
Definition opdelta (o : OpCode) (arg1 arg2 stacklevel : Z) : Z :=
  match o with
  | OP_RETURN | OP_CALL | OP_MINUS | OP_NOT | OP_JMP | OP_PUSHNILJMP
  | OP_FORPREP => 0
  | OP_PUSHNIL => arg1
  | OP_POP => - arg1
  | OP_PUSHINT | OP_PUSHSTRING | OP_PUSHNUM | OP_PUSHUPVALUE | OP_GETLOCAL
  | OP_GETGLOBAL | OP_PUSHSELF | OP_CREATETABLE => 1
  | OP_GETTABLE | OP_SETLOCAL | OP_SETGLOBAL | OP_ADD | OP_SUB | OP_MULT
  | OP_DIV | OP_POW | OP_JMPT | OP_JMPF | OP_JMPONT | OP_JMPONF => -1
  | OP_SETTABLE => - arg2
  | OP_SETLIST => arg2 + 1 - stacklevel
  | OP_SETMAP => arg1 + 1 - stacklevel
  | OP_CONCAT => - arg1 + 1
  | OP_JMPNE | OP_JMPEQ | OP_JMPLT | OP_JMPLE | OP_JMPGT | OP_JMPGE => -2
  | OP_FORLOOP => -3
  | OP_LFORPREP => 3
  | OP_LFORLOOP => -4
  | OP_CLOSURE => - arg2 + 1
  end.

Definition GETARG_S (i : Instruction) : Z :=
  match i with
  | CREATE_S _ s => s
  | CREATE_U _ u => u
  | _ => 0
  end.
Definition GETARG_B (i : Instruction) : Z :=
  match i with
  | CREATE_AB _ _ b => b
  | _ => 0
  end.
Definition SETARG_S (i : Instruction) (s : Z) : Instruction :=
  CREATE_S (GET_OPCODE i) s.
Definition SETARG_B (i : Instruction) (b : Z) : Instruction :=
  match i with
  | CREATE_AB o a _ => CREATE_AB o a b
  | _ => i
  end.
Definition SET_OPCODE (i : Instruction) (o : OpCode) : Instruction :=
  match i with
  | CREATE_0 _ => CREATE_0 o
  | CREATE_U _ u => CREATE_U o u
  | CREATE_S _ s => CREATE_S o s
  | CREATE_AB _ a b => CREATE_AB o a b
  end.

Definition code_at (fs : FuncState) (pc : Z) : option Instruction :=
  f_code (fs_f fs) !! pc.

Definition alter_code (g : Instruction -> Instruction) (pc : Z) : K unit :=
  fun fs =>
    Ok (tt, set_fs_f fs (set_f_code (fs_f fs) (alter g pc (f_code (fs_f fs))))).

(** The last instruction, unless a jump targets the current position. *)
Definition previous_instruction (fs : FuncState) : option Instruction :=
  if fs_pc fs >? fs_lasttarget fs then code_at fs (fs_pc fs - 1) else None.

Definition luaK_lastisopen (fs : FuncState) : bool :=
  match previous_instruction fs with
  | Some (CREATE_AB OP_CALL _ b) => b =? MULT_RET
  | _ => false
  end.

Definition luaK_deltastack (delta : Z) : K unit := fun fs =>
  let fs := set_fs_stacklevel fs (fs_stacklevel fs + delta) in
  if fs_stacklevel fs >? f_maxstacksize (fs_f fs) then
    if fs_stacklevel fs >? MAXSTACK then
      Err (E_error "function or expression too complex")
    else Ok (tt, set_fs_f fs (set_f_maxstacksize (fs_f fs) (fs_stacklevel fs)))
  else Ok (tt, fs).

Definition luaK_code2 (o : OpCode) (arg1 arg2 : Z) : K Z :=
  fs ← K_get;
  if match o with OP_PUSHNIL | OP_POP => arg1 =? 0 | _ => false end
  then mret NO_JUMP
  else
    luaK_deltastack (opdelta o arg1 arg2 (fs_stacklevel fs));;
    let i := match opmode o with
             | iO => CREATE_0 o
             | iU => CREATE_U o arg1
             | iS => CREATE_S o arg1
             | iAB => CREATE_AB o arg1 arg2
             end in
    fs ← K_get;
    let f := fs_f fs in
    size ← (fun fs =>
              size ← luaM_growvector (fs_pc fs) (f_sizecode f) MAX_INT
                     "code size overflow";
              Ok (size, fs));
    let f := set_f_code (set_f_sizecode f size) (<[fs_pc fs := i]> (f_code f)) in
    K_put (set_fs_pc (set_fs_f fs f) (fs_pc fs + 1));;
    mret (fs_pc fs).

Definition luaK_code1 (o : OpCode) (arg1 : Z) : K Z := luaK_code2 o arg1 0.
Definition luaK_code0 (o : OpCode) : K Z := luaK_code2 o 0 0.

Definition luaK_kstr (c : Z) : K unit := luaK_code1 OP_PUSHSTRING c;; mret tt.

Definition luaK_adjuststack (n : Z) : K unit :=
  (if n >? 0 then luaK_code1 OP_POP n else luaK_code1 OP_PUSHNIL (- n));;
  mret tt.

Definition luaK_setcallreturns (nresults : Z) : K unit :=
  fs ← K_get;
  if luaK_lastisopen fs then
    alter_code (fun i => SETARG_B i nresults) (fs_pc fs - 1);;
    luaK_deltastack nresults
  else mret tt.

(** Jump lists: the displacement of an unpatched jump links to the next
    jump of its list, [NO_JUMP] ends the list. *)
Definition luaK_getjump (fs : FuncState) (pc : Z) : Z :=
  match code_at fs pc with
  | Some i =>
      let offset := GETARG_S i in
      if offset =? NO_JUMP then NO_JUMP else pc + 1 + offset
  | None => NO_JUMP
  end.

Definition luaK_fixjump (pc dest : Z) : K unit :=
  if dest =? NO_JUMP then alter_code (fun i => SETARG_S i NO_JUMP) pc
  else
    let offset := dest - (pc + 1) in
    if Z.abs offset >? MAXARG_S then K_error "control structure too long"
    else alter_code (fun i => SETARG_S i offset) pc.

(** The last jump of the list that starts at [list]. *)
Fixpoint last_jump (turns : nat) (fs : FuncState) (list : Z) : Res Z :=
  match turns with
  | O => Timeout
  | S turns' =>
      let next := luaK_getjump fs list in
      if next =? NO_JUMP then Ok list else last_jump turns' fs next
  end.

(** A list has no more jumps than the function has instructions. *)
Definition list_turns (fs : FuncState) : nat := S (Z.to_nat (fs_pc fs)).

Definition luaK_concat (l1 l2 : Z) : K Z :=
  if l1 =? NO_JUMP then mret l2
  else
    fs ← K_get;
    last ← (fun fs => l ← last_jump (list_turns fs) fs l1; Ok (l, fs));
    luaK_fixjump last l2;;
    mret l1.

Fixpoint luaK_patchlistaux (turns : nat) (list target : Z)
    (special : option OpCode) (special_target : Z) : K unit :=
  match turns with
  | O => fun _ => Timeout
  | S turns' =>
      if list =? NO_JUMP then mret tt
      else
        fs ← K_get;
        let next := luaK_getjump fs list in
        let op := GET_OPCODE <$> code_at fs list in
        (if bool_decide (op = special) && bool_decide (op ≠ None) then
           luaK_fixjump list special_target
         else
           luaK_fixjump list target;;
           if bool_decide (op = Some OP_JMPONT) then
             alter_code (fun i => SET_OPCODE i OP_JMPT) list
           else if bool_decide (op = Some OP_JMPONF) then
             alter_code (fun i => SET_OPCODE i OP_JMPF) list
           else mret tt);;
        luaK_patchlistaux turns' next target special special_target
  end.

Definition luaK_patchlist (list target : Z) : K unit :=
  fs ← K_get;
  if target =? fs_lasttarget fs then
    jlt ← luaK_concat (fs_jlt fs) list;
    fs ← K_get;
    K_put (set_fs_jlt fs jlt)
  else luaK_patchlistaux (list_turns fs) list target None 0.

Definition luaK_getlabel : K Z :=
  fs ← K_get;
  (if negb (fs_pc fs =? fs_lasttarget fs) then
     let lasttarget := fs_lasttarget fs in
     K_put (set_fs_lasttarget fs (fs_pc fs));;
     luaK_patchlist (fs_jlt fs) lasttarget;;
     fs ← K_get;
     K_put (set_fs_jlt fs NO_JUMP)
   else mret tt);;
  fs ← K_get;
  mret (fs_pc fs).

Definition luaK_jump : K Z :=
  j ← luaK_code1 OP_JMP NO_JUMP;
  fs ← K_get;
  if j =? fs_lasttarget fs then
    j ← luaK_concat j (fs_jlt fs);
    fs ← K_get;
    K_put (set_fs_jlt fs NO_JUMP);;
    mret j
  else mret j.

Definition luaK_fixfor (pc dest : Z) : K unit := luaK_fixjump pc dest.

(** Number constants: a short integer is pushed by value, any other
    number through the constant vector, where an equal one is reused. *)
Fixpoint find_knum (fs : FuncState) (r : lua_Number) (c : nat) : option Z :=
  match c with
  | O => None
  | S c' =>
      match f_knum (fs_f fs) !! Z.of_nat c' with
      | Some r' =>
          if QArith_base.Qeq_bool r r' then Some (Z.of_nat c')
          else find_knum fs r c'
      | None => find_knum fs r c'
      end
  end.

Definition number_constant (r : lua_Number) : K Z := fun fs =>
  match find_knum fs r (Z.to_nat (fs_nknum fs)) with
  | Some c => Ok (c, fs)
  | None =>
      let f := fs_f fs in
      size ← luaM_growvector (fs_nknum fs) (f_sizeknum f) MAXARG_U
             "constant table overflow";
      let c := fs_nknum fs in
      let f := set_f_knum (set_f_sizeknum f size) (<[c := r]> (f_knum f)) in
      Ok (c, set_fs_f (set_fs_nknum fs (c + 1)) f)
  end.

Definition luaK_number (r : lua_Number) : K unit :=
  let n := QArith_base.Qnum r in
  (if bool_decide (QArith_base.Qden r = 1%positive)
      && (Z.abs n <=? MAXARG_S)
   then luaK_code1 OP_PUSHINT n
   else c ← number_constant r; luaK_code1 OP_PUSHNUM c);;
  mret tt.

(** Descriptors: loading a variable or an indexed value on the stack,
    storing the top of the stack. *)
Definition discharge (var : expdesc) : K (bool * expdesc) :=
  match k var with
  | VEXP => mret (false, var)
  | VLOCAL =>
      luaK_code1 OP_GETLOCAL (u_index var);;
      mret (true, set_u_l (set_k var VEXP) NO_JUMP NO_JUMP)
  | VGLOBAL =>
      luaK_code1 OP_GETGLOBAL (u_index var);;
      mret (true, set_u_l (set_k var VEXP) NO_JUMP NO_JUMP)
  | VINDEXED =>
      luaK_code0 OP_GETTABLE;;
      mret (true, set_u_l (set_k var VEXP) NO_JUMP NO_JUMP)
  end.

Definition discharge1 (var : expdesc) : K expdesc :=
  '(_, var) ← discharge var;
  (if (u_l_t var =? NO_JUMP) && (u_l_f var =? NO_JUMP)
   then luaK_setcallreturns 1 else mret tt);;
  mret var.

Definition luaK_storevar (var : expdesc) : K unit :=
  match k var with
  | VLOCAL => luaK_code1 OP_SETLOCAL (u_index var);; mret tt
  | VGLOBAL => luaK_code1 OP_SETGLOBAL (u_index var);; mret tt
  | VINDEXED => luaK_code2 OP_SETTABLE 3 3;; mret tt
  | VEXP => K_error "invalid var kind to store"
  end.

(** Conditions and short-circuit operators. *)
Definition invertjump (op : OpCode) : OpCode :=
  match op with
  | OP_JMPNE => OP_JMPEQ
  | OP_JMPEQ => OP_JMPNE
  | OP_JMPLT => OP_JMPGE
  | OP_JMPLE => OP_JMPGT
  | OP_JMPGT => OP_JMPLE
  | OP_JMPGE => OP_JMPLT
  | OP_JMPT | OP_JMPONT => OP_JMPF
  | OP_JMPF | OP_JMPONF => OP_JMPT
  | _ => op
  end.

Definition previous_isjump (fs : FuncState) : bool :=
  match code_at fs (fs_pc fs - 1) with
  | Some i => ISJUMP (GET_OPCODE i)
  | None => false
  end.

(** Whether the list has a jump that carries no value. *)
Fixpoint need_value (turns : nat) (fs : FuncState) (list : Z)
    (hasvalue : OpCode) : bool :=
  match turns with
  | O => false
  | S turns' =>
      if list =? NO_JUMP then false
      else if bool_decide (GET_OPCODE <$> code_at fs list = Some hasvalue)
      then need_value turns' fs (luaK_getjump fs list) hasvalue
      else true
  end.

Definition luaK_testgo (v : expdesc) (invert : bool) (jump : OpCode)
  : K expdesc :=
  v ← discharge1 v;
  fs ← K_get;
  prevpos ← (if negb (previous_isjump fs) then luaK_code1 jump NO_JUMP
             else
               (if invert then
                  alter_code (fun i => SET_OPCODE i (invertjump (GET_OPCODE i)))
                    (fs_pc fs - 1)
                else mret tt);;
               mret (fs_pc fs - 1));
  let golist := if invert then u_l_t v else u_l_f v in
  let exitlist := if invert then u_l_f v else u_l_t v in
  exitlist ← luaK_concat exitlist prevpos;
  l ← luaK_getlabel;
  luaK_patchlist golist l;;
  mret (if invert then set_u_l v NO_JUMP exitlist
        else set_u_l v exitlist NO_JUMP).

Definition luaK_goiftrue (v : expdesc) (keepvalue : Z) : K expdesc :=
  luaK_testgo v true (if negb (keepvalue =? 0) then OP_JMPONF else OP_JMPF).

Definition luaK_goiffalse (v : expdesc) (keepvalue : Z) : K expdesc :=
  luaK_testgo v false (if negb (keepvalue =? 0) then OP_JMPONT else OP_JMPT).

Definition code_label (op : OpCode) (arg : Z) : K Z :=
  luaK_getlabel;;
  luaK_code1 op arg.

Definition luaK_tostack (v : expdesc) (onlyone : Z) : K expdesc :=
  '(done, v) ← discharge v;
  if done : bool then mret v
  else
    fs ← K_get;
    let previous := previous_isjump fs in
    if negb previous && (u_l_f v =? NO_JUMP) && (u_l_t v =? NO_JUMP) then
      (if negb (onlyone =? 0) then luaK_setcallreturns 1 else mret tt);;
      mret v
    else
      '(v, p_nil, p_1) ←
        (if previous
            || need_value (list_turns fs) fs (u_l_f v) OP_JMPONF
            || need_value (list_turns fs) fs (u_l_t v) OP_JMPONT
         then
           '(v, j) ←
             (if previous then
                t ← luaK_concat (u_l_t v) (fs_pc fs - 1);
                mret (set_u_l v t (u_l_f v), NO_JUMP)
              else
                j ← code_label OP_JMP NO_JUMP;
                luaK_adjuststack 1;;
                mret (v, j));
           p_nil ← code_label OP_PUSHNILJMP 0;
           p_1 ← code_label OP_PUSHINT 1;
           l ← luaK_getlabel;
           luaK_patchlist j l;;
           mret (v, p_nil, p_1)
         else mret (v, NO_JUMP, NO_JUMP));
      final ← luaK_getlabel;
      fs ← K_get;
      luaK_patchlistaux (list_turns fs) (u_l_f v) p_nil (Some OP_JMPONF) final;;
      luaK_patchlistaux (list_turns fs) (u_l_t v) p_1 (Some OP_JMPONT) final;;
      mret (set_u_l v NO_JUMP NO_JUMP).

Definition luaK_prefix (op : UnOpr) (v : expdesc) : K expdesc :=
  match op with
  | OPR_MINUS =>
      v ← luaK_tostack v 1;
      luaK_code0 OP_MINUS;;
      mret v
  | _ =>
      v ← discharge1 v;
      fs ← K_get;
      (if previous_isjump fs then
         alter_code (fun i => SET_OPCODE i (invertjump (GET_OPCODE i)))
           (fs_pc fs - 1)
       else luaK_code0 OP_NOT;; mret tt);;
      mret (set_u_l v (u_l_f v) (u_l_t v))
  end.

Definition luaK_infix (op : BinOpr) (v : expdesc) : K expdesc :=
  match op with
  | OPR_AND => luaK_goiftrue v 1
  | OPR_OR => luaK_goiffalse v 1
  | _ => luaK_tostack v 1
  end.

Definition binopcode (op : BinOpr) : OpCode * Z :=
  match op with
  | OPR_ADD => (OP_ADD, 0)
  | OPR_SUB => (OP_SUB, 0)
  | OPR_MULT => (OP_MULT, 0)
  | OPR_DIV => (OP_DIV, 0)
  | OPR_POW => (OP_POW, 0)
  | OPR_CONCAT => (OP_CONCAT, 2)
  | OPR_NE => (OP_JMPNE, NO_JUMP)
  | OPR_EQ => (OP_JMPEQ, NO_JUMP)
  | OPR_LT => (OP_JMPLT, NO_JUMP)
  | OPR_LE => (OP_JMPLE, NO_JUMP)
  | OPR_GT => (OP_JMPGT, NO_JUMP)
  | _ => (OP_JMPGE, NO_JUMP)
  end.

Definition luaK_posfix (op : BinOpr) (v1 v2 : expdesc) : K expdesc :=
  match op with
  | OPR_AND =>
      v2 ← discharge1 v2;
      f ← luaK_concat (u_l_f v1) (u_l_f v2);
      mret (set_u_l v1 (u_l_t v2) f)
  | OPR_OR =>
      v2 ← discharge1 v2;
      t ← luaK_concat (u_l_t v1) (u_l_t v2);
      mret (set_u_l v1 t (u_l_f v2))
  | _ =>
      luaK_tostack v2 1;;
      luaK_code1 (binopcode op).1 (binopcode op).2;;
      mret v1
  end.

#[global] Instance emitter : Emitter :=
  Build_Emitter
    (fun _ fs o a => luaK_code1 o a fs)
    (fun _ fs o a b => luaK_code2 o a b fs)
    (fun _ fs c => luaK_kstr c fs)
    (fun _ fs r => luaK_number r fs)
    (fun _ fs n => luaK_adjuststack n fs)
    (fun _ fs n => luaK_deltastack n fs)
    luaK_lastisopen
    (fun _ fs n => luaK_setcallreturns n fs)
    (fun _ fs v o => luaK_tostack v o fs)
    (fun _ fs v => luaK_storevar v fs)
    (fun _ fs => luaK_getlabel fs)
    (fun _ fs => luaK_jump fs)
    (fun _ fs l t => luaK_patchlist l t fs)
    (fun _ fs l1 l2 => luaK_concat l1 l2 fs)
    (fun _ fs v kv => luaK_goiftrue v kv fs)
    (fun _ fs op v => luaK_prefix op v fs)
    (fun _ fs op v => luaK_infix op v fs)
    (fun _ fs op v1 v2 => luaK_posfix op v1 v2 fs)
    (fun _ fs pc dest => luaK_fixfor pc dest fs).

End Writer.

(** ** Token streams *)

(** A token with no payload, a name, a string and a number, each on a
    given line. *)
Definition nopayload : SemInfo := mkSemInfo (QArith_base.Qmake 0 1) "".
Definition T (tok : Z) (line : Z) : LexItem :=
  mkLexItem (mkToken tok nopayload) line.
Definition C (c : ascii) (line : Z) : LexItem := T (l_c c) line.
Definition NAME (s : string) (line : Z) : LexItem :=
  mkLexItem (mkToken TK_NAME (mkSemInfo (QArith_base.Qmake 0 1) s)) line.
Definition STRING (s : string) (line : Z) : LexItem :=
  mkLexItem (mkToken TK_STRING (mkSemInfo (QArith_base.Qmake 0 1) s)) line.
Definition NUMBER (n : Z) (line : Z) : LexItem :=
  mkLexItem (mkToken TK_NUMBER (mkSemInfo (QArith_base.Qmake n 1) "")) line.

(** * Specifications *)

(** ** Specification vocabulary *)

(** Slot [i] of [fs] holds an active local named [n]. *)
Definition active_in (fs : FuncState) (n : TString) (i : Z) : Prop :=
  0 <= i < fs_nactloc fs /\ actloc_name fs i = Some n.

(** Slot [i] is the highest active slot of [fs] named [n]: the most
    recently declared binding of [n] in that function. *)
Definition innermost (fs : FuncState) (n : TString) (i : Z) : Prop :=
  active_in fs n i /\ forall j, i < j -> ~ active_in fs n j.

(** No active local of [fs] is named [n]. *)
Definition inactive (fs : FuncState) (n : TString) : Prop :=
  forall i, ~ active_in fs n i.

Section Vocabulary.
Context {cfg : Config} {emt : Emitter}.

(** The tail of [pushupvalue]: the upvalue is looked up or added, and its
    index is the operand of the [PUSHUPVALUE] that is emitted. *)
Definition pushupvalue_emit (v : expdesc) : P unit :=
  i ← indexupvalue v;
  emit (fun ls fs => luaK_code1 ls fs OP_PUSHUPVALUE i);;
  mret tt.

End Vocabulary.

(** ** States and inputs of the examples *)

(** A function with two active locals, both named [x], in slots 0 and 1. *)
Definition fs_x_x : FuncState :=
  let lv := <[0 := mkLocVar "x" 0 0]> (<[1 := mkLocVar "x" 0 0]> ∅) in
  mkFuncState (set_f_locvars luaF_newproto lv) 0 0 (-1) 2 2 0 0 0 0 0 2 []
    ∅ (<[0 := 0]> (<[1 := 1]> ∅)).

Definition ls_x_x : LexState :=
  set_ls_fs (luaX_setinput ∅ [] "chunk") [fs_x_x].


(** A function with no local yet, as [open_func] starts it, nested in the
    function above. *)
Definition fs_new : FuncState :=
  mkFuncState luaF_newproto 0 0 (-1) 0 0 0 0 0 0 0 0 [] ∅ ∅.

Definition ls_nested : LexState :=
  set_ls_fs (luaX_setinput ∅ [] "chunk") [fs_new; fs_x_x].

(** A function whose last instruction is an open call: [f(] [)] has been
    compiled, with the function in slot 0. *)
Definition fs_open_call : FuncState :=
  let code := <[0 := CREATE_U OP_GETGLOBAL 0]>
                (<[1 := CREATE_AB OP_CALL 0 255]> ∅) in
  mkFuncState (set_f_maxstacksize (set_f_code luaF_newproto code) 1)
    2 0 (-1) 0 0 0 0 1 0 0 0 [] ∅ ∅.

Definition ls_open_call : LexState :=
  set_ls_fs (luaX_setinput ∅ [] "chunk") [fs_open_call].

(** ** Table constructors *)

(** The kind of constructor sub-part that starts at the current token,
    as the grammar has it: nothing before a [;] or [}], record fields
    ([recfield -> (NAME | '[' exp1 ']') = exp1]) at a [NAME] followed by
    [=] or at a [[], list fields at any other token. *)
Inductive PartKind := PartEmpty | PartRecord | PartList.

Global Instance PartKind_eq_dec : EqDecision PartKind.
Proof. solve_decision. Defined.

(** The token after the current one, when none is held as look-ahead. *)
Definition peek (ls : LexState) : Z :=
  match ls_z ls with
  | [] => TK_EOS
  | it :: _ => tk_token (lx_token it)
  end.

Definition part_kind (ls : LexState) : PartKind :=
  let tok := tk_token (ls_t ls) in
  if (tok =? l_c ";") || (tok =? l_c "}") then PartEmpty
  else if tok =? TK_NAME then
    if peek ls =? l_c "=" then PartRecord else PartList
  else if tok =? l_c "[" then PartRecord
  else PartList.

(** [SETARG_U(fs->f->code[pc], nelems)] in the function being compiled. *)
Definition set_table_size (pc nelems : Z) : P unit :=
  fs ← getfs;
  putfs (set_fs_f fs
           (set_f_code (fs_f fs)
              (alter (fun i => SETARG_U i nelems) pc (f_code (fs_f fs))))).

Section ConstructorBody.
Context {cfg : Config} {emt : Emitter}.
Variable expr : expdesc -> P expdesc.
Variable fuel : nat.

(** What [constructor] parses between emitting [CREATETABLE] and
    checking the size: the braces and up to two sub-parts; the result is
    the total number of elements. *)
Definition constructor_body (line : Z) : P Z :=
  check (l_c "{");;
  cd ← constructor_part expr fuel;
  sep ← optional (l_c ";");
  nelems ← (if negb (sep =? 0) then
              other_cd ← constructor_part expr fuel;
              check_condition (negb (cd_k cd =? cd_k other_cd))
                "invalid constructor syntax";;
              mret (cd_n cd + cd_n other_cd)
            else mret (cd_n cd));
  check_match (l_c "}") (l_c "{") line;;
  mret nelems.

End ConstructorBody.

(** The lexical state of [luaY_parser] on the input [z] when it calls
    [chunk]: the main function is open and the first token is read. *)
Definition start (z : list LexItem) : LexState :=
  let ls := luaX_setinput ∅ z "chunk" in
  match (open_func;; next) ls with
  | Ok (_, ls') => ls'
  | _ => ls
  end.

(** The inputs [{1; 2}] and [{1, 2; a = 3}]. *)
Definition z_list_list : list LexItem :=
  [C "{" 1; NUMBER 1 1; C ";" 1; NUMBER 2 1; C "}" 1].
Definition z_list_record : list LexItem :=
  [C "{" 1; NUMBER 1 1; C "," 1; NUMBER 2 1; C ";" 1;
   NAME "a" 1; C "=" 1; NUMBER 3 1; C "}" 1].

(** The state an action leaves, for the examples. *)
Definition after {A} (m : P A) (ls : LexState) : LexState :=
  match m ls with
  | Ok (_, ls') => ls'
  | _ => ls
  end.

(** ** Expression statements *)

(** The tokens at which [simpleexp] goes on after a primary expression:
    [.], [[], [:] and the three beginnings of [funcargs]. *)
Definition continues (tok : Z) : bool :=
  (tok =? l_c ".") || (tok =? l_c "[") || (tok =? l_c ":")
  || (tok =? l_c "(") || (tok =? TK_STRING) || (tok =? l_c "{").

(** The tokens that begin a literal, a constructor or an upvalue
    reference. *)
Definition bare (tok : Z) : bool :=
  (tok =? TK_NIL) || (tok =? TK_NUMBER) || (tok =? TK_STRING)
  || (tok =? l_c "{") || (tok =? l_c "%").

(** The last instruction of the function, if there is one, is not a
    call. *)
Definition last_not_call (fs : FuncState) : Prop :=
  forall i, f_code (fs_f fs) !! (fs_pc fs - 1) = Some i ->
            GET_OPCODE i <> OP_CALL.

(** What the parser relies on when it asks the bytecode writer whether
    the last instruction is an open call (6, emitter contract; glossary,
    open call): only a function whose last instruction is a call has one,
    and after a number, a string, a nil or one of the instructions
    [PUSHUPVALUE], [CREATETABLE], [SETMAP], [SETLIST] has been written the
    last instruction is not a call. *)
Definition open_call_contract {emt : Emitter} : Prop :=
  (forall fs, luaK_lastisopen fs = true -> ~ last_not_call fs)
  /\ (forall ls fs r fs',
        luaK_number ls fs r = Ok (tt, fs') -> last_not_call fs')
  /\ (forall ls fs c fs',
        luaK_kstr ls fs c = Ok (tt, fs') -> last_not_call fs')
  /\ (forall ls fs fs',
        luaK_adjuststack ls fs (-1) = Ok (tt, fs') -> last_not_call fs')
  /\ (forall ls fs o a pc fs',
        o = OP_PUSHUPVALUE \/ o = OP_CREATETABLE \/ o = OP_SETMAP ->
        luaK_code1 ls fs o a = Ok (pc, fs') -> last_not_call fs')
  /\ (forall ls fs a b pc fs',
        luaK_code2 ls fs OP_SETLIST a b = Ok (pc, fs') -> last_not_call fs').

(** The statement [nil], the whole input. *)
Definition z_nil : list LexItem := [T TK_NIL 1].

(** The function being compiled has no call as its last instruction. *)
Definition cur_not_call (ls : LexState) : Prop :=
  exists fs prev, ls_fs ls = fs :: prev /\ last_not_call fs.

(** ** Local declarations *)

(** Every active slot of [fs] names a record of the local variables that
    has been registered (3, invariant 2). *)
Definition wf_actloc (fs : FuncState) : Prop :=
  forall i a, 0 <= i < fs_nactloc fs -> fs_actloc fs !! i = Some a ->
              a < fs_nlocvars fs.

(** The function being compiled, for statements about its fields. *)
Definition curfs (ls : LexState) : option FuncState := head (ls_fs ls).

(** [fs'] has the same active locals as [fs], and the bytecode writer has
    not been called in between: as many active slots, with the same names
    when [fs] is well formed, the same [pc], stack level and code. *)
Definition same_scope (fs fs' : FuncState) : Prop :=
  fs_nactloc fs' = fs_nactloc fs
  /\ fs_pc fs' = fs_pc fs
  /\ fs_stacklevel fs' = fs_stacklevel fs
  /\ f_code (fs_f fs') = f_code (fs_f fs)
  /\ (wf_actloc fs ->
      wf_actloc fs'
      /\ forall i, 0 <= i < fs_nactloc fs ->
                   actloc_name fs' i = actloc_name fs i).

(** The input [local x = x], after [local x = 1]. *)
Definition z_local_x_x : list LexItem :=
  [T TK_LOCAL 1; NAME "x" 1; C "=" 1; NUMBER 1 1;
   T TK_LOCAL 2; NAME "x" 2; C "=" 2; NAME "x" 2].

(** The state after the first statement of [z_local_x_x], and after the
    second. *)
Definition ls_local_x : LexState :=
  after (localstat (expr 5) 5) (start z_local_x_x).
Definition ls_local_x_x : LexState :=
  after (localstat (expr 5) 5) ls_local_x.

(** ** The symbolic stack at statement boundaries *)

(** What the stack accounting of a function being compiled depends on:
    the symbolic stack level, the number of active locals, the code
    written so far with [pc] and [lasttarget], the break labels and the
    upvalues. *)
Record Core := mkCore {
  c_sl : Z;
  c_na : Z;
  c_pc : Z;
  c_lt : Z;
  c_code : gmap Z Instruction;
  c_bl : list Breaklabel;
  c_upvalues : gmap Z expdesc;
  c_nup : Z
}.

Definition core (fs : FuncState) : Core :=
  mkCore (fs_stacklevel fs) (fs_nactloc fs) (fs_pc fs) (fs_lasttarget fs)
    (f_code (fs_f fs)) (fs_bl fs) (fs_upvalues fs) (f_nupvalues (fs_f fs)).

Definition cores (ls : LexState) : list Core := map core (ls_fs ls).

(** An open call: a [CALL] whose result count is still [MULT_RET]. *)
Definition open_instr (i : Instruction) : bool :=
  match i with
  | CREATE_AB OP_CALL _ b => b =? MULT_RET
  | _ => false
  end.

(** The last instruction written is a jump. *)
Definition isjump (c : Core) : bool :=
  match c_code c !! (c_pc c - 1) with
  | Some i => Writer.ISJUMP (GET_OPCODE i)
  | None => false
  end.

(** The last instruction written is an open call that no jump targets. *)
Definition isopen (c : Core) : bool :=
  if c_pc c >? c_lt c then
    match c_code c !! (c_pc c - 1) with
    | Some i => open_instr i
    | None => false
    end
  else false.

(** No label lies beyond the code, and the upvalues are variables. *)
Definition wf (c : Core) : Prop :=
  c_lt c <= c_pc c
  /\ 0 <= c_nup c
  /\ forall i u, c_upvalues c !! i = Some u -> k u = VLOCAL \/ k u = VGLOBAL.

(** The function has [N] active locals and its stack is at level [L]. *)
Definition st (N L : Z) (c : Core) : Prop :=
  wf c /\ c_na c = N /\ c_sl c = L.

(** A statement boundary of a block that started with [N] active
    locals. *)
Definition boundary (N : Z) (c : Core) : Prop :=
  wf c /\ N <= c_na c /\ c_sl c = c_na c.

(** The stack when the expression [v] has been parsed from level [L]: a
    local or a global variable has pushed nothing, an indexed variable its
    table and key; the value of an expression is on the stack unless the
    last instruction is the comparison that will push it, or the open call
    that will return it. *)
Definition shape (L : Z) (v : expdesc) (c : Core) : Prop :=
  match k v with
  | VLOCAL | VGLOBAL => c_sl c = L
  | VINDEXED => c_sl c = L + 2
  | VEXP =>
      if isopen c then
        c_sl c = L /\ u_l_t v = NO_JUMP /\ u_l_f v = NO_JUMP
      else if isjump c then c_sl c = L
      else c_sl c = L + 1
  end.

(** The stack when a list of [n] expressions has been parsed from level
    [L]: the last one may be an open call. *)
Definition listed (L n : Z) (c : Core) : Prop :=
  if isopen c then c_sl c = L + n - 1 else c_sl c = L + n.

(** What the writer leaves alone. *)
Definition fr (c0 c : Core) : Prop :=
  c_na c = c_na c0 /\ c_bl c = c_bl c0
  /\ c_upvalues c = c_upvalues c0 /\ c_nup c = c_nup c0.

(** A writer action that appends no instruction: it may patch jumps and
    place a label at the current position. *)
Definition quiet (c0 c : Core) : Prop :=
  fr c0 c /\ c_sl c = c_sl c0 /\ c_pc c = c_pc c0
  /\ (c_lt c = c_lt c0 \/ c_lt c = c_pc c0)
  /\ isjump c = isjump c0
  /\ (isopen c = true -> isopen c0 = true).

(** Specifications of the actions: from the state [c0] the action does not
    fail an assertion, and its result and final state satisfy [Post]. *)
Definition ktriple {A} (c0 : Core) (m : Writer.K A)
    (Post : A -> Core -> Prop) : Prop :=
  forall fs, core fs = c0 ->
    match m fs with
    | Ok (a, fs') => Post a (core fs')
    | Err e => e <> E_assert
    | Timeout => True
    end.

Definition htriple {A} (cs0 : list Core) (m : P A)
    (Post : A -> list Core -> Prop) : Prop :=
  forall ls, cores ls = cs0 ->
    match m ls with
    | Ok (a, ls') => Post a (cores ls')
    | Err e => e <> E_assert
    | Timeout => True
    end.

(** The same for an action on the function being compiled, which leaves
    the enclosing functions as they are. *)
Definition triple {A} (c0 : Core) (m : P A) (Post : A -> Core -> Prop)
  : Prop :=
  forall rest,
    htriple (c0 :: rest) m (fun a cs => exists c, cs = c :: rest /\ Post a c).

(** The instruction that [luaK_code2] writes for [o] with the operands
    [a] and [b], whether it writes none, and the state once it is
    written. *)
Definition instr (o : OpCode) (a b : Z) : Instruction :=
  match Writer.opmode o with
  | Writer.iO => CREATE_0 o
  | Writer.iU => CREATE_U o a
  | Writer.iS => CREATE_S o a
  | Writer.iAB => CREATE_AB o a b
  end.

Definition is_nop (o : OpCode) (a : Z) : bool :=
  match o with
  | OP_PUSHNIL | OP_POP => a =? 0
  | _ => false
  end.

Definition pushed (c0 : Core) (o : OpCode) (a b : Z) : Core :=
  mkCore (c_sl c0 + Writer.opdelta o a b (c_sl c0)) (c_na c0) (c_pc c0 + 1)
    (c_lt c0) (<[c_pc c0 := instr o a b]> (c_code c0)) (c_bl c0)
    (c_upvalues c0) (c_nup c0).

(** The state with the instruction at [pc] changed by [g], and the changes
    that keep a jump a jump and open no call. *)
Definition altered (c0 : Core) (g : Instruction -> Instruction) (pc : Z)
  : Core :=
  mkCore (c_sl c0) (c_na c0) (c_pc c0) (c_lt c0) (alter g pc (c_code c0))
    (c_bl c0) (c_upvalues c0) (c_nup c0).

Definition benign (g : Instruction -> Instruction) (i : Instruction)
  : Prop :=
  Writer.ISJUMP (GET_OPCODE (g i)) = Writer.ISJUMP (GET_OPCODE i)
  /\ (open_instr (g i) = true -> open_instr i = true).

(** Neither a jump nor an open call ends the code. *)
Definition plain (c : Core) : Prop := isjump c = false /\ isopen c = false.

(** The stack slots of a variable that is the target of an assignment. *)
Definition slots (v : expdesc) : Z :=
  if bool_decide (k v = VINDEXED) then 2 else 0.

(** The operands that a binary operator keeps on the stack while its
    second operand is parsed. *)
Definition kept (op : BinOpr) : Z :=
  match op with
  | OPR_AND | OPR_OR => 0
  | _ => 1
  end.

(** The state [c] comes from [c0] by writer actions that move the stack
    by [d] in all. *)
Definition moved (d : Z) (c0 c : Core) : Prop :=
  fr c0 c /\ c_sl c = c_sl c0 + d /\ (wf c0 -> wf c).

(** The value of an expression parsed from level [L] is on the stack, or
    the jump that ends the code will push it; no call is open. *)
Definition closed (L : Z) (c : Core) : Prop :=
  isopen c = false /\ if isjump c then c_sl c = L else c_sl c = L + 1.

(** A parser action that leaves the stack accounting of every function
    as it is, and fails no assertion. *)
Definition neutral {A} (m : P A) : Prop :=
  forall ls,
    match m ls with
    | Ok (_, ls') => cores ls' = cores ls
    | Err e => e <> E_assert
    | Timeout => True
    end.

(** The function has [N] active locals and the expression [v] has been
    parsed from level [L]. *)
Definition shaped (N L : Z) (v : expdesc) (c : Core) : Prop :=
  wf c /\ c_na c = N /\ shape L v c.

(** The state with [n] more active locals. *)
Definition grown (c0 : Core) (n : Z) : Core :=
  mkCore (c_sl c0) (c_na c0 + n) (c_pc c0) (c_lt c0) (c_code c0) (c_bl c0)
    (c_upvalues c0) (c_nup c0).

(** The state with the upvalue [v] added, and with other break labels. *)
Definition upvalued (c0 : Core) (v : expdesc) : Core :=
  mkCore (c_sl c0) (c_na c0) (c_pc c0) (c_lt c0) (c_code c0) (c_bl c0)
    (<[c_nup c0 := v]> (c_upvalues c0)) (c_nup c0 + 1).

Definition relabelled (c0 : Core) (bl : list Breaklabel) : Core :=
  mkCore (c_sl c0) (c_na c0) (c_pc c0) (c_lt c0) (c_code c0) bl
    (c_upvalues c0) (c_nup c0).

(** The state with the stack level set to [L]. *)
Definition levelled (c0 : Core) (L : Z) : Core :=
  mkCore L (c_na c0) (c_pc c0) (c_lt c0) (c_code c0) (c_bl c0)
    (c_upvalues c0) (c_nup c0).

(** The state of a function that [open_func] has just opened. *)
Definition core_open : Core := mkCore 0 0 0 0 ∅ [] ∅ 0.

(** The function has [N] active locals, whatever its stack level. *)
Definition ws (N : Z) (c : Core) : Prop := wf c /\ c_na c = N.

(** A program with statements of several kinds:
    [local t = {1, f(); x = 2}
     while t.x < 3 do t:m(t.x) ; if not t then break end end
     local g = function (a, ...) return %t, a end]. *)
Definition z_boundaries : list LexItem :=
  [T TK_LOCAL 1; NAME "t" 1; C "=" 1; C "{" 1; NUMBER 1 1; C "," 1;
   NAME "f" 1; C "(" 1; C ")" 1; C ";" 1; NAME "x" 1; C "=" 1; NUMBER 2 1;
   C "}" 1;
   T TK_WHILE 2; NAME "t" 2; C "." 2; NAME "x" 2; C "<" 2; NUMBER 3 2;
   T TK_DO 2; NAME "t" 2; C ":" 2; NAME "m" 2; C "(" 2; NAME "t" 2; C "." 2;
   NAME "x" 2; C ")" 2; C ";" 2; T TK_IF 2; T TK_NOT 2; NAME "t" 2;
   T TK_THEN 2; T TK_BREAK 2; T TK_END 2; T TK_END 2;
   T TK_LOCAL 3; NAME "g" 3; C "=" 3; T TK_FUNCTION 3; C "(" 3; NAME "a" 3;
   C "," 3; T TK_DOTS 3; C ")" 3; T TK_RETURN 3; C "%" 3; NAME "t" 3;
   C "," 3; NAME "a" 3; T TK_END 3].

(** Two parser actions agree: from a state with a function being
    compiled, the first fails an assertion, or both do the same and leave
    as many functions being compiled. *)
Definition agree {A} (m1 m2 : P A) : Prop :=
  forall ls, ls_fs ls <> [] ->
    m1 ls = Err E_assert
    \/ (m1 ls = m2 ls
        /\ forall a ls', m1 ls = Ok (a, ls') ->
                         length (ls_fs ls') = length (ls_fs ls)).

(** The same from a state with at least [p] functions being compiled, for
    actions that leave [d] more of them. *)
Definition agree_at (p d : Z) {A} (m1 m2 : P A) : Prop :=
  forall ls, p <= Z.of_nat (length (ls_fs ls)) ->
    m1 ls = Err E_assert
    \/ (m1 ls = m2 ls
        /\ forall a ls', m1 ls = Ok (a, ls') ->
             Z.of_nat (length (ls_fs ls'))
             = Z.of_nat (length (ls_fs ls)) + d).

(** ** The tokens that begin a rule *)

(** The tokens at which [primaryexp] finds a primary expression (the
    cases of its [switch]), and the tokens at which [statement] finds a
    statement other than an expression statement. *)
Definition begins_primary (tok : Z) : bool :=
  (tok =? TK_NUMBER) || (tok =? TK_STRING) || (tok =? TK_NIL)
  || (tok =? l_c "{") || (tok =? TK_FUNCTION) || (tok =? l_c "(")
  || (tok =? TK_NAME) || (tok =? l_c "%").

Definition begins_statement (tok : Z) : bool :=
  (tok =? TK_IF) || (tok =? TK_WHILE) || (tok =? TK_DO) || (tok =? TK_FOR)
  || (tok =? TK_REPEAT) || (tok =? TK_FUNCTION) || (tok =? TK_LOCAL)
  || (tok =? TK_RETURN) || (tok =? TK_BREAK).

(** ** What the parser owns of a function state *)

(** The fields of a function state that lparser.c writes and the calls of
    the bytecode writer are not meant to change: the active locals and the
    names of the registered ones, the string constants, the nested
    prototypes, the break labels, the upvalues, and what [open_func],
    [body] and [code_params] record of the function. *)
Record Owned := mkOwned {
  o_nactloc : Z;
  o_actloc : gmap Z Z;
  o_names : gmap Z TString;
  o_nlocvars : Z;
  o_kstr : gmap Z TString;
  o_nkstr : Z;
  o_kproto : gmap Z Proto;
  o_nkproto : Z;
  o_bl : list Breaklabel;
  o_upvalues : gmap Z expdesc;
  o_nupvalues : Z;
  o_numparams : Z;
  o_is_vararg : Z;
  o_lineDefined : Z;
  o_source : TString
}.

Definition owned (fs : FuncState) : Owned :=
  mkOwned (fs_nactloc fs) (fs_actloc fs) (varname <$> f_locvars (fs_f fs))
    (fs_nlocvars fs) (f_kstr (fs_f fs)) (fs_nkstr fs) (f_kproto (fs_f fs))
    (fs_nkproto fs) (fs_bl fs) (fs_upvalues fs) (f_nupvalues (fs_f fs))
    (f_numparams (fs_f fs)) (f_is_vararg (fs_f fs))
    (f_lineDefined (fs_f fs)) (f_source (fs_f fs)).

(** The result of a call of the bytecode writer on [fs] leaves these fields
    as they are. *)
Definition untouched {A} (fs : FuncState) (r : Res (A * FuncState)) : Prop :=
  match r with
  | Ok (_, fs') => owned fs' = owned fs
  | _ => True
  end.

(** A bytecode writer that writes none of the fields the parser owns:
    what the parser relies on when it keeps a count or an index across a
    call of [luaK_*] (lcode.c is not among the sources). *)
Class EmitterFrame {emt : Emitter} : Prop := {
  frame_code1 : forall ls fs o a, untouched fs (luaK_code1 ls fs o a);
  frame_code2 : forall ls fs o a b, untouched fs (luaK_code2 ls fs o a b);
  frame_kstr : forall ls fs c, untouched fs (luaK_kstr ls fs c);
  frame_number : forall ls fs r, untouched fs (luaK_number ls fs r);
  frame_adjuststack :
    forall ls fs n, untouched fs (luaK_adjuststack ls fs n);
  frame_deltastack : forall ls fs n, untouched fs (luaK_deltastack ls fs n);
  frame_setcallreturns :
    forall ls fs n, untouched fs (luaK_setcallreturns ls fs n);
  frame_tostack : forall ls fs v o, untouched fs (luaK_tostack ls fs v o);
  frame_storevar : forall ls fs v, untouched fs (luaK_storevar ls fs v);
  frame_getlabel : forall ls fs, untouched fs (luaK_getlabel ls fs);
  frame_jump : forall ls fs, untouched fs (luaK_jump ls fs);
  frame_patchlist :
    forall ls fs l t, untouched fs (luaK_patchlist ls fs l t);
  frame_concat : forall ls fs l1 l2, untouched fs (luaK_concat ls fs l1 l2);
  frame_goiftrue :
    forall ls fs v kv, untouched fs (luaK_goiftrue ls fs v kv);
  frame_prefix : forall ls fs op v, untouched fs (luaK_prefix ls fs op v);
  frame_infix : forall ls fs op v, untouched fs (luaK_infix ls fs op v);
  frame_posfix :
    forall ls fs op v1 v2, untouched fs (luaK_posfix ls fs op v1 v2);
  frame_fixfor : forall ls fs pc d, untouched fs (luaK_fixfor ls fs pc d)
}.

(** The stack levels of the break labels, innermost loop first. *)
Definition levels (o : Owned) : list Z := map bl_stacklevel (o_bl o).

(** [o'] continues [o]: the function may have more active locals, more
    registered locals, constants, nested prototypes and upvalues, and
    what [o] had of them is still there at the same indices; the break
    labels are those of the same loops, and the parameters, the line and
    the source are the same. *)
Record extends (o o' : Owned) : Prop := mkExtends {
  ext_nactloc : o_nactloc o <= o_nactloc o';
  ext_actloc :
    forall i, i < o_nactloc o -> o_actloc o' !! i = o_actloc o !! i;
  ext_nlocvars : o_nlocvars o <= o_nlocvars o';
  ext_names : forall a, a < o_nlocvars o -> o_names o' !! a = o_names o !! a;
  ext_nkstr : o_nkstr o <= o_nkstr o';
  ext_kstr : forall c, c < o_nkstr o -> o_kstr o' !! c = o_kstr o !! c;
  ext_nkproto : o_nkproto o <= o_nkproto o';
  ext_kproto :
    forall c, c < o_nkproto o -> o_kproto o' !! c = o_kproto o !! c;
  ext_nupvalues : o_nupvalues o <= o_nupvalues o';
  ext_upvalues :
    forall i, i < o_nupvalues o -> o_upvalues o' !! i = o_upvalues o !! i;
  ext_levels : levels o' = levels o;
  ext_numparams : o_numparams o' = o_numparams o;
  ext_is_vararg : o_is_vararg o' = o_is_vararg o;
  ext_lineDefined : o_lineDefined o' = o_lineDefined o;
  ext_source : o_source o' = o_source o
}.

(** The same with as many active locals as before. *)
Definition steady (o o' : Owned) : Prop :=
  extends o o' /\ o_nactloc o' = o_nactloc o.

(** What compiling a nested function may do to an enclosing one: add
    string constants (the names of global upvalues). *)
Definition outer (o o' : Owned) : Prop :=
  steady o o' /\ o_nupvalues o' = o_nupvalues o
  /\ o_nkproto o' = o_nkproto o.

(** The break labels are those of the same loops, and the function is
    defined at the same line of the same source. *)
Definition labelled (o o' : Owned) : Prop :=
  levels o' = levels o /\ o_lineDefined o' = o_lineDefined o
  /\ o_source o' = o_source o.

(** The chain of functions being compiled goes from [l] to [l']: the
    function being compiled by [H], the enclosing ones by [outer]; a
    function that has no enclosing function gets no upvalue. *)
Definition chained (H : Owned -> Owned -> Prop) (l l' : list FuncState)
  : Prop :=
  match l, l' with
  | [], [] => True
  | fs :: prev, fs' :: prev' =>
      H (owned fs) (owned fs')
      /\ Forall2 (fun g g' => outer (owned g) (owned g')) prev prev'
      /\ (prev = [] -> f_nupvalues (fs_f fs') = f_nupvalues (fs_f fs))
  | _, _ => False
  end.

(** A parser action that, when it returns, has taken the chain of
    functions being compiled along [R]. *)
Definition keeps (R : list FuncState -> list FuncState -> Prop) {A}
    (m : P A) : Prop :=
  forall ls a ls', m ls = Ok (a, ls') -> R (ls_fs ls) (ls_fs ls').

(** The same for an action that runs where [fs] is the function being
    compiled. *)
Definition keeps_at (fs : FuncState)
    (R : list FuncState -> list FuncState -> Prop) {A} (m : P A) : Prop :=
  forall ls prev a ls',
    ls_fs ls = fs :: prev -> m ls = Ok (a, ls') -> R (ls_fs ls) (ls_fs ls').

(** The chain with the innermost break label of the function being
    compiled taken off, and an action that takes it off: it runs in a
    loop and leaves it. *)
Definition unlabel (l : list FuncState) : list FuncState :=
  match l with
  | fs :: prev => set_fs_bl fs (tail (fs_bl fs)) :: prev
  | [] => []
  end.

Definition leaves (l l' : list FuncState) : Prop :=
  (exists fs prev, l = fs :: prev /\ fs_bl fs <> [])
  /\ chained steady (unlabel l) l'.

(** A writer action that keeps the fields the parser owns at [o]. *)
Definition kkeeps (o : Owned) {A} (m : Writer.K A) : Prop :=
  forall fs, owned fs = o ->
    match m fs with
    | Ok (_, fs') => owned fs' = o
    | _ => True
    end.

(** The owned fields with [n] active locals. *)
Definition set_o_nactloc (o : Owned) (n : Z) : Owned :=
  mkOwned n (o_actloc o) (o_names o) (o_nlocvars o) (o_kstr o) (o_nkstr o)
    (o_kproto o) (o_nkproto o) (o_bl o) (o_upvalues o) (o_nupvalues o)
    (o_numparams o) (o_is_vararg o) (o_lineDefined o) (o_source o).

(** The chain once the function being compiled has entered a loop. *)
Definition enters (l l' : list FuncState) : Prop :=
  exists fs prev b, l = fs :: prev /\ l' = set_fs_bl fs (b :: fs_bl fs) :: prev.

(** Actions that leave the chain of functions as it is. *)
Definition same_fs {A} (m : P A) : Prop :=
  forall ls a ls', m ls = Ok (a, ls') -> ls_fs ls' = ls_fs ls.

(** The chain while a nested function is being compiled: the enclosing
    functions go by [outer], whatever happens to the nested one; and an
    action that closes the nested function and goes on in the enclosing
    one. *)
Definition inner (l l' : list FuncState) : Prop :=
  match l, l' with
  | [], [] => True
  | _ :: prev, _ :: prev' =>
      Forall2 (fun g g' => outer (owned g) (owned g')) prev prev'
  | _, _ => False
  end.

Definition closes (l l' : list FuncState) : Prop :=
  match l with
  | _ :: prev => chained steady prev l'
  | [] => False
  end.

(** ** Function bodies *)

Section BodyHead.
Context {cfg : Config} {emt : Emitter}.

(** What [body] does before it parses the block of the function: it opens
    the function, records the line, and parses the parameters between
    the parentheses. *)
Definition body_head (fuel : nat) (needself line : Z) : P unit :=
  open_func;;
  fs ← getfs;
  putfs (set_fs_f fs (set_f_lineDefined (fs_f fs) line));;
  check (l_c "(");;
  (if negb (needself =? 0) then
     new_localvarstr "self" 0;;
     adjustlocalvars 1
   else mret tt);;
  parlist fuel;;
  check (l_c ")").

End BodyHead.

(** ** Progress through the input *)

(** The tokens that are still to be parsed: the current token and the
    look-ahead token, unless they are the end of the stream, and the
    items of the input that the lexer has not read. *)
Definition pending (ls : LexState) : Z :=
  (if tk_token (ls_t ls) =? TK_EOS then 0 else 1)
  + (if tk_token (ls_lookahead ls) =? TK_EOS then 0 else 1)
  + Z.of_nat (length (ls_z ls)).

(** An action that gives no token back, and leaves the look-ahead buffer
    empty if it finds it empty. *)
Definition reads {A} (m : P A) : Prop :=
  forall ls a ls',
    m ls = Ok (a, ls') ->
    pending ls' <= pending ls
    /\ (tk_token (ls_lookahead ls) = TK_EOS ->
        tk_token (ls_lookahead ls') = TK_EOS).

(** An action that does not touch the lexer. *)
Definition still {A} (m : P A) : Prop :=
  forall ls a ls',
    m ls = Ok (a, ls') ->
    ls_t ls' = ls_t ls /\ ls_lookahead ls' = ls_lookahead ls
    /\ ls_z ls' = ls_z ls.

(** An action that leaves the current token where it is, and may read
    the one behind it. *)
Definition peeks {A} (m : P A) : Prop :=
  forall ls a ls',
    m ls = Ok (a, ls') -> ls_t ls' = ls_t ls /\ pending ls' <= pending ls.

(** An action that takes the current token: it leaves fewer tokens than it
    finds, unless it runs at the end of the stream, and it leaves the
    look-ahead buffer empty. *)
Definition eats {A} (m : P A) : Prop :=
  forall ls a ls',
    m ls = Ok (a, ls') ->
    pending ls' <= pending ls
    /\ (tk_token (ls_t ls) <> TK_EOS -> pending ls' < pending ls)
    /\ tk_token (ls_lookahead ls') = TK_EOS.

(** * Proofs *)

(** ** The parser monad *)

Lemma bind_Ok {A B} (m : P A) (g : A -> P B) ls a ls' :
  m ls = Ok (a, ls') -> (m ≫= g) ls = g a ls'.
Proof. intros E. unfold mbind, P_mbind, bind. by rewrite E. Qed.

Lemma bind_Err {A B} (m : P A) (g : A -> P B) ls e :
  m ls = Err e -> (m ≫= g) ls = Err e.
Proof. intros E. unfold mbind, P_mbind, bind. by rewrite E. Qed.

Lemma bind_Timeout {A B} (m : P A) (g : A -> P B) ls :
  m ls = Timeout -> (m ≫= g) ls = Timeout.
Proof. intros E. unfold mbind, P_mbind, bind. by rewrite E. Qed.

Lemma bind_inv_Ok {A B} (m : P A) (g : A -> P B) ls r :
  (m ≫= g) ls = Ok r -> exists a ls', m ls = Ok (a, ls') /\ g a ls' = Ok r.
Proof.
  unfold mbind, P_mbind, bind. destruct (m ls) as [[a ls']| |]; try done.
  intros E. by exists a, ls'.
Qed.

(** ** Name resolution *)

Lemma search_actloc_Some fs n c i :
  search_actloc fs n c = Some i ->
  0 <= i < Z.of_nat c /\ actloc_name fs i = Some n
  /\ forall j, i < j < Z.of_nat c -> actloc_name fs j <> Some n.
Proof.
  induction c as [|c IH]; simpl; [done|].
  case_bool_decide as Hn.
  - intros [= <-]. split; [lia|]. split; [done|]. intros j ?; lia.
  - intros Hs. destruct (IH Hs) as (? & ? & Hj).
    split; [lia|]. split; [done|]. intros j ?.
    destruct (decide (j = Z.of_nat c)) as [->|]; [done|]. apply Hj. lia.
Qed.

Lemma search_actloc_None fs n c :
  search_actloc fs n c = None ->
  forall j, 0 <= j < Z.of_nat c -> actloc_name fs j <> Some n.
Proof.
  induction c as [|c IH]; simpl; [intros _ j ?; lia|].
  case_bool_decide as Hn; [done|].
  intros Hs j ?. destruct (decide (j = Z.of_nat c)) as [->|]; [done|].
  apply IH; [done|lia].
Qed.

Lemma search_actloc_innermost fs n i :
  innermost fs n i ->
  search_actloc fs n (Z.to_nat (fs_nactloc fs)) = Some i.
Proof.
  intros [[Hi Hn] Hmax].
  destruct (search_actloc fs n (Z.to_nat (fs_nactloc fs))) as [i'|] eqn:E.
  - apply search_actloc_Some in E as (Hi' & Hn' & Hj).
    f_equal. destruct (Z.lt_trichotomy i i') as [?|[?|?]]; [|done|].
    + exfalso. apply (Hmax i'); [done|]. split; [lia|done].
    + exfalso. apply (Hj i); [lia|done].
  - exfalso. eapply search_actloc_None; [done| |done]. lia.
Qed.

Lemma search_actloc_inactive fs n :
  inactive fs n <-> search_actloc fs n (Z.to_nat (fs_nactloc fs)) = None.
Proof.
  split.
  - intros Hin.
    destruct (search_actloc fs n (Z.to_nat (fs_nactloc fs))) as [i|] eqn:E;
      [|done].
    apply search_actloc_Some in E as (Hi & Hn & _).
    exfalso. apply (Hin i). split; [lia|done].
  - intros E i [Hi Hn]. eapply search_actloc_None; [done| |done]. lia.
Qed.

Lemma search_chain_inactive chain n var level :
  (forall g, g ∈ chain -> inactive g n) ->
  search_chain chain n var level = (-1, set_k var VGLOBAL).
Proof.
  revert level. induction chain as [|fs prev IH]; intros level Hall; [done|].
  simpl. assert (inactive fs n) as Hfs by (apply Hall; left).
  apply search_actloc_inactive in Hfs as ->.
  apply IH. intros g ?. apply Hall. by right.
Qed.

Lemma search_chain_level chain n var level :
  (exists g, g ∈ chain /\ ~ inactive g n) ->
  level <= (search_chain chain n var level).1.
Proof.
  revert level. induction chain as [|fs prev IH]; intros level (g & Hg & Hn).
  - by apply elem_of_nil in Hg.
  - simpl.
    destruct (search_actloc fs n (Z.to_nat (fs_nactloc fs))) eqn:E; [done|].
    apply search_actloc_inactive in E.
    apply elem_of_cons in Hg as [->|Hg]; [done|].
    etrans; [|apply IH; eauto]. lia.
Qed.

(** What [string_constant] returns: an index at which the vector holds
    the string; the constants already there keep their places, and
    nothing else of the function changes. *)
Section StringConstant.
Context {cfg : Config}.

Lemma string_constant_spec fs s ci :
  match string_constant fs s ci with
  | Ok (c, fs', ci') =>
      f_kstr (fs_f fs') !! c = Some s /\ c < fs_nkstr fs'
      /\ fs_nkstr fs <= fs_nkstr fs'
      /\ (forall i, i < fs_nkstr fs ->
           f_kstr (fs_f fs') !! i = f_kstr (fs_f fs) !! i)
      /\ fs_nactloc fs' = fs_nactloc fs /\ fs_actloc fs' = fs_actloc fs
      /\ f_locvars (fs_f fs') = f_locvars (fs_f fs)
      /\ fs_upvalues fs' = fs_upvalues fs
      /\ f_nupvalues (fs_f fs') = f_nupvalues (fs_f fs)
  | Err e => e = E_mem "constant table overflow"
  | Timeout => False
  end.
Proof.
  unfold string_constant.
  destruct (_ || _) eqn:Hc.
  - unfold luaM_growvector, luaM_growaux.
    repeat case_match; simplify_eq/=; try done.
    all: rewrite lookup_insert_eq; split_and!; try done; try lia.
    all: intros i ?; rewrite lookup_insert_ne; [done|lia].
  - apply orb_false_iff in Hc as [Hlt Heq].
    apply negb_false_iff, bool_decide_eq_true in Heq.
    split_and!; try done; lia.
Qed.

End StringConstant.

Section Resolution.
Context {cfg : Config}.

Lemma string_constant_fs_eq s ls fs prev :
  ls_fs ls = fs :: prev ->
  string_constant_fs s ls =
    match string_constant fs s (ls_constindex ls) with
    | Ok (c, fs', ci) =>
        Ok (c, set_ls_constindex (set_ls_fs ls (fs' :: prev)) ci)
    | Err e => Err e
    | Timeout => Timeout
    end.
Proof.
  intros Hfs. unfold string_constant_fs. rewrite Hfs.
  by destruct (string_constant _ _ _) as [[[??]?]| |].
Qed.

Lemma singlevar_eq n var ls :
  singlevar n var ls =
    let '(level, v) := search_local ls n var in
    if level >=? 1 then
      Err (E_syntaxerror "cannot access a variable in outer function" n)
    else if level =? -1 then
      match string_constant_fs n ls with
      | Ok (c, ls') => Ok (set_u_index v c, ls')
      | Err e => Err e
      | Timeout => Timeout
      end
    else Ok (v, ls).
Proof.
  unfold singlevar, mbind, P_mbind, bind, get.
  destruct (search_local ls n var) as [level v].
  by repeat case_match.
Qed.

(** C1.  A bare NAME used as a variable, in a function [fs] whose
    enclosing functions are [prev]: an active local of [fs] gives [VLOCAL]
    with the highest slot of that name (the scan goes from the highest slot
    down, so the most recent binding wins) and changes nothing; a name
    active only in an enclosing function fails with "cannot access a
    variable in outer function"; a name active nowhere gives [VGLOBAL] with
    the index of the name in the string constants of [fs], where it now is
    (the constants already there keep their places), unless the constant
    vector overflows. *)
Theorem singlevar_resolution (ls : LexState) (n : TString) (var : expdesc)
    (fs : FuncState) (prev : list FuncState) :
  ls_fs ls = fs :: prev ->
  (forall i, innermost fs n i ->
     singlevar n var ls = Ok (set_u_index (set_k var VLOCAL) i, ls))
  /\ (inactive fs n -> (exists g, g ∈ prev /\ ~ inactive g n) ->
      singlevar n var ls =
        Err (E_syntaxerror "cannot access a variable in outer function" n))
  /\ (inactive fs n -> (forall g, g ∈ prev -> inactive g n) ->
      (exists c fs' ci,
          singlevar n var ls =
            Ok (set_u_index (set_k var VGLOBAL) c,
                set_ls_constindex (set_ls_fs ls (fs' :: prev)) ci)
          /\ f_kstr (fs_f fs') !! c = Some n
          /\ c < fs_nkstr fs'
          /\ (forall i, i < fs_nkstr fs ->
               f_kstr (fs_f fs') !! i = f_kstr (fs_f fs) !! i))
      \/ singlevar n var ls = Err (E_mem "constant table overflow")).
Proof.
  intros Hfs. rewrite singlevar_eq. unfold search_local. rewrite Hfs.
  simpl. split_and!.
  - intros i Hi. by rewrite (search_actloc_innermost _ _ _ Hi).
  - intros Hin Hout.
    apply search_actloc_inactive in Hin as ->.
    pose proof (search_chain_level prev n var (0 + 1) Hout) as Hl.
    destruct (search_chain prev n var (0 + 1)) as [level v]. simpl in Hl.
    by rewrite (proj2 (Z.geb_le level 1)) by lia.
  - intros Hin Hout.
    apply search_actloc_inactive in Hin as ->.
    rewrite (search_chain_inactive prev n var (0 + 1) Hout). simpl.
    rewrite (string_constant_fs_eq _ _ _ _ Hfs).
    pose proof (string_constant_spec fs n (ls_constindex ls)) as Hs.
    destruct (string_constant fs n (ls_constindex ls)) as [[[c fs'] ci]|e|];
      [|right; by subst|done].
    left. exists c, fs', ci. destruct Hs as (?&?&?&?&?). by split_and!.
Qed.

End Resolution.

Lemma singlevar_resolution_witness :
  singlevar "x" expdesc_auto ls_x_x
  = Ok (mkexpdesc VLOCAL 1 0 0, ls_x_x).
Proof.
  apply (proj1 (singlevar_resolution ls_x_x "x"
                  expdesc_auto fs_x_x [] eq_refl) 1).
  split; [split; [simpl; lia|reflexivity]|].
  intros j Hj [Hr _]. simpl in Hr. lia.
Defined.

Lemma search_actloc_Some_innermost fs n i :
  search_actloc fs n (Z.to_nat (fs_nactloc fs)) = Some i -> innermost fs n i.
Proof.
  intros (Hi & Hn & Hj)%search_actloc_Some.
  split; [split; [lia|done]|].
  intros j Hlt [Hr Hjn]. apply (Hj j); [lia|done].
Qed.

Lemma search_chain_cases chain n var level :
  ((forall g, g ∈ chain -> inactive g n)
   /\ search_chain chain n var level = (-1, set_k var VGLOBAL))
  \/ ((exists g, g ∈ chain /\ ~ inactive g n)
      /\ level <= (search_chain chain n var level).1).
Proof.
  revert level. induction chain as [|fs prev IH]; intros level.
  - left. split; [|done]. by intros g ?%elem_of_nil.
  - simpl.
    destruct (search_actloc fs n (Z.to_nat (fs_nactloc fs))) as [i|] eqn:E.
    + right. split; [|done]. exists fs. split; [left|].
      intros Hin. apply search_actloc_inactive in Hin. congruence.
    + apply search_actloc_inactive in E.
      destruct (IH (level + 1)) as [[Hall ->]|[(g & Hg & Hn) Hl]].
      * left. split; [|done]. intros g [->|?]%elem_of_cons; auto.
      * right. split; [|lia]. exists g. split; [by right|done].
Qed.

(** ** Upvalues *)

Lemma indexupvalue_loop_Some fs v i count j :
  indexupvalue_loop fs v i count = Some j ->
  i <= j < i + Z.of_nat count
  /\ exists u, fs_upvalues fs !! j = Some u /\ k u = k v
               /\ u_index u = u_index v.
Proof.
  revert i. induction count as [|count IH]; intros i; simpl; [done|].
  destruct (fs_upvalues fs !! i) as [u|] eqn:Hu.
  - destruct (bool_decide (k u = k v) && (u_index u =? u_index v)) eqn:Hm.
    + intros [= <-]. apply andb_true_iff in Hm as [Hk Hi].
      apply bool_decide_eq_true in Hk. apply Z.eqb_eq in Hi.
      split; [lia|]. by exists u.
    + intros Hs. destruct (IH _ Hs) as [? ?]. split; [lia|done].
  - intros Hs. destruct (IH _ Hs) as [? ?]. split; [lia|done].
Qed.

Lemma set_ls_fs_id ls x : ls_fs ls = x -> set_ls_fs ls x = ls.
Proof. destruct ls; simpl; by intros ->. Qed.

Section Upvalues.
Context {cfg : Config} {emt : Emitter}.

(** [indexupvalue] returns an index below [nupvalues] at which the
    function holds a descriptor of the same kind and index as [v]; it
    touches nothing but the upvalues of the function being compiled. *)
Lemma indexupvalue_spec v ls fs prev i ls' :
  ls_fs ls = fs :: prev ->
  indexupvalue v ls = Ok (i, ls') ->
  exists fs',
    ls' = set_ls_fs ls (fs' :: prev)
    /\ i < f_nupvalues (fs_f fs')
    /\ (exists u, fs_upvalues fs' !! i = Some u /\ k u = k v
                  /\ u_index u = u_index v)
    /\ f_kstr (fs_f fs') = f_kstr (fs_f fs)
    /\ fs_nactloc fs' = fs_nactloc fs.
Proof.
  intros Hfs. unfold indexupvalue, mbind, P_mbind, bind, getfs.
  rewrite Hfs.
  destruct (indexupvalue_loop _ _ _ _) as [j|] eqn:Hl.
  - intros [= <- <-]. exists fs.
    apply indexupvalue_loop_Some in Hl as [Hj Hu].
    split_and!; try done.
    + symmetry. by apply set_ls_fs_id.
    + lia.
  - unfold luaX_checklimit, throw. destruct (_ >? _); [done|].
    unfold mret, P_mret, ret, putfs. rewrite Hfs.
    intros [= <- <-]. eexists. split_and!; [done|simpl; lia| |done|done].
    exists v. simpl. by rewrite lookup_insert_eq.
Qed.

Lemma pushupvalue_eq n ls :
  pushupvalue n ls =
    let '(level, v) := search_local ls n expdesc_auto in
    if level =? -1 then
      match ls_fs ls with
      | [] => Err E_null
      | [_] =>
          Err (E_syntaxerror "cannot access an upvalue at top level" n)
      | _ :: _ :: _ =>
          match string_constant_prev n ls with
          | Ok (c, ls1) => pushupvalue_emit (set_u_index v c) ls1
          | Err e => Err e
          | Timeout => Timeout
          end
      end
    else if negb (level =? 1) then
      Err (E_syntaxerror
             "upvalue must be global or local to immediately outer function"
             n)
    else pushupvalue_emit v ls.
Proof.
  unfold pushupvalue, pushupvalue_emit, mbind at 1, P_mbind, bind at 1, get.
  destruct (search_local ls n expdesc_auto) as [level v].
  unfold mbind, P_mbind, bind.
  destruct (level =? -1).
  - destruct (ls_fs ls) as [|? [|? ?]]; try done.
    simpl. by destruct (string_constant_prev n ls) as [[??]| |].
  - by destruct (level =? 1).
Qed.

End Upvalues.

Section UpvalueResolution.
Context {cfg : Config} {emt : Emitter}.

Lemma string_constant_prev_eq s ls fs pfs prev :
  ls_fs ls = fs :: pfs :: prev ->
  string_constant_prev s ls =
    match string_constant pfs s (ls_constindex ls) with
    | Ok (c, pfs', ci) =>
        Ok (c, set_ls_constindex (set_ls_fs ls (fs :: pfs' :: prev)) ci)
    | Err e => Err e
    | Timeout => Timeout
    end.
Proof.
  intros Hfs. unfold string_constant_prev. rewrite Hfs.
  by destruct (string_constant _ _ _) as [[[??]?]| |].
Qed.

Lemma pushupvalue_emit_inv v ls fs prev ls' :
  ls_fs ls = fs :: prev ->
  pushupvalue_emit v ls = Ok (tt, ls') ->
  exists i fs2 pc,
    indexupvalue v ls = Ok (i, set_ls_fs ls (fs2 :: prev))
    /\ i < f_nupvalues (fs_f fs2)
    /\ (exists u, fs_upvalues fs2 !! i = Some u /\ k u = k v
                  /\ u_index u = u_index v)
    /\ emit (fun ls fs => luaK_code1 ls fs OP_PUSHUPVALUE i)
         (set_ls_fs ls (fs2 :: prev)) = Ok (pc, ls').
Proof.
  intros Hfs. unfold pushupvalue_emit.
  intros (i & ls2 & Hi & He)%bind_inv_Ok.
  apply bind_inv_Ok in He as (pc & ls3 & He & Hr).
  injection Hr as <-.
  destruct (indexupvalue_spec _ _ _ _ _ _ Hfs Hi) as (fs2 & -> & ? & ? & _).
  by exists i, fs2, pc.
Qed.

(** C2.  An explicit upvalue reference [%name] in a function [fs] whose
    enclosing functions are [prev].  It is a compile error when the name
    is an active local of [fs] itself, when it is active only two or more
    functions out, and, with its own message, when it is active nowhere
    and [fs] is the main chunk.  When it succeeds, the name is not a local
    of [fs] and either is an active local of the immediately enclosing
    function (its highest slot of that name) or is active nowhere (a
    global, interned in the constants of the enclosing function); the
    descriptor is then in the upvalues of [fs] at an index [i], and the
    result is that of emitting [PUSHUPVALUE i]. *)
Theorem pushupvalue_resolution (ls : LexState) (n : TString)
    (fs : FuncState) (prev : list FuncState) :
  ls_fs ls = fs :: prev ->
  (~ inactive fs n ->
   pushupvalue n ls =
     Err (E_syntaxerror
            "upvalue must be global or local to immediately outer function"
            n))
  /\ (inactive fs n -> prev = [] ->
      pushupvalue n ls =
        Err (E_syntaxerror "cannot access an upvalue at top level" n))
  /\ (inactive fs n ->
      forall pfs pprev, prev = pfs :: pprev -> inactive pfs n ->
      (exists g, g ∈ pprev /\ ~ inactive g n) ->
      pushupvalue n ls =
        Err (E_syntaxerror
               "upvalue must be global or local to immediately outer function"
               n))
  /\ (forall ls', pushupvalue n ls = Ok (tt, ls') ->
      inactive fs n
      /\ exists pfs pprev v ls1 i fs2 pc,
          prev = pfs :: pprev
          /\ ((exists s, innermost pfs n s
                         /\ v = set_u_index (set_k expdesc_auto VLOCAL) s
                         /\ ls1 = ls)
              \/ ((forall g, g ∈ prev -> inactive g n)
                  /\ exists c pfs' ci,
                      v = set_u_index (set_k expdesc_auto VGLOBAL) c
                      /\ f_kstr (fs_f pfs') !! c = Some n
                      /\ ls1 = set_ls_constindex
                                 (set_ls_fs ls (fs :: pfs' :: pprev)) ci))
          /\ indexupvalue v ls1 = Ok (i, set_ls_fs ls1 (fs2 :: tail (ls_fs ls1)))
          /\ i < f_nupvalues (fs_f fs2)
          /\ (exists u, fs_upvalues fs2 !! i = Some u /\ k u = k v
                        /\ u_index u = u_index v)
          /\ emit (fun ls fs => luaK_code1 ls fs OP_PUSHUPVALUE i)
               (set_ls_fs ls1 (fs2 :: tail (ls_fs ls1))) = Ok (pc, ls')).
Proof.
  intros Hfs. rewrite pushupvalue_eq. unfold search_local. rewrite Hfs.
  simpl. split_and!.
  - intros Hact.
    destruct (search_actloc fs n (Z.to_nat (fs_nactloc fs))) eqn:E; [done|].
    by apply search_actloc_inactive in E.
  - intros Hin ->. apply search_actloc_inactive in Hin as ->. done.
  - intros Hin pfs pprev -> Hp Hout.
    apply search_actloc_inactive in Hin as ->. simpl.
    apply search_actloc_inactive in Hp as ->.
    pose proof (search_chain_level pprev n expdesc_auto (0 + 1 + 1) Hout).
    destruct (search_chain pprev n expdesc_auto (0 + 1 + 1)) as [level v].
    simpl in *.
    destruct (Z.eqb_spec level (-1)); [lia|].
    destruct (Z.eqb_spec level 1); [lia|done].
  - intros ls'.
    destruct (search_actloc fs n (Z.to_nat (fs_nactloc fs))) eqn:E; [done|].
    apply search_actloc_inactive in E.
    destruct prev as [|pfs pprev]; [done|]. simpl.
    destruct (search_actloc pfs n (Z.to_nat (fs_nactloc pfs))) as [s|] eqn:Ep.
    + simpl. intros Hemit. split; [done|].
      destruct (pushupvalue_emit_inv _ _ _ _ _ Hfs Hemit)
        as (i & fs2 & pc & Hi & ? & ? & ?).
      exists pfs, pprev, (set_u_index (set_k expdesc_auto VLOCAL) s), ls,
        i, fs2, pc.
      rewrite Hfs. simpl. split_and!; try done.
      left. exists s. split_and!; try done.
      by apply search_actloc_Some_innermost.
    + apply search_actloc_inactive in Ep.
      destruct (search_chain_cases pprev n expdesc_auto (0 + 1 + 1))
        as [[Hall ->]|[_ Hl]].
      * simpl. rewrite (string_constant_prev_eq _ _ _ _ _ Hfs).
        pose proof (string_constant_spec pfs n (ls_constindex ls)) as Hs.
        destruct (string_constant pfs n (ls_constindex ls))
          as [[[c pfs'] ci]| |]; [|done|done].
        intros Hemit. split; [done|].
        destruct Hs as (Hc & _).
        set (ls1 := set_ls_constindex (set_ls_fs ls (fs :: pfs' :: pprev)) ci)
          in *.
        assert (ls_fs ls1 = fs :: pfs' :: pprev) as Hfs1 by done.
        destruct (pushupvalue_emit_inv _ _ _ _ _ Hfs1 Hemit)
          as (i & fs2 & pc & Hi & ? & ? & ?).
        exists pfs, pprev, (set_u_index (set_k expdesc_auto VGLOBAL) c), ls1,
          i, fs2, pc.
        rewrite Hfs1. simpl. split_and!; try done.
        right. split.
        -- intros g [->|?]%elem_of_cons; auto.
        -- by exists c, pfs', ci.
      * destruct (search_chain pprev n expdesc_auto (0 + 1 + 1))
          as [level v]. simpl in *.
        destruct (Z.eqb_spec level (-1)); [lia|].
        destruct (Z.eqb_spec level 1); [lia|done].
Qed.

End UpvalueResolution.

Lemma pushupvalue_resolution_witness :
  exists ls',
    pushupvalue "x" ls_nested
    = Ok (tt, ls')
    /\ inactive fs_new "x".
Proof.
  eexists. split; [vm_compute; reflexivity|].
  refine (proj1 (proj2 (proj2 (proj2
    (pushupvalue_resolution
       ls_nested "x" fs_new [fs_x_x] eq_refl))) _ _)).
  vm_compute. reflexivity.
Defined.

(** ** Calls of the bytecode writer *)

Lemma emit_inv {A} (op : LexState -> FuncState -> Res (A * FuncState))
    ls a ls' :
  emit op ls = Ok (a, ls') ->
  exists fs prev fs',
    ls_fs ls = fs :: prev /\ op ls fs = Ok (a, fs')
    /\ ls' = set_ls_fs ls (fs' :: prev).
Proof.
  unfold emit. destruct (ls_fs ls) as [|fs prev]; [done|].
  destruct (op ls fs) as [[a' fs']| |] eqn:E; try done.
  intros [= <- <-]. by exists fs, prev, fs'.
Qed.

Lemma emit_eq {A} (op : LexState -> FuncState -> Res (A * FuncState))
    ls fs prev :
  ls_fs ls = fs :: prev ->
  emit op ls =
    match op ls fs with
    | Ok (a, fs') => Ok (a, set_ls_fs ls (fs' :: prev))
    | Err e => Err e
    | Timeout => Timeout
    end.
Proof. intros Hfs. unfold emit. by rewrite Hfs. Qed.

(** ** The stack accounting of the reference writer *)

Lemma Writer_deltastack_level delta fs u fs' :
  Writer.luaK_deltastack delta fs = Ok (u, fs') ->
  fs_stacklevel fs' = fs_stacklevel fs + delta.
Proof.
  unfold Writer.luaK_deltastack. simpl.
  repeat case_match; intros; by simplify_eq/=.
Qed.

Lemma Writer_code2_level o a b fs pc fs' :
  Writer.luaK_code2 o a b fs = Ok (pc, fs') ->
  fs_stacklevel fs' = fs_stacklevel fs
  \/ fs_stacklevel fs' =
       fs_stacklevel fs + Writer.opdelta o a b (fs_stacklevel fs).
Proof.
  unfold Writer.luaK_code2, mbind, Writer.K_mbind, Writer.K_bind, Writer.K_get.
  destruct (match o with OP_PUSHNIL | OP_POP => a =? 0 | _ => false end).
  - intros [= <- <-]. by left.
  - destruct (Writer.luaK_deltastack _ fs) as [[[] fs1]| |] eqn:Hd;
      [|done|done].
    apply Writer_deltastack_level in Hd.
    destruct (luaM_growvector _ _ _ _); simpl; [|done|done].
    intros [= <- <-]. right. simpl. lia.
Qed.

Lemma Writer_adjuststack_level n fs u fs' :
  Writer.luaK_adjuststack n fs = Ok (u, fs') ->
  fs_stacklevel fs' = fs_stacklevel fs - n.
Proof.
  unfold Writer.luaK_adjuststack, Writer.luaK_code1, Writer.luaK_code2.
  unfold mbind, Writer.K_mbind, Writer.K_bind, Writer.K_get.
  destruct (Z.gtb_spec n 0).
  - destruct (Z.eqb_spec n 0); [lia|].
    destruct (Writer.luaK_deltastack _ fs) as [[[] fs1]| |] eqn:Hd;
      [|done|done].
    apply Writer_deltastack_level in Hd.
    destruct (luaM_growvector _ _ _ _); simpl; [|done|done].
    intros [= <- <-]. simpl in *. lia.
  - destruct (Z.eqb_spec (- n) 0).
    + intros [= <- <-]. lia.
    + destruct (Writer.luaK_deltastack _ fs) as [[[] fs1]| |] eqn:Hd;
        [|done|done].
      apply Writer_deltastack_level in Hd.
      destruct (luaM_growvector _ _ _ _); simpl; [|done|done].
      intros [= <- <-]. simpl in *. lia.
Qed.

Lemma Writer_setcallreturns_level n fs u fs' :
  Writer.luaK_lastisopen fs = true ->
  Writer.luaK_setcallreturns n fs = Ok (u, fs') ->
  fs_stacklevel fs' = fs_stacklevel fs + n.
Proof.
  intros Hopen. unfold Writer.luaK_setcallreturns.
  unfold mbind, Writer.K_mbind, Writer.K_bind, Writer.K_get.
  rewrite Hopen. unfold Writer.alter_code.
  intros Hd. by apply Writer_deltastack_level in Hd.
Qed.

(** ** Multiple assignment *)

Section AdjustMultAssign.
Context {cfg : Config} {emt : Emitter}.

Lemma adjust_mult_assign_eq nvars nexps ls fs prev :
  ls_fs ls = fs :: prev ->
  adjust_mult_assign nvars nexps ls =
    if (nexps >? 0) && luaK_lastisopen fs then
      (emit (fun ls fs =>
               luaK_setcallreturns ls fs (Z.max (nvars - (nexps - 1)) 0));;
       emit (fun ls fs =>
               luaK_adjuststack ls fs (Z.max (nexps - 1 - nvars) 0))) ls
    else emit (fun ls fs => luaK_adjuststack ls fs (nexps - nvars)) ls.
Proof.
  intros Hfs. unfold adjust_mult_assign.
  unfold mbind at 1, P_mbind, bind at 1, getfs. rewrite Hfs.
  destruct ((nexps >? 0) && luaK_lastisopen fs); [|done].
  destruct (Z.leb_spec (nexps - nvars - 1) 0).
  - replace (Z.max (nvars - (nexps - 1)) 0) with (- (nexps - nvars - 1))
      by lia.
    replace (Z.max (nexps - 1 - nvars) 0) with 0 by lia.
    unfold mbind, P_mbind, bind.
    by destruct (emit _ ls) as [[[] ?]| |].
  - replace (Z.max (nvars - (nexps - 1)) 0) with 0 by lia.
    replace (Z.max (nexps - 1 - nvars) 0) with (nexps - nvars - 1) by lia.
    unfold mbind, P_mbind, bind.
    by destruct (emit _ ls) as [[[] ?]| |].
Qed.

(** C3.  [adjust_mult_assign nvars nexps] in a function [fs].  When the
    list has an expression and ends in an open call, the return count of
    the call is set to [max (nvars - (nexps - 1)) 0] and the stack is then
    adjusted by [max (nexps - 1 - nvars) 0], which pops the surplus when
    there are more values than variables; otherwise the stack is adjusted
    by [nexps - nvars], pushing nils when that is negative and popping
    when it is positive.  With a writer that counts a call's results and
    an adjustment on the symbolic stack, the stack ends [nvars] above the
    level it had before the values of the list were pushed (an open call
    has pushed none yet). *)
Theorem adjust_mult_assign_exact (nvars nexps : Z) (ls : LexState)
    (fs : FuncState) (prev : list FuncState) :
  ls_fs ls = fs :: prev ->
  let open := (nexps >? 0) && luaK_lastisopen fs in
  (open = true ->
   adjust_mult_assign nvars nexps ls =
     (emit (fun ls fs =>
              luaK_setcallreturns ls fs (Z.max (nvars - (nexps - 1)) 0));;
      emit (fun ls fs =>
              luaK_adjuststack ls fs (Z.max (nexps - 1 - nvars) 0))) ls)
  /\ (open = false ->
      adjust_mult_assign nvars nexps ls =
        emit (fun ls fs => luaK_adjuststack ls fs (nexps - nvars)) ls)
  /\ ((forall ls fs n fs',
         luaK_lastisopen fs = true ->
         luaK_setcallreturns ls fs n = Ok (tt, fs') ->
         fs_stacklevel fs' = fs_stacklevel fs + n) ->
      (forall ls fs n fs',
         luaK_adjuststack ls fs n = Ok (tt, fs') ->
         fs_stacklevel fs' = fs_stacklevel fs - n) ->
      forall ls' fs' prev' base,
        adjust_mult_assign nvars nexps ls = Ok (tt, ls') ->
        ls_fs ls' = fs' :: prev' ->
        fs_stacklevel fs = base + (if open then nexps - 1 else nexps) ->
        fs_stacklevel fs' = base + nvars).
Proof.
  intros Hfs open. rewrite (adjust_mult_assign_eq _ _ _ _ _ Hfs).
  fold open. split_and!.
  - by intros ->.
  - by intros ->.
  - intros Hset Hadj ls' fs' prev' base.
    destruct open eqn:Hopen.
    + apply andb_true_iff in Hopen as [_ Hopen].
      intros (u & ls1 & H1 & H2)%bind_inv_Ok Hfs' Hbase.
      apply emit_inv in H1 as (fs0 & prev0 & fs1 & Hfs0 & H1 & ->).
      rewrite Hfs in Hfs0. injection Hfs0 as <- <-.
      apply emit_inv in H2 as (fs1' & prev1 & fs2 & Hfs1 & H2 & ->).
      injection Hfs1 as <- <-. injection Hfs' as <- <-.
      destruct u. apply Hset in H1; [|done]. apply Hadj in H2. lia.
    + intros H1 Hfs' Hbase.
      apply emit_inv in H1 as (fs0 & prev0 & fs1 & Hfs0 & H1 & ->).
      rewrite Hfs in Hfs0. injection Hfs0 as <- <-.
      injection Hfs' as <- <-. apply Hadj in H1. lia.
Qed.

End AdjustMultAssign.

Lemma adjust_mult_assign_exact_witness :
  exists ls' fs',
    adjust_mult_assign 2 1
      ls_open_call = Ok (tt, ls')
    /\ ls_fs ls' = [fs']
    /\ fs_stacklevel fs' = 0 + 2.
Proof.
  eexists _, _. split; [vm_compute; reflexivity|]. split; [reflexivity|].
  match goal with
  | |- fs_stacklevel ?f = _ =>
      refine (proj2 (proj2
        (adjust_mult_assign_exact 2 1 ls_open_call fs_open_call [] eq_refl))
        _ _ (set_ls_fs ls_open_call [f]) f [] 0 _ eq_refl _)
  end.
  - intros ls fs n fs' Hopen Hs.
    exact (Writer_setcallreturns_level n fs tt fs' Hopen Hs).
  - intros ls fs n fs' Ha. exact (Writer_adjuststack_level n fs tt fs' Ha).
  - vm_compute. reflexivity.
  - vm_compute. reflexivity.
Defined.

(** ** More of the parser monad *)

Lemma bind_get {B} (g : LexState -> P B) ls : (get ≫= g) ls = g ls ls.
Proof. done. Qed.

Lemma bind_ret {A B} (a : A) (g : A -> P B) ls : (mret a ≫= g) ls = g a ls.
Proof. done. Qed.

Lemma bind_throw {A B} e (g : A -> P B) ls : (throw e ≫= g) ls = Err e.
Proof. done. Qed.

Lemma bind_assoc {A B C} (m : P A) (g : A -> P B) (h : B -> P C) ls :
  ((m ≫= g) ≫= h) ls = (m ≫= fun a => g a ≫= h) ls.
Proof.
  unfold mbind, P_mbind, bind. by destruct (m ls) as [[??]| |].
Qed.

Lemma bind_ext {A B} (m : P A) (g h : A -> P B) ls :
  (forall a ls', g a ls' = h a ls') -> (m ≫= g) ls = (m ≫= h) ls.
Proof.
  intros E. unfold mbind, P_mbind, bind. by destruct (m ls) as [[??]| |].
Qed.

Lemma bind_ret_r {A} (m : P A) ls : (m ≫= mret) ls = m ls.
Proof.
  unfold mbind, P_mbind, bind. by destruct (m ls) as [[??]| |].
Qed.

(** ** The lexer driver leaves the function states alone *)

Lemma next_fs ls u ls' : next ls = Ok (u, ls') -> ls_fs ls' = ls_fs ls.
Proof.
  unfold next. case_match.
  - by intros [= <- <-].
  - unfold luaX_lex. simpl. destruct (ls_z ls); by intros [= <- <-].
Qed.

Lemma lookahead_fs ls u ls' :
  lookahead ls = Ok (u, ls') -> ls_fs ls' = ls_fs ls.
Proof.
  unfold lookahead, luaX_lex. destruct (ls_z ls); by intros [= <- <-].
Qed.

Lemma check_fs c ls u ls' : check c ls = Ok (u, ls') -> ls_fs ls' = ls_fs ls.
Proof.
  unfold check. rewrite bind_get.
  destruct (negb _); [done|]. rewrite bind_ret. apply next_fs.
Qed.

Lemma optional_fs c ls r ls' :
  optional c ls = Ok (r, ls') -> ls_fs ls' = ls_fs ls.
Proof.
  unfold optional. rewrite bind_get. destruct (_ =? _).
  - intros (u & ls1 & Hn & [= <- <-])%bind_inv_Ok. by apply next_fs in Hn.
  - by intros [= <- <-].
Qed.

Lemma check_match_fs what who where_ ls u ls' :
  check_match what who where_ ls = Ok (u, ls') -> ls_fs ls' = ls_fs ls.
Proof.
  unfold check_match. rewrite bind_get.
  destruct (negb _); [by destruct (_ =? _)|]. rewrite bind_ret. apply next_fs.
Qed.

Lemma check_condition_inv c msg ls u ls' :
  check_condition c msg ls = Ok (u, ls') -> c = true /\ ls' = ls.
Proof. unfold check_condition. destruct c; [by intros [= <- <-]|done]. Qed.

Lemma luaX_checklimit_inv val limit msg ls u ls' :
  luaX_checklimit val limit msg ls = Ok (u, ls') -> val <= limit /\ ls' = ls.
Proof.
  unfold luaX_checklimit. destruct (Z.gtb_spec val limit); [done|].
  intros [= <- <-]. split; [lia|done].
Qed.

Lemma optional_inv c ls r ls' :
  optional c ls = Ok (r, ls') ->
  (r = 1 /\ tk_token (ls_t ls) = c /\ next ls = Ok (tt, ls'))
  \/ (r = 0 /\ tk_token (ls_t ls) <> c /\ ls' = ls).
Proof.
  unfold optional. rewrite bind_get. destruct (Z.eqb_spec (tk_token (ls_t ls)) c).
  - intros ([] & ls1 & Hn & [= <- <-])%bind_inv_Ok. by left.
  - intros [= <- <-]. by right.
Qed.

Lemma lookahead_Ok ls :
  exists ls1,
    lookahead ls = Ok (tt, ls1) /\ tk_token (ls_lookahead ls1) = peek ls.
Proof.
  unfold lookahead, peek, luaX_lex.
  destruct (ls_z ls) as [|it z]; by eexists.
Qed.

Lemma bind_inv_Err {A B} (m : P A) (g : A -> P B) ls e :
  (m ≫= g) ls = Err e ->
  m ls = Err e \/ exists a ls', m ls = Ok (a, ls') /\ g a ls' = Err e.
Proof.
  unfold mbind, P_mbind, bind. destruct (m ls) as [[a ls']|e'|]; try done.
  - intros E. right. by exists a, ls'.
  - intros [= <-]. by left.
Qed.

Lemma next_Ok ls : exists ls', next ls = Ok (tt, ls').
Proof.
  unfold next. case_match; [by eexists|].
  destruct (luaX_lex _ _). by eexists.
Qed.

Lemma check_match_Err what who where_ ls e :
  check_match what who where_ ls = Err e ->
  e = E_expected what \/ e = E_expected_to_close what who where_.
Proof.
  unfold check_match. rewrite bind_get.
  destruct (tk_token (ls_t ls) =? what); simpl.
  - rewrite bind_ret. destruct (next_Ok ls) as [ls' ->]. done.
  - destruct (where_ =? ls_linenumber ls); intros [= <-]; auto.
Qed.

Lemma luaX_checklimit_Err val limit msg ls e :
  luaX_checklimit val limit msg ls = Err e ->
  e = E_limit msg limit /\ limit < val.
Proof.
  unfold luaX_checklimit. destruct (Z.gtb_spec val limit); [|done].
  intros [= <-]. split; [done|lia].
Qed.

Lemma set_table_size_Err pc nelems ls e :
  set_table_size pc nelems ls = Err e -> e = E_null.
Proof.
  unfold set_table_size, mbind, P_mbind, bind, getfs, putfs.
  destruct (ls_fs ls) eqn:E; simpl; rewrite ?E; [by intros [= <-]|done].
Qed.

(** ** Table constructors *)

Section Constructor.
Context {cfg : Config} {emt : Emitter}.
Variable expr : expdesc -> P expdesc.
Variable fuel : nat.

(** [constructor] emits [CREATETABLE 0] before anything else, parses its
    body, checks the number of elements against [MAXARG_U] and only then
    writes that number into the instruction. *)
Lemma constructor_def_eq ls :
  constructor_def expr fuel ls =
    (pc ← emit (fun ls fs => luaK_code1 ls fs OP_CREATETABLE 0);
     nelems ← constructor_body expr fuel (ls_linenumber ls);
     luaX_checklimit nelems MAXARG_U "elements in a table constructor";;
     set_table_size pc nelems) ls.
Proof.
  unfold constructor_def, constructor_body, set_table_size.
  rewrite bind_get. apply bind_ext. intros pc ls1.
  rewrite !bind_assoc. apply bind_ext. intros [] ls2.
  rewrite !bind_assoc. apply bind_ext. intros cd ls3.
  rewrite !bind_assoc. apply bind_ext. intros sep ls4.
  rewrite !bind_assoc. apply bind_ext. intros nelems ls5.
  rewrite !bind_assoc. apply bind_ext. intros [] ls6.
  by rewrite bind_ret.
Qed.

Lemma constructor_part_eq ls :
  constructor_part expr fuel ls =
    match part_kind ls with
    | PartEmpty => Ok (mkConstdesc 0 (tk_token (ls_t ls)), ls)
    | PartRecord =>
        ((if tk_token (ls_t ls) =? TK_NAME then lookahead else mret tt);;
         n ← recfields expr fuel;
         mret (mkConstdesc n 1)) ls
    | PartList =>
        ((if tk_token (ls_t ls) =? TK_NAME then lookahead else mret tt);;
         n ← listfields expr fuel;
         mret (mkConstdesc n 0)) ls
    end.
Proof.
  unfold constructor_part, part_kind.
  assert (token ls = Ok (tk_token (ls_t ls), ls)) as Htok by done.
  rewrite (bind_Ok _ _ _ _ _ Htok).
  destruct (_ || _); [done|].
  destruct (tk_token (ls_t ls) =? TK_NAME).
  - destruct (lookahead_Ok ls) as (ls1 & Hla & Hpeek).
    rewrite bind_assoc, (bind_Ok _ _ _ _ _ Hla), bind_assoc, bind_get.
    rewrite bind_ret.
    rewrite Hpeek.
    destruct (peek ls =? l_c "="); by rewrite (bind_Ok _ _ _ _ _ Hla).
  - rewrite !bind_ret. by destruct (_ =? l_c "[").
Qed.

(** The tag [k] that [constructor_part] returns: 1 for record fields, 0
    for list fields, and the token that follows for an empty part. *)
Lemma constructor_part_k ls cd ls' :
  constructor_part expr fuel ls = Ok (cd, ls') ->
  cd_k cd = match part_kind ls with
            | PartEmpty => tk_token (ls_t ls)
            | PartRecord => 1
            | PartList => 0
            end.
Proof.
  rewrite constructor_part_eq. destruct (part_kind ls).
  - by intros [= <- <-].
  - intros (? & ? & _ & (n & ? & _ & [= <- <-])%bind_inv_Ok)%bind_inv_Ok.
    done.
  - intros (? & ? & _ & (n & ? & _ & [= <- <-])%bind_inv_Ok)%bind_inv_Ok.
    done.
Qed.

(** A part that is not empty has the tag of its kind, so two such parts
    have the same tag exactly when they have the same kind. *)
Lemma constructor_part_same_kind ls cd ls' ls2 other ls2' :
  constructor_part expr fuel ls = Ok (cd, ls') ->
  constructor_part expr fuel ls2 = Ok (other, ls2') ->
  part_kind ls <> PartEmpty -> part_kind ls2 <> PartEmpty ->
  cd_k cd = cd_k other <-> part_kind ls = part_kind ls2.
Proof.
  intros ->%constructor_part_k ->%constructor_part_k.
  by destruct (part_kind ls), (part_kind ls2).
Qed.

(** C6.  A constructor with a [;] between two sub-parts: [cd] and [other]
    are what [constructor_part] returns for the part before and the part
    after the [;].  The constructor fails with "invalid constructor
    syntax" exactly when the two tags [k] are equal; for two parts that
    are present (neither is empty) that is exactly when they have the same
    kind, both list fields or both record fields.  When the tags differ
    the constructor goes on to its closing brace, with the sum of the two
    element counts. *)
Theorem constructor_kinds (ls : LexState) (pc : Z) (ls1 ls2 : LexState)
    (cd : Constdesc) (ls3 ls4 : LexState) (other : Constdesc)
    (ls5 : LexState) :
  emit (fun ls fs => luaK_code1 ls fs OP_CREATETABLE 0) ls = Ok (pc, ls1) ->
  check (l_c "{") ls1 = Ok (tt, ls2) ->
  constructor_part expr fuel ls2 = Ok (cd, ls3) ->
  optional (l_c ";") ls3 = Ok (1, ls4) ->
  constructor_part expr fuel ls4 = Ok (other, ls5) ->
  (constructor_def expr fuel ls = Err (E_error "invalid constructor syntax")
   <-> cd_k cd = cd_k other)
  /\ (part_kind ls2 <> PartEmpty -> part_kind ls4 <> PartEmpty ->
      (cd_k cd = cd_k other <-> part_kind ls2 = part_kind ls4))
  /\ (cd_k cd <> cd_k other ->
      constructor_def expr fuel ls =
        (check_match (l_c "}") (l_c "{") (ls_linenumber ls);;
         luaX_checklimit (cd_n cd + cd_n other) MAXARG_U
           "elements in a table constructor";;
         set_table_size pc (cd_n cd + cd_n other)) ls5).
Proof.
  intros Hpc Hopen Hcd Hsep Hother.
  assert (constructor_def expr fuel ls =
            if cd_k cd =? cd_k other
            then Err (E_error "invalid constructor syntax")
            else (check_match (l_c "}") (l_c "{") (ls_linenumber ls);;
                  luaX_checklimit (cd_n cd + cd_n other) MAXARG_U
                    "elements in a table constructor";;
                  set_table_size pc (cd_n cd + cd_n other)) ls5) as ->.
  { rewrite constructor_def_eq, (bind_Ok _ _ _ _ _ Hpc).
    unfold constructor_body.
    rewrite !bind_assoc, (bind_Ok _ _ _ _ _ Hopen).
    rewrite !bind_assoc, (bind_Ok _ _ _ _ _ Hcd).
    rewrite !bind_assoc, (bind_Ok _ _ _ _ _ Hsep). simpl.
    rewrite !bind_assoc, (bind_Ok _ _ _ _ _ Hother).
    unfold check_condition.
    destruct (cd_k cd =? cd_k other); simpl; [done|].
    rewrite !bind_assoc, bind_ret, bind_ret.
    rewrite !bind_assoc. apply bind_ext. intros [] ls6.
    by rewrite bind_ret. }
  split_and!.
  - destruct (Z.eqb_spec (cd_k cd) (cd_k other)); [done|].
    split; [|done]. intros Herr. exfalso. revert Herr.
    intros [He|([] & ls6 & _ & [He|([] & ls7 & _ & He)]%bind_inv_Err)]
      %bind_inv_Err.
    + by apply check_match_Err in He as [?|?].
    + by apply luaX_checklimit_Err in He as [? _].
    + by apply set_table_size_Err in He.
  - intros. by eapply constructor_part_same_kind.
  - intros Hne. by destruct (Z.eqb_spec (cd_k cd) (cd_k other)).
Qed.

(** The instruction [SETARG_U] leaves at the index it patches. *)
Lemma alter_SETARG_U (code : gmap Z Instruction) (pc nelems : Z) :
  (forall i, code !! pc = Some i ->
     alter (fun i => SETARG_U i nelems) pc code !! pc
     = Some (CREATE_U (GET_OPCODE i) nelems))
  /\ (forall j, j <> pc ->
      alter (fun i => SETARG_U i nelems) pc code !! j = code !! j).
Proof.
  split.
  - intros i Hi. by rewrite lookup_alter_eq, Hi.
  - intros j Hj. by rewrite lookup_alter_ne.
Qed.

End Constructor.

Lemma constructor_kinds_witness :
  constructor_def (expr 4) 4 (start z_list_list)
  = Err (E_error "invalid constructor syntax").
Proof.
  set (ls0 := start z_list_list).
  set (ls1 := after (emit (fun ls fs => luaK_code1 ls fs OP_CREATETABLE 0))
                ls0).
  set (ls2 := after (check (l_c "{")) ls1).
  set (ls3 := after (constructor_part (expr 4) 4) ls2).
  set (ls4 := after (optional (l_c ";")) ls3).
  set (ls5 := after (constructor_part (expr 4) 4) ls4).
  refine (proj2 (proj1
    (constructor_kinds (expr 4) 4 ls0 0 ls1 ls2 (mkConstdesc 1 0) ls3 ls4
       (mkConstdesc 1 0) ls5 _ _ _ _ _)) _);
    vm_compute; reflexivity.
Defined.

Section ConstructorSize.
Context {cfg : Config} {emt : Emitter}.
Variable expr : expdesc -> P expdesc.
Variable fuel : nat.

Lemma constructor_body_inv line ls1 nelems ls2 :
  constructor_body expr fuel line ls1 = Ok (nelems, ls2) ->
  exists lsb cd ls3 sep ls4,
    check (l_c "{") ls1 = Ok (tt, lsb)
    /\ constructor_part expr fuel lsb = Ok (cd, ls3)
    /\ optional (l_c ";") ls3 = Ok (sep, ls4)
    /\ ((sep = 0 /\ nelems = cd_n cd)
        \/ (sep = 1
            /\ exists other ls5,
                constructor_part expr fuel ls4 = Ok (other, ls5)
                /\ nelems = cd_n cd + cd_n other)).
Proof.
  unfold constructor_body.
  intros ([] & lsb & Hb & H1)%bind_inv_Ok.
  apply bind_inv_Ok in H1 as (cd & ls3 & Hcd & H1).
  apply bind_inv_Ok in H1 as (sep & ls4 & Hsep & H1).
  apply bind_inv_Ok in H1 as (n & ls5 & Hn & H1).
  apply bind_inv_Ok in H1 as ([] & ls6 & _ & [= <- <-]).
  exists lsb, cd, ls3, sep, ls4. split_and!; try done.
  destruct (optional_inv _ _ _ _ Hsep) as [(-> & _)|(-> & _)]; simpl in Hn.
  - right. split; [done|].
    apply bind_inv_Ok in Hn as (other & ls5' & Ho & Hn).
    apply bind_inv_Ok in Hn as ([] & ls5'' & _ & [= <- <-]).
    by exists other, ls5'.
  - left. by injection Hn as <- <-.
Qed.

(** C7.  A constructor emits [CREATETABLE 0] before it reads anything;
    [pc] is what that emission returns.  When the body has been parsed,
    [nelems] is the number of elements of its one part, or the sum over
    its two parts; a number above [MAXARG_U] raises the size-limit error
    that names "elements in a table constructor"; otherwise the only
    change is to the code of the function being compiled, where the
    instruction at [pc] gets [nelems] as its operand U and keeps its
    opcode. *)
Theorem constructor_table_size (ls : LexState) :
  constructor_def expr fuel ls =
    (pc ← emit (fun ls fs => luaK_code1 ls fs OP_CREATETABLE 0);
     nelems ← constructor_body expr fuel (ls_linenumber ls);
     luaX_checklimit nelems MAXARG_U "elements in a table constructor";;
     set_table_size pc nelems) ls
  /\ forall pc ls1 nelems ls2,
      emit (fun ls fs => luaK_code1 ls fs OP_CREATETABLE 0) ls
      = Ok (pc, ls1) ->
      constructor_body expr fuel (ls_linenumber ls) ls1 = Ok (nelems, ls2) ->
      (exists lsb cd ls3 sep ls4,
          check (l_c "{") ls1 = Ok (tt, lsb)
          /\ constructor_part expr fuel lsb = Ok (cd, ls3)
          /\ optional (l_c ";") ls3 = Ok (sep, ls4)
          /\ ((sep = 0 /\ nelems = cd_n cd)
              \/ (sep = 1
                  /\ exists other ls5,
                      constructor_part expr fuel ls4 = Ok (other, ls5)
                      /\ nelems = cd_n cd + cd_n other)))
      /\ (MAXARG_U < nelems ->
          constructor_def expr fuel ls =
            Err (E_limit "elements in a table constructor" MAXARG_U))
      /\ (nelems <= MAXARG_U ->
          forall fs prev, ls_fs ls2 = fs :: prev ->
          let code := f_code (fs_f fs) in
          let code' := alter (fun i => SETARG_U i nelems) pc code in
          constructor_def expr fuel ls =
            Ok (tt, set_ls_fs ls2 (set_fs_f fs (set_f_code (fs_f fs) code')
                                     :: prev))
          /\ (forall i, code !! pc = Some i ->
                code' !! pc = Some (CREATE_U (GET_OPCODE i) nelems))
          /\ (forall j, j <> pc -> code' !! j = code !! j)).
Proof.
  split; [apply constructor_def_eq|].
  intros pc ls1 nelems ls2 Hpc Hbody. split_and!.
  - by eapply constructor_body_inv.
  - intros Hgt. rewrite constructor_def_eq, (bind_Ok _ _ _ _ _ Hpc).
    rewrite (bind_Ok _ _ _ _ _ Hbody).
    unfold luaX_checklimit. by rewrite (proj2 (Z.gtb_lt _ _)) by lia.
  - intros Hle fs prev Hfs code code'. split; [|apply alter_SETARG_U].
    rewrite constructor_def_eq, (bind_Ok _ _ _ _ _ Hpc).
    rewrite (bind_Ok _ _ _ _ _ Hbody).
    unfold luaX_checklimit.
    destruct (Z.gtb_spec nelems MAXARG_U); [lia|].
    rewrite bind_ret. unfold set_table_size, mbind, P_mbind, bind, getfs.
    rewrite Hfs. unfold putfs. by rewrite Hfs.
Qed.

End ConstructorSize.

Lemma constructor_table_size_witness :
  exists ls' fs',
    constructor_def (expr 4) 4 (start z_list_record) = Ok (tt, ls')
    /\ ls_fs ls' = [fs']
    /\ f_code (fs_f fs') !! 0 = Some (CREATE_U OP_CREATETABLE 3).
Proof.
  set (ls0 := start z_list_record).
  set (ls1 := after (emit (fun ls fs => luaK_code1 ls fs OP_CREATETABLE 0))
                ls0).
  set (ls2 := after (constructor_body (expr 4) 4 (ls_linenumber ls0)) ls1).
  set (fs2 := hd fs_new (ls_fs ls2)).
  assert (ls_fs ls2 = [fs2]) as Hfs by (vm_compute; reflexivity).
  assert (3 <= MAXARG_U) as Hle by (vm_compute; discriminate).
  assert (f_code (fs_f fs2) !! 0 = Some (CREATE_U OP_CREATETABLE 0)) as Hpc
    by (vm_compute; reflexivity).
  destruct (proj2 (constructor_table_size (expr 4) 4 ls0) 0 ls1 3 ls2)
    as (_ & _ & T3); [vm_compute; reflexivity ..|].
  destruct (T3 Hle fs2 [] Hfs) as (T4 & T5 & _).
  eexists _, _. split; [exact T4|]. split; [reflexivity|].
  exact (T5 _ Hpc).
Defined.

(** ** Statements and chunks *)

Section LastStatement.
Context {cfg : Config} {emt : Emitter}.
Variable body : Z -> Z -> P unit.
Variable chunk : P unit.
Variable constructor : P unit.
Variable expr : expdesc -> P expdesc.
Variable fuel : nat.

Abbreviation stat := (statement body chunk constructor expr fuel).
Abbreviation loop := (chunk_loop body chunk constructor expr fuel).

Lemma seq_ret_inv {A B} (m : P A) (c : B) ls r ls' :
  (m;; mret c) ls = Ok (r, ls') -> r = c /\ exists a, m ls = Ok (a, ls').
Proof.
  intros (a & ls1 & Hm & [= <- <-])%bind_inv_Ok. split; [done|]. by exists a.
Qed.

(** The flag [statement] returns is 1 after [return] and [break], and 0
    after any other statement. *)
Lemma statement_islast ls r ls' :
  stat ls = Ok (r, ls') ->
  r = if (tk_token (ls_t ls) =? TK_RETURN) || (tk_token (ls_t ls) =? TK_BREAK)
      then 1 else 0.
Proof.
  unfold statement. rewrite bind_get. cbv zeta.
  set (tok := tk_token (ls_t ls)).
  destruct (Z.eqb_spec tok TK_RETURN) as [E|?].
  { rewrite E. simpl. intros Hr.
    repeat (apply bind_inv_Ok in Hr as (? & ? & _ & Hr)).
    by injection Hr as <- _. }
  destruct (Z.eqb_spec tok TK_BREAK) as [E|?].
  { rewrite E. simpl. intros Hr.
    repeat (apply bind_inv_Ok in Hr as (? & ? & _ & Hr)).
    by injection Hr as <- _. }
  simpl.
  repeat (destruct (tok =? _);
          [intros Hr; repeat (apply bind_inv_Ok in Hr as (? & ? & _ & Hr));
           by injection Hr as <- _|]).
  intros Hr. repeat (apply bind_inv_Ok in Hr as (? & ? & _ & Hr)).
  by injection Hr as <- _.
Qed.

(** C8.  A [return] or a [break] ends its block.  [statement] returns the
    flag 1 exactly for these two; a statement that returned 1 ends the loop
    of [chunk], which takes one [;] if there is one and parses nothing
    more.  A token that then cannot follow a block makes the check for the
    closing token of the enclosing construct fail ([end], [until], [else],
    [elseif], and the end of the input for the main chunk), whichever of
    them is asked for. *)
Theorem return_break_last (ls : LexState) :
  (forall r ls',
     stat ls = Ok (r, ls') ->
     r = if (tk_token (ls_t ls) =? TK_RETURN)
            || (tk_token (ls_t ls) =? TK_BREAK)
         then 1 else 0)
  /\ (forall turns ls1,
      block_follow (tk_token (ls_t ls)) = false ->
      stat ls = Ok (1, ls1) ->
      loop (S (S turns)) 0 ls = (optional (l_c ";");; mret tt) ls1)
  /\ (forall what who where_,
      block_follow what = true ->
      block_follow (tk_token (ls_t ls)) = false ->
      check_match what who where_ ls = Err (E_expected what)
      \/ check_match what who where_ ls
         = Err (E_expected_to_close what who where_))
  /\ (block_follow (tk_token (ls_t ls)) = false ->
      (tok ← token; check_condition (tok =? TK_EOS) "<eof> expected") ls
      = Err (E_error "<eof> expected")).
Proof.
  split_and!.
  - apply statement_islast.
  - intros turns ls1 Hbf Hst. simpl.
    assert (token ls = Ok (tk_token (ls_t ls), ls)) as Htok by done.
    rewrite (bind_Ok _ _ _ _ _ Htok), Hbf. simpl.
    rewrite (bind_Ok _ _ _ _ _ Hst).
    apply bind_ext. intros c ls2.
    reflexivity.
  - intros what who where_ Hw Hbf. unfold check_match. rewrite bind_get.
    destruct (Z.eqb_spec (tk_token (ls_t ls)) what) as [E|_]; simpl.
    + congruence.
    + destruct (where_ =? ls_linenumber ls); auto.
  - intros Hbf.
    assert (token ls = Ok (tk_token (ls_t ls), ls)) as Htok by done.
    rewrite (bind_Ok _ _ _ _ _ Htok).
    destruct (Z.eqb_spec (tk_token (ls_t ls)) TK_EOS) as [E|_]; [|done].
    rewrite E in Hbf. done.
Qed.

End LastStatement.

(** ** The empty chunk *)

(** On an input that is at its end [chunk] parses nothing and the check
    for the end of the input passes: whatever the bytecode writer is, the
    parser opens the main function, reads the first token, and closes the
    function. *)
Lemma luaY_parser_empty {cfg : Config} {emt : Emitter} (fuel : nat)
    (L : gmap string Z) (zname : TString) :
  luaY_parser (S (S fuel)) L [] zname =
    ('(f, _) ← (open_func;;
               next;;
               funcstate ← close_func;
               mret (fs_f funcstate)) (luaX_setinput L [] zname);
     Ok f).
Proof. reflexivity. Qed.

(** C9.  Parsing an input that is at its end at once comes to closing the
    main function right after opening it, whatever the bytecode writer is
    (two levels of fuel are enough, whatever the hints of the interned
    strings and the name of the chunk).  With the reference writer it
    succeeds, and the code of the prototype is the one instruction
    [RETURN 0] in a vector of size 1; the prototype has no parameter, is
    not vararg, has no upvalue, and its three constant vectors are
    empty. *)
Theorem empty_chunk (fuel : nat) (L : gmap string Z) (zname : TString) :
  (forall (cfg : Config) (emt : Emitter),
     luaY_parser (S (S fuel)) L [] zname =
       ('(f, _) ← (open_func;;
                  next;;
                  funcstate ← close_func;
                  mret (fs_f funcstate)) (luaX_setinput L [] zname);
        Ok f))
  /\ exists f,
      luaY_parser (cfg := Writer.config) (emt := Writer.emitter)
        (S (S fuel)) L [] zname = Ok f
      /\ f_code f = {[0 := CREATE_U OP_RETURN 0]}
      /\ f_sizecode f = 1
      /\ f_numparams f = 0
      /\ f_is_vararg f = 0
      /\ f_nupvalues f = 0
      /\ f_kstr f = ∅ /\ f_sizekstr f = 0
      /\ f_knum f = ∅ /\ f_sizeknum f = 0
      /\ f_kproto f = ∅ /\ f_sizekproto f = 0.
Proof.
  split; [intros; apply luaY_parser_empty|].
  eexists. split; [vm_compute; reflexivity|].
  split_and!; vm_compute; reflexivity.
Qed.

(** ** The reference writer and open calls *)

Lemma Writer_code2_last o a b fs pc fs' :
  Writer.luaK_code2 o a b fs = Ok (pc, fs') ->
  (o <> OP_PUSHNIL /\ o <> OP_POP) \/ a <> 0 ->
  exists i, f_code (fs_f fs') !! (fs_pc fs' - 1) = Some i /\ GET_OPCODE i = o.
Proof.
  unfold Writer.luaK_code2, mbind, Writer.K_mbind, Writer.K_bind, Writer.K_get.
  intros Hc Ho.
  destruct (match o with OP_PUSHNIL | OP_POP => a =? 0 | _ => false end)
    eqn:Hz.
  { exfalso. destruct Ho as [[??]|?]; destruct o; try done; lia. }
  destruct (Writer.luaK_deltastack _ fs) as [[[] fs1]| |]; [|done|done].
  destruct (luaM_growvector _ _ _ _); simpl in Hc; [|done|done].
  injection Hc as <- <-. simpl.
  replace (fs_pc fs1 + 1 - 1) with (fs_pc fs1) by lia.
  rewrite lookup_insert_eq. eexists. split; [done|].
  by destruct (Writer.opmode o).
Qed.

Lemma Writer_code2_last_not_call o a b fs pc fs' :
  Writer.luaK_code2 o a b fs = Ok (pc, fs') ->
  (o <> OP_PUSHNIL /\ o <> OP_POP) \/ a <> 0 ->
  o <> OP_CALL ->
  last_not_call fs'.
Proof.
  intros Hc Ho Hcall i Hi.
  destruct (Writer_code2_last _ _ _ _ _ _ Hc Ho) as (i' & Hi' & <-).
  congruence.
Qed.

Lemma Writer_open_call_contract : open_call_contract (emt := Writer.emitter).
Proof.
  unfold open_call_contract. simpl. split_and!.
  - intros fs Hopen Hlast. unfold Writer.luaK_lastisopen in Hopen.
    unfold Writer.previous_instruction, Writer.code_at in Hopen.
    destruct (fs_pc fs >? fs_lasttarget fs); [|done].
    destruct (f_code (fs_f fs) !! (fs_pc fs - 1)) as [i|] eqn:Hi; [|done].
    apply (Hlast i Hi). by destruct i as [| | |[] ? ?].
  - intros _ fs r fs'. unfold Writer.luaK_number.
    unfold mbind, Writer.K_mbind, Writer.K_bind.
    destruct (_ && _).
    + destruct (Writer.luaK_code1 _ _ fs) as [[pc fs1]| |] eqn:Hc;
        [|done|done].
      intros [= <-]. unfold Writer.luaK_code1 in Hc.
      eapply Writer_code2_last_not_call; [exact Hc|auto|done].
    + destruct (Writer.number_constant r fs) as [[c fs0]| |]; [|done|done].
      destruct (Writer.luaK_code1 _ _ fs0) as [[pc fs1]| |] eqn:Hc;
        [|done|done].
      intros [= <-]. unfold Writer.luaK_code1 in Hc.
      eapply Writer_code2_last_not_call; [exact Hc|auto|done].
  - intros _ fs c fs'. unfold Writer.luaK_kstr.
    unfold mbind, Writer.K_mbind, Writer.K_bind.
    destruct (Writer.luaK_code1 _ _ fs) as [[pc fs1]| |] eqn:Hc; [|done|done].
    intros [= <-]. unfold Writer.luaK_code1 in Hc.
      eapply Writer_code2_last_not_call; [exact Hc|auto|done].
  - intros _ fs fs'. unfold Writer.luaK_adjuststack.
    unfold mbind, Writer.K_mbind, Writer.K_bind. simpl.
    destruct (Writer.luaK_code1 _ _ fs) as [[pc fs1]| |] eqn:Hc; [|done|done].
    intros [= <-]. unfold Writer.luaK_code1 in Hc.
      eapply Writer_code2_last_not_call; [exact Hc|right; lia|done].
  - intros _ fs o a pc fs' Ho Hc. unfold Writer.luaK_code1 in Hc.
    eapply Writer_code2_last_not_call; [exact Hc| |].
    + left. by destruct Ho as [->|[->| ->]].
    + by destruct Ho as [->|[->| ->]].
  - intros _ fs a b pc fs' Hc.
    eapply Writer_code2_last_not_call; [exact Hc|by left|done].
Qed.

(** ** Expression statements *)

Tactic Notation "binv" hyp(H) "as" simple_intropattern(a)
    simple_intropattern(ls) simple_intropattern(H1) :=
  apply bind_inv_Ok in H as (a & ls & H1 & H).

Lemma cur_not_call_fs ls ls' :
  ls_fs ls' = ls_fs ls -> cur_not_call ls -> cur_not_call ls'.
Proof. intros E (fs & prev & Hfs & Hl). exists fs, prev. by rewrite E. Qed.

Lemma mret_inv {A} (a : A) ls b ls' :
  (mret a : P A) ls = Ok (b, ls') -> b = a /\ ls' = ls.
Proof. by intros [= <- <-]. Qed.

Lemma getfs_inv ls fs ls' :
  getfs ls = Ok (fs, ls') -> ls' = ls /\ exists prev, ls_fs ls = fs :: prev.
Proof.
  unfold getfs. destruct (ls_fs ls) as [|fs0 prev]; [done|].
  intros [= <- <-]. split; [done|]. by exists prev.
Qed.

Lemma set_table_size_not_call pc nelems ls u ls' :
  set_table_size pc nelems ls = Ok (u, ls') ->
  cur_not_call ls -> cur_not_call ls'.
Proof.
  unfold set_table_size. intros H (fs & prev & Hfs & Hl).
  binv H as fs0 ls0 H0. apply getfs_inv in H0 as (-> & prev' & Hfs').
  unfold putfs in H. rewrite Hfs' in H. injection H as <- <-.
  rewrite Hfs in Hfs'. injection Hfs' as <- <-.
  eexists _, _. split; [done|]. intros i. simpl.
  destruct (decide (pc = fs_pc fs - 1)) as [->|Hne].
  - rewrite lookup_alter_eq.
    destruct (f_code (fs_f fs) !! (fs_pc fs - 1)) as [i0|] eqn:Hi; [|done].
    intros [= <-]. simpl. by apply Hl.
  - rewrite lookup_alter_ne by done. apply Hl.
Qed.

Section ExprStat.
Context {cfg : Config} {emt : Emitter}.
Hypothesis contract : open_call_contract.

Lemma emit_not_call {A}
    (op : LexState -> FuncState -> Res (A * FuncState)) ls a ls' :
  (forall ls fs a fs', op ls fs = Ok (a, fs') -> last_not_call fs') ->
  emit op ls = Ok (a, ls') -> cur_not_call ls'.
Proof.
  intros Hop (fs & prev & fs' & Hfs & Ho & ->)%emit_inv.
  exists fs', prev. split; [done|]. by eapply Hop.
Qed.

Lemma code1_not_call o a ls pc ls' :
  o = OP_PUSHUPVALUE \/ o = OP_CREATETABLE \/ o = OP_SETMAP ->
  emit (fun ls fs => luaK_code1 ls fs o a) ls = Ok (pc, ls') ->
  cur_not_call ls'.
Proof.
  intros Ho. apply emit_not_call. intros ? ? ? ?.
  by apply (proj1 (proj2 (proj2 (proj2 (proj2 contract))))).
Qed.

Section Parts.
Variable expr : expdesc -> P expdesc.
Variable fuel : nat.

Lemma recfields_not_call ls n ls' :
  recfields expr fuel ls = Ok (n, ls') -> cur_not_call ls'.
Proof.
  unfold recfields. intros H.
  binv H as ? ? _. binv H as ? ? _. binv H as ? ? _. binv H as ? ? He.
  apply mret_inv in H as [_ ->]. eapply code1_not_call; [|exact He]. auto.
Qed.

Lemma listfields_not_call ls n ls' :
  listfields expr fuel ls = Ok (n, ls') -> cur_not_call ls'.
Proof.
  unfold listfields. intros H.
  binv H as ? ? _. binv H as ? ? _. binv H as [v n'] ? _.
  binv H as ? ? _. binv H as ? ? He. apply mret_inv in H as [_ ->].
  eapply emit_not_call; [|exact He]. intros ? ? ? ?.
  apply (proj2 (proj2 (proj2 (proj2 (proj2 contract))))).
Qed.

Lemma constructor_part_not_call ls cd ls' :
  constructor_part expr fuel ls = Ok (cd, ls') ->
  cur_not_call ls -> cur_not_call ls'.
Proof.
  rewrite constructor_part_eq. destruct (part_kind ls).
  - by intros [= <- <-].
  - intros H _. binv H as ? ? _. binv H as ? ? Hr.
    apply mret_inv in H as [_ ->]. by eapply recfields_not_call.
  - intros H _. binv H as ? ? _. binv H as ? ? Hr.
    apply mret_inv in H as [_ ->]. by eapply listfields_not_call.
Qed.

Lemma constructor_def_not_call ls u ls' :
  constructor_def expr fuel ls = Ok (u, ls') -> cur_not_call ls'.
Proof.
  rewrite constructor_def_eq. intros H.
  binv H as pc ls1 Hpc. binv H as nelems ls2 Hbody. binv H as [] ls3 Hlim.
  apply luaX_checklimit_inv in Hlim as [_ ->].
  eapply set_table_size_not_call; [done|].
  apply code1_not_call in Hpc; [|auto].
  unfold constructor_body in Hbody.
  binv Hbody as [] lsa Hopen. binv Hbody as cd lsb Hcd.
  binv Hbody as sep lsc Hsep. binv Hbody as n lsd Hn.
  binv Hbody as [] lse Hclose. apply mret_inv in Hbody as [_ ->].
  apply check_match_fs in Hclose. eapply cur_not_call_fs; [done|].
  apply check_fs in Hopen. apply optional_fs in Hsep.
  assert (cur_not_call lsc) as Hlsc.
  { eapply cur_not_call_fs; [done|].
    eapply constructor_part_not_call; [done|].
    by eapply cur_not_call_fs. }
  destruct (negb (sep =? 0)).
  - binv Hn as other lsf Hother. binv Hn as [] lsg Hcond.
    apply mret_inv in Hn as [_ ->].
    apply check_condition_inv in Hcond as [_ ->].
    by eapply constructor_part_not_call.
  - by apply mret_inv in Hn as [_ ->].
Qed.

End Parts.
Section Statement.
Variable body : Z -> Z -> P unit.
Variable expr0 : expdesc -> P expdesc.
Variable fuel0 : nat.
Variable expr : expdesc -> P expdesc.
Variable fuel : nat.

Abbreviation primary :=
  (primaryexp body (constructor_def expr0 fuel0) expr).
Abbreviation simple :=
  (simpleexp body (constructor_def expr0 fuel0) expr).
Abbreviation exprstmt :=
  (exprstat body (constructor_def expr0 fuel0) expr).

(** A literal, a constructor and an upvalue reference leave a [VEXP]
    and no call as the last instruction. *)
Lemma primaryexp_bare ls v ls1 :
  bare (tk_token (ls_t ls)) = true ->
  primary expdesc_auto ls = Ok (v, ls1) ->
  k v = VEXP /\ cur_not_call ls1.
Proof.
  unfold bare. rewrite !orb_true_iff, !Z.eqb_eq.
  unfold primaryexp. rewrite bind_get. cbv zeta.
  intros [[[[E|E]|E]|E]|E]; rewrite E; simpl (_ =? _); intros H.
  - binv H as [] lsa He. binv H as [] lsb Hn.
    apply mret_inv in H as [-> ->]. split; [done|].
    apply next_fs in Hn. eapply cur_not_call_fs; [done|].
    eapply emit_not_call; [|exact He]. intros ? ? [] ?.
    apply (proj1 (proj2 (proj2 (proj2 contract)))).
  - binv H as [] lsa Hn. binv H as [] lsb He.
    apply mret_inv in H as [-> ->]. split; [done|].
    eapply emit_not_call; [|exact He]. intros ? ? [] ?.
    apply (proj1 (proj2 contract)).
  - binv H as [] lsa Hs. binv H as [] lsb Hn.
    apply mret_inv in H as [-> ->]. split; [done|].
    apply next_fs in Hn. eapply cur_not_call_fs; [done|].
    unfold code_string in Hs. binv Hs as c lsc Hc.
    eapply emit_not_call; [|exact Hs]. intros ? ? [] ?.
    apply (proj1 (proj2 (proj2 contract))).
  - binv H as [] lsa Hc. apply mret_inv in H as [-> ->]. split; [done|].
    by eapply constructor_def_not_call.
  - binv H as [] lsa Hn. binv H as n lsb Hname. binv H as [] lsc Hup.
    apply mret_inv in H as [-> ->]. split; [done|].
    rewrite pushupvalue_eq in Hup.
    assert (forall v l, pushupvalue_emit v l = Ok (tt, lsc) ->
                        cur_not_call lsc) as Hemit.
    { intros v l Hv. unfold pushupvalue_emit in Hv.
      binv Hv as i lsd Hi. binv Hv as pc lse Hcode.
      apply mret_inv in Hv as [_ ->].
      eapply code1_not_call; [|exact Hcode]. auto. }
    destruct (search_local lsb n expdesc_auto) as [level v0].
    destruct (level =? -1).
    + destruct (ls_fs lsb) as [|? [|? ?]]; [done|done|].
      destruct (string_constant_prev n lsb) as [[c lsd]| |]; [|done|done].
      by eapply Hemit.
    + destruct (negb (level =? 1)); [done|]. by eapply Hemit.
Qed.

End Statement.
End ExprStat.

Section ExprStatClaim.
Context {cfg : Config} {emt : Emitter}.
Variable body : Z -> Z -> P unit.
Variable expr0 : expdesc -> P expdesc.
Variable fuel0 : nat.
Variable expr : expdesc -> P expdesc.

Abbreviation primary' :=
  (primaryexp body (constructor_def expr0 fuel0) expr).
Abbreviation simple' :=
  (simpleexp body (constructor_def expr0 fuel0) expr).
Abbreviation exprstat' :=
  (exprstat body (constructor_def expr0 fuel0) expr).

Lemma simpleexp_loop_stop fuel v ls :
  continues (tk_token (ls_t ls)) = false ->
  simpleexp_loop (constructor_def expr0 fuel0) expr (S fuel) (S fuel) v ls
  = Ok (v, ls).
Proof.
  unfold continues. rewrite !orb_false_iff.
  intros [[[[[E1 E2] E3] E4] E5] E6]. simpl.
  assert (token ls = Ok (tk_token (ls_t ls), ls)) as Htok by done.
  rewrite (bind_Ok _ _ _ _ _ Htok). by rewrite E1, E2, E3, E4, E5, E6.
Qed.

Lemma exprstat_VEXP fuel ls v ls1 fs prev :
  simple' fuel expdesc_auto ls = Ok (v, ls1) ->
  k v = VEXP ->
  ls_fs ls1 = fs :: prev ->
  exprstat' fuel ls =
    if luaK_lastisopen fs
    then emit (fun ls fs => luaK_setcallreturns ls fs 0) ls1
    else Err (E_error "syntax error").
Proof.
  intros Hs Hk Hfs. unfold exprstat.
  rewrite (bind_Ok _ _ _ _ _ Hs). rewrite bool_decide_eq_true_2 by done.
  unfold mbind at 1, P_mbind, bind at 1, getfs. rewrite Hfs.
  unfold check_condition. by destruct (luaK_lastisopen fs).
Qed.

(** C10.  An expression statement whose expression ends up as a [VEXP]
    descriptor fails with "syntax error" unless the last instruction is
    an open call, and is then a call statement: the call is set to return
    no value.  With a bytecode writer that keeps the contract of open
    calls, a statement that is a bare literal ([nil], a number, a string), a
    bare constructor or a bare upvalue reference (the token after it does
    not continue the expression) is rejected with "syntax error". *)
Theorem exprstat_call_only (fuel : nat) :
  (forall ls v ls1 fs prev,
     simple' fuel expdesc_auto ls = Ok (v, ls1) ->
     k v = VEXP ->
     ls_fs ls1 = fs :: prev ->
     (luaK_lastisopen fs = false ->
      exprstat' fuel ls = Err (E_error "syntax error"))
     /\ (luaK_lastisopen fs = true ->
         exprstat' fuel ls =
           emit (fun ls fs => luaK_setcallreturns ls fs 0) ls1))
  /\ (open_call_contract ->
      forall ls v ls1,
        bare (tk_token (ls_t ls)) = true ->
        primary' expdesc_auto ls = Ok (v, ls1) ->
        continues (tk_token (ls_t ls1)) = false ->
        exprstat' (S fuel) ls = Err (E_error "syntax error")).
Proof.
  split.
  - intros ls v ls1 fs prev Hs Hk Hfs.
    rewrite (exprstat_VEXP _ _ _ _ _ _ Hs Hk Hfs).
    split; by intros ->.
  - intros contract ls v ls1 Hbare Hp Hcont.
    destruct (primaryexp_bare contract _ _ _ _ _ _ _ Hbare Hp)
      as (Hk & fs & prev & Hfs & Hlast).
    assert (simple' (S fuel) expdesc_auto ls = Ok (v, ls1)) as Hs.
    { unfold simpleexp. rewrite (bind_Ok _ _ _ _ _ Hp).
      by apply simpleexp_loop_stop. }
    rewrite (exprstat_VEXP _ _ _ _ _ _ Hs Hk Hfs).
    destruct (luaK_lastisopen fs) eqn:Hopen; [|done].
    by destruct (proj1 contract fs Hopen).
Qed.

End ExprStatClaim.

Lemma exprstat_call_only_witness :
  exprstat (body 3) (constructor_def (expr 3) 3) (expr 3) 3 (start z_nil)
  = Err (E_error "syntax error").
Proof.
  refine (proj2 (exprstat_call_only (body 3) (expr 3) 3 (expr 3) 2)
            Writer_open_call_contract (start z_nil)
            (mkexpdesc VEXP 0 (-1) (-1))
            (after (primaryexp (body 3) (constructor_def (expr 3) 3) (expr 3)
                      expdesc_auto) (start z_nil))
            _ _ _);
    vm_compute; reflexivity.
Defined.

(** ** Local declarations *)

Lemma same_scope_refl fs : same_scope fs fs.
Proof. by unfold same_scope. Qed.

Lemma same_scope_trans fs1 fs2 fs3 :
  same_scope fs1 fs2 -> same_scope fs2 fs3 -> same_scope fs1 fs3.
Proof.
  intros (Hn & Hp & Hs & Hc & Hw) (Hn' & Hp' & Hs' & Hc' & Hw').
  unfold same_scope. split_and!; try congruence.
  intros Hwf. destruct (Hw Hwf) as [Hwf2 Hnames].
  destruct (Hw' Hwf2) as [Hwf3 Hnames']. split; [done|].
  intros i Hi. rewrite Hnames' by lia. by apply Hnames.
Qed.

Lemma search_actloc_same fs fs' n c :
  (forall i, 0 <= i < Z.of_nat c -> actloc_name fs' i = actloc_name fs i) ->
  search_actloc fs' n c = search_actloc fs n c.
Proof.
  induction c as [|c IH]; [done|]. intros Hnames. simpl.
  rewrite Hnames by lia. rewrite IH; [done|]. intros i ?. apply Hnames. lia.
Qed.

(** Name resolution sees only the active locals. *)
Lemma search_local_same_scope ls ls' fs fs' prev n v :
  ls_fs ls = fs :: prev -> ls_fs ls' = fs' :: prev ->
  wf_actloc fs -> same_scope fs fs' ->
  search_local ls' n v = search_local ls n v.
Proof.
  intros Hfs Hfs' Hwf (Hn & _ & _ & _ & Hw).
  destruct (Hw Hwf) as [_ Hnames].
  unfold search_local. rewrite Hfs, Hfs'. simpl. rewrite Hn.
  rewrite (search_actloc_same fs fs'); [done|]. intros i ?. apply Hnames. lia.
Qed.

Section Declare.
Context {cfg : Config}.

Lemma putfs_inv fs ls u ls' :
  putfs fs ls = Ok (u, ls') ->
  exists old prev, ls_fs ls = old :: prev /\ ls' = set_ls_fs ls (fs :: prev).
Proof.
  unfold putfs. destruct (ls_fs ls) as [|old prev]; [done|].
  intros [= <- <-]. by exists old, prev.
Qed.

(** [new_localvar] registers a record for the name and fills a slot that
    is not active: the active locals stay as they are. *)
Lemma new_localvar_same_scope name n ls fs prev u ls' :
  0 <= n ->
  ls_fs ls = fs :: prev ->
  new_localvar name n ls = Ok (u, ls') ->
  exists fs', ls_fs ls' = fs' :: prev /\ same_scope fs fs'
              /\ ls_t ls' = ls_t ls /\ ls_z ls' = ls_z ls
              /\ ls_lookahead ls' = ls_lookahead ls.
Proof.
  intros Hn Hfs H. unfold new_localvar in H.
  binv H as fs0 ls0 Hg. apply getfs_inv in Hg as (-> & prev0 & Hfs0).
  rewrite Hfs in Hfs0. injection Hfs0 as <- <-.
  binv H as [] ls1 Hlim. apply luaX_checklimit_inv in Hlim as [_ ->].
  binv H as reg ls2 Hreg. unfold luaI_registerlocalvar in Hreg.
  binv Hreg as fs1 ls3 Hg. apply getfs_inv in Hg as (-> & prev1 & Hfs1).
  rewrite Hfs in Hfs1. injection Hfs1 as <- <-.
  binv Hreg as size ls4 Hsize.
  assert (ls4 = ls) as ->.
  { destruct (luaM_growvector _ _ _ _); simpl in Hsize; by simplify_eq. }
  binv Hreg as [] ls5 Hput. apply mret_inv in Hreg as [-> ->].
  apply putfs_inv in Hput as (old & prev2 & Hold & ->).
  rewrite Hfs in Hold. injection Hold as <- <-.
  binv H as fs2 ls6 Hg. apply getfs_inv in Hg as (-> & prev3 & Hfs3).
  simpl in Hfs3. injection Hfs3 as <- <-.
  apply putfs_inv in H as (old & prev4 & Hold & ->).
  simpl in Hold. injection Hold as <- <-.
  eexists. split; [done|]. split; [|done].
  unfold same_scope. simpl. split_and!; try done.
  intros Hwf. split.
  - intros i a Hi. simpl in *.
    rewrite lookup_insert_ne by lia. intros Ha.
    specialize (Hwf i a Hi Ha). lia.
  - intros i Hi. unfold actloc_name. simpl.
    rewrite lookup_insert_ne by lia.
    destruct (fs_actloc fs !! i) as [a|] eqn:Ha; [|done]. simpl.
    specialize (Hwf i a Hi Ha). rewrite lookup_insert_ne by lia. done.
Qed.

End Declare.

Lemma str_checkname_fs ls n ls' :
  str_checkname ls = Ok (n, ls') -> ls_fs ls' = ls_fs ls.
Proof.
  unfold str_checkname. rewrite bind_get. intros H.
  binv H as [] ls1 Hc. apply check_condition_inv in Hc as [_ ->].
  binv H as [] ls2 Hn. apply mret_inv in H as [_ ->]. by apply next_fs in Hn.
Qed.

Section DeclareLoop.
Context {cfg : Config}.

(** The loop over the declared names activates nothing. *)
Lemma localstat_loop_same_scope turns nvars ls fs prev n ls' :
  0 <= nvars ->
  ls_fs ls = fs :: prev ->
  localstat_loop turns nvars ls = Ok (n, ls') ->
  nvars < n /\ exists fs', ls_fs ls' = fs' :: prev /\ same_scope fs fs'.
Proof.
  revert nvars ls fs. induction turns as [|turns IH]; [done|].
  intros nvars ls fs Hn Hfs H. simpl in H.
  binv H as [] ls1 Hnext. apply next_fs in Hnext.
  binv H as name ls2 Hname. apply str_checkname_fs in Hname.
  binv H as [] ls3 Hnew.
  assert (ls_fs ls2 = fs :: prev) as Hfs2 by congruence.
  destruct (new_localvar_same_scope _ _ _ _ _ _ _ Hn Hfs2 Hnew)
    as (fs3 & Hfs3 & Hsame & _).
  binv H as tok ls4 Htok. injection Htok as <- <-.
  destruct (tk_token (ls_t ls3) =? l_c ",").
  - destruct (IH (nvars + 1) ls3 fs3 ltac:(lia) Hfs3 H)
      as (Hlt & fs' & Hfs' & Hsame').
    split; [lia|]. exists fs'. split; [done|].
    by eapply same_scope_trans.
  - apply mret_inv in H as [-> ->]. split; [lia|]. by exists fs3.
Qed.

End DeclareLoop.

(** Activation: [count] turns of the loop of [adjustlocalvars] make the
    next [count] slots active and give their records the current [pc] as
    [startpc]. *)
Lemma adjustlocalvars_iter fs count :
  let fs' := Nat.iter count adjustlocalvars_step fs in
  fs_nactloc fs' = fs_nactloc fs + Z.of_nat count
  /\ fs_pc fs' = fs_pc fs
  /\ fs_actloc fs' = fs_actloc fs
  /\ forall j a lv,
      fs_nactloc fs <= j < fs_nactloc fs + Z.of_nat count ->
      fs_actloc fs !! j = Some a ->
      f_locvars (fs_f fs') !! a = Some lv ->
      startpc lv = fs_pc fs.
Proof.
  induction count as [|count IH]; simpl.
  { split_and!; try done; [lia|]. intros j a lv ?; lia. }
  destruct IH as (Hn & Hp & Ha & Hs).
  set (fsk := Nat.iter count adjustlocalvars_step fs) in *.
  unfold adjustlocalvars_step, alter_locvar. simpl.
  destruct (fs_actloc fsk !! fs_nactloc fsk) as [ak|] eqn:Hak; simpl.
  - split_and!; try done; [lia|]. intros j a lv Hj Hja.
    destruct (decide (a = ak)) as [->|Hne].
    + rewrite lookup_alter_eq.
      destruct (f_locvars (fs_f fsk) !! ak); [|done].
      intros [= <-]. simpl. done.
    + rewrite lookup_alter_ne by done. intros Hlv.
      apply (Hs j a lv); [|done|done].
      destruct (decide (j = fs_nactloc fs + Z.of_nat count)) as [->|]; [|lia].
      rewrite Ha, Hn in Hak. congruence.
  - split_and!; try done; [lia|]. intros j a lv Hj Hja Hlv.
    apply (Hs j a lv); [|done|done].
    destruct (decide (j = fs_nactloc fs + Z.of_nat count)) as [->|]; [|lia].
    rewrite Ha, Hn in Hak. congruence.
Qed.

Lemma adjustlocalvars_inv nvars ls u ls' :
  0 <= nvars ->
  adjustlocalvars nvars ls = Ok (u, ls') ->
  exists fs prev fs',
    ls_fs ls = fs :: prev /\ ls_fs ls' = fs' :: prev
    /\ fs_nactloc fs' = fs_nactloc fs + nvars
    /\ forall j a lv,
        fs_nactloc fs <= j < fs_nactloc fs + nvars ->
        fs_actloc fs !! j = Some a ->
        f_locvars (fs_f fs') !! a = Some lv ->
        startpc lv = fs_pc fs.
Proof.
  intros Hn H. unfold adjustlocalvars in H.
  binv H as fs ls0 Hg. apply getfs_inv in Hg as (-> & prev & Hfs).
  apply putfs_inv in H as (old & prev' & Hold & ->).
  rewrite Hfs in Hold. injection Hold as <- <-.
  destruct (adjustlocalvars_iter fs (Z.to_nat nvars)) as (Hna & _ & _ & Hs).
  rewrite Z2Nat.id in Hna, Hs by done.
  eexists fs, prev, _. split_and!; done.
Qed.

Section LocalStat.
Context {cfg : Config} {emt : Emitter}.
Variable expr : expdesc -> P expdesc.
Variable fuel : nat.

(** C5.  A local declaration in a function [fs].  First the names are
    declared: [nvars] of them, and after that the function has the same
    active locals as before, the same [pc] and the same code.  Then the
    expression list is parsed, in a state where every name resolves as it
    did before the statement.  Then the lengths are adjusted.  Only then
    are the locals activated: [nactloc] grows by [nvars], and the records
    of the new active slots get as [startpc] the [pc] reached after the
    expression list.  So in [local x = x] the [x] on the right is the [x]
    that was visible before. *)
Theorem localstat_activates_last (ls : LexState) (fs : FuncState)
    (prev : list FuncState) (ls' : LexState) :
  ls_fs ls = fs :: prev ->
  localstat expr fuel ls = Ok (tt, ls') ->
  exists nvars ls1 fs1 c ls2 nexps ls3 ls4 fs4 prev4 fs',
    localstat_loop fuel 0 ls = Ok (nvars, ls1)
    /\ 1 <= nvars
    /\ ls_fs ls1 = fs1 :: prev
    /\ same_scope fs fs1
    /\ optional (l_c "=") ls1 = Ok (c, ls2)
    /\ ls_fs ls2 = fs1 :: prev
    /\ (wf_actloc fs ->
        forall n v, search_local ls2 n v = search_local ls n v)
    /\ (if c =? 0 then nexps = 0 /\ ls3 = ls2
        else explist1 expr fuel ls2 = Ok (nexps, ls3))
    /\ adjust_mult_assign nvars nexps ls3 = Ok (tt, ls4)
    /\ adjustlocalvars nvars ls4 = Ok (tt, ls')
    /\ ls_fs ls4 = fs4 :: prev4
    /\ ls_fs ls' = fs' :: prev4
    /\ fs_nactloc fs' = fs_nactloc fs4 + nvars
    /\ forall j a lv,
        fs_nactloc fs4 <= j < fs_nactloc fs4 + nvars ->
        fs_actloc fs4 !! j = Some a ->
        f_locvars (fs_f fs') !! a = Some lv ->
        startpc lv = fs_pc fs4.
Proof.
  intros Hfs H. unfold localstat in H.
  binv H as nvars ls1 Hloop.
  destruct (localstat_loop_same_scope _ _ _ _ _ _ _ (Z.le_refl 0) Hfs Hloop)
    as (Hnv & fs1 & Hfs1 & Hsame).
  binv H as c ls2 Hopt. pose proof (optional_fs _ _ _ _ Hopt) as Hfs2.
  rewrite Hfs1 in Hfs2.
  binv H as nexps ls3 Hexp. binv H as [] ls4 Hadj.
  assert (0 <= nvars) as Hnv0 by lia.
  destruct (adjustlocalvars_inv nvars ls4 tt ls' Hnv0 H)
    as (fs4 & prev4 & fs' & Hfs4 & Hfs' & Hna & Hs).
  exists nvars, ls1, fs1, c, ls2, nexps, ls3, ls4, fs4, prev4, fs'.
  split_and!; try done; try lia.
  - intros Hwf n v. by eapply search_local_same_scope.
  - destruct (c =? 0); simpl in Hexp; [|done].
    by apply mret_inv in Hexp as [-> ->].
Qed.

End LocalStat.

Lemma localstat_activates_last_witness :
  exists nvars ls1 fs1,
    localstat_loop 5 0 ls_local_x = Ok (nvars, ls1)
    /\ ls_fs ls1 = [fs1]
    /\ same_scope (hd fs_new (ls_fs ls_local_x)) fs1.
Proof.
  destruct (localstat_activates_last (expr 5) 5 ls_local_x
              (hd fs_new (ls_fs ls_local_x)) [] ls_local_x_x)
    as (nvars & ls1 & fs1 & c & ls2 & nexps & ls3 & ls4 & fs4 & prev4 & fs'
        & Hloop & _ & Hfs1 & Hsame & _);
    [vm_compute; reflexivity ..|].
  exists nvars, ls1, fs1. split; [exact Hloop|]. split; [exact Hfs1|exact Hsame].
Defined.

(** [local x = 1 local x = x]: the [x] on the right is loaded from slot 0,
    the first [x], and the second [x] starts after that load. *)
Lemma local_x_x_example :
  exists f,
    luaY_parser 5 ∅ z_local_x_x "chunk" = Ok f
    /\ map_to_list (f_code f)
       = [(2, CREATE_U OP_RETURN 2); (1, CREATE_U OP_GETLOCAL 0);
          (0, CREATE_S OP_PUSHINT 1)]
    /\ f_locvars f !! 0 = Some (mkLocVar "x" 1 3)
    /\ f_locvars f !! 1 = Some (mkLocVar "x" 2 3).
Proof.
  eexists. split; [vm_compute; reflexivity|].
  split_and!; vm_compute; reflexivity.
Qed.

(** * The stack accounting of the reference writer *)

Lemma ktriple_bind {A B} c0 (m : Writer.K A) (f : A -> Writer.K B) R Q :
  ktriple c0 m R ->
  (forall a c1, R a c1 -> ktriple c1 (f a) Q) ->
  ktriple c0 (m ≫= f) Q.
Proof.
  intros Hm Hf fs Hc. specialize (Hm fs Hc).
  unfold mbind, Writer.K_mbind, Writer.K_bind.
  destruct (m fs) as [[a fs']| |]; auto.
  by apply (Hf a (core fs')).
Qed.

Lemma ktriple_ret {A} c0 (a : A) (Q : A -> Core -> Prop) :
  Q a c0 -> ktriple c0 (mret a) Q.
Proof. intros HQ fs <-. exact HQ. Qed.

Lemma ktriple_conseq {A} c0 (m : Writer.K A) (R Q : A -> Core -> Prop) :
  ktriple c0 m R -> (forall a c, R a c -> Q a c) -> ktriple c0 m Q.
Proof.
  intros Hm HQ fs Hc. specialize (Hm fs Hc).
  destruct (m fs) as [[a fs']| |]; auto.
Qed.

Lemma ktriple_get c0 :
  ktriple c0 Writer.K_get (fun fs c => c = c0 /\ core fs = c0).
Proof. by intros fs <-. Qed.

Lemma ktriple_put c0 fs :
  ktriple c0 (Writer.K_put fs) (fun _ c => c = core fs).
Proof. by intros fs0 _. Qed.

Lemma ktriple_error {A} c0 msg (Q : A -> Core -> Prop) :
  ktriple c0 (Writer.K_error msg) Q.
Proof. by intros fs _. Qed.

Tactic Notation "kstep" constr(H) "as" ident(a) ident(c)
    simple_intropattern(p) :=
  eapply ktriple_bind; [apply H | intros a c; cbv beta; intros p].
Tactic Notation "kget" ident(fs) "as" ident(c) :=
  eapply ktriple_bind;
  [apply ktriple_get
  |intros fs ? [-> c];
   try (match type of c with _ = ?c0 => is_var c0; subst c0 end)].

Lemma core_eta c :
  c = mkCore (c_sl c) (c_na c) (c_pc c) (c_lt c) (c_code c) (c_bl c)
        (c_upvalues c) (c_nup c).
Proof. by destruct c. Qed.

Lemma luaM_growvector_not_assert nelems size limit e :
  luaM_growvector nelems size limit e <> Err E_assert.
Proof.
  unfold luaM_growvector, luaM_growaux.
  repeat case_match; discriminate.
Qed.

Lemma deltastack_spec c0 d :
  ktriple c0 (Writer.luaK_deltastack d)
    (fun _ c => c = mkCore (c_sl c0 + d) (c_na c0) (c_pc c0) (c_lt c0)
                      (c_code c0) (c_bl c0) (c_upvalues c0) (c_nup c0)).
Proof.
  intros fs <-. unfold Writer.luaK_deltastack. simpl.
  repeat case_match; simplify_eq; try done.
Qed.

Lemma alter_code_spec c0 g pc :
  ktriple c0 (Writer.alter_code g pc) (fun _ c => c = altered c0 g pc).
Proof. by intros fs <-. Qed.

Lemma code2_spec c0 o a b :
  ktriple c0 (Writer.luaK_code2 o a b)
    (fun r c => if is_nop o a then c = c0
                else c = pushed c0 o a b /\ r = c_pc c0).
Proof.
  intros fs <-. unfold Writer.luaK_code2.
  unfold mbind, Writer.K_mbind, Writer.K_bind, Writer.K_get. simpl.
  assert (Hn : match o with OP_PUSHNIL | OP_POP => a =? 0 | _ => false end
               = is_nop o a) by done.
  rewrite Hn. destruct (is_nop o a); [done|].
  pose proof (deltastack_spec (core fs) (Writer.opdelta o a b (fs_stacklevel fs)) fs eq_refl) as Hd.
  destruct (Writer.luaK_deltastack _ fs) as [[[] fs1]| |]; [|exact Hd|done].
  simpl in Hd.
  pose proof (luaM_growvector_not_assert (fs_pc fs1) (f_sizecode (fs_f fs1)) MAX_INT "code size overflow") as Hg.
  unfold Writer.K_put. simpl.
  destruct (luaM_growvector _ _ _ _) as [size|e|]; simpl; [|congruence|done].
  unfold core in Hd. injection Hd as H1 H2 H3 H4 H5 H6 H7 H8.
  unfold pushed, instr, core. simpl. rewrite H1, H2, H3, H4, H5, H6, H7, H8.
  done.
Qed.

(** ** States after an instruction is written or changed *)

Lemma GET_OPCODE_instr o a b : GET_OPCODE (instr o a b) = o.
Proof. unfold instr. by destruct (Writer.opmode o). Qed.

Lemma open_instr_instr o a b :
  open_instr (instr o a b)
  = match o with OP_CALL => b =? MULT_RET | _ => false end.
Proof. by destruct o. Qed.

Lemma pushed_wf c0 o a b : wf c0 -> wf (pushed c0 o a b).
Proof. intros (H1 & H2 & H3). split_and!; simpl; [lia|done|done]. Qed.

Lemma pushed_isjump c0 o a b : isjump (pushed c0 o a b) = Writer.ISJUMP o.
Proof.
  unfold isjump, pushed. simpl.
  replace (c_pc c0 + 1 - 1) with (c_pc c0) by lia.
  by rewrite lookup_insert_eq, GET_OPCODE_instr.
Qed.

Lemma pushed_isopen c0 o a b :
  wf c0 -> isopen (pushed c0 o a b) = open_instr (instr o a b).
Proof.
  intros (H1 & _). unfold isopen, pushed. simpl.
  replace (c_pc c0 + 1 - 1) with (c_pc c0) by lia.
  rewrite lookup_insert_eq.
  by rewrite (proj2 (Z.gtb_gt _ _)) by lia.
Qed.

Lemma pushed_fr c0 o a b : fr c0 (pushed c0 o a b).
Proof. done. Qed.

Lemma isopen_not_jump c : isopen c = true -> isjump c = false.
Proof.
  unfold isopen, isjump. destruct (c_pc c >? c_lt c); [|done].
  destruct (c_code c !! (c_pc c - 1)) as [i|]; [|done].
  destruct i as [| | |[] ? ?]; simpl; try done.
Qed.

Lemma quiet_refl c : quiet c c.
Proof. unfold quiet, fr. naive_solver. Qed.

Lemma quiet_trans c0 c1 c2 : quiet c0 c1 -> quiet c1 c2 -> quiet c0 c2.
Proof.
  unfold quiet, fr. intros (H1 & H2 & H3 & H4 & H5 & H6)
    (G1 & G2 & G3 & G4 & G5 & G6).
  destruct H1 as (A1 & A2 & A3 & A4), G1 as (B1 & B2 & B3 & B4).
  split_and!; try congruence.
  - destruct G4 as [E|E]; rewrite E; [done|]. right. congruence.
  - auto.
Qed.

Lemma quiet_wf c0 c : quiet c0 c -> wf c0 -> wf c.
Proof.
  unfold quiet, fr, wf. intros ((_ & _ & H3 & H4) & _ & H5 & H6 & _) (G1 & G2 & G3).
  rewrite H3, H4, H5. split_and!; [|done..].
  destruct H6 as [->| ->]; lia.
Qed.

Lemma quiet_st c0 c N L : quiet c0 c -> st N L c0 -> st N L c.
Proof.
  intros Hq (H1 & H2 & H3). split_and!; [by eapply quiet_wf| |].
  - destruct Hq as ((-> & _) & _). done.
  - destruct Hq as (_ & -> & _). done.
Qed.

Lemma quiet_plain c0 c : quiet c0 c -> plain c0 -> plain c.
Proof.
  intros (_ & _ & _ & _ & H5 & H6) (G1 & G2). split; [congruence|].
  destruct (isopen c) eqn:E; [|done]. rewrite H6 in G2; done.
Qed.

Lemma altered_quiet c0 g pc :
  (forall i, c_code c0 !! pc = Some i -> benign g i) ->
  quiet c0 (altered c0 g pc).
Proof.
  intros Hb. unfold quiet, fr, isjump, isopen, altered. simpl.
  split_and!; try done; [by left| |].
  - destruct (decide (pc = c_pc c0 - 1)) as [->|Hne].
    + rewrite lookup_alter_eq. destruct (c_code c0 !! (c_pc c0 - 1)) as [i|] eqn:E; [|done].
      simpl. by destruct (Hb i eq_refl).
    + by rewrite lookup_alter_ne.
  - destruct (c_pc c0 >? c_lt c0); [|done].
    destruct (decide (pc = c_pc c0 - 1)) as [->|Hne].
    + rewrite lookup_alter_eq. destruct (c_code c0 !! (c_pc c0 - 1)) as [i|] eqn:E; [|done].
      simpl. by destruct (Hb i eq_refl).
    + by rewrite lookup_alter_ne.
Qed.

Lemma benign_SETARG_S s i : benign (fun i => Writer.SETARG_S i s) i.
Proof. by split. Qed.

Lemma benign_SET_OPCODE_jump o i :
  Writer.ISJUMP o = true -> Writer.ISJUMP (GET_OPCODE i) = true ->
  benign (fun i => Writer.SET_OPCODE i o) i.
Proof.
  intros Ho Hi. split.
  - destruct i; simpl in *; congruence.
  - destruct i as [| | |? ? ?]; simpl; try done. by destruct o.
Qed.

Lemma ISJUMP_invertjump o :
  Writer.ISJUMP (Writer.invertjump o) = Writer.ISJUMP o.
Proof. by destruct o. Qed.

Lemma benign_invert i :
  benign (fun i => Writer.SET_OPCODE i (Writer.invertjump (GET_OPCODE i))) i.
Proof.
  split.
  - destruct i; simpl; apply ISJUMP_invertjump.
  - destruct i as [| | |o ? ?]; simpl; try done. by destruct o.
Qed.

(** ** Actions that write no instruction *)

Lemma fixjump_spec c0 pc dest :
  ktriple c0 (Writer.luaK_fixjump pc dest)
    (fun _ c => exists s, c = altered c0 (fun i => Writer.SETARG_S i s) pc).
Proof.
  unfold Writer.luaK_fixjump. destruct (dest =? NO_JUMP).
  - eapply ktriple_conseq; [apply alter_code_spec|]. naive_solver.
  - destruct (_ >? _); [apply ktriple_error|].
    eapply ktriple_conseq; [apply alter_code_spec|]. naive_solver.
Qed.

Lemma fixjump_quiet c0 pc dest :
  ktriple c0 (Writer.luaK_fixjump pc dest) (fun _ c => quiet c0 c).
Proof.
  eapply ktriple_conseq; [apply fixjump_spec|].
  intros ? c [s ->]. apply altered_quiet. intros. apply benign_SETARG_S.
Qed.

Lemma last_jump_not_err turns fs list e :
  Writer.last_jump turns fs list <> Err e.
Proof.
  revert list. induction turns as [|turns IH]; intros list; simpl; [done|].
  destruct (_ =? _); [done|apply IH].
Qed.

Lemma concat_quiet c0 l1 l2 :
  ktriple c0 (Writer.luaK_concat l1 l2) (fun _ c => quiet c0 c).
Proof.
  unfold Writer.luaK_concat. destruct (l1 =? NO_JUMP).
  - apply ktriple_ret, quiet_refl.
  - kget fs as E0.
    eapply ktriple_bind with (R := fun _ c => c = core fs).
    { intros fs1 E. pose proof (last_jump_not_err (Writer.list_turns fs1) fs1 l1).
      destruct (Writer.last_jump _ _ _); simpl; naive_solver. }
    intros last c1 ->.
    kstep fixjump_quiet as u c2 Hq. by apply ktriple_ret.
Qed.

Lemma patchlistaux_quiet turns c0 list target special special_target :
  ktriple c0
    (Writer.luaK_patchlistaux turns list target special special_target)
    (fun _ c => quiet c0 c).
Proof.
  revert c0 list. induction turns as [|turns IH]; intros c0 list; [done|].
  cbn [Writer.luaK_patchlistaux].
  destruct (list =? NO_JUMP); [apply ktriple_ret, quiet_refl|].
  kget fs as E0.
  eapply ktriple_bind with (R := fun _ c => quiet (core fs) c).
  - destruct (_ && _); [apply fixjump_quiet|].
    kstep fixjump_spec as u c1 [s ->].
    repeat case_bool_decide.
    + eapply ktriple_conseq; [apply alter_code_spec|]. intros ? c ->.
      eapply quiet_trans; [apply altered_quiet; intros; apply benign_SETARG_S|].
      apply altered_quiet. simpl. intros i Hi.
      apply benign_SET_OPCODE_jump; [done|].
      rewrite lookup_alter_eq in Hi.
      unfold Writer.code_at in *.
      destruct (f_code (fs_f fs) !! list) as [j|]; simplify_eq/=.
      by match goal with H : GET_OPCODE _ = _ |- _ => rewrite H end.
    + eapply ktriple_conseq; [apply alter_code_spec|]. intros ? c ->.
      eapply quiet_trans; [apply altered_quiet; intros; apply benign_SETARG_S|].
      apply altered_quiet. simpl. intros i Hi.
      apply benign_SET_OPCODE_jump; [done|].
      rewrite lookup_alter_eq in Hi.
      unfold Writer.code_at in *.
      destruct (f_code (fs_f fs) !! list) as [j|]; simplify_eq/=.
      by match goal with H : GET_OPCODE _ = _ |- _ => rewrite H end.
    + apply ktriple_ret. apply altered_quiet. intros; apply benign_SETARG_S.
  - intros ? c1 Hq. eapply ktriple_conseq; [apply IH|].
    intros ? c2 Hq2. by eapply quiet_trans.
Qed.

Lemma put_jlt_quiet fs jlt :
  ktriple (core fs) (Writer.K_put (set_fs_jlt fs jlt))
    (fun _ c => quiet (core fs) c).
Proof. intros fs0 _. apply quiet_refl. Qed.

Lemma patchlist_quiet c0 list target :
  ktriple c0 (Writer.luaK_patchlist list target) (fun _ c => quiet c0 c).
Proof.
  unfold Writer.luaK_patchlist. kget fs as E0.
  destruct (_ =? _).
  - kstep concat_quiet as j c1 Hq. kget fs1 as E1.
    eapply ktriple_conseq; [apply put_jlt_quiet|].
    intros ? c2 Hq2. by eapply quiet_trans.
  - apply patchlistaux_quiet.
Qed.

Lemma getlabel_spec c0 :
  ktriple c0 Writer.luaK_getlabel
    (fun r c => quiet c0 c /\ r = c_pc c0 /\ c_lt c = c_pc c).
Proof.
  unfold Writer.luaK_getlabel. kget fs as E0.
  eapply ktriple_bind
    with (R := fun _ c => quiet (core fs) c /\ c_lt c = c_pc c).
  - destruct (fs_pc fs =? fs_lasttarget fs) eqn:E; simpl.
    + apply ktriple_ret. split; [apply quiet_refl|]. simpl. lia.
    + eapply ktriple_bind; [apply ktriple_put|]. intros ? c1 ->.
      assert (Hq1 : quiet (core fs) (core (set_fs_lasttarget fs (fs_pc fs)))).
      { unfold quiet, fr, isjump, isopen. simpl. split_and!; try done.
        - by right.
        - rewrite Z.gtb_ltb, Z.ltb_irrefl. done. }
      assert (Hlt : c_lt (core (set_fs_lasttarget fs (fs_pc fs)))
                    = c_pc (core (set_fs_lasttarget fs (fs_pc fs)))) by done.
      revert Hq1 Hlt. generalize (core (set_fs_lasttarget fs (fs_pc fs))).
      intros c1 Hq1 Hlt.
      kstep patchlist_quiet as u c2 Hq2. kget fs2 as E2.
      eapply ktriple_conseq; [apply put_jlt_quiet|].
      intros ? c3 Hq3. split.
      * eapply quiet_trans; [eassumption|]. by eapply quiet_trans.
      * destruct Hq2 as (_ & _ & P2 & L2 & _), Hq3 as (_ & _ & P3 & L3 & _).
        simpl in *. destruct L3, L2; lia.
  - intros ? c1 [Hq Hlt]. kget fs1 as E1. apply ktriple_ret.
    split_and!; [done| |done].
    destruct Hq as (_ & _ & Hpc & _). exact Hpc.
Qed.

Lemma getlabel_not_open c0 c :
  quiet c0 c -> c_lt c = c_pc c -> isopen c = false.
Proof.
  intros _ H. unfold isopen. rewrite H.
  by rewrite Z.gtb_ltb, Z.ltb_irrefl.
Qed.

Lemma fixfor_quiet c0 pc dest :
  ktriple c0 (Writer.luaK_fixfor pc dest) (fun _ c => quiet c0 c).
Proof. apply fixjump_quiet. Qed.

(** ** Actions that write instructions *)

Lemma lastisopen_core fs : Writer.luaK_lastisopen fs = isopen (core fs).
Proof.
  unfold Writer.luaK_lastisopen, Writer.previous_instruction, isopen,
    Writer.code_at. simpl.
  destruct (_ >? _); [|done].
  destruct (f_code (fs_f fs) !! (fs_pc fs - 1)) as [[| | |[] ? ?]|]; done.
Qed.

Lemma previous_isjump_core fs : Writer.previous_isjump fs = isjump (core fs).
Proof. done. Qed.

Lemma moved_refl c : moved 0 c c.
Proof. unfold moved, fr. split_and!; auto with lia. Qed.

Lemma moved_quiet d c0 c1 c2 : moved d c0 c1 -> quiet c1 c2 -> moved d c0 c2.
Proof.
  intros ((A1 & A2 & A3 & A4) & A5 & A6) Hq.
  pose proof (quiet_wf _ _ Hq) as Hwf.
  destruct Hq as ((B1 & B2 & B3 & B4) & B5 & _).
  unfold moved, fr. split_and!; try congruence. auto.
Qed.

Lemma moved_pushed d c0 c1 o a b :
  moved d c0 c1 ->
  moved (d + Writer.opdelta o a b (c_sl c1)) c0 (pushed c1 o a b).
Proof.
  intros ((A1 & A2 & A3 & A4) & A5 & A6).
  unfold moved, fr. simpl. split_and!; try done; [lia|].
  intros H. by apply pushed_wf, A6.
Qed.

Lemma moved_st d c0 c N L : moved d c0 c -> st N L c0 -> st N (L + d) c.
Proof.
  intros ((A1 & _) & A5 & A6) (H1 & H2 & H3).
  unfold st. split_and!; [auto|congruence|lia].
Qed.

Lemma moved_eq d d' c0 c : moved d c0 c -> d = d' -> moved d' c0 c.
Proof. by intros H <-. Qed.

Lemma quiet_moved c0 c : quiet c0 c -> moved 0 c0 c.
Proof. intros. eapply moved_quiet; [apply moved_refl|done]. Qed.

Lemma plain_pushed c0 o a b :
  wf c0 -> Writer.ISJUMP o = false -> o <> OP_CALL ->
  plain (pushed c0 o a b).
Proof.
  intros Hwf Hj Hc. split; [by rewrite pushed_isjump|].
  rewrite pushed_isopen, open_instr_instr by done. by destruct o.
Qed.

(** ** Actions that write instructions *)

Lemma code1_spec c0 o a :
  ktriple c0 (Writer.luaK_code1 o a)
    (fun r c => if is_nop o a then c = c0
                else c = pushed c0 o a 0 /\ r = c_pc c0).
Proof. apply code2_spec. Qed.

Lemma code0_spec c0 o :
  o <> OP_PUSHNIL -> o <> OP_POP ->
  ktriple c0 (Writer.luaK_code0 o) (fun r c => c = pushed c0 o 0 0).
Proof.
  intros H1 H2. eapply ktriple_conseq; [apply code2_spec|].
  intros r c. destruct o; simpl; naive_solver.
Qed.

Lemma kstr_spec c0 x :
  ktriple c0 (Writer.luaK_kstr x)
    (fun _ c => c = pushed c0 OP_PUSHSTRING x 0).
Proof.
  unfold Writer.luaK_kstr. kstep code1_spec as r c [-> _].
  by apply ktriple_ret.
Qed.

Lemma adjuststack_spec c0 n :
  ktriple c0 (Writer.luaK_adjuststack n)
    (fun _ c => moved (- n) c0 c
                /\ if n =? 0 then c = c0 else wf c0 -> plain c).
Proof.
  unfold Writer.luaK_adjuststack.
  destruct (n >? 0) eqn:E.
  - kstep code1_spec as r c H. apply ktriple_ret. simpl in H.
    destruct (n =? 0) eqn:E0; [lia|]. destruct H as [-> _].
    split.
    + eapply moved_eq; [apply moved_pushed, moved_refl|]. simpl. lia.
    + intros. by apply plain_pushed.
  - kstep code1_spec as r c H. apply ktriple_ret. simpl in H.
    destruct (n =? 0) eqn:E0.
    + replace (- n =? 0) with true in H by lia. subst c.
      split; [|done]. eapply moved_eq; [apply moved_refl|lia].
    + replace (- n =? 0) with false in H by lia. destruct H as [-> _].
      split.
      * eapply moved_eq; [apply moved_pushed, moved_refl|]. simpl. lia.
      * intros. by apply plain_pushed.
Qed.

Lemma number_constant_spec c0 r :
  ktriple c0 (Writer.number_constant r) (fun _ c => c = c0).
Proof.
  intros fs <-. unfold Writer.number_constant.
  destruct (Writer.find_knum _ _ _); [done|].
  pose proof (luaM_growvector_not_assert (fs_nknum fs)
                (f_sizeknum (fs_f fs)) MAXARG_U "constant table overflow").
  destruct (luaM_growvector _ _ _ _); simpl; [done|congruence|done].
Qed.

Lemma number_spec c0 r :
  ktriple c0 (Writer.luaK_number r)
    (fun _ c => exists o a, (o = OP_PUSHINT \/ o = OP_PUSHNUM)
                            /\ c = pushed c0 o a 0).
Proof.
  unfold Writer.luaK_number.
  eapply ktriple_bind
    with (R := fun _ c => exists o a, (o = OP_PUSHINT \/ o = OP_PUSHNUM)
                                      /\ c = pushed c0 o a 0).
  - destruct (_ && _).
    + eapply ktriple_conseq; [apply code1_spec|]. simpl. naive_solver.
    + kstep number_constant_spec as x c1 ->.
      eapply ktriple_conseq; [apply code1_spec|]. simpl. naive_solver.
  - intros a c1 H. by apply ktriple_ret.
Qed.

Lemma jump_spec c0 :
  ktriple c0 Writer.luaK_jump
    (fun _ c => moved 0 c0 c /\ isjump c = true).
Proof.
  unfold Writer.luaK_jump. kstep code1_spec as j c1 [-> ->].
  assert (Hm : moved 0 c0 (pushed c0 OP_JMP NO_JUMP 0)).
  { eapply moved_eq; [apply moved_pushed, moved_refl|done]. }
  assert (Hj : isjump (pushed c0 OP_JMP NO_JUMP 0) = true)
    by by rewrite pushed_isjump.
  revert Hm Hj. generalize (pushed c0 OP_JMP NO_JUMP 0). intros c1 Hm Hj.
  kget fs as E1. destruct (_ =? _).
  - kstep concat_quiet as j' c2 Hq. kget fs2 as E2.
    eapply ktriple_bind; [apply put_jlt_quiet|]. intros u c3 Hq3.
    apply ktriple_ret. split.
    + eapply moved_quiet; [|exact Hq3]. by eapply moved_quiet.
    + destruct Hq as (_ & _ & _ & _ & Hq & _).
      destruct Hq3 as (_ & _ & _ & _ & Hq3 & _). congruence.
  - by apply ktriple_ret.
Qed.

Lemma setcallreturns_spec c0 n :
  wf c0 ->
  ktriple c0 (Writer.luaK_setcallreturns n)
    (fun _ c => moved (if isopen c0 then n else 0) c0 c
                /\ isjump c = isjump c0
                /\ if isopen c0 then isopen c = (n =? MULT_RET)
                   else c = c0).
Proof.
  intros Hwf. unfold Writer.luaK_setcallreturns. kget fs as E0.
  rewrite lastisopen_core. destruct (isopen (core fs)) eqn:Ho.
  - kstep alter_code_spec as u c1 ->.
    eapply ktriple_conseq; [apply deltastack_spec|]. intros _ c ->.
    pose proof (isopen_not_jump _ Ho) as Hj.
    unfold isopen, isjump in *. simpl in *.
    destruct (fs_pc fs >? fs_lasttarget fs); [|done].
    rewrite lookup_alter_eq.
    destruct (f_code (fs_f fs) !! (fs_pc fs - 1)) as [i|]; [|done]. simpl.
    destruct i as [| | |[] ? ?]; done.
  - apply ktriple_ret. split_and!; try done. apply moved_refl.
Qed.

Lemma storevar_spec c0 v :
  ktriple c0 (Writer.luaK_storevar v)
    (fun _ c => moved (if bool_decide (k v = VINDEXED) then -3 else -1)
                  c0 c).
Proof.
  unfold Writer.luaK_storevar. destruct (k v); simpl.
  - kstep code1_spec as r c [-> _]. apply ktriple_ret.
    eapply moved_eq; [apply moved_pushed, moved_refl|done].
  - kstep code1_spec as r c [-> _]. apply ktriple_ret.
    eapply moved_eq; [apply moved_pushed, moved_refl|done].
  - kstep code2_spec as r c [-> _]. apply ktriple_ret.
    eapply moved_eq; [apply moved_pushed, moved_refl|done].
  - apply ktriple_error.
Qed.

(** ** Descriptors *)

Lemma discharge_spec c0 L v :
  wf c0 -> shape L v c0 ->
  ktriple c0 (Writer.discharge v)
    (fun '(done, v') c =>
       k v' = VEXP /\ fr c0 c /\ wf c
       /\ if done : bool then
            c_sl c = L + 1 /\ plain c
            /\ u_l_t v' = NO_JUMP /\ u_l_f v' = NO_JUMP
          else c = c0 /\ v' = v).
Proof.
  intros Hwf Hs. unfold Writer.discharge, shape in *.
  destruct (k v) eqn:Ek.
  - kstep code1_spec as r c [-> _]. apply ktriple_ret. simpl.
    split_and!; try done; try (by apply pushed_wf); try lia;
      try (by apply plain_pushed).
  - kstep code1_spec as r c [-> _]. apply ktriple_ret. simpl.
    split_and!; try done; try (by apply pushed_wf); try lia;
      try (by apply plain_pushed).
  - kstep code0_spec as r c ->; [done..|]. apply ktriple_ret. simpl.
    split_and!; try done; try (by apply pushed_wf); try lia;
      try (by apply plain_pushed).
  - apply ktriple_ret. split_and!; done.
Qed.

Lemma closed_shape L v c : closed L c -> k v = VEXP -> shape L v c.
Proof. intros [H1 H2] Hk. unfold shape. by rewrite Hk, H1. Qed.

Lemma discharge1_spec c0 L v :
  wf c0 -> shape L v c0 ->
  ktriple c0 (Writer.discharge1 v)
    (fun v' c => k v' = VEXP /\ fr c0 c /\ wf c /\ closed L c).
Proof.
  intros Hwf Hs. unfold Writer.discharge1.
  kstep (discharge_spec c0 L v Hwf Hs) as r c1 H.
  destruct r as [done v']. destruct H as (Hk & Hfr & Hwf1 & H).
  destruct done.
  - destruct H as (Hsl & [Hj Ho] & Ht & Hf). rewrite Ht, Hf. simpl.
    kstep (setcallreturns_spec c1 1 Hwf1) as u c2 (Hm & Hj2 & H2).
    rewrite Ho in *. subst c2. apply ktriple_ret.
    split_and!; try done. unfold closed. by rewrite Hj, Ho.
  - destruct H as [-> ->]. unfold shape in Hs. rewrite Hk in Hs.
    eapply ktriple_bind with (R := fun _ c => fr c0 c /\ wf c /\ closed L c).
    + destruct (_ && _) eqn:E.
      * eapply ktriple_conseq; [apply (setcallreturns_spec c0 1 Hwf)|].
        intros _ c (Hm & Hj & H). destruct (isopen c0) eqn:Ho.
        -- destruct Hm as (F & Hsl & W). split_and!; [done|auto|].
           pose proof (isopen_not_jump _ Ho) as Hj0.
           unfold closed. rewrite H, Hj, Hj0. split; [done|]. lia.
        -- subst c. split_and!; [by apply quiet_refl|done|].
           unfold closed. rewrite Ho. done.
      * apply ktriple_ret. split_and!; [by apply quiet_refl|done|].
        unfold closed. destruct (isopen c0); [|done].
        destruct Hs as (_ & Ht & Hf). rewrite Ht, Hf in E. done.
    + intros u c (F & W & Hc). by apply ktriple_ret.
Qed.

Lemma fr_refl c : fr c c.
Proof. by unfold fr. Qed.

Lemma fr_trans c0 c1 c2 : fr c0 c1 -> fr c1 c2 -> fr c0 c2.
Proof. unfold fr. intros (?&?&?&?) (?&?&?&?). split_and!; congruence. Qed.

Lemma quiet_fr c0 c : quiet c0 c -> fr c0 c.
Proof. by intros [? _]. Qed.

Lemma quiet_sl c0 c : quiet c0 c -> c_sl c = c_sl c0.
Proof. by intros (_ & ? & _). Qed.

Lemma quiet_isjump c0 c : quiet c0 c -> isjump c = isjump c0.
Proof. by intros (_ & _ & _ & _ & ? & _). Qed.

Lemma quiet_not_open c0 c : quiet c0 c -> isopen c0 = false -> isopen c = false.
Proof.
  intros (_ & _ & _ & _ & _ & H) Ho. destruct (isopen c); [|done].
  by rewrite H in Ho.
Qed.

Lemma quiet_closed c0 c L : quiet c0 c -> closed L c0 -> closed L c.
Proof.
  intros Hq [H1 H2]. split; [by eapply quiet_not_open|].
  by rewrite (quiet_isjump _ _ Hq), (quiet_sl _ _ Hq).
Qed.

Lemma fr_st c0 c N L0 L :
  fr c0 c -> wf c -> c_sl c = L -> st N L0 c0 -> st N L c.
Proof. intros (H & _) W S (_ & HN & _). split_and!; [done|congruence|done]. Qed.

Create HintDb stack.
#[local] Hint Resolve fr_refl quiet_refl moved_refl quiet_fr : stack.

Lemma testgo_spec c0 L v invert jump :
  wf c0 -> shape L v c0 ->
  Writer.ISJUMP jump = true ->
  (forall a b s, Writer.opdelta jump a b s = -1) ->
  ktriple c0 (Writer.luaK_testgo v invert jump)
    (fun v' c => k v' = VEXP /\ fr c0 c /\ wf c /\ c_sl c = L).
Proof.
  intros Hwf Hs Hj Hd. unfold Writer.luaK_testgo.
  kstep (discharge1_spec c0 L v Hwf Hs) as v1 c1 (Hk & F1 & W1 & [Ho1 Hc1]).
  kget fs as E1. rewrite previous_isjump_core.
  eapply ktriple_bind
    with (R := fun _ c => fr (core fs) c /\ wf c /\ c_sl c = L).
  { destruct (isjump (core fs)) eqn:Ej; simpl.
    - eapply ktriple_bind with (R := fun _ c => quiet (core fs) c).
      + destruct invert; [|apply ktriple_ret; auto with stack].
        eapply ktriple_conseq; [apply alter_code_spec|]. intros _ c ->.
        apply altered_quiet. intros. apply benign_invert.
      + intros u c Hq. apply ktriple_ret.
        split_and!; [by apply quiet_fr|by eapply quiet_wf|].
        by rewrite (quiet_sl _ _ Hq).
    - eapply ktriple_conseq; [apply code1_spec|]. intros r c H.
      cbv beta in H.
      replace (is_nop jump _) with false in H by by destruct jump.
      destruct H as [-> _]. split_and!; [done|by apply pushed_wf|].
      simpl in *. rewrite Hd. lia. }
  intros prevpos c2 (F2 & W2 & S2).
  kstep concat_quiet as exitlist c3 Hq3.
  kstep getlabel_spec as l c4 (Hq4 & _ & _).
  kstep patchlist_quiet as u c5 Hq5.
  apply ktriple_ret.
  assert (Hq : quiet c2 c5)
    by exact (quiet_trans _ _ _ (quiet_trans _ _ _ Hq3 Hq4) Hq5).
  split_and!.
  - by destruct invert.
  - eapply fr_trans; [exact F1|]. eapply fr_trans; [exact F2|].
    by apply quiet_fr.
  - by eapply quiet_wf.
  - by rewrite (quiet_sl _ _ Hq).
Qed.

Lemma goiftrue_spec c0 L v keepvalue :
  wf c0 -> shape L v c0 ->
  ktriple c0 (Writer.luaK_goiftrue v keepvalue)
    (fun v' c => k v' = VEXP /\ fr c0 c /\ wf c /\ c_sl c = L).
Proof.
  intros. apply testgo_spec; try done; by destruct (negb _).
Qed.

Lemma goiffalse_spec c0 L v keepvalue :
  wf c0 -> shape L v c0 ->
  ktriple c0 (Writer.luaK_goiffalse v keepvalue)
    (fun v' c => k v' = VEXP /\ fr c0 c /\ wf c /\ c_sl c = L).
Proof.
  intros. apply testgo_spec; try done; by destruct (negb _).
Qed.

Lemma code_label_spec c0 o a :
  is_nop o a = false ->
  ktriple c0 (Writer.code_label o a)
    (fun _ c => exists c1, quiet c0 c1 /\ c = pushed c1 o a 0).
Proof.
  intros Hn. unfold Writer.code_label.
  kstep getlabel_spec as l c1 (Hq & _ & _).
  eapply ktriple_conseq; [apply code1_spec|]. intros r c H.
  rewrite Hn in H. destruct H as [-> _]. eauto.
Qed.

(** What [luaK_tostack] leaves: the value on the stack, or an open call
    when more than one value is allowed. *)
Lemma tostack_post_value L onlyone c :
  c_sl c = L + 1 -> isopen c = false ->
  if onlyone =? 0 then listed L 1 c else c_sl c = L + 1 /\ isopen c = false.
Proof.
  intros Hs Ho. destruct (onlyone =? 0); [|done].
  unfold listed. rewrite Ho. lia.
Qed.

Lemma tostack_spec c0 L v onlyone :
  wf c0 -> shape L v c0 ->
  ktriple c0 (Writer.luaK_tostack v onlyone)
    (fun v' c =>
       k v' = VEXP /\ u_l_t v' = NO_JUMP /\ u_l_f v' = NO_JUMP
       /\ fr c0 c /\ wf c /\ isjump c = false
       /\ if onlyone =? 0 then listed L 1 c
          else c_sl c = L + 1 /\ isopen c = false).
Proof.
  intros Hwf Hs. unfold Writer.luaK_tostack.
  kstep (discharge_spec c0 L v Hwf Hs) as r c1 H.
  destruct r as [done v1]. destruct H as (Hk & F1 & W1 & H).
  destruct done.
  { destruct H as (S1 & [J1 O1] & T1 & F1'). apply ktriple_ret.
    split_and!; try done. by apply tostack_post_value. }
  destruct H as [-> ->]. unfold shape in Hs. rewrite Hk in Hs.
  kget fs as E1. rewrite previous_isjump_core.
  destruct (negb (isjump (core fs)) && (u_l_f v =? NO_JUMP)
            && (u_l_t v =? NO_JUMP)) eqn:EA.
  { apply andb_prop in EA as [EA Et]. apply andb_prop in EA as [Ej Ef].
    apply negb_true_iff in Ej. apply Z.eqb_eq in Et, Ef.
    rewrite Ej in Hs.
    destruct (onlyone =? 0) eqn:E1; simpl.
    - eapply ktriple_bind with (R := fun _ c => c = core fs);
        [by apply ktriple_ret|].
      intros u c2 ->. apply ktriple_ret. split_and!; try done.
      unfold listed. destruct (isopen (core fs)); [|done].
      destruct Hs as [-> _]. lia.
    - kstep (setcallreturns_spec (core fs) 1 Hwf) as u c2 (Hm & Hj & H).
      apply ktriple_ret. destruct Hm as (F2 & S2 & W2).
      assert (c_sl c2 = L + 1 /\ isopen c2 = false) as [? ?].
      { destruct (isopen (core fs)) eqn:Ho.
        - destruct Hs as [Hs _]. split; [lia|done].
        - subst c2. by rewrite Ho. }
      split_and!; try done; [auto|congruence]. }
  assert (Ho : isopen (core fs) = false).
  { destruct (isopen (core fs)) eqn:Ho; [|done].
    rewrite (isopen_not_jump _ Ho) in EA. destruct Hs as (_ & Ht & Hf).
    rewrite Ht, Hf in EA. done. }
  rewrite Ho in Hs.
  eapply ktriple_bind
    with (R := fun '(v', _, _) c =>
                 k v' = VEXP /\ fr (core fs) c /\ wf c
                 /\ c_sl c = L + 1 /\ isjump c = false).
  { destruct (isjump (core fs) || _ || _) eqn:EB.
    - eapply ktriple_bind
        with (R := fun '(v', _) c =>
                     k v' = VEXP /\ fr (core fs) c /\ wf c /\ c_sl c = L).
      + destruct (isjump (core fs)) eqn:Ej.
        * kstep concat_quiet as t c2 Hq. apply ktriple_ret.
          split_and!; [done|by apply quiet_fr|by eapply quiet_wf|].
          by rewrite (quiet_sl _ _ Hq).
        * kstep code_label_spec as j c2 (c2' & Hq & ->); [done|].
          kstep adjuststack_spec as u c3 (Hm & _).
          apply ktriple_ret.
          destruct Hm as (A1 & A2 & A3).
          pose proof (quiet_sl _ _ Hq) as S1. simpl in A2.
          split_and!; [done| | |simpl in *; lia].
          { eapply fr_trans; [apply quiet_fr, Hq|].
            eapply fr_trans; [apply (pushed_fr c2' OP_JMP NO_JUMP 0)|done]. }
          { apply A3, pushed_wf. by eapply quiet_wf. }
      + intros [v2 j] c2 (Hk2 & F2 & W2 & S2).
        kstep code_label_spec as p_nil c3 (c3' & Hq3 & ->); [done|].
        kstep code_label_spec as p_1 c4 (c4' & Hq4 & ->); [done|].
        kstep getlabel_spec as l c5 (Hq5 & _ & _).
        kstep patchlist_quiet as u c6 Hq6.
        apply ktriple_ret.
        assert (Hq56 : quiet (pushed c4' OP_PUSHINT 1 0) c6)
          by exact (quiet_trans _ _ _ Hq5 Hq6).
        assert (W3 : wf (pushed c3' OP_PUSHNILJMP 0 0))
          by (apply pushed_wf; by eapply quiet_wf).
        assert (W4 : wf (pushed c4' OP_PUSHINT 1 0))
          by (apply pushed_wf; by eapply quiet_wf).
        split_and!; [done| |by eapply quiet_wf| |].
        * eapply fr_trans; [exact F2|].
          eapply fr_trans; [apply quiet_fr, Hq3|].
          eapply fr_trans; [apply (pushed_fr c3' OP_PUSHNILJMP 0 0)|].
          eapply fr_trans; [apply quiet_fr, Hq4|].
          eapply fr_trans; [apply (pushed_fr c4' OP_PUSHINT 1 0)|].
          by apply quiet_fr.
        * rewrite (quiet_sl _ _ Hq56). simpl.
          rewrite (quiet_sl _ _ Hq4). simpl.
          rewrite (quiet_sl _ _ Hq3). lia.
        * rewrite (quiet_isjump _ _ Hq56). by rewrite pushed_isjump.
    - apply ktriple_ret.
      apply orb_false_elim in EB as [EB _].
      apply orb_false_elim in EB as [Ej _]. rewrite Ej in Hs.
      split_and!; try done. }
  intros [[v2 p_nil] p_1] c2 (Hk2 & F2 & W2 & S2 & J2).
  kstep getlabel_spec as final c3 (Hq3 & _ & Hlt).
  kget fs3 as E3.
  kstep patchlistaux_quiet as u c4 Hq4.
  kstep patchlistaux_quiet as u' c5 Hq5.
  apply ktriple_ret.
  assert (Hq : quiet c2 c5)
    by exact (quiet_trans _ _ _ (quiet_trans _ _ _ Hq3 Hq4) Hq5).
  assert (Ho5 : isopen c5 = false).
  { eapply quiet_not_open; [exact Hq5|].
    eapply quiet_not_open; [exact Hq4|].
    by eapply getlabel_not_open. }
  split_and!; try done.
  - eapply fr_trans; [exact F2|by apply quiet_fr].
  - by eapply quiet_wf.
  - by rewrite (quiet_isjump _ _ Hq).
  - apply tostack_post_value; [|done]. by rewrite (quiet_sl _ _ Hq).
Qed.

(** ** Operators *)

Lemma prefix_spec c0 L op v :
  wf c0 -> shape L v c0 ->
  ktriple c0 (Writer.luaK_prefix op v)
    (fun v' c => fr c0 c /\ wf c /\ shape L v' c).
Proof.
  intros Hwf Hs.
  assert (Hnot : ktriple c0
            (v ← Writer.discharge1 v;
             fs ← Writer.K_get;
             (if Writer.previous_isjump fs then
                Writer.alter_code
                  (fun i => Writer.SET_OPCODE i
                              (Writer.invertjump (GET_OPCODE i)))
                  (fs_pc fs - 1)
              else Writer.luaK_code0 OP_NOT;; mret tt);;
             mret (set_u_l v (u_l_f v) (u_l_t v)))
            (fun v' c => fr c0 c /\ wf c /\ shape L v' c)).
  { kstep (discharge1_spec c0 L v Hwf Hs) as v1 c1 (Hk & F1 & W1 & Hc1).
    kget fs as E1. rewrite previous_isjump_core.
    eapply ktriple_bind
      with (R := fun _ c => fr (core fs) c /\ wf c /\ closed L c).
    - destruct (isjump (core fs)) eqn:Ej.
      + eapply ktriple_conseq; [apply alter_code_spec|]. intros _ c ->.
        assert (Hq : quiet (core fs)
                  (altered (core fs)
                     (fun i => Writer.SET_OPCODE i
                                 (Writer.invertjump (GET_OPCODE i)))
                     (fs_pc fs - 1)))
          by (apply altered_quiet; intros; apply benign_invert).
        split_and!; [by apply quiet_fr|by eapply quiet_wf
                    |by eapply quiet_closed].
      + kstep code0_spec as r c2 ->; [done..|]. apply ktriple_ret.
        destruct Hc1 as [Ho1 Hc1]. rewrite Ej in Hc1.
        split_and!; [done|by apply pushed_wf|].
        split; [by rewrite pushed_isopen|].
        rewrite pushed_isjump. simpl in *. lia.
    - intros u c2 (F2 & W2 & Hc2). apply ktriple_ret.
      split_and!; [by eapply fr_trans|done|].
      by apply closed_shape. }
  unfold Writer.luaK_prefix. destruct op; [|exact Hnot..].
  kstep (tostack_spec c0 L v 1 Hwf Hs) as v1 c1
    (Hk & Ht & Hf & F1 & W1 & J1 & S1 & O1).
  kstep code0_spec as r c2 ->; [done..|]. apply ktriple_ret.
  split_and!; [done|by apply pushed_wf|].
  apply closed_shape; [|done]. split; [by rewrite pushed_isopen|].
  rewrite pushed_isjump. simpl in *. lia.
Qed.

Lemma infix_spec c0 L op v :
  wf c0 -> shape L v c0 ->
  ktriple c0 (Writer.luaK_infix op v)
    (fun v' c => k v' = VEXP /\ fr c0 c /\ wf c /\ c_sl c = L + kept op).
Proof.
  intros Hwf Hs.
  assert (Hts : ktriple c0 (Writer.luaK_tostack v 1)
            (fun v' c => k v' = VEXP /\ fr c0 c /\ wf c /\ c_sl c = L + 1)).
  { eapply ktriple_conseq; [by apply (tostack_spec c0 L v 1)|].
    intros v' c. simpl. naive_solver. }
  unfold Writer.luaK_infix. destruct op; try exact Hts.
  - eapply ktriple_conseq; [by apply (goiftrue_spec c0 L)|].
    intros v' c. simpl. intros (?&?&?&?). split_and!; try done. lia.
  - eapply ktriple_conseq; [by apply (goiffalse_spec c0 L)|].
    intros v' c. simpl. intros (?&?&?&?). split_and!; try done. lia.
Qed.

Lemma posfix_spec c0 L op v1 v2 :
  wf c0 -> k v1 = VEXP -> shape (L + kept op) v2 c0 ->
  ktriple c0 (Writer.luaK_posfix op v1 v2)
    (fun v' c => fr c0 c /\ wf c /\ shape L v' c).
Proof.
  intros Hwf Hk1 Hs.
  assert (Hlog : forall (g : expdesc -> Z -> expdesc) (l1 l2 : expdesc -> Z),
            (forall v x, k (g v x) = k v1) ->
            kept op = 0 ->
            ktriple c0
              (v2 ← Writer.discharge1 v2;
               f ← Writer.luaK_concat (l1 v2) (l2 v2);
               mret (g v2 f))
              (fun v' c => fr c0 c /\ wf c /\ shape L v' c)).
  { intros g l1 l2 Hg Hkept. rewrite Hkept, Z.add_0_r in Hs.
    kstep (discharge1_spec c0 L v2 Hwf Hs) as v2' c1 (Hk & F1 & W1 & Hc1).
    kstep concat_quiet as f c2 Hq. apply ktriple_ret.
    split_and!; [eapply fr_trans; [done|by apply quiet_fr]
                |by eapply quiet_wf|].
    apply closed_shape; [by eapply quiet_closed|]. by rewrite Hg. }
  assert (Har : forall o a,
            shape (L + 1) v2 c0 ->
            Writer.opdelta o a 0 (L + 2)
            = (if Writer.ISJUMP o then -2 else -1) ->
            o <> OP_CALL -> is_nop o a = false ->
            ktriple c0
              (Writer.luaK_tostack v2 1;; Writer.luaK_code1 o a;; mret v1)
              (fun v' c => fr c0 c /\ wf c /\ shape L v' c)).
  { intros o a Hs1 Hd Hc Hn.
    kstep (tostack_spec c0 (L + 1) v2 1 Hwf Hs1) as v2' c1
      (Hk & Ht & Hf & F1 & W1 & J1 & S1 & O1).
    kstep code1_spec as r c2 H. rewrite Hn in H. destruct H as [-> _].
    apply ktriple_ret.
    split_and!; [done|by apply pushed_wf|].
    apply closed_shape; [|done]. split.
    - rewrite pushed_isopen, open_instr_instr by done. by destruct o.
    - rewrite pushed_isjump. simpl. rewrite S1.
      replace (L + 1 + 1) with (L + 2) by lia. rewrite Hd.
      destruct (Writer.ISJUMP o); lia. }
  unfold Writer.luaK_posfix.
  destruct op; try (simpl kept in Hs; apply Har; done).
  - apply (Hlog (fun v2 f => set_u_l v1 (u_l_t v2) f)
             (fun _ => u_l_f v1) u_l_f); done.
  - apply (Hlog (fun v2 t => set_u_l v1 t (u_l_f v2))
             (fun _ => u_l_t v1) u_l_t); done.
Qed.

(** * The stack accounting of the parser *)

Lemma htriple_bind {A B} cs0 (m : P A) (f : A -> P B) R Q :
  htriple cs0 m R ->
  (forall a cs1, R a cs1 -> htriple cs1 (f a) Q) ->
  htriple cs0 (m ≫= f) Q.
Proof.
  intros Hm Hf ls Hc. specialize (Hm ls Hc).
  unfold mbind, P_mbind, bind.
  destruct (m ls) as [[a ls']| |]; auto.
  by apply (Hf a (cores ls')).
Qed.

Lemma triple_bind {A B} c0 (m : P A) (f : A -> P B) R Q :
  triple c0 m R ->
  (forall a c1, R a c1 -> triple c1 (f a) Q) ->
  triple c0 (m ≫= f) Q.
Proof.
  intros Hm Hf rest. eapply htriple_bind; [apply Hm|].
  intros a cs1 (c1 & -> & HR). by apply Hf.
Qed.

Lemma triple_ret {A} c0 (a : A) (Q : A -> Core -> Prop) :
  Q a c0 -> triple c0 (mret a) Q.
Proof. intros HQ rest ls Hc. simpl. rewrite Hc. eauto. Qed.

Lemma triple_conseq {A} c0 (m : P A) (R Q : A -> Core -> Prop) :
  triple c0 m R -> (forall a c, R a c -> Q a c) -> triple c0 m Q.
Proof.
  intros Hm HQ rest ls Hc. specialize (Hm rest ls Hc).
  destruct (m ls) as [[a ls']| |]; auto.
  destruct Hm as (c & ? & ?). eauto.
Qed.

Lemma triple_throw {A} c0 e (Q : A -> Core -> Prop) :
  e <> E_assert -> triple c0 (throw e) Q.
Proof. by intros He rest ls Hc. Qed.

Lemma triple_timeout {A} c0 (Q : A -> Core -> Prop) : triple c0 timeout Q.
Proof. by intros rest ls Hc. Qed.

Lemma triple_getfs c0 :
  triple c0 getfs (fun fs c => c = c0 /\ core fs = c0).
Proof.
  intros rest ls Hc. unfold getfs, cores in *.
  destruct (ls_fs ls) as [|fs prev] eqn:E; [done|]. simpl in *.
  rewrite E. simpl. simplify_eq. eauto.
Qed.

Lemma triple_putfs c0 fs :
  triple c0 (putfs fs) (fun _ c => c = core fs).
Proof.
  intros rest ls Hc. unfold putfs, cores in *.
  destruct (ls_fs ls) as [|fs0 prev]; [done|]. simpl in *.
  simplify_eq. eauto.
Qed.

Lemma triple_emit {A} c0 (op : LexState -> FuncState -> Res (A * FuncState))
    (Q : A -> Core -> Prop) :
  (forall ls, ktriple c0 (op ls) Q) -> triple c0 (emit op) Q.
Proof.
  intros Hop rest ls Hc. unfold emit, cores in *.
  destruct (ls_fs ls) as [|fs prev]; [done|]. simpl in *.
  injection Hc as Hc Hrest. specialize (Hop ls fs Hc).
  destruct (op ls fs) as [[a fs']| |]; [|done..].
  simpl. rewrite Hrest. eauto.
Qed.

(** ** Actions that leave the stack accounting alone *)

Lemma neutral_triple {A} c0 (m : P A) :
  neutral m -> triple c0 m (fun _ c => c = c0).
Proof.
  intros Hm rest ls Hc. specialize (Hm ls).
  destruct (m ls) as [[a ls']| |]; [|done..].
  rewrite Hm, Hc. eauto.
Qed.

Lemma neutral_bind {A B} (m : P A) (f : A -> P B) :
  neutral m -> (forall a, neutral (f a)) -> neutral (m ≫= f).
Proof.
  intros Hm Hf ls. specialize (Hm ls).
  unfold mbind, P_mbind, bind.
  destruct (m ls) as [[a ls']| |]; [|done..].
  specialize (Hf a ls'). destruct (f a ls') as [[b ls'']| |]; [|done..].
  congruence.
Qed.

Lemma neutral_ret {A} (a : A) : neutral (mret a : P A).
Proof. by intros ls. Qed.

Lemma neutral_throw {A} e : e <> E_assert -> neutral (throw e : P A).
Proof. by intros He ls. Qed.

Lemma neutral_get : neutral get.
Proof. by intros ls. Qed.

Lemma neutral_token : neutral token.
Proof. by intros ls. Qed.

Lemma neutral_timeout {A} : neutral (timeout : P A).
Proof. by intros ls. Qed.

Lemma neutral_next : neutral next.
Proof.
  intros ls. unfold next. destruct (negb _); [done|].
  unfold luaX_lex. simpl. by destruct (ls_z ls).
Qed.

Lemma neutral_lookahead : neutral lookahead.
Proof. intros ls. unfold lookahead, luaX_lex. by destruct (ls_z ls). Qed.

Ltac neutral_tac :=
  repeat first
    [ apply neutral_ret
    | apply neutral_get
    | apply neutral_token
    | apply neutral_next
    | apply neutral_lookahead
    | apply neutral_timeout
    | apply neutral_throw; discriminate
    | assumption
    | apply neutral_bind; [|intros ?]
    | match goal with
      | |- neutral (if ?b then _ else _) => destruct b
      | |- neutral (match ?x with _ => _ end) => destruct x
      end ].

Lemma neutral_check c : neutral (check c).
Proof. unfold check, error_expected. neutral_tac. Qed.

Lemma neutral_check_condition c msg : neutral (check_condition c msg).
Proof. unfold check_condition, luaK_error. neutral_tac. Qed.

Lemma neutral_optional c : neutral (optional c).
Proof. unfold optional. neutral_tac. Qed.

Lemma neutral_check_match what who where_ :
  neutral (check_match what who where_).
Proof. unfold check_match, error_expected. neutral_tac. Qed.

Lemma neutral_checklimit val limit msg :
  neutral (luaX_checklimit val limit msg).
Proof. unfold luaX_checklimit. neutral_tac. Qed.

Lemma neutral_str_checkname : neutral str_checkname.
Proof.
  unfold str_checkname. neutral_tac. apply neutral_check_condition.
Qed.

Lemma neutral_string_constant_fs s : neutral (string_constant_fs s).
Proof.
  intros ls. unfold string_constant_fs.
  destruct (ls_fs ls) as [|fs prev] eqn:E; [done|].
  unfold string_constant.
  pose proof (luaM_growvector_not_assert (fs_nkstr fs) (f_sizekstr (fs_f fs))
                MAXARG_U "constant table overflow").
  destruct (_ || _); [|by unfold cores; simpl; rewrite E].
  destruct (luaM_growvector _ _ _ _); simpl; [|congruence|done].
  unfold cores. simpl. by rewrite E.
Qed.

Lemma neutral_checkname : neutral checkname.
Proof.
  unfold checkname. apply neutral_bind; [apply neutral_str_checkname|].
  intros. apply neutral_string_constant_fs.
Qed.

Tactic Notation "tstep" constr(H) "as" ident(a) ident(c)
    simple_intropattern(p) :=
  eapply triple_bind; [apply H | intros a c; cbv beta; intros p].
Tactic Notation "tneutral" constr(H) "as" ident(a) :=
  eapply triple_bind; [apply neutral_triple, H | intros a ? ->].
Tactic Notation "tneutral" constr(H) :=
  eapply triple_bind; [apply neutral_triple, H | intros ? ? ->].
Tactic Notation "temit" constr(H) "as" ident(a) ident(c)
    simple_intropattern(p) :=
  eapply triple_bind;
  [apply triple_emit; intros ?; apply H | intros a c; cbv beta; intros p].
Tactic Notation "tgetfs" ident(fs) "as" ident(E) :=
  eapply triple_bind;
  [apply triple_getfs
  |intros fs ? [-> E];
   try (match type of E with _ = ?c0 => is_var c0; subst c0 end)].

Lemma neutral_registerlocalvar n : neutral (luaI_registerlocalvar n).
Proof.
  intros ls. unfold luaI_registerlocalvar, getfs, putfs.
  unfold mbind, P_mbind, bind.
  destruct (ls_fs ls) as [|fs prev] eqn:E; [done|]. simpl.
  pose proof (luaM_growvector_not_assert (fs_nlocvars fs)
                (f_sizelocvars (fs_f fs)) MAX_INT "").
  destruct (luaM_growvector _ _ _ _); simpl; [|congruence|done].
  rewrite E. unfold cores. simpl. by rewrite E.
Qed.

Lemma neutral_getfs : neutral getfs.
Proof. intros ls. unfold getfs. by destruct (ls_fs ls). Qed.

Lemma neutral_update (g : FuncState -> FuncState) :
  (forall fs, core (g fs) = core fs) ->
  neutral (fs ← getfs; putfs (g fs)).
Proof.
  intros Hg ls. unfold getfs, putfs. unfold mbind, P_mbind, bind.
  destruct (ls_fs ls) as [|fs prev] eqn:E; [done|]. simpl.
  rewrite E. unfold cores. simpl. by rewrite E, Hg.
Qed.

Lemma neutral_new_localvar name n : neutral (new_localvar name n).
Proof.
  unfold new_localvar.
  apply neutral_bind; [apply neutral_getfs|]. intros fs.
  apply neutral_bind; [apply neutral_checklimit|]. intros _.
  apply neutral_bind; [apply neutral_registerlocalvar|]. intros reg.
  by apply (neutral_update
              (fun fs => set_fs_actloc fs
                           (<[fs_nactloc fs + n:=reg]> (fs_actloc fs)))).
Qed.

Lemma neutral_new_localvarstr name n : neutral (new_localvarstr name n).
Proof. apply neutral_new_localvar. Qed.

Lemma core_adjustlocalvars_iter fs n :
  core (Nat.iter n adjustlocalvars_step fs) = grown (core fs) (Z.of_nat n).
Proof.
  induction n as [|n IH].
  - unfold grown, core. simpl. f_equal; lia.
  - rewrite Nat.iter_succ. unfold adjustlocalvars_step at 1.
    unfold alter_locvar. simpl.
    set (x := Nat.iter n adjustlocalvars_step fs) in *.
    unfold core in *. simpl.
    destruct (fs_actloc x !! fs_nactloc x); simpl;
      injection IH as -> -> -> -> -> -> -> ->; unfold grown; simpl;
      f_equal; lia.
Qed.

Lemma triple_adjustlocalvars c0 n :
  0 <= n -> triple c0 (adjustlocalvars n) (fun _ c => c = grown c0 n).
Proof.
  intros Hn. unfold adjustlocalvars. tgetfs fs as E.
  eapply triple_conseq; [apply triple_putfs|]. intros _ c ->.
  rewrite core_adjustlocalvars_iter. f_equal. lia.
Qed.

Lemma core_removelocalvars_iter fs n :
  core (Nat.iter n removelocalvars_step fs)
  = grown (core fs) (- Z.of_nat n).
Proof.
  induction n as [|n IH].
  - unfold grown, core. simpl. f_equal; lia.
  - rewrite Nat.iter_succ. unfold removelocalvars_step at 1.
    unfold alter_locvar. simpl.
    set (x := Nat.iter n removelocalvars_step fs) in *.
    unfold core in *. simpl.
    destruct (fs_actloc x !! (fs_nactloc x - 1)); simpl;
      injection IH as -> -> -> -> -> -> -> ->; unfold grown; simpl;
      f_equal; lia.
Qed.

Lemma triple_removelocalvars c0 n :
  0 <= n -> triple c0 (removelocalvars n) (fun _ c => c = grown c0 (- n)).
Proof.
  intros Hn. unfold removelocalvars. tgetfs fs as E.
  eapply triple_conseq; [apply triple_putfs|]. intros _ c ->.
  rewrite core_removelocalvars_iter. f_equal. lia.
Qed.

Lemma grown_st c0 N L n : st N L c0 -> st (N + n) L (grown c0 n).
Proof. intros (W & <- & <-). by split_and!. Qed.

Lemma pushed_st c0 N L o a b :
  st N L c0 -> st N (L + Writer.opdelta o a b L) (pushed c0 o a b).
Proof.
  intros (W & <- & <-). split_and!; [by apply pushed_wf|done|done].
Qed.

Lemma search_chain_kind chain n var level :
  k (search_chain chain n var level).2 = VGLOBAL
  \/ k (search_chain chain n var level).2 = VLOCAL.
Proof.
  revert level. induction chain as [|fs prev IH]; intros level; simpl.
  - by left.
  - destruct (search_actloc _ _ _); [by right|apply IH].
Qed.

Lemma triple_singlevar c0 n var :
  triple c0 (singlevar n var)
    (fun v c => c = c0 /\ (k v = VLOCAL \/ k v = VGLOBAL)).
Proof.
  unfold singlevar. tneutral neutral_get as ls.
  pose proof (search_chain_kind (ls_fs ls) n var 0) as Hk.
  unfold search_local. destruct (search_chain _ _ _ _) as [level v].
  simpl in Hk.
  destruct (level >=? 1).
  { apply triple_throw. discriminate. }
  destruct (level =? -1).
  - tneutral neutral_string_constant_fs as c. apply triple_ret.
    split; [done|]. simpl. tauto.
  - apply triple_ret. split; [done|tauto].
Qed.

Lemma triple_code_string c0 s :
  triple c0 (code_string s)
    (fun _ c => exists x, c = pushed c0 OP_PUSHSTRING x 0).
Proof.
  unfold code_string. tneutral neutral_string_constant_fs as x.
  eapply triple_conseq.
  - apply triple_emit. intros ls. apply (kstr_spec c0 x).
  - intros _ c ->. eauto.
Qed.

Lemma upvalued_wf c0 v :
  k v = VLOCAL \/ k v = VGLOBAL -> wf c0 -> wf (upvalued c0 v).
Proof.
  intros Hk (H1 & H2 & H3). split_and!; simpl; [done|lia|].
  intros i u. destruct (decide (i = c_nup c0)) as [->|Hne].
  - rewrite lookup_insert_eq. by intros [= <-].
  - rewrite lookup_insert_ne by done. apply H3.
Qed.

Lemma triple_indexupvalue c0 v :
  triple c0 (indexupvalue v) (fun _ c => c = c0 \/ c = upvalued c0 v).
Proof.
  unfold indexupvalue. tgetfs fs as E.
  destruct (indexupvalue_loop _ _ _ _).
  - apply triple_ret. by left.
  - tneutral neutral_checklimit.
    tstep triple_putfs as u c ->. apply triple_ret. by right.
Qed.

Lemma neutral_string_constant_prev s : neutral (string_constant_prev s).
Proof.
  intros ls. unfold string_constant_prev.
  destruct (ls_fs ls) as [|fs [|pfs prev]] eqn:E; [done..|].
  unfold string_constant.
  pose proof (luaM_growvector_not_assert (fs_nkstr pfs)
                (f_sizekstr (fs_f pfs)) MAXARG_U "constant table overflow").
  destruct (_ || _); [|by unfold cores; simpl; rewrite E].
  destruct (luaM_growvector _ _ _ _); simpl; [|congruence|done].
  unfold cores. simpl. by rewrite E.
Qed.

Lemma triple_pushupvalue c0 N L n :
  st N L c0 ->
  triple c0 (pushupvalue n) (fun _ c => st N (L + 1) c /\ plain c).
Proof.
  intros Hst. unfold pushupvalue. tneutral neutral_get as ls.
  pose proof (search_chain_kind (ls_fs ls) n expdesc_auto 0) as Hk.
  unfold search_local. destruct (search_chain _ _ _ _) as [level v].
  simpl in Hk.
  eapply triple_bind
    with (R := fun v' c => c = c0 /\ (k v' = VLOCAL \/ k v' = VGLOBAL)).
  { destruct (level =? -1).
    - eapply triple_bind with (R := fun _ c => c = c0).
      { destruct (ls_fs ls) as [|? [|? ?]].
        - apply triple_throw. discriminate.
        - apply triple_throw. discriminate.
        - by apply triple_ret. }
      intros _ ? ->. tneutral neutral_string_constant_prev as c.
      apply triple_ret. split; [done|]. simpl. tauto.
    - destruct (negb _).
      + apply triple_throw. discriminate.
      + apply triple_ret. split; [done|tauto]. }
  intros v' c1 [-> Hk'].
  tstep triple_indexupvalue as i c1 Hc1.
  assert (Hst1 : st N L c1).
  { destruct Hc1 as [->| ->]; [done|]. destruct Hst as (W & HN & HL).
    split_and!; [|done..]. apply upvalued_wf; [tauto|done]. }
  temit (code1_spec c1 OP_PUSHUPVALUE i) as r c2 [-> _].
  apply triple_ret. split.
  - by apply (pushed_st c1 N L OP_PUSHUPVALUE i 0).
  - apply plain_pushed; [by destruct Hst1|done..].
Qed.

(** ** Adjusting the stack *)

Lemma moved_sl c0 c L d :
  moved d c0 c -> c_sl c0 = L -> c_sl c = L + d.
Proof. intros (_ & -> & _) ->. done. Qed.

Lemma triple_adjust_mult_assign c0 N L nvars nexps :
  wf c0 -> c_na c0 = N ->
  (if nexps =? 0 then c_sl c0 = L else 0 < nexps /\ listed L nexps c0) ->
  triple c0 (adjust_mult_assign nvars nexps)
    (fun _ c => st N (L + nvars) c).
Proof.
  intros W HN Hl. unfold adjust_mult_assign. tgetfs fs as E.
  rewrite lastisopen_core.
  eapply triple_bind
    with (R := fun diff c => fr (core fs) c /\ wf c
                             /\ c_sl c = L + nvars + diff).
  { destruct (nexps >? 0) eqn:E1; simpl.
    - replace (nexps =? 0) with false in Hl by lia.
      destruct Hl as [_ Hl]. unfold listed in Hl.
      destruct (isopen (core fs)) eqn:Ho.
      + destruct (_ <=? 0) eqn:E2.
        * temit (setcallreturns_spec (core fs) (- (nexps - nvars - 1)) W)
            as u c1 (Hm & _ & _).
          apply triple_ret. rewrite Ho in Hm. destruct Hm as (F & S & W').
          split_and!; [done|auto|]. rewrite S, Hl. lia.
        * temit (setcallreturns_spec (core fs) 0 W) as u c1 (Hm & _ & _).
          apply triple_ret. rewrite Ho in Hm. destruct Hm as (F & S & W').
          split_and!; [done|auto|]. rewrite S, Hl. lia.
      + apply triple_ret. split_and!; [apply fr_refl|done|].
        rewrite Hl.
        lia.
    - destruct (nexps =? 0) eqn:E0; [|lia].
      assert (nexps = 0) as -> by lia.
      apply triple_ret. split_and!; [apply fr_refl|done|]. rewrite Hl. lia. }
  intros diff c1 (F1 & W1 & S1).
  eapply triple_conseq.
  - apply triple_emit. intros ls. apply (adjuststack_spec c1 diff).
  - intros _ c ((F & S & W') & _). split_and!; [auto| |lia].
    destruct F as (-> & _), F1 as (-> & _). done.
Qed.

Lemma triple_code_params c0 N L nparams dots :
  st N L c0 -> 0 <= nparams ->
  triple c0 (code_params nparams dots)
    (fun _ c => exists N', N <= N' /\ st N' (L + N') c).
Proof.
  intros Hst Hn. unfold code_params.
  tstep (triple_adjustlocalvars c0 nparams Hn) as u c1 ->.
  pose proof (grown_st c0 N L nparams Hst) as Hst1.
  revert Hst1. generalize (grown c0 nparams). intros c1 Hst1.
  tgetfs fs as E1. tneutral neutral_checklimit.
  tstep triple_putfs as u1 c2 ->.
  eapply triple_bind
    with (R := fun _ c => exists N', N + nparams <= N' /\ st N' L c).
  { destruct (negb _).
    - tneutral neutral_new_localvarstr.
      eapply triple_conseq; [by apply triple_adjustlocalvars|].
      intros _ c ->. exists (N + nparams + 1). split; [lia|].
      by apply (grown_st (core fs) (N + nparams) L 1).
    - apply triple_ret. exists (N + nparams). split; [lia|done]. }
  intros u2 c3 (N' & HN' & Hst3).
  tgetfs fs3 as E3.
  eapply triple_conseq.
  - apply triple_emit. intros ls.
    apply (deltastack_spec (core fs3) (fs_nactloc fs3)).
  - intros _ c ->. exists N'. split; [lia|].
    destruct Hst3 as (W & HN & HL). simpl in *.
    split_and!; simpl; [done|done|lia].
Qed.

Lemma triple_enterbreak c0 N L :
  st N L c0 -> triple c0 enterbreak (fun _ c => st N L c).
Proof.
  intros Hst. unfold enterbreak. tgetfs fs as E.
  eapply triple_conseq; [apply triple_putfs|]. by intros _ c ->.
Qed.

Lemma triple_getlabel c0 N L :
  st N L c0 ->
  triple c0 (emit luaK_getlabel) (fun _ c => st N L c /\ quiet c0 c).
Proof.
  intros Hst. eapply triple_conseq.
  - apply triple_emit. intros ls. apply (getlabel_spec c0).
  - intros r c (Hq & _). split; [by eapply quiet_st|done].
Qed.

Lemma triple_patchlist c0 N L list target :
  st N L c0 ->
  triple c0 (emit (fun ls fs => luaK_patchlist ls fs list target))
    (fun _ c => st N L c /\ quiet c0 c).
Proof.
  intros Hst. eapply triple_conseq.
  - apply triple_emit. intros ls. apply (patchlist_quiet c0).
  - intros r c; cbv beta; intros Hq. split; [by eapply quiet_st|done].
Qed.

Lemma triple_concat c0 N L l1 l2 :
  st N L c0 ->
  triple c0 (emit (fun ls fs => luaK_concat ls fs l1 l2))
    (fun _ c => st N L c /\ quiet c0 c).
Proof.
  intros Hst. eapply triple_conseq.
  - apply triple_emit. intros ls. apply (concat_quiet c0).
  - intros r c; cbv beta; intros Hq. split; [by eapply quiet_st|done].
Qed.

Lemma triple_jump c0 N L :
  st N L c0 ->
  triple c0 (emit luaK_jump) (fun _ c => st N L c /\ fr c0 c).
Proof.
  intros Hst. eapply triple_conseq.
  - apply triple_emit. intros ls. apply (jump_spec c0).
  - intros r c (Hm & _). split; [|by destruct Hm].
    replace L with (L + 0) by lia. by eapply moved_st.
Qed.

Lemma triple_fixfor c0 N L pc dest :
  st N L c0 ->
  triple c0 (emit (fun ls fs => luaK_fixfor ls fs pc dest))
    (fun _ c => st N L c).
Proof.
  intros Hst. eapply triple_conseq.
  - apply triple_emit. intros ls. apply (fixfor_quiet c0).
  - intros r c; cbv beta; intros Hq. by eapply quiet_st.
Qed.

Lemma triple_adjuststack c0 N L n :
  st N L c0 ->
  triple c0 (emit (fun ls fs => luaK_adjuststack ls fs n))
    (fun _ c => st N (L - n) c /\ fr c0 c).
Proof.
  intros Hst. eapply triple_conseq.
  - apply triple_emit. intros ls. apply (adjuststack_spec c0).
  - intros r c (Hm & _). split; [|by destruct Hm].
    replace (L - n) with (L + - n) by lia. by eapply moved_st.
Qed.

Lemma triple_code c0 N L o a b :
  st N L c0 -> is_nop o a = false ->
  triple c0 (emit (fun ls fs => luaK_code2 ls fs o a b))
    (fun r c => c = pushed c0 o a b /\ r = c_pc c0
                /\ st N (L + Writer.opdelta o a b L) c).
Proof.
  intros Hst Hn. eapply triple_conseq.
  - apply triple_emit. intros ls. apply (code2_spec c0).
  - intros r c H. simpl in H. rewrite Hn in H. destruct H as [-> ->].
    split_and!; [done..|]. by apply pushed_st.
Qed.

Lemma triple_code1 c0 N L o a :
  st N L c0 -> is_nop o a = false ->
  triple c0 (emit (fun ls fs => luaK_code1 ls fs o a))
    (fun r c => c = pushed c0 o a 0 /\ r = c_pc c0
                /\ st N (L + Writer.opdelta o a 0 L) c).
Proof. apply triple_code. Qed.

Lemma triple_leavebreak c0 N L :
  st N L c0 -> triple c0 leavebreak (fun _ c => st N L c).
Proof.
  intros Hst. unfold leavebreak. tgetfs fs as E.
  destruct (fs_bl fs) as [|bl previous].
  { apply triple_throw. discriminate. }
  tstep triple_putfs as u c1 ->.
  assert (Hst1 : st N L (core (set_fs_bl fs previous))) by done.
  tstep (triple_getlabel _ N L Hst1) as target c2 [Hst2 _].
  eapply triple_conseq; [by apply (triple_patchlist c2 N L)|].
  by intros _ c [? _].
Qed.

Lemma triple_pushclosure_loop c0 N L func i count :
  st N L c0 -> wf (core func) ->
  triple c0 (pushclosure_loop func i count)
    (fun _ c => st N (L + Z.of_nat count) c).
Proof.
  intros Hst Hwf. revert c0 L i Hst.
  induction count as [|count IH]; intros c0 L i Hst.
  - apply triple_ret. by rewrite Z.add_0_r.
  - cbn [pushclosure_loop].
    assert (Hs : shape L (default expdesc_auto (fs_upvalues func !! i)) c0).
    { unfold shape. destruct Hst as (_ & _ & HL).
      destruct (fs_upvalues func !! i) as [u|] eqn:Eu; simpl; [|done].
      destruct Hwf as (_ & _ & Hup). by destruct (Hup i u Eu) as [-> | ->]. }
    destruct Hst as (W & HN & HL).
    temit (tostack_spec c0 L _ 1 W Hs) as v c1
      (_ & _ & _ & F & W1 & _ & S1 & _).
    eapply triple_conseq; [apply (IH c1 (L + 1))|].
    + split_and!; [done| |done]. destruct F as (-> & _). done.
    + intros ? c Hc. replace (L + Z.of_nat (S count))
        with (L + 1 + Z.of_nat count) by lia. done.
Qed.

Lemma triple_pushclosure c0 N L func :
  st N L c0 -> wf (core func) ->
  triple c0 (pushclosure func) (fun _ c => st N (L + 1) c /\ plain c).
Proof.
  intros Hst Hwf. unfold pushclosure.
  tstep (triple_pushclosure_loop c0 N L func 0
           (Z.to_nat (f_nupvalues (fs_f func))) Hst Hwf) as u c1 Hst1.
  tgetfs fs as E1.
  eapply triple_bind with (R := fun _ c => c = core fs).
  { intros rest ls Hc.
    pose proof (luaM_growvector_not_assert (fs_nkproto fs)
                  (f_sizekproto (fs_f fs)) MAXARG_A
                  "constant table overflow").
    destruct (luaM_growvector _ _ _ _); simpl; [|congruence|done].
    rewrite Hc. eauto. }
  intros size c2 ->.
  tstep triple_putfs as u2 c3 ->.
  match goal with
  | |- triple ?c _ _ => assert (Hst3 : st N (L + Z.of_nat (Z.to_nat (f_nupvalues (fs_f func)))) c) by done
  end.
  tstep (triple_code _ _ _ OP_CLOSURE (fs_nkproto fs + 1 - 1)
           (f_nupvalues (fs_f func)) Hst3 eq_refl) as r c4 (-> & _ & Hst4).
  apply triple_ret. split.
  - simpl in Hst4. destruct Hwf as (_ & Hnup & _). simpl in Hnup.
    replace (L + 1) with (L + Z.of_nat (Z.to_nat (f_nupvalues (fs_f func)))
                         + (- f_nupvalues (fs_f func) + 1)) by lia.
    done.
  - apply plain_pushed; [by destruct Hst3|done..].
Qed.

(** ** Function states *)

Lemma htriple_open_func cs0 :
  htriple cs0 open_func (fun _ cs => cs = core_open :: cs0).
Proof. intros ls Hc. unfold open_func, cores in *. simpl. by rewrite Hc. Qed.

Lemma htriple_conseq {A} cs0 (m : P A) (R Q : A -> list Core -> Prop) :
  htriple cs0 m R -> (forall a cs, R a cs -> Q a cs) -> htriple cs0 m Q.
Proof.
  intros Hm HQ ls Hc. specialize (Hm ls Hc).
  destruct (m ls) as [[a ls']| |]; auto.
Qed.

Lemma triple_removelocalvars_any c0 n :
  triple c0 (removelocalvars n)
    (fun _ c => c = grown c0 (- Z.of_nat (Z.to_nat n))).
Proof.
  unfold removelocalvars. tgetfs fs as E.
  eapply triple_conseq; [apply triple_putfs|]. intros _ c ->.
  by rewrite core_removelocalvars_iter.
Qed.

Lemma htriple_close_func c0 rest :
  htriple (c0 :: rest) close_func
    (fun func cs => cs = rest /\ (wf c0 -> wf (core func))).
Proof.
  unfold close_func.
  eapply htriple_bind; [apply (triple_getfs c0 rest)|].
  intros fs cs1 (c1 & -> & -> & E0). cbv beta.
  eapply htriple_bind.
  { apply (triple_emit c0 _ (fun _ c => c = pushed c0 OP_RETURN (fs_nactloc fs) 0)).
    intros ls. eapply ktriple_conseq; [apply (code1_spec c0)|].
    intros r c H. simpl in H. by destruct H. }
  intros r cs2 (c2 & -> & ->). cbv beta.
  eapply htriple_bind.
  { apply (triple_emit _ _ (fun _ c => quiet (pushed c0 OP_RETURN (fs_nactloc fs) 0) c)).
    intros ls. eapply ktriple_conseq; [apply getlabel_spec|].
    intros l c H. simpl in H. by destruct H. }
  intros l cs3 (c3 & -> & Hq3). cbv beta.
  eapply htriple_bind; [apply (triple_getfs c3 rest)|].
  intros fs3 cs4 (c4 & -> & -> & E3). cbv beta.
  eapply htriple_bind; [apply (triple_removelocalvars_any c3 _ rest)|].
  intros u cs5 (c5 & -> & ->). cbv beta.
  eapply htriple_bind; [apply (triple_getfs _ rest)|].
  intros fs5 cs6 (c6 & -> & -> & E5). cbv beta.
  intros ls Hc. unfold get, put. unfold mbind, P_mbind, bind. simpl.
  unfold cores in *. simpl.
  destruct (ls_fs ls) as [|fs' prev]; [done|]. simpl in *.
  injection Hc as Hc Hprev. split; [done|].
  intros W0. unfold core. simpl.
  assert (W3 : wf c3) by (eapply quiet_wf; [exact Hq3|by apply pushed_wf]).
  assert (W5 : wf (core fs5)) by by rewrite E5.
  exact W5.
Qed.

(** * The stack accounting of the grammar rules *)

Lemma st_ws N L c : st N L c -> ws N c.
Proof. by intros (? & ? & _). Qed.

Lemma ws_st N c : ws N c -> st N (c_sl c) c.
Proof. by intros (? & ?). Qed.

Lemma plain_shaped N L v c :
  st N (L + 1) c -> plain c -> k v = VEXP -> shaped N L v c.
Proof.
  intros (W & HN & HL) [Hj Ho] Hk. split_and!; [done..|].
  unfold shape. by rewrite Hk, Ho, Hj.
Qed.

Lemma fr_na c0 c N : fr c0 c -> c_na c0 = N -> c_na c = N.
Proof. intros (-> & _). done. Qed.

Lemma triple_tostack1 c0 N L v :
  shaped N L v c0 ->
  triple c0 (emit (fun ls fs => luaK_tostack ls fs v 1))
    (fun v' c => st N (L + 1) c /\ plain c /\ k v' = VEXP).
Proof.
  intros (W & HN & Hs). eapply triple_conseq.
  - apply triple_emit. intros ls. apply (tostack_spec c0 L v 1 W Hs).
  - intros v' c; cbv beta. intros (Hk & _ & _ & F & W' & J & S & O).
    unfold st, plain. split_and!; try done. by eapply fr_na.
Qed.

Lemma triple_tostack0 c0 N L v :
  shaped N L v c0 ->
  triple c0 (emit (fun ls fs => luaK_tostack ls fs v 0))
    (fun v' c => ws N c /\ listed L 1 c).
Proof.
  intros (W & HN & Hs). eapply triple_conseq.
  - apply triple_emit. intros ls. apply (tostack_spec c0 L v 0 W Hs).
  - intros v' c; cbv beta. intros (Hk & _ & _ & F & W' & J & S).
    unfold ws. split_and!; try done. by eapply fr_na.
Qed.

Section GrammarStack.

Variable body : Z -> Z -> P unit.
Variable chunk : P unit.
Variable constructor : P unit.
Variable expr : expdesc -> P expdesc.
Variable fuel : nat.

Hypothesis H_body : forall needself line c0 N L,
  st N L c0 ->
  triple c0 (body needself line) (fun _ c => st N (L + 1) c /\ plain c).
Hypothesis H_chunk : forall c0 N,
  boundary N c0 -> triple c0 chunk (fun _ c => boundary N c).
Hypothesis H_constructor : forall c0 N L,
  st N L c0 ->
  triple c0 constructor (fun _ c => st N (L + 1) c /\ plain c).
Hypothesis H_expr : forall v c0 N L,
  st N L c0 -> triple c0 (expr v) (fun v' c => shaped N L v' c).

Lemma exp1_spec c0 N L :
  st N L c0 ->
  triple c0 (exp1 expr) (fun _ c => st N (L + 1) c /\ plain c).
Proof.
  intros Hst. unfold exp1.
  tstep (H_expr expdesc_auto c0 N L Hst) as v c1 Hs.
  tstep (triple_tostack1 c1 N L v Hs) as v' c2 (Hst2 & Hp & _).
  by apply triple_ret.
Qed.

Lemma explist1_loop_spec turns c0 N L v n :
  shaped N (L + n - 1) v c0 ->
  triple c0 (explist1_loop expr turns v n)
    (fun '(v', n') c => n <= n' /\ shaped N (L + n' - 1) v' c).
Proof.
  revert c0 v n. induction turns as [|turns IH]; intros c0 v n Hs.
  { apply triple_timeout. }
  cbn [explist1_loop]. tneutral neutral_token as tok.
  destruct (tok =? l_c ",").
  - tneutral neutral_next.
    tstep (triple_tostack1 c0 N _ v Hs) as v1 c1 (Hst1 & _ & _).
    replace (L + n - 1 + 1) with (L + n) in Hst1 by lia.
    tstep (H_expr v1 c1 N _ Hst1) as v2 c2 Hs2.
    eapply triple_conseq.
    + apply (IH c2 v2 (n + 1)).
      by replace (L + (n + 1) - 1) with (L + n) by lia.
    + intros [v' n'] c. cbv beta. intros [? ?]. split; [lia|done].
  - apply triple_ret. split; [lia|done].
Qed.

Lemma explist1_spec c0 N L :
  st N L c0 ->
  triple c0 (explist1 expr fuel)
    (fun n c => 0 < n /\ ws N c /\ listed L n c).
Proof.
  intros Hst. unfold explist1.
  tstep (H_expr expdesc_auto c0 N L Hst) as v c1 Hs.
  tstep (explist1_loop_spec fuel c1 N L v 1) as r c2 H.
  { by replace (L + 1 - 1) with L by lia. }
  destruct r as [v2 n]. destruct H as [Hn Hs2].
  tstep (triple_tostack0 c2 N _ v2 Hs2) as v3 c3 [Hws Hl].
  apply triple_ret. split_and!; [lia|done|].
  unfold listed in *. destruct (isopen c3); lia.
Qed.

Lemma funcargs_spec c0 N L slf :
  st N L c0 ->
  triple c0 (funcargs constructor expr fuel slf)
    (fun _ c => st N (L - slf - 1) c /\ isopen c = true).
Proof.
  intros Hst. unfold funcargs. tgetfs fs as E.
  tneutral neutral_get as ls.
  eapply triple_bind with (R := fun _ c => ws N c).
  { destruct (_ =? l_c "(").
    - tneutral neutral_next. tneutral neutral_token as tok.
      eapply triple_bind with (R := fun _ c => ws N c).
      + destruct (negb _).
        * eapply triple_conseq; [by apply (explist1_spec _ N L)|].
          intros n c. cbv beta. tauto.
        * apply triple_ret. by eapply st_ws.
      + intros nargs c1 Hws. tneutral neutral_check_match.
        simpl. by apply triple_ret.
    - destruct (_ =? l_c "{").
      + eapply triple_conseq; [by apply (H_constructor _ N L)|].
        intros _ c [H _]. by eapply st_ws.
      + destruct (_ =? TK_STRING).
        * tstep triple_code_string as u c1 [x ->].
          eapply triple_conseq; [apply neutral_triple, neutral_next|].
          intros _ c ->. eapply st_ws.
          by apply (pushed_st _ N L OP_PUSHSTRING x 0).
        * apply triple_throw. discriminate. }
  intros u c1 [W1 HN1]. tgetfs fs1 as E1.
  tstep triple_putfs as u2 c2 ->.
  assert (Hst2 : st N (fs_stacklevel fs - slf - 1)
                   (core (set_fs_stacklevel fs1 (fs_stacklevel fs - slf - 1))))
    by done.
  tstep (triple_code _ _ _ OP_CALL (fs_stacklevel fs - slf - 1) MULT_RET
           Hst2 eq_refl) as r c3 (-> & _ & Hst3).
  apply triple_ret. destruct Hst as (_ & _ & HL). simpl in HL, Hst3.
  rewrite Z.add_0_r in Hst3. rewrite <- HL.
  split; [done|by rewrite pushed_isopen].
Qed.

(** *** Constructors *)

Lemma recfield_spec c0 N L :
  st N L c0 -> triple c0 (recfield expr) (fun _ c => st N (L + 2) c).
Proof.
  intros Hst. unfold recfield. tneutral neutral_token as tok.
  eapply triple_bind with (R := fun _ c => st N (L + 1) c).
  { destruct (tok =? TK_NAME).
    - tneutral neutral_checkname as x.
      eapply triple_conseq.
      + apply triple_emit. intros ls. apply (kstr_spec c0 x).
      + intros _ c ->. by apply (pushed_st _ N L OP_PUSHSTRING x 0).
    - destruct (tok =? l_c "[").
      + tneutral neutral_next.
        tstep (exp1_spec c0 N L Hst) as u c1 [Hst1 _].
        eapply triple_conseq; [apply neutral_triple, neutral_check|].
        by intros _ c ->.
      + apply triple_throw. discriminate. }
  intros u c1 Hst1. tneutral neutral_check.
  eapply triple_conseq; [by apply (exp1_spec c1 N (L + 1))|].
  intros _ c [H _]. by replace (L + 2) with (L + 1 + 1) by lia.
Qed.

Lemma recfields_loop_spec turns c0 N t n :
  ws N c0 ->
  triple c0 (recfields_loop expr turns t n) (fun _ c => ws N c).
Proof.
  revert c0 n. induction turns as [|turns IH]; intros c0 n Hws.
  { apply triple_timeout. }
  cbn [recfields_loop]. tneutral neutral_token as tok.
  destruct (tok =? l_c ","); [|by apply triple_ret].
  tneutral neutral_next. tneutral neutral_token as tok2.
  destruct (_ && _); [|by apply triple_ret].
  eapply triple_bind with (R := fun _ c => ws N c).
  { destruct (_ =? 0); [|by apply triple_ret].
    tstep (triple_code1 c0 N _ OP_SETMAP t (ws_st _ _ Hws) eq_refl)
      as r c1 (_ & _ & Hst1).
    apply triple_ret. by eapply st_ws. }
  intros u c1 Hws1.
  tstep (recfield_spec c1 N _ (ws_st _ _ Hws1)) as u2 c2 Hst2.
  apply IH. by eapply st_ws.
Qed.

Lemma recfields_spec c0 N L :
  st N L c0 ->
  triple c0 (recfields expr fuel) (fun _ c => st N L c /\ plain c).
Proof.
  intros Hst. unfold recfields. tgetfs fs as E.
  tstep (recfield_spec _ N L Hst) as u c1 Hst1.
  tstep (recfields_loop_spec fuel c1 N (fs_stacklevel fs - 1) 1
           (st_ws _ _ _ Hst1)) as n c2 Hws2.
  tstep (triple_code1 c2 N _ OP_SETMAP (fs_stacklevel fs - 1)
           (ws_st _ _ Hws2) eq_refl) as r c3 (-> & _ & Hst3).
  apply triple_ret. destruct Hst as (_ & _ & HL). simpl in HL, Hst3.
  split; [|apply plain_pushed; [by destruct Hws2|done..]].
  replace L with (c_sl c2 + (fs_stacklevel fs - 1 + 1 - c_sl c2)) by lia.
  done.
Qed.

Lemma listfields_loop_spec turns c0 N L t v n :
  shaped N L v c0 ->
  triple c0 (listfields_loop expr turns t v n)
    (fun '(v', _) c => exists L', shaped N L' v' c).
Proof.
  revert c0 L v n. induction turns as [|turns IH]; intros c0 L v n Hs.
  { apply triple_timeout. }
  cbn [listfields_loop]. tneutral neutral_token as tok.
  destruct (tok =? l_c ","); [|apply triple_ret; eauto].
  tneutral neutral_next. tneutral neutral_token as tok2.
  destruct (_ && _); [|apply triple_ret; eauto].
  tstep (triple_tostack1 c0 N L v Hs) as v1 c1 (Hst1 & _ & _).
  tneutral neutral_checklimit.
  eapply triple_bind with (R := fun _ c => ws N c).
  { destruct (_ =? 0); [|apply triple_ret; by eapply st_ws].
    tstep (triple_code c1 N _ OP_SETLIST (Z.quot (n - 1) LFIELDS_PER_FLUSH) t
             Hst1 eq_refl) as r c2 (_ & _ & Hst2).
    apply triple_ret. by eapply st_ws. }
  intros u c2 Hws2.
  tstep (H_expr v1 c2 N _ (ws_st _ _ Hws2)) as v2 c3 Hs3.
  by eapply IH.
Qed.

Lemma listfields_spec c0 N L :
  st N L c0 ->
  triple c0 (listfields expr fuel) (fun _ c => st N L c /\ plain c).
Proof.
  intros Hst. unfold listfields. tgetfs fs as E.
  tstep (H_expr expdesc_auto _ N L Hst) as v c1 Hs1.
  tstep (listfields_loop_spec fuel c1 N L (fs_stacklevel fs - 1) v 1 Hs1)
    as r c2 H.
  destruct r as [v2 n]. destruct H as [L' Hs2].
  tstep (triple_tostack0 c2 N L' v2 Hs2) as v3 c3 [Hws3 _].
  tstep (triple_code c3 N _ OP_SETLIST (Z.quot (n - 1) LFIELDS_PER_FLUSH)
           (fs_stacklevel fs - 1) (ws_st _ _ Hws3) eq_refl)
    as r c4 (-> & _ & Hst4).
  apply triple_ret. destruct Hst as (_ & _ & HL). simpl in HL, Hst4.
  split; [|apply plain_pushed; [by destruct Hws3|done..]].
  replace L with (c_sl c3 + (fs_stacklevel fs - 1 + 1 - c_sl c3)) by lia.
  done.
Qed.

Lemma constructor_part_spec c0 N L :
  st N L c0 -> plain c0 ->
  triple c0 (constructor_part expr fuel) (fun _ c => st N L c /\ plain c).
Proof.
  intros Hst Hp. unfold constructor_part. tneutral neutral_token as tok.
  destruct (_ || _); [by apply triple_ret|].
  eapply triple_bind with (R := fun _ c => c = c0).
  { destruct (tok =? TK_NAME).
    - tneutral neutral_lookahead. tneutral neutral_get as ls.
      by apply triple_ret.
    - by apply triple_ret. }
  intros is_rec c1 ->. destruct is_rec.
  - tstep (recfields_spec c0 N L Hst) as n c1 H. by apply triple_ret.
  - tstep (listfields_spec c0 N L Hst) as n c1 H. by apply triple_ret.
Qed.

Lemma benign_SETARG_U u i : benign (fun i => SETARG_U i u) i.
Proof. by split. Qed.

Lemma constructor_def_spec c0 N L :
  st N L c0 ->
  triple c0 (constructor_def expr fuel)
    (fun _ c => st N (L + 1) c /\ plain c).
Proof.
  intros Hst. unfold constructor_def. tneutral neutral_get as ls.
  tstep (triple_code1 c0 N L OP_CREATETABLE 0 Hst eq_refl)
    as pc c1 (-> & _ & Hst1).
  assert (Hp1 : plain (pushed c0 OP_CREATETABLE 0 0))
    by (apply plain_pushed; [by destruct Hst|done..]).
  simpl in Hst1.
  revert Hst1 Hp1. generalize (pushed c0 OP_CREATETABLE 0 0).
  intros c1 Hst1 Hp1.
  tneutral neutral_check.
  tstep (constructor_part_spec c1 N (L + 1) Hst1 Hp1) as cd c2 [Hst2 Hp2].
  tneutral neutral_optional as sep.
  eapply triple_bind with (R := fun _ c => st N (L + 1) c /\ plain c).
  { destruct (negb _); [|by apply triple_ret].
    tstep (constructor_part_spec c2 N (L + 1) Hst2 Hp2) as cd2 c3 H3.
    tneutral neutral_check_condition. by apply triple_ret. }
  intros nelems c3 [Hst3 Hp3].
  tneutral neutral_check_match. tneutral neutral_checklimit.
  tgetfs fs as E3.
  eapply triple_conseq; [apply triple_putfs|]. intros _ c ->.
  assert (Hq : quiet (core fs)
            (altered (core fs) (fun i => SETARG_U i nelems) pc))
    by (apply altered_quiet; intros; apply benign_SETARG_U).
  split; [by eapply quiet_st|by eapply quiet_plain].
Qed.

(** *** Expressions *)

Lemma primaryexp_spec c0 N L v :
  st N L c0 ->
  triple c0 (primaryexp body constructor expr v)
    (fun v' c => shaped N L v' c).
Proof.
  intros Hst. unfold primaryexp. tneutral neutral_get as ls.
  destruct (_ =? TK_NUMBER).
  { tneutral neutral_next.
    eapply triple_bind
      with (R := fun _ c => st N (L + 1) c /\ plain c).
    - eapply triple_conseq.
      + apply triple_emit. intros ls'. apply (number_spec c0).
      + intros _ c (o & x & Ho & ->). split.
        * replace (L + 1) with (L + Writer.opdelta o x 0 L)
            by (by destruct Ho as [-> | ->]).
          by apply pushed_st.
        * apply plain_pushed; [by destruct Hst|by destruct Ho as [-> | ->]..].
    - intros u c1 [Hst1 Hp1]. apply triple_ret. by apply plain_shaped. }
  destruct (_ =? TK_STRING).
  { tstep triple_code_string as u c1 [x ->]. tneutral neutral_next.
    apply triple_ret. apply plain_shaped; [|..|done].
    - by apply (pushed_st _ N L OP_PUSHSTRING x 0).
    - apply plain_pushed; [by destruct Hst|done..]. }
  destruct (_ =? TK_NIL).
  { eapply triple_bind
      with (R := fun _ c => st N (L + 1) c /\ plain c).
    - eapply triple_conseq.
      + apply triple_emit. intros ls'. apply (adjuststack_spec c0 (-1)).
      + intros _ c [Hm Hp]. split.
        * replace (L + 1) with (L + - -1) by lia. by eapply moved_st.
        * apply Hp. by destruct Hst.
    - intros u c1 [Hst1 Hp1]. tneutral neutral_next.
      apply triple_ret. by apply plain_shaped. }
  destruct (_ =? l_c "{").
  { tstep (H_constructor c0 N L Hst) as u c1 [Hst1 Hp1].
    apply triple_ret. by apply plain_shaped. }
  destruct (_ =? TK_FUNCTION).
  { tneutral neutral_next. tneutral neutral_get as ls1.
    tstep (H_body 0 (ls_linenumber ls1) c0 N L Hst) as u c1 [Hst1 Hp1].
    apply triple_ret. by apply plain_shaped. }
  destruct (_ =? l_c "(").
  { tneutral neutral_next.
    tstep (H_expr v c0 N L Hst) as v1 c1 Hs1.
    tneutral neutral_check. by apply triple_ret. }
  destruct (_ =? TK_NAME).
  { tneutral neutral_str_checkname as n.
    eapply triple_conseq; [apply triple_singlevar|].
    intros v' c [-> Hk]. destruct Hst as (W & HN & HL).
    split_and!; [done..|]. unfold shape. by destruct Hk as [-> | ->]. }
  destruct (_ =? l_c "%").
  { tneutral neutral_next. tneutral neutral_str_checkname as n.
    tstep (triple_pushupvalue c0 N L n Hst) as u c1 [Hst1 Hp1].
    apply triple_ret. by apply plain_shaped. }
  apply triple_throw. discriminate.
Qed.

Lemma indexed_shaped c N L v :
  st N (L + 2) c -> shaped N L (set_k v VINDEXED) c.
Proof. intros (W & HN & HL). by split_and!. Qed.

Lemma open_shaped c N L v :
  st N L c -> isopen c = true -> shaped N L (set_VEXP v) c.
Proof.
  intros (W & HN & HL) Ho. split_and!; [done..|].
  unfold shape. simpl. by rewrite Ho.
Qed.

Lemma simpleexp_loop_spec turns c0 N L v :
  shaped N L v c0 ->
  triple c0 (simpleexp_loop constructor expr fuel turns v)
    (fun v' c => shaped N L v' c).
Proof.
  revert c0 v. induction turns as [|turns IH]; intros c0 v Hs.
  { apply triple_timeout. }
  cbn [simpleexp_loop]. tneutral neutral_token as tok.
  destruct (tok =? l_c ".").
  { tneutral neutral_next.
    tstep (triple_tostack1 c0 N L v Hs) as v1 c1 (Hst1 & _ & _).
    tneutral neutral_checkname as x.
    eapply triple_bind with (R := fun _ c => st N (L + 2) c).
    - eapply triple_conseq.
      + apply triple_emit. intros ls. apply (kstr_spec c1 x).
      + intros _ c ->. replace (L + 2) with (L + 1 + 1) by lia.
        by apply (pushed_st _ N (L + 1) OP_PUSHSTRING x 0).
    - intros u c2 Hst2. apply IH. by apply indexed_shaped. }
  destruct (tok =? l_c "[").
  { tneutral neutral_next.
    tstep (triple_tostack1 c0 N L v Hs) as v1 c1 (Hst1 & _ & _).
    tstep (exp1_spec c1 N (L + 1) Hst1) as u c2 [Hst2 _].
    tneutral neutral_check. apply IH. apply indexed_shaped.
    by replace (L + 2) with (L + 1 + 1) by lia. }
  destruct (tok =? l_c ":").
  { tneutral neutral_next.
    tstep (triple_tostack1 c0 N L v Hs) as v1 c1 (Hst1 & _ & _).
    tneutral neutral_checkname as x.
    tstep (triple_code1 c1 N (L + 1) OP_PUSHSELF x Hst1 eq_refl)
      as r c2 (_ & _ & Hst2).
    simpl in Hst2.
    tstep (funcargs_spec c2 N _ 1 Hst2) as u c3 [Hst3 Ho3].
    apply IH. apply open_shaped; [|done].
    by replace L with (L + 1 + 1 - 1 - 1) by lia. }
  destruct (_ || _).
  { tstep (triple_tostack1 c0 N L v Hs) as v1 c1 (Hst1 & _ & _).
    tstep (funcargs_spec c1 N _ 0 Hst1) as u c3 [Hst3 Ho3].
    apply IH. apply open_shaped; [|done].
    by replace L with (L + 1 - 0 - 1) by lia. }
  by apply triple_ret.
Qed.

Lemma simpleexp_spec c0 N L v :
  st N L c0 ->
  triple c0 (simpleexp body constructor expr fuel v)
    (fun v' c => shaped N L v' c).
Proof.
  intros Hst. unfold simpleexp.
  tstep (primaryexp_spec c0 N L v Hst) as v1 c1 Hs1.
  by apply simpleexp_loop_spec.
Qed.

Lemma triple_prefix c0 N L op v :
  shaped N L v c0 ->
  triple c0 (emit (fun ls fs => luaK_prefix ls fs op v))
    (fun v' c => shaped N L v' c).
Proof.
  intros (W & HN & Hs). eapply triple_conseq.
  - apply triple_emit. intros ls. apply (prefix_spec c0 L op v W Hs).
  - intros v' c; cbv beta. intros (F & W' & Hs').
    split_and!; [done|by eapply fr_na|done].
Qed.

Lemma triple_infix c0 N L op v :
  shaped N L v c0 ->
  triple c0 (emit (fun ls fs => luaK_infix ls fs op v))
    (fun v' c => k v' = VEXP /\ st N (L + kept op) c).
Proof.
  intros (W & HN & Hs). eapply triple_conseq.
  - apply triple_emit. intros ls. apply (infix_spec c0 L op v W Hs).
  - intros v' c; cbv beta. intros (Hk & F & W' & HL).
    split; [done|]. split_and!; [done|by eapply fr_na|done].
Qed.

Lemma triple_posfix c0 N L op v1 v2 :
  k v1 = VEXP -> shaped N (L + kept op) v2 c0 ->
  triple c0 (emit (fun ls fs => luaK_posfix ls fs op v1 v2))
    (fun v' c => shaped N L v' c).
Proof.
  intros Hk (W & HN & Hs). eapply triple_conseq.
  - apply triple_emit. intros ls. apply (posfix_spec c0 L op v1 v2 W Hk Hs).
  - intros v' c; cbv beta. intros (F & W' & Hs').
    split_and!; [done|by eapply fr_na|done].
Qed.

Lemma subexpr_loop_spec sub limit turns c0 N L op v :
  (forall v c0 L limit, st N L c0 ->
     triple c0 (sub v limit) (fun '(_, v') c => shaped N L v' c)) ->
  shaped N L v c0 ->
  triple c0 (subexpr_loop sub limit turns op v)
    (fun '(_, v') c => shaped N L v' c).
Proof.
  intros Hsub. revert c0 op v.
  induction turns as [|turns IH]; intros c0 op v Hs.
  { apply triple_timeout. }
  cbn [subexpr_loop]. destruct (_ && _); [|by apply triple_ret].
  tneutral neutral_next.
  tstep (triple_infix c0 N L op v Hs) as v1 c1 [Hk1 Hst1].
  tstep (Hsub expdesc_auto c1 _ (priority op).2 Hst1) as r c2 Hs2.
  destruct r as [nextop v2].
  tstep (triple_posfix c2 N L op v1 v2 Hk1 Hs2) as v3 c3 Hs3.
  by apply IH.
Qed.

Lemma subexpr_spec depth c0 N L v limit :
  st N L c0 ->
  triple c0 (subexpr body constructor expr fuel depth v limit)
    (fun '(_, v') c => shaped N L v' c).
Proof.
  revert c0 L v limit. induction depth as [|depth IH];
    intros c0 L v limit Hst.
  { apply triple_timeout. }
  cbn [subexpr]. tneutral neutral_token as tok.
  eapply triple_bind with (R := fun v' c => shaped N L v' c).
  { destruct (is_unopr _).
    - tneutral neutral_next.
      tstep (IH c0 L v UNARY_PRIORITY Hst) as r c1 Hs1.
      destruct r as [o v1]. by apply triple_prefix.
    - by apply simpleexp_spec. }
  intros v1 c1 Hs1. tneutral neutral_token as tok2.
  apply subexpr_loop_spec; [|done].
  intros. by apply IH.
Qed.

Lemma expr_def_spec c0 N L v :
  st N L c0 ->
  triple c0 (expr_def body constructor expr fuel v)
    (fun v' c => shaped N L v' c).
Proof.
  intros Hst. unfold expr_def.
  tstep (subexpr_spec fuel c0 N L v (-1) Hst) as r c1 Hs1.
  destruct r as [o v1]. by apply triple_ret.
Qed.

(** *** Statements *)

Lemma block_spec c0 N :
  st N N c0 -> triple c0 (block chunk) (fun _ c => st N N c).
Proof.
  intros Hst. unfold block. tgetfs fs as E.
  assert (Hb : boundary N (core fs)).
  { destruct Hst as (W & HN & HL). split_and!; [done|lia|congruence]. }
  tstep (H_chunk _ N Hb) as u c1 (W1 & HN1 & HL1).
  tgetfs fs1 as E1.
  assert (Hst1 : st (fs_nactloc fs1) (fs_nactloc fs1) (core fs1))
    by by split_and!.
  tstep (triple_adjuststack _ _ _ (fs_nactloc fs1 - fs_nactloc fs) Hst1)
    as u2 c2 [Hst2 _].
  tgetfs fs2 as E2.
  destruct Hst as (_ & HN & _). simpl in *.
  destruct Hst2 as (W2 & HN2 & HL2). simpl in *.
  assert (Hn : 0 <= fs_nactloc fs2 - fs_nactloc fs) by lia.
  eapply triple_conseq; [by apply triple_removelocalvars|].
  intros _ c ->.
  split_and!; simpl; [done|lia|lia].
Qed.

Lemma target_level c N L v :
  shaped N L v c -> k v <> VEXP -> st N (L + slots v) c.
Proof.
  intros (W & HN & Hs) Hk. split_and!; [done..|].
  unfold shape, slots in *. destruct (k v); simpl; try done; lia.
Qed.

Lemma assignment_spec depth c0 N v nvars :
  ws N c0 ->
  triple c0 (assignment body constructor expr fuel depth v nvars)
    (fun left c => st N (c_sl c0 + left - slots v + nvars - 1) c).
Proof.
  revert c0 v nvars. induction depth as [|depth IH]; intros c0 v nvars Hws.
  { apply triple_timeout. }
  cbn [assignment]. tneutral neutral_checklimit.
  tneutral neutral_token as tok.
  eapply triple_bind
    with (R := fun left c => st N (c_sl c0 + left + nvars) c).
  { destruct (tok =? l_c ",").
    - tneutral neutral_next.
      tstep (simpleexp_spec c0 N _ expdesc_auto (ws_st _ _ Hws)) as nv c1 Hs1.
      eapply triple_bind with (R := fun _ c => c = c1 /\ k nv <> VEXP).
      { unfold check_condition. destruct (negb _) eqn:E.
        - apply triple_throw. discriminate.
        - apply triple_ret. split; [done|].
          apply negb_false_iff in E. rewrite negb_true_iff in E.
          by apply bool_decide_eq_false in E. }
      intros u c2 [-> Hk].
      pose proof (target_level _ _ _ _ Hs1 Hk) as Hst1.
      eapply triple_conseq; [apply (IH c1 nv (nvars + 1)); by eapply st_ws|].
      intros left c. cbv beta. intros Hst.
      destruct Hst1 as (_ & _ & HL1). rewrite HL1 in Hst.
      by replace (c_sl c0 + left + nvars)
        with (c_sl c0 + slots nv + left - slots nv + (nvars + 1) - 1) by lia.
    - tneutral neutral_check.
      tstep (explist1_spec c0 N _ (ws_st _ _ Hws)) as nexps c1
        (Hn & [W1 HN1] & Hl1).
      eapply triple_bind
        with (R := fun _ c => st N (c_sl c0 + nvars) c).
      + apply triple_adjust_mult_assign; [done..|].
        replace (nexps =? 0) with false by lia. done.
      + intros u c2 Hst2. apply triple_ret.
        by replace (c_sl c0 + 0 + nvars) with (c_sl c0 + nvars) by lia. }
  intros left c1 Hst1. unfold slots.
  destruct (bool_decide (k v = VINDEXED)) eqn:Ek; simpl.
  - tstep (triple_code c1 N _ OP_SETTABLE (left + nvars + 2) 1 Hst1 eq_refl)
      as r c2 (_ & _ & Hst2).
    apply triple_ret. simpl in Hst2.
    by replace (c_sl c0 + (left + 2) - 2 + nvars - 1)
      with (c_sl c0 + left + nvars + -1) by lia.
  - eapply triple_bind
      with (R := fun _ c => st N (c_sl c0 + left + nvars + -1) c).
    + eapply triple_conseq.
      * apply triple_emit. intros ls. apply (storevar_spec c1 v).
      * intros ? c; cbv beta; intros Hm. rewrite Ek in Hm. by eapply moved_st.
    + intros u c2 Hst2. apply triple_ret.
      by replace (c_sl c0 + left - 0 + nvars - 1)
        with (c_sl c0 + left + nvars + -1) by lia.
Qed.

Lemma cond_spec c0 N L v :
  st N L c0 ->
  triple c0 (cond expr v) (fun v' c => st N L c).
Proof.
  intros Hst. unfold cond.
  tstep (H_expr v c0 N L Hst) as v1 c1 (W1 & HN1 & Hs1).
  eapply triple_conseq.
  - apply triple_emit. intros ls. apply (goiftrue_spec c1 L v1 0 W1 Hs1).
  - intros v' c; cbv beta. intros (_ & F & W' & HL).
    split_and!; [done|by eapply fr_na|done].
Qed.

Lemma whilestat_spec c0 N line :
  st N N c0 ->
  triple c0 (whilestat chunk expr line) (fun _ c => st N N c).
Proof.
  intros Hst. unfold whilestat.
  tstep (triple_getlabel c0 N N Hst) as while_init c1 [Hst1 _].
  tstep (triple_enterbreak c1 N N Hst1) as u c2 Hst2.
  tneutral neutral_next.
  tstep (cond_spec c2 N N expdesc_auto Hst2) as v c3 Hst3.
  tneutral neutral_check.
  tstep (block_spec c3 N Hst3) as u2 c4 Hst4.
  tstep (triple_jump c4 N N Hst4) as j c5 [Hst5 _].
  tstep (triple_patchlist c5 N N j while_init Hst5) as u3 c6 [Hst6 _].
  tstep (triple_getlabel c6 N N Hst6) as l c7 [Hst7 _].
  tstep (triple_patchlist c7 N N (u_l_f v) l Hst7) as u4 c8 [Hst8 _].
  tneutral neutral_check_match.
  by apply triple_leavebreak.
Qed.

Lemma repeatstat_spec c0 N line :
  st N N c0 ->
  triple c0 (repeatstat chunk expr line) (fun _ c => st N N c).
Proof.
  intros Hst. unfold repeatstat.
  tstep (triple_getlabel c0 N N Hst) as repeat_init c1 [Hst1 _].
  tstep (triple_enterbreak c1 N N Hst1) as u c2 Hst2.
  tneutral neutral_next.
  tstep (block_spec c2 N Hst2) as u2 c3 Hst3.
  tneutral neutral_check_match.
  tstep (cond_spec c3 N N expdesc_auto Hst3) as v c4 Hst4.
  tstep (triple_patchlist c4 N N (u_l_f v) repeat_init Hst4)
    as u4 c5 [Hst5 _].
  by apply triple_leavebreak.
Qed.

Lemma forbody_spec c0 N nvar prepfor loopfor d :
  0 <= nvar ->
  is_nop prepfor NO_JUMP = false -> is_nop loopfor NO_JUMP = false ->
  (forall s, Writer.opdelta prepfor NO_JUMP 0 s = d) ->
  (forall s, Writer.opdelta loopfor NO_JUMP 0 s = - nvar) ->
  st N (N + nvar - d) c0 ->
  triple c0 (forbody chunk nvar prepfor loopfor) (fun _ c => st N N c).
Proof.
  intros Hn Hnp Hnl Hdp Hdl Hst. unfold forbody.
  tstep (triple_code1 c0 N _ prepfor NO_JUMP Hst Hnp) as prep c1
    (_ & _ & Hst1).
  rewrite Hdp in Hst1.
  replace (N + nvar - d + d) with (N + nvar) in Hst1 by lia.
  tstep (triple_getlabel c1 N _ Hst1) as blockinit c2 [Hst2 _].
  tneutral neutral_check.
  tstep (triple_adjustlocalvars c2 nvar Hn) as u c3 ->.
  pose proof (grown_st c2 N _ nvar Hst2) as Hst3.
  tstep (block_spec _ _ Hst3) as u2 c4 Hst4.
  tstep (triple_code1 c4 _ _ loopfor NO_JUMP Hst4 Hnl) as j c5
    (_ & _ & Hst5).
  rewrite Hdl in Hst5.
  tstep (triple_patchlist c5 _ _ j blockinit Hst5) as u3 c6 [Hst6 _].
  tstep (triple_getlabel c6 _ _ Hst6) as l c7 [Hst7 _].
  tstep (triple_fixfor c7 _ _ prep l Hst7) as u4 c8 Hst8.
  eapply triple_conseq; [by apply triple_removelocalvars|].
  intros _ c ->. pose proof (grown_st c8 _ _ (- nvar) Hst8) as H.
  replace (N + nvar + - nvar) with N in H by lia. done.
Qed.

Lemma fornum_spec c0 N varname_ :
  st N N c0 ->
  triple c0 (fornum chunk expr varname_) (fun _ c => st N N c).
Proof.
  intros Hst. unfold fornum. tneutral neutral_check.
  tstep (exp1_spec c0 N N Hst) as u1 c1 [Hst1 _].
  tneutral neutral_check.
  tstep (exp1_spec c1 N _ Hst1) as u2 c2 [Hst2 _].
  tneutral neutral_optional as c.
  eapply triple_bind with (R := fun _ c => st N (N + 3) c).
  { destruct (negb _).
    - eapply triple_conseq; [apply (exp1_spec c2 N _ Hst2)|].
      intros _ c' [H _]. by replace (N + 3) with (N + 1 + 1 + 1) by lia.
    - tstep (triple_code1 c2 N _ OP_PUSHINT 1 Hst2 eq_refl) as r c3
        (_ & _ & Hst3).
      apply triple_ret. simpl in Hst3.
      by replace (N + 3) with (N + 1 + 1 + 1) by lia. }
  intros u3 c3 Hst3.
  tneutral neutral_new_localvar. tneutral neutral_new_localvarstr.
  tneutral neutral_new_localvarstr.
  apply (forbody_spec c3 N 3 OP_FORPREP OP_FORLOOP 0); try done.
  by replace (N + 3 - 0) with (N + 3) by lia.
Qed.

Lemma forlist_spec c0 N indexname :
  st N N c0 ->
  triple c0 (forlist chunk expr indexname) (fun _ c => st N N c).
Proof.
  intros Hst. unfold forlist. tneutral neutral_check.
  tneutral neutral_str_checkname as valname. tneutral neutral_get as ls.
  tneutral neutral_check_condition. tneutral neutral_next.
  tstep (exp1_spec c0 N N Hst) as u1 c1 [Hst1 _].
  tneutral neutral_new_localvarstr. tneutral neutral_new_localvarstr.
  tneutral neutral_new_localvar. tneutral neutral_new_localvar.
  apply (forbody_spec c1 N 4 OP_LFORPREP OP_LFORLOOP 3); try done.
  by replace (N + 4 - 3) with (N + 1) by lia.
Qed.

Lemma forstat_spec c0 N line :
  st N N c0 ->
  triple c0 (forstat chunk expr line) (fun _ c => st N N c).
Proof.
  intros Hst. unfold forstat.
  tstep (triple_enterbreak c0 N N Hst) as u c1 Hst1.
  tneutral neutral_next. tneutral neutral_str_checkname as varname_.
  tneutral neutral_token as tok.
  eapply triple_bind with (R := fun _ c => st N N c).
  { destruct (tok =? l_c "="); [by apply fornum_spec|].
    destruct (tok =? l_c ","); [by apply forlist_spec|].
    apply triple_throw. discriminate. }
  intros u2 c2 Hst2. tneutral neutral_check_match.
  by apply triple_leavebreak.
Qed.

Lemma test_then_block_spec c0 N v :
  st N N c0 ->
  triple c0 (test_then_block chunk expr v) (fun _ c => st N N c).
Proof.
  intros Hst. unfold test_then_block. tneutral neutral_next.
  tstep (cond_spec c0 N N v Hst) as v1 c1 Hst1.
  tneutral neutral_check.
  tstep (block_spec c1 N Hst1) as u c2 Hst2.
  by apply triple_ret.
Qed.

Lemma ifstat_loop_spec turns c0 N v escapelist :
  st N N c0 ->
  triple c0 (ifstat_loop chunk expr turns v escapelist)
    (fun _ c => st N N c).
Proof.
  revert c0 v escapelist.
  induction turns as [|turns IH]; intros c0 v escapelist Hst.
  { apply triple_timeout. }
  cbn [ifstat_loop]. tneutral neutral_token as tok.
  destruct (tok =? TK_ELSEIF); [|by apply triple_ret].
  tstep (triple_jump c0 N N Hst) as j c1 [Hst1 _].
  tstep (triple_concat c1 N N escapelist j Hst1) as e c2 [Hst2 _].
  tstep (triple_getlabel c2 N N Hst2) as l c3 [Hst3 _].
  tstep (triple_patchlist c3 N N (u_l_f v) l Hst3) as u c4 [Hst4 _].
  tstep (test_then_block_spec c4 N v Hst4) as v1 c5 Hst5.
  by apply IH.
Qed.

Lemma ifstat_spec c0 N line :
  st N N c0 ->
  triple c0 (ifstat chunk expr fuel line) (fun _ c => st N N c).
Proof.
  intros Hst. unfold ifstat.
  tstep (test_then_block_spec c0 N expdesc_auto Hst) as v c1 Hst1.
  tstep (ifstat_loop_spec fuel c1 N v NO_JUMP Hst1) as r c2 Hst2.
  destruct r as [v2 escapelist].
  tneutral neutral_token as tok.
  eapply triple_bind with (R := fun _ c => st N N c).
  { destruct (tok =? TK_ELSE).
    - tstep (triple_jump c2 N N Hst2) as j c3 [Hst3 _].
      tstep (triple_concat c3 N N escapelist j Hst3) as e c4 [Hst4 _].
      tstep (triple_getlabel c4 N N Hst4) as l c5 [Hst5 _].
      tstep (triple_patchlist c5 N N (u_l_f v2) l Hst5) as u c6 [Hst6 _].
      tneutral neutral_next.
      tstep (block_spec c6 N Hst6) as u2 c7 Hst7.
      by apply triple_ret.
    - eapply triple_conseq; [by apply (triple_concat c2 N N)|].
      by intros e c [H _]. }
  intros e c3 Hst3.
  tstep (triple_getlabel c3 N N Hst3) as l c4 [Hst4 _].
  tstep (triple_patchlist c4 N N e l Hst4) as u c5 [Hst5 _].
  eapply triple_conseq; [apply neutral_triple, neutral_check_match|].
  by intros _ c ->.
Qed.

Lemma localstat_loop_spec turns c0 nvars :
  triple c0 (localstat_loop turns nvars) (fun n c => c = c0 /\ nvars < n).
Proof.
  revert nvars. induction turns as [|turns IH]; intros nvars.
  { apply triple_timeout. }
  cbn [localstat_loop]. tneutral neutral_next.
  tneutral neutral_str_checkname as n. tneutral neutral_new_localvar.
  tneutral neutral_token as tok. destruct (tok =? l_c ",").
  - eapply triple_conseq; [apply IH|]. intros n' c [-> ?]. split; [done|lia].
  - apply triple_ret. split; [done|lia].
Qed.

Lemma localstat_spec c0 N :
  st N N c0 ->
  triple c0 (localstat expr fuel) (fun _ c => boundary N c).
Proof.
  intros Hst. unfold localstat.
  tstep (localstat_loop_spec fuel c0 0) as nvars c1 [-> Hn].
  tneutral neutral_optional as c.
  eapply triple_bind
    with (R := fun nexps c =>
                 ws N c /\ if nexps =? 0 then c_sl c = N
                           else 0 < nexps /\ listed N nexps c).
  { destruct (negb _).
    - eapply triple_conseq; [apply (explist1_spec c0 N N Hst)|].
      intros n c'. cbv beta. intros (Hn' & Hws & Hl).
      split; [done|]. by replace (n =? 0) with false by lia.
    - apply triple_ret. split; [by eapply st_ws|]. by destruct Hst as (_&_&?). }
  intros nexps c1 [[W1 HN1] Hl1].
  tstep (triple_adjust_mult_assign c1 N N nvars nexps W1 HN1 Hl1)
    as u c2 Hst2.
  eapply triple_conseq; [apply triple_adjustlocalvars; lia|].
  intros _ c' ->. pose proof (grown_st c2 _ _ nvars Hst2) as (W & HN & HL).
  split_and!; [done|lia|congruence].
Qed.

Lemma funcname_loop_spec turns c0 N L v :
  shaped N L v c0 -> k v <> VEXP ->
  triple c0 (funcname_loop turns v)
    (fun v' c => shaped N L v' c /\ k v' <> VEXP).
Proof.
  revert c0 v. induction turns as [|turns IH]; intros c0 v Hs Hk.
  { apply triple_timeout. }
  cbn [funcname_loop]. tneutral neutral_token as tok.
  destruct (tok =? l_c "."); [|by apply triple_ret].
  tneutral neutral_next.
  tstep (triple_tostack1 c0 N L v Hs) as v1 c1 (Hst1 & _ & _).
  tneutral neutral_checkname as x.
  eapply triple_bind with (R := fun _ c => st N (L + 2) c).
  - eapply triple_conseq.
    + apply triple_emit. intros ls. apply (kstr_spec c1 x).
    + intros _ c ->. replace (L + 2) with (L + 1 + 1) by lia.
      by apply (pushed_st _ N (L + 1) OP_PUSHSTRING x 0).
  - intros u c2 Hst2. apply IH; [by apply indexed_shaped|done].
Qed.

Lemma funcname_spec c0 N L v :
  st N L c0 ->
  triple c0 (funcname fuel v)
    (fun '(_, v') c => shaped N L v' c /\ k v' <> VEXP).
Proof.
  intros Hst. unfold funcname. tneutral neutral_str_checkname as n.
  tstep (triple_singlevar c0 n v) as v1 c1 [-> Hk1].
  assert (Hs1 : shaped N L v1 c0).
  { destruct Hst as (W & HN & HL). split_and!; [done..|].
    unfold shape. by destruct Hk1 as [-> | ->]. }
  assert (Hk1' : k v1 <> VEXP) by (destruct Hk1 as [-> | ->]; done).
  tstep (funcname_loop_spec fuel c0 N L v1 Hs1 Hk1') as v2 c2 [Hs2 Hk2].
  tneutral neutral_token as tok. destruct (tok =? l_c ":").
  - tneutral neutral_next.
    tstep (triple_tostack1 c2 N L v2 Hs2) as v3 c3 (Hst3 & _ & _).
    tneutral neutral_checkname as x.
    eapply triple_bind with (R := fun _ c => st N (L + 2) c).
    + eapply triple_conseq.
      * apply triple_emit. intros ls. apply (kstr_spec c3 x).
      * intros _ c ->. replace (L + 2) with (L + 1 + 1) by lia.
        by apply (pushed_st _ N (L + 1) OP_PUSHSTRING x 0).
    + intros u c4 Hst4. apply triple_ret.
      split; [by apply indexed_shaped|done].
  - by apply triple_ret.
Qed.

Lemma funcstat_spec c0 N L line :
  st N L c0 ->
  triple c0 (funcstat body fuel line) (fun _ c => st N L c).
Proof.
  intros Hst. unfold funcstat. tneutral neutral_next.
  tstep (funcname_spec c0 N L expdesc_auto Hst) as r c1 H.
  destruct r as [needself v]. destruct H as [Hs1 Hk1].
  pose proof (target_level _ _ _ _ Hs1 Hk1) as Hst1.
  tstep (H_body needself line c1 N _ Hst1) as u c2 [Hst2 _].
  eapply triple_bind with (R := fun _ c => st N L c).
  - eapply triple_conseq.
    + apply triple_emit. intros ls. apply (storevar_spec c2 v).
    + intros ? c; cbv beta; intros Hm.
      eapply moved_st in Hm; [|exact Hst2].
      unfold slots in Hm. destruct (bool_decide (k v = VINDEXED)).
      * by replace (L + 2 + 1 + -3) with L in Hm by lia.
      * by replace (L + 0 + 1 + -1) with L in Hm by lia.
  - intros u2 c3 Hst3. by apply triple_ret.
Qed.

Lemma exprstat_spec c0 N L :
  st N L c0 ->
  triple c0 (exprstat body constructor expr fuel) (fun _ c => st N L c).
Proof.
  intros Hst. unfold exprstat.
  tstep (simpleexp_spec c0 N L expdesc_auto Hst) as v c1 Hs1.
  destruct (bool_decide (k v = VEXP)) eqn:Ek.
  - apply bool_decide_eq_true in Ek. tgetfs fs as E1.
    rewrite lastisopen_core.
    unfold check_condition. destruct (isopen (core fs)) eqn:Ho; simpl.
    + eapply triple_bind with (R := fun _ c => c = core fs);
        [by apply triple_ret|].
      intros u c2 ->. destruct Hs1 as (W1 & HN1 & Hs1).
      unfold shape in Hs1. rewrite Ek, Ho in Hs1. destruct Hs1 as [HL1 _].
      eapply triple_conseq.
      * apply triple_emit. intros ls.
        apply (setcallreturns_spec (core fs) 0 W1).
      * intros ? c; cbv beta. rewrite Ho. intros (Hm & _ & _).
        replace L with (L + 0) by lia. eapply moved_st; [exact Hm|].
        by split_and!.
    + eapply triple_bind with (R := fun _ c => False).
      * apply triple_throw. discriminate.
      * by intros.
  - apply bool_decide_eq_false in Ek.
    pose proof (target_level _ _ _ _ Hs1 Ek) as Hst1.
    tstep (assignment_spec fuel c1 N v 1 (st_ws _ _ _ Hst1)) as left c2 Hst2.
    eapply triple_conseq; [apply (triple_adjuststack c2 N _ left Hst2)|].
    intros ? c; cbv beta. intros [H _].
    destruct Hst1 as (_ & _ & HL1). rewrite HL1 in H.
    by replace (L + slots v + left - slots v + 1 - 1 - left) with L in H
      by lia.
Qed.

Lemma retstat_spec c0 N :
  ws N c0 -> triple c0 (retstat expr fuel) (fun _ c => st N N c).
Proof.
  intros Hws. unfold retstat. tneutral neutral_next.
  tneutral neutral_token as tok.
  eapply triple_bind with (R := fun _ c => ws N c).
  { destruct (_ && _); [|by apply triple_ret].
    tstep (explist1_spec c0 N _ (ws_st _ _ Hws)) as n c1 (_ & Hws1 & _).
    by apply triple_ret. }
  intros u c1 Hws1. tgetfs fs as E1.
  tstep (triple_code1 _ N _ OP_RETURN (fs_nactloc fs) (ws_st _ _ Hws1)
           eq_refl) as r c2 (_ & _ & Hst2).
  tgetfs fs2 as E2.
  eapply triple_conseq; [apply triple_putfs|]. intros _ c ->.
  destruct Hst2 as (W2 & HN2 & _). by split_and!.
Qed.

Lemma breakstat_spec c0 N L :
  st N L c0 -> triple c0 breakstat (fun _ c => st N L c).
Proof.
  intros Hst. unfold breakstat. tgetfs fs as E.
  destruct (fs_bl fs) as [|bl rest] eqn:Ebl.
  { apply triple_throw. discriminate. }
  tneutral neutral_next.
  tstep (triple_adjuststack _ N L (fs_stacklevel fs - bl_stacklevel bl) Hst)
    as u c1 [Hst1 F1].
  eapply triple_bind
    with (R := fun _ c => st N (L - (fs_stacklevel fs - bl_stacklevel bl)) c
                          /\ fr c1 c).
  { eapply triple_conseq; [apply (triple_jump c1 N _ Hst1)|].
    by intros j c. }
  intros j c2 [Hst2 F2]. tgetfs fs2 as E2.
  assert (Hbl2 : fs_bl fs2 = bl :: rest).
  { destruct F1 as (_ & B1 & _), F2 as (_ & B2 & _). simpl in *. congruence. }
  rewrite Hbl2.
  eapply triple_bind
    with (R := fun _ c => st N (L - (fs_stacklevel fs - bl_stacklevel bl)) c
                          /\ fr (core fs2) c).
  { eapply triple_conseq; [apply (triple_concat _ N _ _ _ Hst2)|].
    intros l c [? Hq]. split; [done|]. by apply quiet_fr. }
  intros l c3 [Hst3 F3]. tgetfs fs3 as E3.
  assert (Hbl3 : fs_bl fs3 = bl :: rest).
  { destruct F3 as (_ & B3 & _). simpl in *. congruence. }
  rewrite Hbl3.
  tstep triple_putfs as u4 c4 ->.
  assert (Hst4 : st N (L - (fs_stacklevel fs - bl_stacklevel bl))
                   (core (set_fs_bl fs3
                            (mkBreaklabel l (bl_stacklevel bl) :: rest))))
    by done.
  tgetfs fs4 as E4.
  assert (Hbl4 : fs_bl fs4 = mkBreaklabel l (bl_stacklevel bl) :: rest)
    by (apply (f_equal c_bl) in E4; exact E4).
  rewrite Hbl4.
  eapply triple_conseq; [apply (triple_adjuststack _ N _ _ Hst4)|].
  intros ? c; cbv beta. intros [H _]. simpl in H.
  destruct Hst as (_ & _ & HL). simpl in HL.
  by replace (L - (fs_stacklevel fs - bl_stacklevel bl)
              - (bl_stacklevel bl - fs_stacklevel fs)) with L in H by lia.
Qed.

Lemma statement_spec c0 N :
  boundary N c0 ->
  triple c0 (statement body chunk constructor expr fuel)
    (fun _ c => boundary N c).
Proof.
  intros (W & HN & HL).
  assert (Hst : st (c_na c0) (c_na c0) c0) by by split_and!.
  assert (Hb : forall c, st (c_na c0) (c_na c0) c -> boundary N c).
  { intros c (W' & HN' & HL'). split_and!; [done|lia|congruence]. }
  assert (Hfin : forall (m : P unit) (r : Z),
            triple c0 m (fun _ c => st (c_na c0) (c_na c0) c) ->
            triple c0 (m;; mret r) (fun _ c => boundary N c)).
  { intros m r Hm. eapply triple_bind; [exact Hm|].
    intros u c1 Hst1. apply triple_ret. by apply Hb. }
  unfold statement. tneutral neutral_get as ls.
  destruct (_ =? TK_IF); [by apply Hfin, ifstat_spec|].
  destruct (_ =? TK_WHILE); [by apply Hfin, whilestat_spec|].
  destruct (_ =? TK_DO).
  { tneutral neutral_next.
    tstep (block_spec c0 _ Hst) as u c1 Hst1.
    tneutral neutral_check_match. apply triple_ret. by apply Hb. }
  destruct (_ =? TK_FOR); [by apply Hfin, forstat_spec|].
  destruct (_ =? TK_REPEAT); [by apply Hfin, repeatstat_spec|].
  destruct (_ =? TK_FUNCTION).
  { tneutral neutral_lookahead. tneutral neutral_get as ls1.
    apply Hfin. destruct (_ =? l_c "(").
    - by apply exprstat_spec.
    - by apply funcstat_spec. }
  destruct (_ =? TK_LOCAL).
  { tstep (localstat_spec c0 _ Hst) as u c1 (W1 & HN1 & HL1).
    apply triple_ret. split_and!; [done|lia|done]. }
  destruct (_ =? TK_RETURN).
  { apply Hfin. apply retstat_spec. by split. }
  destruct (_ =? TK_BREAK); [by apply Hfin, breakstat_spec|].
  by apply Hfin, exprstat_spec.
Qed.

(** *** Function bodies and chunks *)

Lemma parlist_loop_spec turns c0 nparams :
  0 <= nparams ->
  triple c0 (parlist_loop turns nparams)
    (fun '(n, _) c => c = c0 /\ 0 <= n).
Proof.
  revert nparams. induction turns as [|turns IH]; intros nparams Hn.
  { apply triple_timeout. }
  cbn [parlist_loop]. tneutral neutral_token as tok.
  eapply triple_bind
    with (R := fun '(n, _) c => c = c0 /\ 0 <= n).
  { destruct (tok =? TK_DOTS).
    - tneutral neutral_next. by apply triple_ret.
    - destruct (tok =? TK_NAME).
      + tneutral neutral_str_checkname as n. tneutral neutral_new_localvar.
        apply triple_ret. split; [done|lia].
      + apply triple_throw. discriminate. }
  intros [n dots] c1 [-> Hn1]. destruct (dots =? 0).
  - tneutral neutral_optional as c. destruct (negb _).
    + by apply IH.
    + by apply triple_ret.
  - by apply triple_ret.
Qed.

Lemma parlist_spec c0 N L :
  st N L c0 ->
  triple c0 (parlist fuel)
    (fun _ c => exists N', N <= N' /\ st N' (L + N') c).
Proof.
  intros Hst. unfold parlist. tneutral neutral_token as tok.
  eapply triple_bind with (R := fun '(n, _) c => c = c0 /\ 0 <= n).
  { destruct (negb _).
    - by apply parlist_loop_spec.
    - by apply triple_ret. }
  intros [nparams dots] c1 [-> Hn]. by apply triple_code_params.
Qed.

Lemma body_def_spec needself line c0 N L :
  st N L c0 ->
  triple c0 (body_def chunk fuel needself line)
    (fun _ c => st N (L + 1) c /\ plain c).
Proof.
  intros Hst rest. unfold body_def.
  eapply htriple_bind; [apply htriple_open_func|].
  intros u cs1 ->. cbv beta.
  assert (Hopen : st 0 0 core_open).
  { by split_and!. }
  eapply htriple_bind; [apply (triple_getfs core_open (c0 :: rest))|].
  intros fs cs2 (c2 & -> & -> & E2). cbv beta.
  eapply htriple_bind; [apply (triple_putfs core_open _ (c0 :: rest))|].
  intros u2 cs3 (c3 & -> & ->). cbv beta.
  assert (Hst3 : st 0 0
            (core (set_fs_f fs (set_f_lineDefined (fs_f fs) line)))).
  { change (st 0 0 (core fs)). by rewrite E2. }
  revert Hst3.
  generalize (core (set_fs_f fs (set_f_lineDefined (fs_f fs) line))).
  intros c3 Hst3.
  eapply htriple_bind;
    [apply (neutral_triple c3 _ (neutral_check (l_c "(")) (c0 :: rest))|].
  intros u3 cs4 (c4 & -> & ->). cbv beta.
  eapply htriple_bind
    with (R := fun _ cs => exists c N', cs = c :: c0 :: rest /\ st N' 0 c).
  { destruct (negb _).
    - eapply htriple_bind;
        [apply (neutral_triple c3 _ (neutral_new_localvarstr "self" 0)
                  (c0 :: rest))|].
      intros u4 cs5 (c5 & -> & ->). cbv beta.
      eapply htriple_conseq;
        [apply (triple_adjustlocalvars c3 1 (ltac:(lia)) (c0 :: rest))|].
      intros _ cs (c & -> & ->). exists (grown c3 1), (0 + 1).
      split; [done|]. by apply grown_st.
    - intros ls Hc. simpl. eauto. }
  intros u4 cs5 (c5 & N5 & -> & Hst5). cbv beta.
  eapply htriple_bind; [apply (parlist_spec c5 N5 0 Hst5 (c0 :: rest))|].
  intros u5 cs6 (c6 & -> & N6 & HN6 & Hst6). cbv beta.
  eapply htriple_bind;
    [apply (neutral_triple c6 _ (neutral_check (l_c ")")) (c0 :: rest))|].
  intros u6 cs7 (c7 & -> & ->). cbv beta.
  assert (Hb6 : boundary N6 c6).
  { destruct Hst6 as (W & HN & HL). split_and!; [done|lia|lia]. }
  eapply htriple_bind; [apply (H_chunk c6 N6 Hb6 (c0 :: rest))|].
  intros u7 cs8 (c8 & -> & Hb8). cbv beta.
  eapply htriple_bind;
    [apply (neutral_triple c8 _
              (neutral_check_match TK_END TK_FUNCTION line) (c0 :: rest))|].
  intros u8 cs9 (c9 & -> & ->). cbv beta.
  eapply htriple_bind; [apply htriple_close_func|].
  intros new_fs cs10 [-> Hwf]. cbv beta.
  eapply htriple_conseq.
  - apply (triple_pushclosure c0 N L new_fs Hst).
    apply Hwf. by destruct Hb8.
  - intros ? cs H. exact H.
Qed.

Lemma chunk_loop_assert_spec turns c0 N islast :
  boundary N c0 ->
  triple c0 (chunk_loop_assert body chunk constructor expr fuel turns islast)
    (fun _ c => boundary N c).
Proof.
  revert c0 islast. induction turns as [|turns IH]; intros c0 islast Hb.
  { apply triple_timeout. }
  cbn [chunk_loop_assert]. tneutral neutral_token as tok.
  destruct (_ && _); [|by apply triple_ret].
  tstep (statement_spec c0 N Hb) as islast' c1 Hb1.
  tneutral neutral_optional as c. tgetfs fs as E1.
  unfold lua_assert.
  destruct Hb1 as (W1 & HN1 & HL1). simpl in HL1.
  rewrite HL1, Z.eqb_refl.
  eapply triple_bind with (R := fun _ c => c = core fs);
    [by apply triple_ret|].
  intros u c2 ->. apply IH. by split_and!.
Qed.

Lemma chunk_assert_def_spec c0 N :
  boundary N c0 ->
  triple c0 (chunk_assert_def body chunk constructor expr fuel)
    (fun _ c => boundary N c).
Proof. apply chunk_loop_assert_spec. Qed.

End GrammarStack.

(** ** The whole grammar *)

Lemma grammar_assert_spec fuel :
  (forall needself line c0 N L,
     st N L c0 ->
     triple c0 (g_body (grammar_assert fuel) needself line)
       (fun _ c => st N (L + 1) c /\ plain c))
  /\ (forall c0 N,
        boundary N c0 ->
        triple c0 (g_chunk (grammar_assert fuel)) (fun _ c => boundary N c))
  /\ (forall c0 N L,
        st N L c0 ->
        triple c0 (g_constructor (grammar_assert fuel))
          (fun _ c => st N (L + 1) c /\ plain c))
  /\ (forall v c0 N L,
        st N L c0 ->
        triple c0 (g_expr (grammar_assert fuel) v)
          (fun v' c => shaped N L v' c)).
Proof.
  induction fuel as [|fuel (IHb & IHk & IHc & IHe)].
  { split_and!; intros; apply triple_timeout. }
  cbn [grammar_assert g_body g_chunk g_constructor g_expr]. split_and!.
  - intros. by apply body_def_spec.
  - intros. by apply chunk_assert_def_spec.
  - intros. by apply constructor_def_spec.
  - intros. by apply expr_def_spec.
Qed.

Lemma boundary_open : boundary 0 core_open.
Proof. by split_and!. Qed.

Lemma parser_assert_htriple fuel :
  htriple []
    (open_func;;
     next;;
     g_chunk (grammar_assert fuel);;
     tok ← token;
     check_condition (tok =? TK_EOS) "<eof> expected";;
     funcstate ← close_func;
     mret (fs_f funcstate))
    (fun _ _ => True).
Proof.
  destruct (grammar_assert_spec fuel) as (_ & Hk & _ & _).
  eapply htriple_bind; [apply htriple_open_func|].
  intros u cs1 ->. cbv beta.
  eapply htriple_bind;
    [apply (neutral_triple core_open _ neutral_next [])|].
  intros u1 cs2 (c2 & -> & ->). cbv beta.
  eapply htriple_bind; [apply (Hk core_open 0 boundary_open [])|].
  intros u2 cs3 (c3 & -> & Hb3). cbv beta.
  eapply htriple_bind; [apply (neutral_triple c3 _ neutral_token [])|].
  intros tok cs4 (c4 & -> & ->). cbv beta.
  eapply htriple_bind;
    [apply (neutral_triple c3 _ (neutral_check_condition _ _) [])|].
  intros u4 cs5 (c5 & -> & ->). cbv beta.
  eapply htriple_bind; [apply htriple_close_func|].
  intros funcstate cs6 [-> _]. cbv beta.
  by intros ls Hc.
Qed.

(** * The parser with and without its assertion *)

Lemma agree_bind {A B} (m1 m2 : P A) (f1 f2 : A -> P B) :
  agree m1 m2 -> (forall a, agree (f1 a) (f2 a)) ->
  agree (m1 ≫= f1) (m2 ≫= f2).
Proof.
  intros Hm Hf ls Hne. unfold mbind, P_mbind, bind.
  destruct (Hm ls Hne) as [->|[<- Hlen]]; [by left|].
  destruct (m1 ls) as [[a ls']| |] eqn:E; [|by right..].
  specialize (Hlen a ls' eq_refl).
  assert (Hne' : ls_fs ls' <> []).
  { intros H. rewrite H in Hlen. destruct (ls_fs ls); simpl in *; done. }
  destruct (Hf a ls' Hne') as [->|[<- Hlen']]; [by left|].
  right. split; [done|]. intros b ls'' Hb. rewrite <- Hlen. eauto.
Qed.

Lemma agree_neutral {A} (m : P A) : neutral m -> agree m m.
Proof.
  intros Hm ls Hne. right. split; [done|]. intros a ls' E.
  specialize (Hm ls). rewrite E in Hm. unfold cores in Hm.
  by rewrite <- (length_map core), Hm, length_map.
Qed.

Lemma agree_ret {A} (a : A) : agree (mret a : P A) (mret a).
Proof. apply agree_neutral, neutral_ret. Qed.

Lemma agree_throw {A} e : agree (throw e : P A) (throw e).
Proof. intros ls Hne. by right. Qed.

Lemma agree_timeout {A} : agree (timeout : P A) timeout.
Proof. intros ls Hne. by right. Qed.

Lemma agree_putfs fs : agree (putfs fs) (putfs fs).
Proof.
  intros ls Hne. right. split; [done|]. unfold putfs.
  destruct (ls_fs ls); [done|]. by intros a ls' [= _ <-].
Qed.

Lemma agree_emit {A} (op : LexState -> FuncState -> Res (A * FuncState)) :
  agree (emit op) (emit op).
Proof.
  intros ls Hne. right. split; [done|]. unfold emit.
  destruct (ls_fs ls) as [|fs prev]; [done|].
  destruct (op ls fs) as [[a fs']| |]; [|done..].
  by intros a' ls' [= _ <-].
Qed.

Lemma neutral_singlevar n var : neutral (singlevar n var).
Proof.
  unfold singlevar, luaX_syntaxerror.
  apply neutral_bind; [apply neutral_get|]. intros ls.
  destruct (search_local ls n var) as [level v].
  repeat first [apply neutral_throw; discriminate
               |apply neutral_ret
               |apply neutral_string_constant_fs
               |apply neutral_bind; [|intros ?]
               |match goal with
                | |- neutral (if ?b then _ else _) => destruct b
                end].
Qed.

Lemma neutral_localstat_loop turns nvars :
  neutral (localstat_loop turns nvars).
Proof.
  revert nvars. induction turns as [|turns IH]; intros nvars.
  { apply neutral_timeout. }
  cbn [localstat_loop].
  apply neutral_bind; [apply neutral_next|]. intros _.
  apply neutral_bind; [apply neutral_str_checkname|]. intros n.
  apply neutral_bind; [apply neutral_new_localvar|]. intros _.
  apply neutral_bind; [apply neutral_token|]. intros tok.
  destruct (_ =? _); [apply IH|apply neutral_ret].
Qed.

Lemma neutral_parlist_loop turns nparams :
  neutral (parlist_loop turns nparams).
Proof.
  revert nparams. induction turns as [|turns IH]; intros nparams.
  { apply neutral_timeout. }
  cbn [parlist_loop].
  apply neutral_bind; [apply neutral_token|]. intros tok.
  apply neutral_bind.
  { destruct (_ =? _).
    - apply neutral_bind; [apply neutral_next|]. intros. apply neutral_ret.
    - destruct (_ =? _).
      + apply neutral_bind; [apply neutral_str_checkname|]. intros.
        apply neutral_bind; [apply neutral_new_localvar|]. intros.
        apply neutral_ret.
      + apply neutral_throw. discriminate. }
  intros [n dots]. destruct (_ =? _); [|apply neutral_ret].
  apply neutral_bind; [apply neutral_optional|]. intros c.
  destruct (negb _); [apply IH|apply neutral_ret].
Qed.

Create HintDb neutraldb.
#[local] Hint Resolve neutral_ret neutral_get neutral_token neutral_next
  neutral_lookahead neutral_timeout neutral_check neutral_check_condition
  neutral_optional neutral_check_match neutral_checklimit
  neutral_str_checkname neutral_string_constant_fs neutral_checkname
  neutral_registerlocalvar neutral_getfs neutral_new_localvar
  neutral_new_localvarstr neutral_string_constant_prev neutral_singlevar
  neutral_localstat_loop neutral_parlist_loop : neutraldb.

Create HintDb agreedb.
#[local] Hint Resolve agree_ret agree_throw agree_timeout agree_putfs
  agree_emit : agreedb.
#[local] Hint Extern 2 (agree ?m ?m) =>
  apply agree_neutral; solve [auto with neutraldb] : agreedb.

Ltac agree_intro :=
  let x := fresh "x" in
  intros x; cbv beta;
  try match type of x with
      | (_ * _)%type => destruct x
      end.

Ltac agree_tac :=
  repeat first
    [ solve [auto 2 with agreedb]
    | match goal with
      | |- agree (if ?b then _ else _) (if ?b then _ else _) => destruct b
      | |- agree (match ?x with _ => _ end) (match ?x with _ => _ end) =>
          destruct x
      end
    | apply agree_bind; [|agree_intro] ].

Lemma agree_adjustlocalvars n : agree (adjustlocalvars n) (adjustlocalvars n).
Proof. unfold adjustlocalvars. agree_tac. Qed.

Lemma agree_removelocalvars n : agree (removelocalvars n) (removelocalvars n).
Proof. unfold removelocalvars. agree_tac. Qed.

Lemma agree_code_string s : agree (code_string s) (code_string s).
Proof. unfold code_string. agree_tac. Qed.

Lemma agree_indexupvalue v : agree (indexupvalue v) (indexupvalue v).
Proof. unfold indexupvalue. agree_tac. Qed.

Lemma agree_pushupvalue n : agree (pushupvalue n) (pushupvalue n).
Proof.
  unfold pushupvalue, luaX_syntaxerror.
  apply agree_bind; [auto with agreedb|]. intros ls.
  destruct (search_local ls n expdesc_auto) as [level v].
  apply agree_bind.
  - destruct (level =? -1).
    + apply agree_bind.
      * destruct (ls_fs ls) as [|? [|? ?]]; auto with agreedb.
      * intros _. agree_tac.
    + agree_tac.
  - intros v'. apply agree_bind; [apply agree_indexupvalue|]. intros i.
    agree_tac.
Qed.

Lemma agree_adjust_mult_assign nvars nexps :
  agree (adjust_mult_assign nvars nexps) (adjust_mult_assign nvars nexps).
Proof. unfold adjust_mult_assign. agree_tac. Qed.

Lemma agree_enterbreak : agree enterbreak enterbreak.
Proof. unfold enterbreak. agree_tac. Qed.

Lemma agree_leavebreak : agree leavebreak leavebreak.
Proof. unfold leavebreak. agree_tac. Qed.

Lemma agree_code_params nparams dots :
  agree (code_params nparams dots) (code_params nparams dots).
Proof.
  unfold code_params.
  apply agree_bind; [apply agree_adjustlocalvars|]. intros _.
  apply agree_bind; [auto with agreedb|]. intros fs.
  apply agree_bind; [auto with agreedb|]. intros _.
  apply agree_bind; [auto with agreedb|]. intros _.
  apply agree_bind.
  - destruct (negb _); [|auto with agreedb].
    apply agree_bind; [auto with agreedb|]. intros _.
    apply agree_adjustlocalvars.
  - intros _. agree_tac.
Qed.

Lemma agree_pushclosure_loop func i count :
  agree (pushclosure_loop func i count) (pushclosure_loop func i count).
Proof.
  revert i. induction count as [|count IH]; intros i; cbn [pushclosure_loop].
  - auto with agreedb.
  - apply agree_bind; [auto with agreedb|]. intros _. apply IH.
Qed.

Lemma agree_pushclosure func : agree (pushclosure func) (pushclosure func).
Proof.
  unfold pushclosure.
  apply agree_bind; [apply agree_pushclosure_loop|]. intros _.
  apply agree_bind; [auto with agreedb|]. intros fs.
  apply agree_bind.
  { intros ls Hne. right. split; [done|].
    destruct (luaM_growvector _ _ _ _); simpl; [|done..].
    by intros x ls' [= _ <-]. }
  intros size. agree_tac.
Qed.

Lemma agree_funcname_loop turns v :
  agree (funcname_loop turns v) (funcname_loop turns v).
Proof.
  revert v. induction turns as [|turns IH]; intros v; cbn [funcname_loop].
  { auto with agreedb. }
  apply agree_bind; [auto with agreedb|]. intros tok.
  destruct (_ =? _); [|auto with agreedb].
  apply agree_bind; [auto with agreedb|]. intros _.
  apply agree_bind; [auto with agreedb|]. intros v1.
  apply agree_bind; [auto with agreedb|]. intros c.
  apply agree_bind; [auto with agreedb|]. intros _. apply IH.
Qed.

Lemma agree_funcname fuel v : agree (funcname fuel v) (funcname fuel v).
Proof.
  unfold funcname.
  apply agree_bind; [auto with agreedb|]. intros n.
  apply agree_bind; [auto with agreedb|]. intros v1.
  apply agree_bind; [apply agree_funcname_loop|]. intros v2.
  agree_tac.
Qed.

Lemma agree_breakstat : agree breakstat breakstat.
Proof. unfold breakstat, luaK_error. agree_tac. Qed.

Lemma agree_parlist fuel : agree (parlist fuel) (parlist fuel).
Proof.
  unfold parlist.
  apply agree_bind; [auto with agreedb|]. intros tok.
  apply agree_bind.
  - destruct (negb _); auto with agreedb.
  - intros [nparams dots]. apply agree_code_params.
Qed.

#[local] Hint Resolve agree_adjustlocalvars agree_removelocalvars
  agree_code_string agree_indexupvalue agree_pushupvalue
  agree_adjust_mult_assign agree_enterbreak agree_leavebreak
  agree_code_params agree_pushclosure agree_funcname agree_breakstat
  agree_parlist : agreedb.

Section Agreement.

Variables body1 body2 : Z -> Z -> P unit.
Variables chunk1 chunk2 : P unit.
Variables constructor1 constructor2 : P unit.
Variables expr1 expr2 : expdesc -> P expdesc.
Variable fuel : nat.

Hypothesis Hb : forall needself line,
  agree (body1 needself line) (body2 needself line).
Hypothesis Hk : agree chunk1 chunk2.
Hypothesis Hc : agree constructor1 constructor2.
Hypothesis He : forall v, agree (expr1 v) (expr2 v).

#[local] Hint Resolve Hb Hk Hc He : agreedb.

Lemma agree_exp1 : agree (exp1 expr1) (exp1 expr2).
Proof. unfold exp1. agree_tac. Qed.
#[local] Hint Resolve agree_exp1 : agreedb.

Lemma agree_explist1_loop turns v n :
  agree (explist1_loop expr1 turns v n) (explist1_loop expr2 turns v n).
Proof.
  revert v n. induction turns as [|turns IH]; intros v n;
    cbn [explist1_loop]; agree_tac.
Qed.
#[local] Hint Resolve agree_explist1_loop : agreedb.

Lemma agree_explist1 : agree (explist1 expr1 fuel) (explist1 expr2 fuel).
Proof. unfold explist1. agree_tac. Qed.
#[local] Hint Resolve agree_explist1 : agreedb.

Lemma agree_funcargs slf :
  agree (funcargs constructor1 expr1 fuel slf)
    (funcargs constructor2 expr2 fuel slf).
Proof. unfold funcargs, luaK_error. agree_tac. Qed.
#[local] Hint Resolve agree_funcargs : agreedb.

Lemma agree_recfield : agree (recfield expr1) (recfield expr2).
Proof. unfold recfield, luaK_error. agree_tac. Qed.
#[local] Hint Resolve agree_recfield : agreedb.

Lemma agree_recfields_loop turns t n :
  agree (recfields_loop expr1 turns t n) (recfields_loop expr2 turns t n).
Proof.
  revert n. induction turns as [|turns IH]; intros n;
    cbn [recfields_loop]; agree_tac.
Qed.
#[local] Hint Resolve agree_recfields_loop : agreedb.

Lemma agree_recfields : agree (recfields expr1 fuel) (recfields expr2 fuel).
Proof. unfold recfields. agree_tac. Qed.
#[local] Hint Resolve agree_recfields : agreedb.

Lemma agree_listfields_loop turns t v n :
  agree (listfields_loop expr1 turns t v n)
    (listfields_loop expr2 turns t v n).
Proof.
  revert v n. induction turns as [|turns IH]; intros v n;
    cbn [listfields_loop]; agree_tac.
Qed.
#[local] Hint Resolve agree_listfields_loop : agreedb.

Lemma agree_listfields : agree (listfields expr1 fuel) (listfields expr2 fuel).
Proof. unfold listfields. agree_tac. Qed.
#[local] Hint Resolve agree_listfields : agreedb.

Lemma agree_constructor_part :
  agree (constructor_part expr1 fuel) (constructor_part expr2 fuel).
Proof. unfold constructor_part. agree_tac. Qed.
#[local] Hint Resolve agree_constructor_part : agreedb.

Lemma agree_constructor_def :
  agree (constructor_def expr1 fuel) (constructor_def expr2 fuel).
Proof. unfold constructor_def. agree_tac. Qed.

Lemma agree_primaryexp v :
  agree (primaryexp body1 constructor1 expr1 v)
    (primaryexp body2 constructor2 expr2 v).
Proof. unfold primaryexp, luaK_error. agree_tac. Qed.
#[local] Hint Resolve agree_primaryexp : agreedb.

Lemma agree_simpleexp_loop turns v :
  agree (simpleexp_loop constructor1 expr1 fuel turns v)
    (simpleexp_loop constructor2 expr2 fuel turns v).
Proof.
  revert v. induction turns as [|turns IH]; intros v;
    cbn [simpleexp_loop]; agree_tac.
Qed.
#[local] Hint Resolve agree_simpleexp_loop : agreedb.

Lemma agree_simpleexp v :
  agree (simpleexp body1 constructor1 expr1 fuel v)
    (simpleexp body2 constructor2 expr2 fuel v).
Proof. unfold simpleexp. agree_tac. Qed.
#[local] Hint Resolve agree_simpleexp : agreedb.

Lemma agree_subexpr_loop sub1 sub2 limit turns op v :
  (forall v limit, agree (sub1 v limit) (sub2 v limit)) ->
  agree (subexpr_loop sub1 limit turns op v)
    (subexpr_loop sub2 limit turns op v).
Proof.
  intros Hsub. revert op v. induction turns as [|turns IH]; intros op v;
    cbn [subexpr_loop]; agree_tac.
Qed.

Lemma agree_subexpr depth v limit :
  agree (subexpr body1 constructor1 expr1 fuel depth v limit)
    (subexpr body2 constructor2 expr2 fuel depth v limit).
Proof.
  revert v limit. induction depth as [|depth IH]; intros v limit;
    cbn [subexpr]; [auto with agreedb|].
  apply agree_bind; [auto with agreedb|]. intros tok.
  apply agree_bind.
  - destruct (is_unopr _); [|auto with agreedb]. agree_tac.
  - intros v1. apply agree_bind; [auto with agreedb|]. intros tok2.
    by apply agree_subexpr_loop.
Qed.
#[local] Hint Resolve agree_subexpr : agreedb.

Lemma agree_expr_def v :
  agree (expr_def body1 constructor1 expr1 fuel v)
    (expr_def body2 constructor2 expr2 fuel v).
Proof. unfold expr_def. agree_tac. Qed.

Lemma agree_block : agree (block chunk1) (block chunk2).
Proof. unfold block. agree_tac. Qed.
#[local] Hint Resolve agree_block : agreedb.

Lemma agree_assignment depth v nvars :
  agree (assignment body1 constructor1 expr1 fuel depth v nvars)
    (assignment body2 constructor2 expr2 fuel depth v nvars).
Proof.
  revert v nvars. induction depth as [|depth IH]; intros v nvars;
    cbn [assignment]; agree_tac.
Qed.
#[local] Hint Resolve agree_assignment : agreedb.

Lemma agree_cond v : agree (cond expr1 v) (cond expr2 v).
Proof. unfold cond. agree_tac. Qed.
#[local] Hint Resolve agree_cond : agreedb.

Lemma agree_whilestat line :
  agree (whilestat chunk1 expr1 line) (whilestat chunk2 expr2 line).
Proof. unfold whilestat. agree_tac. Qed.

Lemma agree_repeatstat line :
  agree (repeatstat chunk1 expr1 line) (repeatstat chunk2 expr2 line).
Proof. unfold repeatstat. agree_tac. Qed.

Lemma agree_forbody nvar prepfor loopfor :
  agree (forbody chunk1 nvar prepfor loopfor)
    (forbody chunk2 nvar prepfor loopfor).
Proof. unfold forbody. agree_tac. Qed.
#[local] Hint Resolve agree_forbody : agreedb.

Lemma agree_fornum varname_ :
  agree (fornum chunk1 expr1 varname_) (fornum chunk2 expr2 varname_).
Proof. unfold fornum. agree_tac. Qed.

Lemma agree_forlist indexname :
  agree (forlist chunk1 expr1 indexname) (forlist chunk2 expr2 indexname).
Proof. unfold forlist. agree_tac. Qed.
#[local] Hint Resolve agree_fornum agree_forlist : agreedb.

Lemma agree_forstat line :
  agree (forstat chunk1 expr1 line) (forstat chunk2 expr2 line).
Proof. unfold forstat, luaK_error. agree_tac. Qed.

Lemma agree_test_then_block v :
  agree (test_then_block chunk1 expr1 v) (test_then_block chunk2 expr2 v).
Proof. unfold test_then_block. agree_tac. Qed.
#[local] Hint Resolve agree_test_then_block : agreedb.

Lemma agree_ifstat_loop turns v escapelist :
  agree (ifstat_loop chunk1 expr1 turns v escapelist)
    (ifstat_loop chunk2 expr2 turns v escapelist).
Proof.
  revert v escapelist. induction turns as [|turns IH]; intros v escapelist;
    cbn [ifstat_loop]; agree_tac.
Qed.
#[local] Hint Resolve agree_ifstat_loop : agreedb.

Lemma agree_ifstat line :
  agree (ifstat chunk1 expr1 fuel line) (ifstat chunk2 expr2 fuel line).
Proof. unfold ifstat. agree_tac. Qed.

Lemma agree_localstat :
  agree (localstat expr1 fuel) (localstat expr2 fuel).
Proof. unfold localstat. agree_tac. Qed.

Lemma agree_funcstat line :
  agree (funcstat body1 fuel line) (funcstat body2 fuel line).
Proof. unfold funcstat. agree_tac. Qed.

Lemma agree_exprstat :
  agree (exprstat body1 constructor1 expr1 fuel)
    (exprstat body2 constructor2 expr2 fuel).
Proof. unfold exprstat. agree_tac. Qed.

Lemma agree_retstat : agree (retstat expr1 fuel) (retstat expr2 fuel).
Proof. unfold retstat. agree_tac. Qed.

#[local] Hint Resolve agree_whilestat agree_repeatstat agree_forstat
  agree_ifstat agree_localstat agree_funcstat agree_exprstat agree_retstat
  : agreedb.

Lemma agree_statement :
  agree (statement body1 chunk1 constructor1 expr1 fuel)
    (statement body2 chunk2 constructor2 expr2 fuel).
Proof. unfold statement. agree_tac. Qed.

End Agreement.

(** ** Function bodies, chunks and the whole grammar *)

Lemma agree_at_bind {A B} p d1 d2 (m1 m2 : P A) (f1 f2 : A -> P B) :
  agree_at p d1 m1 m2 -> (forall a, agree_at (p + d1) d2 (f1 a) (f2 a)) ->
  agree_at p (d1 + d2) (m1 ≫= f1) (m2 ≫= f2).
Proof.
  intros Hm Hf ls Hp. unfold mbind, P_mbind, bind.
  destruct (Hm ls Hp) as [->|[<- Hlen]]; [by left|].
  destruct (m1 ls) as [[a ls']| |] eqn:E; [|by right..].
  specialize (Hlen a ls' eq_refl).
  destruct (Hf a ls') as [->|[<- Hlen']]; [lia|by left|].
  right. split; [done|]. intros b ls'' Hb. rewrite (Hlen' b ls'' Hb). lia.
Qed.

Lemma agree_at_of_agree {A} p (m1 m2 : P A) :
  1 <= p -> agree m1 m2 -> agree_at p 0 m1 m2.
Proof.
  intros Hp Hm ls Hlen.
  destruct (Hm ls) as [->|[<- H]]; [|by left|].
  { destruct (ls_fs ls); simpl in *; [lia|done]. }
  right. split; [done|]. intros a ls' E. rewrite (H a ls' E). lia.
Qed.

Lemma agree_of_agree_at {A} (m1 m2 : P A) :
  agree_at 1 0 m1 m2 -> agree m1 m2.
Proof.
  intros Hm ls Hne.
  destruct (Hm ls) as [->|[<- H]]; [|by left|].
  { destruct (ls_fs ls); simpl in *; [done|lia]. }
  right. split; [done|]. intros a ls' E. specialize (H a ls' E). lia.
Qed.

Lemma agree_at_open_func p : agree_at p 1 open_func open_func.
Proof.
  intros ls Hp. right. split; [done|]. unfold open_func.
  intros a ls' [= _ <-]. simpl. lia.
Qed.

Lemma agree_at_close_func p :
  1 <= p -> agree_at p (-1) close_func close_func.
Proof.
  intros Hp1. unfold close_func.
  change (-1) with (0 + (0 + (0 + (0 + (0 + (0 + -1)))))).
  apply agree_at_bind; [apply agree_at_of_agree; [lia|auto with agreedb]|].
  intros fs.
  apply agree_at_bind; [apply agree_at_of_agree; [lia|auto with agreedb]|].
  intros _.
  apply agree_at_bind; [apply agree_at_of_agree; [lia|auto with agreedb]|].
  intros _.
  apply agree_at_bind; [apply agree_at_of_agree; [lia|auto with agreedb]|].
  intros fs1.
  apply agree_at_bind; [apply agree_at_of_agree; [lia|auto with agreedb]|].
  intros _.
  apply agree_at_bind; [apply agree_at_of_agree; [lia|auto with agreedb]|].
  intros fs2.
  intros ls Hp. right. split; [done|].
  unfold get, put. unfold mbind, P_mbind, bind. simpl.
  intros a ls' [= _ <-]. simpl.
  destruct (ls_fs ls); simpl in *; lia.
Qed.

Lemma agree_assert {A} (c : FuncState -> bool) (m1 m2 : P A) :
  agree m1 m2 -> agree (fs ← getfs; lua_assert (c fs);; m1) m2.
Proof.
  intros Hm ls Hne. unfold getfs, lua_assert.
  unfold mbind, P_mbind, bind.
  destruct (ls_fs ls) as [|fs prev] eqn:E; [done|].
  assert (Hne' : ls_fs ls <> []) by (by rewrite E).
  destruct (c fs); simpl; [|by left].
  destruct (Hm ls Hne') as [->|[<- H]]; [by left|].
  right. split; [done|]. by rewrite E in H.
Qed.

Section AgreementKnot.

Variables body1 body2 : Z -> Z -> P unit.
Variables chunk1 chunk2 : P unit.
Variables constructor1 constructor2 : P unit.
Variables expr1 expr2 : expdesc -> P expdesc.
Variable fuel : nat.

Hypothesis Hb : forall needself line,
  agree (body1 needself line) (body2 needself line).
Hypothesis Hk : agree chunk1 chunk2.
Hypothesis Hc : agree constructor1 constructor2.
Hypothesis He : forall v, agree (expr1 v) (expr2 v).

Lemma agree_body_def needself line :
  agree (body_def chunk1 fuel needself line)
    (body_def chunk2 fuel needself line).
Proof.
  apply agree_of_agree_at. unfold body_def.
  change 0 with (1 + (0 + (0 + (0 + (0 + (0 + (0 + (0 + (0 + (-1 + 0)))))))))).
  apply agree_at_bind; [apply agree_at_open_func|]. intros _.
  apply agree_at_bind; [apply agree_at_of_agree; [lia|auto with agreedb]|].
  intros fs.
  apply agree_at_bind; [apply agree_at_of_agree; [lia|auto with agreedb]|].
  intros _.
  apply agree_at_bind; [apply agree_at_of_agree; [lia|auto with agreedb]|].
  intros _.
  apply agree_at_bind.
  { apply agree_at_of_agree; [lia|]. destruct (negb _); agree_tac. }
  intros _.
  apply agree_at_bind; [apply agree_at_of_agree; [lia|auto with agreedb]|].
  intros _.
  apply agree_at_bind; [apply agree_at_of_agree; [lia|auto with agreedb]|].
  intros _.
  apply agree_at_bind; [apply agree_at_of_agree; [lia|exact Hk]|].
  intros _.
  apply agree_at_bind; [apply agree_at_of_agree; [lia|auto with agreedb]|].
  intros _.
  apply agree_at_bind; [apply agree_at_close_func; lia|]. intros new_fs.
  apply agree_at_of_agree; [lia|auto with agreedb].
Qed.

Lemma agree_chunk_loop turns islast :
  agree (chunk_loop_assert body1 chunk1 constructor1 expr1 fuel turns islast)
    (chunk_loop body2 chunk2 constructor2 expr2 fuel turns islast).
Proof.
  revert islast. induction turns as [|turns IH]; intros islast;
    cbn [chunk_loop_assert chunk_loop]; [apply agree_timeout|].
  apply agree_bind; [auto with agreedb|]. intros tok.
  destruct (_ && _); [|apply agree_ret].
  apply agree_bind; [by apply agree_statement|]. intros islast'.
  apply agree_bind; [auto with agreedb|]. intros _.
  apply (agree_assert (fun fs => fs_stacklevel fs =? fs_nactloc fs)), IH.
Qed.

End AgreementKnot.

Lemma agree_grammar fuel :
  (forall needself line,
     agree (g_body (grammar_assert fuel) needself line)
       (g_body (grammar fuel) needself line))
  /\ agree (g_chunk (grammar_assert fuel)) (g_chunk (grammar fuel))
  /\ agree (g_constructor (grammar_assert fuel)) (g_constructor (grammar fuel))
  /\ (forall v, agree (g_expr (grammar_assert fuel) v)
                  (g_expr (grammar fuel) v)).
Proof.
  induction fuel as [|fuel (IHb & IHk & IHc & IHe)].
  { split_and!; intros; apply agree_timeout. }
  cbn [grammar_assert grammar g_body g_chunk g_constructor g_expr].
  split_and!.
  - intros. by apply agree_body_def.
  - by apply agree_chunk_loop.
  - by apply agree_constructor_def.
  - intros. by apply agree_expr_def.
Qed.

(** The two parsers return the same, unless the assertion fails. *)
Lemma parser_assert_agree fuel L z zname :
  luaY_parser_assert fuel L z zname = Err E_assert
  \/ luaY_parser_assert fuel L z zname = luaY_parser fuel L z zname.
Proof.
  destruct (agree_grammar fuel) as (_ & Hk & _ & _).
  assert (H : agree_at 0 0
            (open_func;;
             next;;
             g_chunk (grammar_assert fuel);;
             tok ← token;
             check_condition (tok =? TK_EOS) "<eof> expected";;
             funcstate ← close_func;
             mret (fs_f funcstate))
            (open_func;;
             next;;
             g_chunk (grammar fuel);;
             tok ← token;
             check_condition (tok =? TK_EOS) "<eof> expected";;
             funcstate ← close_func;
             mret (fs_f funcstate))).
  { change 0 with (1 + (0 + (0 + (0 + (0 + (-1 + 0)))))) at 2.
    apply agree_at_bind; [apply agree_at_open_func|]. intros _.
    apply agree_at_bind; [apply agree_at_of_agree; [lia|auto with agreedb]|].
    intros _.
    apply agree_at_bind; [apply agree_at_of_agree; [lia|exact Hk]|].
    intros _.
    apply agree_at_bind; [apply agree_at_of_agree; [lia|auto with agreedb]|].
    intros tok.
    apply agree_at_bind; [apply agree_at_of_agree; [lia|auto with agreedb]|].
    intros _.
    apply agree_at_bind; [apply agree_at_close_func; lia|].
    intros funcstate. intros ls Hp. right. split; [done|].
    intros a ls' [= _ <-]. lia. }
  unfold luaY_parser_assert, luaY_parser. cbv zeta.
  destruct (H (luaX_setinput L z zname)) as [E|[E _]]; [simpl; lia| |].
  - left. by rewrite E.
  - right. by rewrite E.
Qed.

(** * Statement boundaries *)

(** A program with a table constructor, a method call, a loop with a
    break and a local function: the parser with the assertion compiled in
    accepts it and returns what the parser without it returns. *)
Lemma parser_assert_example :
  luaY_parser_assert 12 ∅ z_boundaries "t" = luaY_parser 12 ∅ z_boundaries "t"
  /\ exists f, luaY_parser 12 ∅ z_boundaries "t" = Ok f.
Proof. split; [by vm_compute|]. eexists. by vm_compute. Qed.

Lemma parser_assert_holds fuel L z zname :
  luaY_parser_assert fuel L z zname <> Err E_assert.
Proof.
  unfold luaY_parser_assert. cbv zeta.
  pose proof (parser_assert_htriple fuel (luaX_setinput L z zname) eq_refl)
    as H.
  destruct ((open_func;; _) (luaX_setinput L z zname)) as [[f ls']|e|];
    simpl; congruence.
Qed.

(** C4: at every statement boundary the symbolic stack level equals the
    number of active locals.  With the assertion
    [lua_assert(ls->fs->stacklevel == ls->fs->nactloc)] that ends each
    turn of the loop of [chunk] compiled in, no compilation fails it,
    whatever the tokens and the fuel, and the parser returns what it
    returns without the assertion; and each statement of a block, with its
    optional semicolon, takes a state where the stack level is the number
    of active locals to another such state, in every function being
    compiled. *)
Theorem stacklevel_is_nactloc_at_boundaries :
  (forall fuel L z zname,
     luaY_parser_assert fuel L z zname <> Err E_assert
     /\ luaY_parser_assert fuel L z zname = luaY_parser fuel L z zname)
  /\ (forall fuel fuel' N c0,
        boundary N c0 ->
        triple c0
          (islast ← statement (g_body (grammar_assert fuel))
                      (g_chunk (grammar_assert fuel))
                      (g_constructor (grammar_assert fuel))
                      (g_expr (grammar_assert fuel)) fuel';
           optional (l_c ";");;
           mret islast)
          (fun _ c => c_sl c = c_na c /\ boundary N c)).
Proof.
  split.
  - intros fuel L z zname.
    pose proof (parser_assert_holds fuel L z zname) as H.
    split; [done|]. by destruct (parser_assert_agree fuel L z zname).
  - intros fuel fuel' N c0 Hb.
    destruct (grammar_assert_spec fuel) as (Hbody & Hchunk & Hcons & Hexpr).
    eapply triple_bind.
    + by apply (statement_spec _ _ _ _ fuel' Hbody Hchunk Hcons Hexpr c0 N).
    + intros islast c1 Hb1. cbv beta.
      eapply triple_bind; [apply neutral_triple, neutral_optional|].
      intros ? ? ->. apply triple_ret. split; [|done].
      by destruct Hb1 as (_&_&?).
Qed.

(** * Further properties of the parser *)

(** ** The lexer driver *)

(** X1.  Peeking loses no token.  With no token held as look-ahead and an
    input whose first token is [it], [lookahead] followed by [next] makes
    [it] the current token, as [next] alone does, with the same input
    left, the same line number and the look-ahead buffer empty again.
    Only [lastline] differs: it is the line of [it] itself after the
    peek, the line before [it] was read otherwise. *)
Theorem peek_then_next (ls : LexState) (it : LexItem) (z : list LexItem) :
  tk_token (ls_lookahead ls) = TK_EOS ->
  ls_z ls = it :: z ->
  tk_token (lx_token it) <> TK_EOS ->
  exists ls1 ls2,
    (lookahead;; next) ls = Ok (tt, ls1)
    /\ next ls = Ok (tt, ls2)
    /\ ls_t ls1 = lx_token it /\ ls_t ls2 = lx_token it
    /\ ls_z ls1 = z /\ ls_z ls2 = z
    /\ ls_linenumber ls1 = lx_line it /\ ls_linenumber ls2 = lx_line it
    /\ tk_token (ls_lookahead ls1) = TK_EOS
    /\ tk_token (ls_lookahead ls2) = TK_EOS
    /\ ls_fs ls1 = ls_fs ls /\ ls_fs ls2 = ls_fs ls
    /\ ls_lastline ls1 = lx_line it
    /\ ls_lastline ls2 = ls_linenumber ls.
Proof.
  intros Hla Hz Htok.
  unfold mbind, P_mbind, bind, lookahead, next, luaX_lex. simpl.
  rewrite Hz. simpl.
  apply Z.eqb_neq in Htok. rewrite Htok. simpl.
  rewrite (proj2 (Z.eqb_eq _ _) Hla). simpl. rewrite ?Hz.
  eexists _, _. split_and!; try reflexivity. exact Hla.
Qed.

Lemma peek_then_next_witness :
  exists ls1 ls2,
    (lookahead;; next) (luaX_setinput ∅ [NAME "a" 1; C "=" 2] "chunk")
      = Ok (tt, ls1)
    /\ next (luaX_setinput ∅ [NAME "a" 1; C "=" 2] "chunk") = Ok (tt, ls2)
    /\ ls_t ls1 = ls_t ls2
    /\ ls_z ls1 = ls_z ls2
    /\ ls_lastline ls1 = 1 /\ ls_lastline ls2 = 1.
Proof.
  destruct (peek_then_next (luaX_setinput ∅ [NAME "a" 1; C "=" 2] "chunk")
              (NAME "a" 1) [C "=" 2] eq_refl eq_refl)
    as (ls1 & ls2 & H1 & H2 & Ht1 & Ht2 & Hz1 & Hz2 & _ & _ & _ & _ & _ & _
        & Hl1 & Hl2).
  { vm_compute. discriminate. }
  exists ls1, ls2. split_and!; try done; congruence.
Defined.

(** ** Constants and local variables *)

Section Constants.
Context {cfg : Config}.


End Constants.


Section Locals.
Context {cfg : Config}.

(** What declaring one local and activating it does to the state: the
    record is registered under the next index, the next slot names it,
    and the slot becomes active. *)
Lemma declare_activate_inv ls fs prev name ls' :
  ls_fs ls = fs :: prev ->
  (new_localvar name 0;; adjustlocalvars 1) ls = Ok (tt, ls') ->
  exists size,
    ls' = set_ls_fs ls
            (adjustlocalvars_step
               (set_fs_actloc
                  (set_fs_f (set_fs_nlocvars fs (fs_nlocvars fs + 1))
                     (set_f_locvars (set_f_sizelocvars (fs_f fs) size)
                        (<[fs_nlocvars fs :=
                             mkLocVar name
                               (startpc (default (mkLocVar ""%string 0 0)
                                  (f_locvars (fs_f fs) !! fs_nlocvars fs)))
                               (endpc (default (mkLocVar ""%string 0 0)
                                  (f_locvars (fs_f fs) !! fs_nlocvars fs)))]>
                           (f_locvars (fs_f fs)))))
                  (<[fs_nactloc fs + 0 := fs_nlocvars fs]> (fs_actloc fs)))
             :: prev).
Proof.
  intros Hfs H. binv H as [] ls1 Hn.
  unfold new_localvar in Hn.
  binv Hn as fs0 ls0 Hg. apply getfs_inv in Hg as (-> & prev0 & Hfs0).
  rewrite Hfs in Hfs0. injection Hfs0 as <- <-.
  binv Hn as [] ls2 Hlim. apply luaX_checklimit_inv in Hlim as [_ ->].
  binv Hn as reg ls2 Hreg. unfold luaI_registerlocalvar in Hreg.
  binv Hreg as fs1 ls3 Hg. apply getfs_inv in Hg as (-> & prev1 & Hfs1).
  rewrite Hfs in Hfs1. injection Hfs1 as <- <-.
  binv Hreg as size ls4 Hsize.
  assert (ls4 = ls) as ->.
  { destruct (luaM_growvector _ _ _ _); simpl in Hsize; by simplify_eq. }
  binv Hreg as [] ls5 Hput. apply mret_inv in Hreg as [-> ->].
  apply putfs_inv in Hput as (old & prev2 & Hold & ->).
  rewrite Hfs in Hold. injection Hold as <- <-.
  binv Hn as fs2 ls6 Hg. apply getfs_inv in Hg as (-> & prev3 & Hfs3).
  simpl in Hfs3. injection Hfs3 as <- <-.
  apply putfs_inv in Hn as (old & prev4 & Hold & ->).
  simpl in Hold. injection Hold as <- <-.
  unfold adjustlocalvars in H.
  binv H as fs3 ls7 Hg. apply getfs_inv in Hg as (-> & prev5 & Hfs5).
  simpl in Hfs5. injection Hfs5 as <- <-.
  apply putfs_inv in H as (old & prev6 & Hold & ->).
  simpl in Hold. injection Hold as <- <-.
  exists size. reflexivity.
Qed.

(** X3.  A local that is declared and activated resolves to its slot.
    In a function with [nactloc >= 0] active locals, after
    [new_localvar name 0] and [adjustlocalvars 1] the name resolves, as a
    variable, to [VLOCAL] with the slot [nactloc] it was given (whatever
    locals of that name were active before: the new one shadows them);
    its record is the one registered last, holds the name, and has the
    current [pc] as [startpc]. *)
Theorem declared_local_resolves (ls : LexState) (fs : FuncState)
    (prev : list FuncState) (name : TString) (v : expdesc)
    (ls' : LexState) :
  ls_fs ls = fs :: prev ->
  0 <= fs_nactloc fs ->
  (new_localvar name 0;; adjustlocalvars 1) ls = Ok (tt, ls') ->
  singlevar name v ls'
  = Ok (set_u_index (set_k v VLOCAL) (fs_nactloc fs), ls')
  /\ exists fs' lv,
      ls_fs ls' = fs' :: prev
      /\ fs_nactloc fs' = fs_nactloc fs + 1
      /\ fs_actloc fs' !! fs_nactloc fs = Some (fs_nlocvars fs)
      /\ fs_nlocvars fs' = fs_nlocvars fs + 1
      /\ f_locvars (fs_f fs') !! fs_nlocvars fs = Some lv
      /\ varname lv = name /\ startpc lv = fs_pc fs.
Proof.
  intros Hfs Hna H.
  destruct (declare_activate_inv _ _ _ _ _ Hfs H) as [size ->].
  rewrite Z.add_0_r.
  set (lv0 := default _ _).
  match goal with
  | |- context [set_ls_fs ls (?x :: prev)] => set (fs' := x)
  end.
  assert (fs_nactloc fs' = fs_nactloc fs + 1) as Hna'.
  { unfold fs', adjustlocalvars_step, alter_locvar. simpl.
    by rewrite lookup_insert_eq. }
  assert (fs_actloc fs' !! fs_nactloc fs = Some (fs_nlocvars fs)) as Ha.
  { unfold fs', adjustlocalvars_step, alter_locvar. simpl.
    rewrite lookup_insert_eq. simpl. by rewrite lookup_insert_eq. }
  assert (f_locvars (fs_f fs') !! fs_nlocvars fs
          = Some (mkLocVar name (fs_pc fs) (endpc lv0))) as Hlv.
  { unfold fs', adjustlocalvars_step, alter_locvar. simpl.
    rewrite lookup_insert_eq. simpl.
    by rewrite lookup_alter_eq, lookup_insert_eq. }
  split.
  - rewrite singlevar_eq. unfold search_local. simpl ls_fs.
    cbn [search_chain]. rewrite Hna'.
    replace (Z.to_nat (fs_nactloc fs + 1)) with (S (Z.to_nat (fs_nactloc fs)))
      by lia.
    cbn [search_actloc]. rewrite Z2Nat.id by done.
    rewrite bool_decide_eq_true_2; [done|].
    unfold actloc_name. rewrite Ha. simpl. by rewrite Hlv.
  - exists fs', (mkLocVar name (fs_pc fs) (endpc lv0)).
    split_and!; try done.
    unfold fs', adjustlocalvars_step, alter_locvar. simpl.
    by rewrite lookup_insert_eq.
Qed.

(** Deactivation: [count] turns of the loop of [removelocalvars] make the
    last [count] slots inactive and give their records the current [pc]
    as [endpc]; no slot and no name changes. *)
Lemma removelocalvars_iter fs count :
  let fs' := Nat.iter count removelocalvars_step fs in
  fs_nactloc fs' = fs_nactloc fs - Z.of_nat count
  /\ fs_pc fs' = fs_pc fs
  /\ fs_actloc fs' = fs_actloc fs
  /\ (forall a, varname <$> f_locvars (fs_f fs') !! a
                = varname <$> f_locvars (fs_f fs) !! a)
  /\ forall j a lv,
      fs_nactloc fs - Z.of_nat count <= j < fs_nactloc fs ->
      fs_actloc fs !! j = Some a ->
      f_locvars (fs_f fs') !! a = Some lv ->
      endpc lv = fs_pc fs.
Proof.
  induction count as [|count IH]; simpl.
  { split_and!; try done; [lia|]. intros j a lv ?; lia. }
  destruct IH as (Hn & Hp & Ha & Hv & Hs).
  set (fsk := Nat.iter count removelocalvars_step fs) in *.
  unfold removelocalvars_step, alter_locvar. simpl.
  destruct (fs_actloc fsk !! (fs_nactloc fsk - 1)) as [ak|] eqn:Hak; simpl.
  - split_and!; try done; [lia| |].
    + intros a. rewrite <- Hv.
      destruct (decide (a = ak)) as [->|Hne].
      * rewrite lookup_alter_eq. by destruct (f_locvars (fs_f fsk) !! ak).
      * by rewrite lookup_alter_ne.
    + intros j a lv Hj Hja.
      destruct (decide (a = ak)) as [->|Hne].
      * rewrite lookup_alter_eq.
        destruct (f_locvars (fs_f fsk) !! ak); [|done].
        intros [= <-]. simpl. done.
      * rewrite lookup_alter_ne by done. intros Hlv.
        apply (Hs j a lv); [|done|done].
        destruct (decide (j = fs_nactloc fs - Z.of_nat count - 1)) as [->|];
          [|lia].
        rewrite Ha, Hn in Hak. congruence.
  - split_and!; try done; [lia|]. intros j a lv Hj Hja Hlv.
    apply (Hs j a lv); [|done|done].
    destruct (decide (j = fs_nactloc fs - Z.of_nat count - 1)) as [->|];
      [|lia].
    rewrite Ha, Hn in Hak. congruence.
Qed.

Lemma actloc_name_names fs fs' i :
  fs_actloc fs' !! i = fs_actloc fs !! i ->
  (forall a, varname <$> f_locvars (fs_f fs') !! a
             = varname <$> f_locvars (fs_f fs) !! a) ->
  actloc_name fs' i = actloc_name fs i.
Proof.
  intros Ha Hv. unfold actloc_name. rewrite Ha.
  destruct (fs_actloc fs !! i) as [a|]; [|done]. simpl.
  specialize (Hv a).
  destruct (f_locvars (fs_f fs') !! a), (f_locvars (fs_f fs) !! a);
    simpl in *; congruence.
Qed.

Lemma search_actloc_names fs fs' n c :
  (forall i, 0 <= i < Z.of_nat c -> actloc_name fs' i = actloc_name fs i) ->
  search_actloc fs' n c = search_actloc fs n c.
Proof.
  induction c as [|c IH]; [done|]. intros H. simpl.
  rewrite H by lia. rewrite IH; [done|]. intros i ?. apply H. lia.
Qed.

(** X4.  Leaving a scope hides its locals and nothing else.  When
    [removelocalvars n] removes [n] of the active locals of a function,
    the locals that are active afterwards are exactly the active locals
    below slot [nactloc - n], under the same names, and the record of
    each removed slot gets the current [pc] as [endpc]. *)
Theorem removelocalvars_scope (ls : LexState) (fs : FuncState)
    (prev : list FuncState) (n : Z) (ls' : LexState) :
  ls_fs ls = fs :: prev ->
  0 <= n <= fs_nactloc fs ->
  removelocalvars n ls = Ok (tt, ls') ->
  exists fs',
    ls_fs ls' = fs' :: prev
    /\ fs_nactloc fs' = fs_nactloc fs - n
    /\ (forall name i,
          active_in fs' name i <->
          active_in fs name i /\ i < fs_nactloc fs - n)
    /\ (forall j a lv,
          fs_nactloc fs - n <= j < fs_nactloc fs ->
          fs_actloc fs !! j = Some a ->
          f_locvars (fs_f fs') !! a = Some lv ->
          endpc lv = fs_pc fs).
Proof.
  intros Hfs Hn H. unfold removelocalvars in H.
  binv H as fs0 ls0 Hg. apply getfs_inv in Hg as (-> & prev0 & Hfs0).
  rewrite Hfs in Hfs0. injection Hfs0 as <- <-.
  apply putfs_inv in H as (old & prev' & Hold & ->).
  rewrite Hfs in Hold. injection Hold as <- <-.
  destruct (removelocalvars_iter fs (Z.to_nat n)) as (Hna & _ & Ha & Hv & Hs).
  rewrite Z2Nat.id in Hna, Hs by lia.
  eexists. split; [reflexivity|]. split; [done|]. split; [|done].
  intros name i. unfold active_in. rewrite Hna.
  rewrite (actloc_name_names fs _ i); [|by rewrite Ha|done].
  intuition lia.
Qed.

End Locals.

Lemma declared_local_resolves_witness :
  singlevar (cfg := Writer.config) "y" expdesc_auto
    (after (new_localvar (cfg := Writer.config) "y" 0;;
            adjustlocalvars 1) ls_x_x)
  = Ok (mkexpdesc VLOCAL 2 0 0,
        after (new_localvar (cfg := Writer.config) "y" 0;;
               adjustlocalvars 1) ls_x_x).
Proof.
  apply (proj1 (declared_local_resolves (cfg := Writer.config)
                  ls_x_x fs_x_x [] "y" expdesc_auto _ eq_refl
                  ltac:(simpl; lia) eq_refl)).
Defined.

Lemma removelocalvars_scope_witness :
  exists fs',
    ls_fs (after (removelocalvars 1) ls_x_x) = [fs']
    /\ fs_nactloc fs' = 1
    /\ active_in fs' "x" 0 /\ ~ active_in fs' "x" 1.
Proof.
  destruct (removelocalvars_scope ls_x_x fs_x_x [] 1
              (after (removelocalvars 1) ls_x_x) eq_refl
              ltac:(simpl; lia) eq_refl)
    as (fs' & Hfs & Hna & Hact & _).
  exists fs'. split_and!; [done|done| |].
  - apply Hact. split; [|simpl; lia].
    split; [simpl; lia|reflexivity].
  - intros H. apply Hact in H as [_ H]. simpl in H. lia.
Defined.

(** ** Upvalue indices *)

(** The loop of [indexupvalue] over one more entry, and over entries that
    are the same. *)

Lemma indexupvalue_loop_snoc fs v i count :
  indexupvalue_loop fs v i (S count) =
    match indexupvalue_loop fs v i count with
    | Some j => Some j
    | None => indexupvalue_loop fs v (i + Z.of_nat count) 1
    end.
Proof.
  revert i. induction count as [|count IH]; intros i.
  { simpl. by rewrite Z.add_0_r. }
  cbn [indexupvalue_loop] in *.
  destruct (fs_upvalues fs !! i) as [u|].
  - destruct (_ && _); [done|]. rewrite IH.
    by replace (i + 1 + Z.of_nat count) with (i + Z.of_nat (S count)) by lia.
  - rewrite IH.
    by replace (i + 1 + Z.of_nat count) with (i + Z.of_nat (S count)) by lia.
Qed.

Lemma indexupvalue_loop_ext fs fs' v v' i count :
  (forall j, i <= j < i + Z.of_nat count ->
             fs_upvalues fs' !! j = fs_upvalues fs !! j) ->
  k v' = k v -> u_index v' = u_index v ->
  indexupvalue_loop fs' v' i count = indexupvalue_loop fs v i count.
Proof.
  intros H Hk Hi. revert i H.
  induction count as [|count IH]; intros i H; [done|]. simpl.
  rewrite H by lia. rewrite Hk, Hi.
  rewrite IH; [done|]. intros j ?. apply H. lia.
Qed.

Section UpvalueIndex.
Context {cfg : Config}.

Lemma indexupvalue_eq v ls fs prev :
  ls_fs ls = fs :: prev ->
  indexupvalue v ls =
    match indexupvalue_loop fs v 0 (Z.to_nat (f_nupvalues (fs_f fs))) with
    | Some i => Ok (i, ls)
    | None =>
        if f_nupvalues (fs_f fs) + 1 >? MAXUPVALUES
        then Err (E_limit "upvalues" MAXUPVALUES)
        else Ok (f_nupvalues (fs_f fs),
                 set_ls_fs ls
                   (set_fs_f
                      (set_fs_upvalues fs
                         (<[f_nupvalues (fs_f fs) := v]> (fs_upvalues fs)))
                      (set_f_nupvalues (fs_f fs) (f_nupvalues (fs_f fs) + 1))
                    :: prev))
    end.
Proof.
  intros Hfs. unfold indexupvalue, mbind, P_mbind, bind, getfs.
  rewrite Hfs. destruct (indexupvalue_loop _ _ _ _); [done|].
  unfold luaX_checklimit, throw. destruct (_ >? _); [done|].
  unfold mret, P_mret, ret, putfs. by rewrite Hfs.
Qed.

(** X5.  The index of an upvalue is stable and belongs to that upvalue
    alone.  In a function with [nupvalues >= 0], once [indexupvalue] has
    returned [i] for a descriptor, asking again for a descriptor of the
    same kind and index returns [i] and changes nothing (no duplicate is
    added); asking for a descriptor of another kind or index returns
    another index. *)
Theorem indexupvalue_stable (ls : LexState) (fs : FuncState)
    (prev : list FuncState) (v v' : expdesc) (i : Z) (ls1 : LexState)
    (i' : Z) (ls2 : LexState) :
  ls_fs ls = fs :: prev ->
  0 <= f_nupvalues (fs_f fs) ->
  indexupvalue v ls = Ok (i, ls1) ->
  indexupvalue v' ls1 = Ok (i', ls2) ->
  (k v' = k v /\ u_index v' = u_index v -> i' = i /\ ls2 = ls1)
  /\ (~ (k v' = k v /\ u_index v' = u_index v) -> i' <> i).
Proof.
  intros Hfs Hn H1 H2. rewrite (indexupvalue_eq _ _ _ _ Hfs) in H1.
  destruct (indexupvalue_loop fs v 0 _) as [j|] eqn:Hl.
  - injection H1 as <- <-. rewrite (indexupvalue_eq _ _ _ _ Hfs) in H2.
    split.
    + intros [Hk' Hi'].
      rewrite (indexupvalue_loop_ext fs fs v v' 0 _ ltac:(done) Hk' Hi'), Hl
        in H2.
      by injection H2 as <- <-.
    + intros Hne ->.
      apply indexupvalue_loop_Some in Hl as (Hj & u & Hu & Hk & Hi).
      destruct (indexupvalue_loop fs v' 0 _) as [j'|] eqn:Hl'.
      * injection H2 as <- <-.
        apply indexupvalue_loop_Some in Hl' as (_ & u' & Hu' & Hk' & Hi').
        apply Hne. split; congruence.
      * destruct (_ >? _); [done|]. injection H2 as <- <-. lia.
  - destruct (_ >? _); [done|]. injection H1 as <- <-.
    set (n := f_nupvalues (fs_f fs)) in *.
    erewrite indexupvalue_eq in H2 by reflexivity. simpl in H2.
    replace (Z.to_nat (n + 1)) with (S (Z.to_nat n)) in H2 by lia.
    split.
    + intros [Hk' Hi'].
      rewrite indexupvalue_loop_snoc in H2.
      rewrite (indexupvalue_loop_ext fs _ v v' 0 (Z.to_nat n)) in H2;
        [|by intros j ?; simpl; rewrite lookup_insert_ne by lia|done..].
      rewrite Hl in H2. rewrite Z.add_0_l, Z2Nat.id in H2 by done.
      simpl in H2. rewrite lookup_insert_eq in H2.
      rewrite bool_decide_eq_true_2 in H2 by done.
      rewrite (proj2 (Z.eqb_eq _ _)) in H2 by done.
      by injection H2 as <- <-.
    + intros Hne ->.
      destruct (indexupvalue_loop _ v' 0 _) as [j'|] eqn:Hl'.
      * injection H2 as <- <-.
        apply indexupvalue_loop_Some in Hl' as (_ & u' & Hu' & Hk' & Hi').
        simpl in Hu'. rewrite lookup_insert_eq in Hu'.
        injection Hu' as <-. by apply Hne.
      * destruct (_ >? _); [done|]. injection H2 as ? _. lia.
Qed.
End UpvalueIndex.

Lemma indexupvalue_stable_witness :
  let ls1 := after (indexupvalue (cfg := Writer.config)
                      (mkexpdesc VLOCAL 0 0 0)) ls_nested in
  (k (mkexpdesc VLOCAL 0 5 7) = k (mkexpdesc VLOCAL 0 0 0)
   /\ u_index (mkexpdesc VLOCAL 0 5 7) = u_index (mkexpdesc VLOCAL 0 0 0) ->
   0 = 0 /\ ls1 = ls1)
  /\ (~ (k (mkexpdesc VLOCAL 0 5 7) = k (mkexpdesc VLOCAL 0 0 0)
         /\ u_index (mkexpdesc VLOCAL 0 5 7)
            = u_index (mkexpdesc VLOCAL 0 0 0)) ->
      0 <> 0).
Proof.
  apply (indexupvalue_stable (cfg := Writer.config) ls_nested fs_new
           [fs_x_x] (mkexpdesc VLOCAL 0 0 0) (mkexpdesc VLOCAL 0 5 7)).
  - reflexivity.
  - simpl. lia.
  - vm_compute. reflexivity.
  - vm_compute. reflexivity.
Defined.

(** ** Closing a function *)

(** A vector cut to [n] elements holds nothing from [n] on and what it
    held below. *)
Lemma luaM_reallocvector_beyond {A} (v : gmap Z A) (n i : Z) :
  n <= i -> luaM_reallocvector v n !! i = None.
Proof.
  intros Hi. unfold luaM_reallocvector.
  apply map_lookup_filter_None. right. intros x _. simpl. lia.
Qed.

Lemma luaM_reallocvector_below {A} (v : gmap Z A) (n i : Z) :
  i < n -> luaM_reallocvector v n !! i = v !! i.
Proof.
  intros Hi. unfold luaM_reallocvector.
  destruct (v !! i) as [x|] eqn:E.
  - by apply map_lookup_filter_Some.
  - apply map_lookup_filter_None. by left.
Qed.

Section CloseFunc.
Context {cfg : Config} {emt : Emitter}.

(** What [close_func] returns, from the state [fs] of the function once
    its final [RETURN] is written and its locals are removed. *)
Lemma close_func_inv ls fs' ls' :
  close_func ls = Ok (fs', ls') ->
  exists fs prev,
    ls_fs ls' = prev /\ tail (ls_fs ls) = prev
    /\ fs_pc fs' = fs_pc fs /\ fs_nkstr fs' = fs_nkstr fs
    /\ fs_nknum fs' = fs_nknum fs /\ fs_nkproto fs' = fs_nkproto fs
    /\ fs_nlocvars fs' = fs_nlocvars fs
    /\ fs_nlineinfo fs' = fs_nlineinfo fs + 1
    /\ f_code (fs_f fs') = luaM_reallocvector (f_code (fs_f fs)) (fs_pc fs)
    /\ f_kstr (fs_f fs') = luaM_reallocvector (f_kstr (fs_f fs)) (fs_nkstr fs)
    /\ f_knum (fs_f fs') = luaM_reallocvector (f_knum (fs_f fs)) (fs_nknum fs)
    /\ f_kproto (fs_f fs')
       = luaM_reallocvector (f_kproto (fs_f fs)) (fs_nkproto fs)
    /\ f_locvars (fs_f fs')
       = luaM_reallocvector (f_locvars (fs_f fs)) (fs_nlocvars fs)
    /\ f_lineinfo (fs_f fs')
       = <[fs_nlineinfo fs := MAX_INT]>
           (luaM_reallocvector (f_lineinfo (fs_f fs)) (fs_nlineinfo fs + 1))
    /\ f_sizecode (fs_f fs') = fs_pc fs
    /\ f_sizekstr (fs_f fs') = fs_nkstr fs
    /\ f_sizeknum (fs_f fs') = fs_nknum fs
    /\ f_sizekproto (fs_f fs') = fs_nkproto fs
    /\ f_sizelocvars (fs_f fs') = fs_nlocvars fs
    /\ f_sizelineinfo (fs_f fs') = fs_nlineinfo fs + 1.
Proof.
  intros H. unfold close_func in H.
  binv H as fs0 ls0 Hg. apply getfs_inv in Hg as (-> & prev & Hfs).
  binv H as pc ls1 He1.
  apply emit_inv in He1 as (fs0' & prev0 & fs1 & Hfs0 & _ & ->).
  rewrite Hfs in Hfs0. injection Hfs0 as <- <-.
  binv H as l ls2 He2.
  apply emit_inv in He2 as (fs1' & prev1 & fs2 & Hfs1 & _ & ->).
  simpl in Hfs1. injection Hfs1 as <- <-.
  binv H as fs2' ls3 Hg. apply getfs_inv in Hg as (-> & prev2 & Hfs2).
  simpl in Hfs2. injection Hfs2 as <- <-.
  binv H as [] ls4 Hr. unfold removelocalvars in Hr.
  binv Hr as fs2' ls5 Hg. apply getfs_inv in Hg as (-> & prev2 & Hfs2).
  simpl in Hfs2. injection Hfs2 as <- <-.
  apply putfs_inv in Hr as (old & prev3 & Hold & ->).
  simpl in Hold. injection Hold as <- <-.
  binv H as fs3 ls6 Hg. apply getfs_inv in Hg as (-> & prev4 & Hfs4).
  simpl in Hfs4. injection Hfs4 as <- <-.
  binv H as ls7 ls8 Hget. injection Hget as <- <-.
  binv H as [] ls9 Hput. injection Hput as <-.
  apply mret_inv in H as [-> ->].
  eexists _, prev. split; [done|]. split; [by rewrite Hfs|].
  simpl. split_and!; reflexivity.
Qed.

(** X6.  A closed function has vectors of exactly the sizes used.  When
    [close_func] returns, the function state it closed is off the chain of
    functions being compiled, and in its prototype each of the vectors
    [code], [kstr], [knum], [kproto] and [locvars] has as size the number
    of elements written and holds nothing beyond; [lineinfo] has one
    element more than was written, the end flag [MAX_INT], which is its
    last. *)
Theorem close_func_trims (ls : LexState) (fs' : FuncState) (ls' : LexState) :
  close_func ls = Ok (fs', ls') ->
  ls_fs ls' = tail (ls_fs ls)
  /\ f_sizecode (fs_f fs') = fs_pc fs'
  /\ (forall i, fs_pc fs' <= i -> f_code (fs_f fs') !! i = None)
  /\ f_sizekstr (fs_f fs') = fs_nkstr fs'
  /\ (forall i, fs_nkstr fs' <= i -> f_kstr (fs_f fs') !! i = None)
  /\ f_sizeknum (fs_f fs') = fs_nknum fs'
  /\ (forall i, fs_nknum fs' <= i -> f_knum (fs_f fs') !! i = None)
  /\ f_sizekproto (fs_f fs') = fs_nkproto fs'
  /\ (forall i, fs_nkproto fs' <= i -> f_kproto (fs_f fs') !! i = None)
  /\ f_sizelocvars (fs_f fs') = fs_nlocvars fs'
  /\ (forall i, fs_nlocvars fs' <= i -> f_locvars (fs_f fs') !! i = None)
  /\ f_sizelineinfo (fs_f fs') = fs_nlineinfo fs'
  /\ f_lineinfo (fs_f fs') !! (fs_nlineinfo fs' - 1) = Some MAX_INT
  /\ (forall i, fs_nlineinfo fs' <= i -> f_lineinfo (fs_f fs') !! i = None).
Proof.
  intros H. apply close_func_inv in H
    as (fs & prev & Hp & Ht & Hpc & Hks & Hkn & Hkp & Hlv & Hli
        & -> & -> & -> & -> & -> & -> & -> & -> & -> & -> & -> & ->).
  rewrite Hpc, Hks, Hkn, Hkp, Hlv, Hli.
  split_and!; try done; try congruence;
    try (intros i Hi; by apply luaM_reallocvector_beyond).
  - replace (fs_nlineinfo fs + 1 - 1) with (fs_nlineinfo fs) by lia.
    by rewrite lookup_insert_eq.
  - intros i Hi. rewrite lookup_insert_ne by lia.
    by apply luaM_reallocvector_beyond.
Qed.

End CloseFunc.

Lemma close_func_trims_witness :
  exists fs' ls',
    close_func (emt := Writer.emitter) (start []) = Ok (fs', ls')
    /\ ls_fs ls' = []
    /\ f_sizecode (fs_f fs') = fs_pc fs'
    /\ f_lineinfo (fs_f fs') !! (fs_nlineinfo fs' - 1)
       = Some (MAX_INT (Config := Writer.config)).
Proof.
  destruct (close_func (emt := Writer.emitter) (start [])) as [[fs' ls']| |]
    eqn:E; [|by vm_compute in E..].
  exists fs', ls'. split; [done|].
  destruct (close_func_trims _ _ _ E)
    as (Ht & Hs & _ & _ & _ & _ & _ & _ & _ & _ & _ & _ & Hl & _).
  split_and!; [by rewrite Ht|done|done].
Defined.

(** ** Tokens that begin nothing *)

Lemma bind_token {B} (g : Z -> P B) ls :
  (token ≫= g) ls = g (tk_token (ls_t ls)) ls.
Proof. done. Qed.

Lemma Res_bind_Err {A B} (r : Res A) (g : A -> Res B) e :
  r = Err e -> r ≫= g = Err e.
Proof. by intros ->. Qed.

Lemma getfs_eq ls fs prev : ls_fs ls = fs :: prev -> getfs ls = Ok (fs, ls).
Proof. intros H. unfold getfs. by rewrite H. Qed.

Ltac eval_eqb :=
  repeat match goal with
         | |- context [?a =? ?b] =>
             let r := eval vm_compute in (a =? b) in
             change (a =? b) with r
         end.

Section FirstToken.
Context {cfg : Config} {emt : Emitter}.

Lemma primaryexp_unexpected body constructor expr v ls :
  begins_primary (tk_token (ls_t ls)) = false ->
  primaryexp body constructor expr v ls = Err (E_error "unexpected symbol").
Proof.
  unfold begins_primary, primaryexp. rewrite bind_get. cbv zeta.
  intros H. repeat (apply orb_false_iff in H as [H ?]).
  by repeat match goal with E : (_ =? _) = false |- _ => rewrite E; clear E end.
Qed.

Lemma simpleexp_unexpected body constructor expr fuel v ls :
  begins_primary (tk_token (ls_t ls)) = false ->
  simpleexp body constructor expr fuel v ls
  = Err (E_error "unexpected symbol").
Proof.
  intros H. unfold simpleexp. apply bind_Err.
  by apply primaryexp_unexpected.
Qed.

(** X7.  An expression cannot begin with a token that begins none.  At a
    token that is neither a unary operator nor one of the tokens at which
    [primaryexp] finds a primary expression, [expr] fails with "unexpected
    symbol", whatever the bytecode writer is. *)
Theorem expr_unexpected_symbol (fuel : nat) (v : expdesc) (ls : LexState) :
  begins_primary (tk_token (ls_t ls)) = false ->
  is_unopr (getunopr (tk_token (ls_t ls))) = false ->
  expr (S (S fuel)) v ls = Err (E_error "unexpected symbol").
Proof.
  intros Hp Hu. unfold expr. cbn [grammar g_expr]. unfold expr_def.
  apply bind_Err. cbn [subexpr]. rewrite bind_token. cbv zeta. rewrite Hu.
  apply bind_Err. by apply simpleexp_unexpected.
Qed.

(** [luaY_parser] up to its call of [chunk]: the main function is open
    with no break label, and the first token is the current one. *)
Lemma parser_start (L : gmap string Z) (it : LexItem) (z : list LexItem)
    (zname : TString) :
  exists ls1 fs,
    (open_func;; next) (luaX_setinput L (it :: z) zname) = Ok (tt, ls1)
    /\ ls_t ls1 = lx_token it
    /\ ls_fs ls1 = [fs] /\ fs_bl fs = [].
Proof. eexists _, _. split_and!; reflexivity. Qed.

Lemma luaY_parser_chunk fuel L z zname ls1 :
  (open_func;; next) (luaX_setinput L z zname) = Ok (tt, ls1) ->
  luaY_parser fuel L z zname =
    ('(f, _) ← (chunk fuel;;
               tok ← token;
               check_condition (tok =? TK_EOS) "<eof> expected";;
               funcstate ← close_func;
               mret (fs_f funcstate)) ls1;
     Ok f).
Proof.
  intros H. unfold luaY_parser. cbv zeta.
  rewrite <- bind_assoc. by rewrite (bind_Ok _ _ _ _ _ H).
Qed.

(** X8.  What [luaY_parser] does with a first token that begins no
    statement, whatever the bytecode writer is and whatever follows.  A
    token that closes a block ([else], [elseif], [end], [until]) ends
    [chunk] at once, and the parser fails with "<eof> expected"; a
    [break] fails with "no loop to break", the main function having no
    break label; any other token that begins neither a statement nor a
    primary expression fails with "unexpected symbol". *)
Theorem parser_rejects_first_token (fuel : nat) (L : gmap string Z)
    (it : LexItem) (z : list LexItem) (zname : TString) :
  let tok := tk_token (lx_token it) in
  (block_follow tok = true -> tok <> TK_EOS ->
   luaY_parser (S (S fuel)) L (it :: z) zname
   = Err (E_error "<eof> expected"))
  /\ (tok = TK_BREAK ->
      luaY_parser (S (S fuel)) L (it :: z) zname
      = Err (E_error "no loop to break"))
  /\ (block_follow tok = false -> begins_statement tok = false ->
      begins_primary tok = false ->
      luaY_parser (S (S fuel)) L (it :: z) zname
      = Err (E_error "unexpected symbol")).
Proof.
  intros tok. subst tok.
  destruct (parser_start L it z zname) as (ls1 & fs & H1 & Ht & Hfs & Hbl).
  rewrite (luaY_parser_chunk _ _ _ _ _ H1).
  unfold chunk. cbn [grammar g_chunk]. unfold chunk_def.
  cbn [chunk_loop]. rewrite bind_assoc, bind_token, Ht.
  cbn [Z.eqb andb].
  split_and!.
  - intros Hb Hne. rewrite Hb. cbn [negb]. rewrite bind_ret, bind_token, Ht.
    apply Z.eqb_neq in Hne. by rewrite Hne.
  - intros Hb. rewrite Hb. change (block_follow TK_BREAK) with false.
    cbn [negb]. apply Res_bind_Err. do 2 apply bind_Err.
    unfold statement. rewrite bind_get. cbv zeta. rewrite Ht.
    rewrite Hb. eval_eqb. cbv iota. apply bind_Err.
    unfold breakstat. rewrite (bind_Ok _ _ _ _ _ (getfs_eq _ _ _ Hfs)).
    by rewrite Hbl.
  - intros Hb Hs Hp. rewrite Hb. cbn [negb]. apply Res_bind_Err.
    do 2 apply bind_Err.
    unfold statement. rewrite bind_get. cbv zeta. rewrite Ht.
    unfold begins_statement in Hs.
    repeat (apply orb_false_iff in Hs as [Hs ?]).
    repeat match goal with
           | E : (_ =? _) = false |- _ => rewrite E; clear E
           end.
    apply bind_Err. unfold exprstat. apply bind_Err.
    apply simpleexp_unexpected. by rewrite Ht.
Qed.

End FirstToken.

Lemma expr_unexpected_symbol_witness :
  expr (cfg := Writer.config) (emt := Writer.emitter) 2 expdesc_auto
    (start [C ")" 1])
  = Err (E_error "unexpected symbol").
Proof.
  apply (expr_unexpected_symbol (cfg := Writer.config)
           (emt := Writer.emitter) 0 expdesc_auto (start [C ")" 1]));
    reflexivity.
Defined.

Lemma parser_rejects_first_token_witness :
  luaY_parser (cfg := Writer.config) (emt := Writer.emitter) 2 ∅
    [T TK_END 1] "chunk" = Err (E_error "<eof> expected")
  /\ luaY_parser (cfg := Writer.config) (emt := Writer.emitter) 2 ∅
       [T TK_BREAK 1; T TK_END 1] "chunk" = Err (E_error "no loop to break")
  /\ luaY_parser (cfg := Writer.config) (emt := Writer.emitter) 2 ∅
       [C ")" 1] "chunk" = Err (E_error "unexpected symbol").
Proof.
  split_and!.
  - apply (proj1 (parser_rejects_first_token (cfg := Writer.config)
                    (emt := Writer.emitter) 0 ∅ (T TK_END 1) [] "chunk"));
      [reflexivity|vm_compute; discriminate].
  - apply (proj1 (proj2 (parser_rejects_first_token (cfg := Writer.config)
                           (emt := Writer.emitter) 0 ∅ (T TK_BREAK 1)
                           [T TK_END 1] "chunk"))).
    reflexivity.
  - apply (proj2 (proj2 (parser_rejects_first_token (cfg := Writer.config)
                           (emt := Writer.emitter) 0 ∅ (C ")" 1) []
                           "chunk"))); reflexivity.
Defined.

(** * What the parser keeps of a function across a rule *)

(** ** The reference writer writes no field the parser owns *)

Lemma kkeeps_bind {A B} o (m : Writer.K A) (g : A -> Writer.K B) :
  kkeeps o m -> (forall a, kkeeps o (g a)) -> kkeeps o (m ≫= g).
Proof.
  intros Hm Hg fs Hfs. specialize (Hm fs Hfs).
  unfold mbind, Writer.K_mbind, Writer.K_bind.
  destruct (m fs) as [[a fs1]| |]; [|done..]. by apply Hg.
Qed.

Lemma kkeeps_get {B} o (g : FuncState -> Writer.K B) :
  (forall fs, owned fs = o -> kkeeps o (g fs)) ->
  kkeeps o (Writer.K_get ≫= g).
Proof. intros Hg fs Hfs. by apply (Hg fs Hfs fs Hfs). Qed.

Lemma kkeeps_ret {A} o (a : A) : kkeeps o (mret a : Writer.K A).
Proof. by intros fs Hfs. Qed.

Lemma kkeeps_put o fs : owned fs = o -> kkeeps o (Writer.K_put fs).
Proof. by intros H fs0 _. Qed.

Lemma kkeeps_error {A} o msg : kkeeps o (Writer.K_error msg : Writer.K A).
Proof. by intros fs Hfs. Qed.

Lemma kkeeps_pure {A} o (m : Writer.K A) :
  (forall fs, match m fs with Ok (_, fs') => fs' = fs | _ => True end) ->
  kkeeps o m.
Proof.
  intros H fs Hfs. specialize (H fs).
  destruct (m fs) as [[a fs']| |]; [|done..]. by subst.
Qed.

Create HintDb kk.

Ltac by_owned :=
  simpl;
  match goal with
  | H : owned _ = ?o |- _ = ?o => exact H
  | |- True => exact I
  end.

Ltac kk_step :=
  lazymatch goal with
  | |- kkeeps _ (Writer.K_get ≫= _) => apply kkeeps_get; intros ? ?
  | |- kkeeps _ (_ ≫= _) => apply kkeeps_bind; [|intros ?]
  | |- kkeeps _ (mret _) => apply kkeeps_ret
  | |- kkeeps _ (Writer.K_error _) => apply kkeeps_error
  | |- kkeeps _ (Writer.K_put _) => apply kkeeps_put; by_owned
  | |- kkeeps _ (if ?c then _ else _) => destruct c
  | |- kkeeps _ (match ?x with _ => _ end) => destruct x
  | |- kkeeps _ _ => solve [auto with kk]
  end.
Ltac kk := repeat kk_step.

Lemma kkeeps_alter_code o g pc : kkeeps o (Writer.alter_code g pc).
Proof. intros fs Hfs. by_owned. Qed.
#[export] Hint Resolve kkeeps_alter_code : kk.

Lemma kkeeps_deltastack o delta : kkeeps o (Writer.luaK_deltastack delta).
Proof.
  intros fs Hfs. unfold Writer.luaK_deltastack.
  destruct (_ >? _); [destruct (_ >? _)|]; by_owned.
Qed.
#[export] Hint Resolve kkeeps_deltastack : kk.

Lemma kkeeps_code2 o op a b : kkeeps o (Writer.luaK_code2 op a b).
Proof.
  unfold Writer.luaK_code2. kk.
  apply kkeeps_pure. intros g. by destruct (luaM_growvector _ _ _ _).
Qed.
#[export] Hint Resolve kkeeps_code2 : kk.

Lemma kkeeps_code1 o op a : kkeeps o (Writer.luaK_code1 op a).
Proof. apply kkeeps_code2. Qed.
Lemma kkeeps_code0 o op : kkeeps o (Writer.luaK_code0 op).
Proof. apply kkeeps_code2. Qed.
#[export] Hint Resolve kkeeps_code1 kkeeps_code0 : kk.

Lemma kkeeps_kstr o c : kkeeps o (Writer.luaK_kstr c).
Proof. unfold Writer.luaK_kstr. kk. Qed.
Lemma kkeeps_adjuststack o n : kkeeps o (Writer.luaK_adjuststack n).
Proof. unfold Writer.luaK_adjuststack. kk. Qed.
Lemma kkeeps_setcallreturns o n : kkeeps o (Writer.luaK_setcallreturns n).
Proof. unfold Writer.luaK_setcallreturns. kk. Qed.
Lemma kkeeps_fixjump o pc dest : kkeeps o (Writer.luaK_fixjump pc dest).
Proof. unfold Writer.luaK_fixjump. kk. Qed.
#[export] Hint Resolve kkeeps_kstr kkeeps_adjuststack kkeeps_setcallreturns
  kkeeps_fixjump : kk.

Lemma kkeeps_concat o l1 l2 : kkeeps o (Writer.luaK_concat l1 l2).
Proof.
  unfold Writer.luaK_concat. kk.
  apply kkeeps_pure. intros g. by destruct (Writer.last_jump _ _ _).
Qed.
#[export] Hint Resolve kkeeps_concat : kk.

Lemma kkeeps_patchlistaux o turns list target special st :
  kkeeps o (Writer.luaK_patchlistaux turns list target special st).
Proof.
  revert list. induction turns as [|turns IH]; intros list; [done|].
  cbn [Writer.luaK_patchlistaux]. kk.
Qed.
#[export] Hint Resolve kkeeps_patchlistaux : kk.

Lemma kkeeps_patchlist o list target :
  kkeeps o (Writer.luaK_patchlist list target).
Proof. unfold Writer.luaK_patchlist. kk. Qed.
#[export] Hint Resolve kkeeps_patchlist : kk.

Lemma kkeeps_getlabel o : kkeeps o Writer.luaK_getlabel.
Proof. unfold Writer.luaK_getlabel. kk. Qed.
#[export] Hint Resolve kkeeps_getlabel : kk.

Lemma kkeeps_jump o : kkeeps o Writer.luaK_jump.
Proof. unfold Writer.luaK_jump. kk. Qed.
Lemma kkeeps_fixfor o pc dest : kkeeps o (Writer.luaK_fixfor pc dest).
Proof. apply kkeeps_fixjump. Qed.
#[export] Hint Resolve kkeeps_jump kkeeps_fixfor : kk.

Lemma kkeeps_number_constant o r : kkeeps o (Writer.number_constant r).
Proof.
  intros fs Hfs. unfold Writer.number_constant.
  destruct (Writer.find_knum _ _ _); [done|].
  destruct (luaM_growvector _ _ _ _); by_owned.
Qed.
#[export] Hint Resolve kkeeps_number_constant : kk.

Lemma kkeeps_number o r : kkeeps o (Writer.luaK_number r).
Proof. unfold Writer.luaK_number. kk. Qed.
Lemma kkeeps_discharge o v : kkeeps o (Writer.discharge v).
Proof. unfold Writer.discharge. kk. Qed.
#[export] Hint Resolve kkeeps_number kkeeps_discharge : kk.

Lemma kkeeps_discharge1 o v : kkeeps o (Writer.discharge1 v).
Proof. unfold Writer.discharge1. kk. Qed.
Lemma kkeeps_storevar o v : kkeeps o (Writer.luaK_storevar v).
Proof. unfold Writer.luaK_storevar. kk. Qed.
#[export] Hint Resolve kkeeps_discharge1 kkeeps_storevar : kk.

Lemma kkeeps_testgo o v invert jump :
  kkeeps o (Writer.luaK_testgo v invert jump).
Proof. unfold Writer.luaK_testgo. kk. Qed.
#[export] Hint Resolve kkeeps_testgo : kk.

Lemma kkeeps_goiftrue o v kv : kkeeps o (Writer.luaK_goiftrue v kv).
Proof. apply kkeeps_testgo. Qed.
Lemma kkeeps_goiffalse o v kv : kkeeps o (Writer.luaK_goiffalse v kv).
Proof. apply kkeeps_testgo. Qed.
Lemma kkeeps_code_label o op arg : kkeeps o (Writer.code_label op arg).
Proof. unfold Writer.code_label. kk. Qed.
#[export] Hint Resolve kkeeps_goiftrue kkeeps_goiffalse kkeeps_code_label
  : kk.

Lemma kkeeps_tostack o v onlyone : kkeeps o (Writer.luaK_tostack v onlyone).
Proof. unfold Writer.luaK_tostack. kk. Qed.
#[export] Hint Resolve kkeeps_tostack : kk.

Lemma kkeeps_prefix o op v : kkeeps o (Writer.luaK_prefix op v).
Proof. unfold Writer.luaK_prefix. kk. Qed.
Lemma kkeeps_infix o op v : kkeeps o (Writer.luaK_infix op v).
Proof. unfold Writer.luaK_infix. kk. Qed.
Lemma kkeeps_posfix o op v1 v2 : kkeeps o (Writer.luaK_posfix op v1 v2).
Proof. unfold Writer.luaK_posfix. kk. Qed.
#[export] Hint Resolve kkeeps_prefix kkeeps_infix kkeeps_posfix : kk.

Lemma kkeeps_untouched {A} (m : Writer.K A) fs :
  kkeeps (owned fs) m -> untouched fs (m fs).
Proof.
  intros H. specialize (H fs eq_refl). unfold untouched.
  by destruct (m fs) as [[a fs']| |].
Qed.

Lemma Writer_frame : EmitterFrame (emt := Writer.emitter).
Proof.
  split; intros; simpl; apply kkeeps_untouched; auto with kk.
Qed.

(** ** The relations between the states of a function *)

Lemma extends_refl o : extends o o.
Proof. by split. Qed.

Lemma extends_trans o1 o2 o3 : extends o1 o2 -> extends o2 o3 -> extends o1 o3.
Proof.
  intros [] []. split; try lia; try congruence.
  all: intros i Hi.
  all: match goal with
       | H1 : forall j, _ -> ?f ?b !! j = ?f ?a !! j,
         H2 : forall j, _ -> ?f ?c !! j = ?f ?b !! j |- ?f ?c !! _ = _ =>
           rewrite H2 by lia; apply H1; lia
       end.
Qed.

Lemma steady_refl o : steady o o.
Proof. split; [apply extends_refl|done]. Qed.

Lemma steady_trans o1 o2 o3 : steady o1 o2 -> steady o2 o3 -> steady o1 o3.
Proof.
  intros [? ?] [? ?]. split; [by eapply extends_trans|congruence].
Qed.

Lemma outer_refl o : outer o o.
Proof. split; [apply steady_refl|done]. Qed.

Lemma outer_trans o1 o2 o3 : outer o1 o2 -> outer o2 o3 -> outer o1 o3.
Proof.
  intros (? & ? & ?) (? & ? & ?).
  split; [by eapply steady_trans|split; congruence].
Qed.

Lemma labelled_refl o : labelled o o.
Proof. done. Qed.

Lemma labelled_trans o1 o2 o3 :
  labelled o1 o2 -> labelled o2 o3 -> labelled o1 o3.
Proof. intros (? & ? & ?) (? & ? & ?). split_and!; congruence. Qed.

#[export] Instance extends_preorder : PreOrder extends.
Proof. split; [exact extends_refl|exact extends_trans]. Qed.
#[export] Instance steady_preorder : PreOrder steady.
Proof. split; [exact steady_refl|exact steady_trans]. Qed.
#[export] Instance outer_preorder : PreOrder outer.
Proof. split; [exact outer_refl|exact outer_trans]. Qed.
#[export] Instance labelled_preorder : PreOrder labelled.
Proof. split; [exact labelled_refl|exact labelled_trans]. Qed.

Lemma steady_extends o o' : steady o o' -> extends o o'.
Proof. by intros [? _]. Qed.
Lemma outer_steady o o' : outer o o' -> steady o o'.
Proof. by intros [? _]. Qed.
Lemma extends_labelled o o' : extends o o' -> labelled o o'.
Proof. by intros []. Qed.

Lemma outer_chain_refl prev :
  Forall2 (fun g g' => outer (owned g) (owned g')) prev prev.
Proof. apply Forall_Forall2_diag, Forall_forall. intros. apply outer_refl. Qed.

#[export] Instance chained_refl H `{!Reflexive H} : Reflexive (chained H).
Proof.
  intros [|fs prev]; [done|]. simpl. split; [done|].
  split; [apply outer_chain_refl|done].
Qed.

#[export] Instance chained_trans H `{!Transitive H} : Transitive (chained H).
Proof.
  intros [|fs1 prev1] [|fs2 prev2] [|fs3 prev3]; simpl; try done.
  intros (H12 & F12 & N12) (H23 & F23 & N23). split; [by etrans|]. split.
  - eapply Forall2_trans; [|done|done]. intros ???. apply outer_trans.
  - intros ->. apply Forall2_nil_inv_l in F12 as ->.
    rewrite N23, N12; done.
Qed.

Lemma chained_mono (H H' : Owned -> Owned -> Prop) l l' :
  (forall o o', H o o' -> H' o o') -> chained H l l' -> chained H' l l'.
Proof.
  intros HH. destruct l, l'; simpl; try done.
  intros (? & ? & ?). split; [by apply HH|done].
Qed.

(** The function being compiled changes and the enclosing ones do not. *)
Lemma chained_head (H : Owned -> Owned -> Prop) fs fs' prev :
  H (owned fs) (owned fs') ->
  f_nupvalues (fs_f fs') = f_nupvalues (fs_f fs) ->
  chained H (fs :: prev) (fs' :: prev).
Proof. intros. split; [done|]. split; [apply outer_chain_refl|done]. Qed.

Lemma chained_owned H `{!Reflexive H} fs fs' prev :
  owned fs' = owned fs -> chained H (fs :: prev) (fs' :: prev).
Proof.
  intros E. apply chained_head; [by rewrite E|].
  by apply (f_equal o_nupvalues) in E.
Qed.

(** ** Composing the actions *)

Lemma keeps_bind {A B} R `{!Transitive R} (m : P A) (g : A -> P B) :
  keeps R m -> (forall a, keeps R (g a)) -> keeps R (m ≫= g).
Proof.
  intros Hm Hg ls b ls' H. binv H as a ls1 H1.
  etrans; [by eapply Hm|by eapply Hg].
Qed.

Lemma keeps_ret {A} R `{!Reflexive R} (a : A) : keeps R (mret a).
Proof. by intros ls b ls' [= <- <-]. Qed.

Lemma keeps_throw {A} R e : keeps R (throw e : P A).
Proof. by intros ls b ls'. Qed.

Lemma keeps_timeout {A} R : keeps R (timeout : P A).
Proof. by intros ls b ls'. Qed.

Lemma keeps_mono {A} (R R' : list FuncState -> list FuncState -> Prop)
    (m : P A) :
  (forall l l', R l l' -> R' l l') -> keeps R m -> keeps R' m.
Proof. intros HR Hm ls a ls' H. by eapply HR, Hm. Qed.

Lemma keeps_same {A} R `{!Reflexive R} (m : P A) :
  (forall ls a ls', m ls = Ok (a, ls') -> ls_fs ls' = ls_fs ls) ->
  keeps R m.
Proof. intros Hm ls a ls' H. by rewrite (Hm _ _ _ H). Qed.

Lemma keeps_getfs {B} R (g : FuncState -> P B) :
  (forall fs, keeps_at fs R (g fs)) -> keeps R (getfs ≫= g).
Proof.
  intros Hg ls b ls' H. binv H as fs ls1 H1.
  apply getfs_inv in H1 as (-> & prev & Hfs). by eapply Hg.
Qed.

Lemma keeps_at_putfs fs R g :
  (forall prev, R (fs :: prev) (g :: prev)) -> keeps_at fs R (putfs g).
Proof.
  intros HR ls prev a ls' Hfs H.
  apply putfs_inv in H as (old & prev' & Hold & ->).
  rewrite Hfs in Hold. injection Hold as <- <-. rewrite Hfs. apply HR.
Qed.

Lemma keeps_at_bind {A B} fs R `{!Transitive R} (m : P A) (g : A -> P B) :
  keeps_at fs R m -> (forall a, keeps R (g a)) -> keeps_at fs R (m ≫= g).
Proof.
  intros Hm Hg ls prev b ls' Hfs H. binv H as a ls1 H1.
  etrans; [by eapply Hm|by eapply Hg].
Qed.

Lemma keeps_at_bind_same {A B} fs R (m : P A) (g : A -> P B) :
  same_fs m ->
  (forall a, keeps_at fs R (g a)) -> keeps_at fs R (m ≫= g).
Proof.
  intros Hm Hg ls prev b ls' Hfs H. binv H as a ls1 H1.
  pose proof (Hm _ _ _ H1) as E. rewrite <- E.
  eapply Hg; [|done]. by rewrite E.
Qed.

Lemma keeps_at_keeps {A} fs R (m : P A) : keeps R m -> keeps_at fs R m.
Proof. intros Hm ls prev a ls' _ H. by eapply Hm. Qed.

Lemma keeps_steady_extends_chain l l' :
  chained steady l l' -> chained extends l l'.
Proof. apply chained_mono, steady_extends. Qed.

Lemma keeps_steady_extends {A} (m : P A) :
  keeps (chained steady) m -> keeps (chained extends) m.
Proof.
  apply keeps_mono. intros l l'. apply chained_mono, steady_extends.
Qed.

Lemma keeps_extends_labelled {A} (m : P A) :
  keeps (chained extends) m -> keeps (chained labelled) m.
Proof.
  apply keeps_mono. intros l l'. apply chained_mono, extends_labelled.
Qed.

(** ** The primitives *)

Lemma ls_fs_set ls x : ls_fs (set_ls_fs ls x) = x.
Proof. done. Qed.

Lemma names_alter (g : LocVar -> LocVar) a (m : gmap Z LocVar) :
  (forall lv, varname (g lv) = varname lv) ->
  varname <$> alter g a m = varname <$> m.
Proof.
  intros Hg. apply map_eq. intros i. rewrite !lookup_fmap.
  destruct (decide (i = a)) as [->|Hne].
  - rewrite lookup_alter_eq. destruct (m !! a); simpl; [|done].
    by rewrite Hg.
  - by rewrite lookup_alter_ne.
Qed.

Lemma adjustlocalvars_step_owned fs :
  owned (adjustlocalvars_step fs)
  = set_o_nactloc (owned fs) (fs_nactloc fs + 1).
Proof.
  unfold adjustlocalvars_step, alter_locvar. simpl.
  destruct (fs_actloc fs !! fs_nactloc fs); [|done].
  unfold owned, set_o_nactloc. simpl. by rewrite names_alter.
Qed.

Lemma adjustlocalvars_iter_owned fs count :
  owned (Nat.iter count adjustlocalvars_step fs)
  = set_o_nactloc (owned fs) (fs_nactloc fs + Z.of_nat count).
Proof.
  induction count as [|count IH].
  { simpl. rewrite Z.add_0_r. by destruct fs. }
  rewrite Nat.iter_succ, adjustlocalvars_step_owned, IH.
  replace (fs_nactloc (Nat.iter count adjustlocalvars_step fs))
    with (o_nactloc (owned (Nat.iter count adjustlocalvars_step fs))) by done.
  rewrite IH. unfold set_o_nactloc. simpl. f_equal. lia.
Qed.

Lemma removelocalvars_step_owned fs :
  owned (removelocalvars_step fs)
  = set_o_nactloc (owned fs) (fs_nactloc fs - 1).
Proof.
  unfold removelocalvars_step, alter_locvar. simpl.
  destruct (fs_actloc fs !! (fs_nactloc fs - 1)); [|done].
  unfold owned, set_o_nactloc. simpl. by rewrite names_alter.
Qed.

Lemma removelocalvars_iter_owned fs count :
  owned (Nat.iter count removelocalvars_step fs)
  = set_o_nactloc (owned fs) (fs_nactloc fs - Z.of_nat count).
Proof.
  induction count as [|count IH].
  { simpl. rewrite Z.sub_0_r. by destruct fs. }
  rewrite Nat.iter_succ, removelocalvars_step_owned, IH.
  replace (fs_nactloc (Nat.iter count removelocalvars_step fs))
    with (o_nactloc (owned (Nat.iter count removelocalvars_step fs))) by done.
  rewrite IH. unfold set_o_nactloc. simpl. f_equal. lia.
Qed.

Lemma extends_grow o n : o_nactloc o <= n -> extends o (set_o_nactloc o n).
Proof. intros Hn. by split. Qed.

Lemma removelocalvars_inv nvars ls u ls' :
  removelocalvars nvars ls = Ok (u, ls') ->
  exists fs prev fs',
    ls_fs ls = fs :: prev /\ ls_fs ls' = fs' :: prev
    /\ owned fs'
       = set_o_nactloc (owned fs) (fs_nactloc fs - Z.of_nat (Z.to_nat nvars)).
Proof.
  intros H. unfold removelocalvars in H.
  binv H as fs ls0 Hg. apply getfs_inv in Hg as (-> & prev & Hfs).
  apply putfs_inv in H as (old & prev' & Hold & ->).
  rewrite Hfs in Hold. injection Hold as <- <-.
  eexists fs, prev, _. split_and!; [done|done|].
  apply removelocalvars_iter_owned.
Qed.

Section Primitives.
Context {cfg : Config}.

Lemma string_constant_outer fs s ci c fs' ci' :
  string_constant fs s ci = Ok (c, fs', ci') -> outer (owned fs) (owned fs').
Proof.
  unfold string_constant. destruct (_ || _).
  - destruct (luaM_growvector _ _ _ _) as [size| |]; simpl; [|done..].
    intros [= <- <- <-]. split; [split|done]; [|done].
    split; simpl; try done; try lia.
    intros i Hi. by rewrite lookup_insert_ne by lia.
  - intros [= <- <- <-]. apply outer_refl.
Qed.

Lemma keeps_string_constant_fs s :
  keeps (chained steady) (string_constant_fs s).
Proof.
  intros ls c ls' H. unfold string_constant_fs in H.
  destruct (ls_fs ls) as [|fs prev] eqn:Hfs; [done|].
  destruct (string_constant fs s _) as [[[c' fs'] ci]| |] eqn:E; [|done..].
  injection H as <- <-. apply string_constant_outer in E as (Hs & Hn & _).
  simpl. by apply chained_head.
Qed.

Lemma keeps_string_constant_prev s :
  keeps (chained steady) (string_constant_prev s).
Proof.
  intros ls c ls' H. unfold string_constant_prev in H.
  destruct (ls_fs ls) as [|fs [|pfs prev]] eqn:Hfs; [done..|].
  destruct (string_constant pfs s _) as [[[c' pfs'] ci]| |] eqn:E; [|done..].
  injection H as <- <-. apply string_constant_outer in E.
  simpl. split; [apply steady_refl|]. split; [|done].
  constructor; [done|apply outer_chain_refl].
Qed.

Lemma new_localvar_inv name n ls fs prev u ls' :
  ls_fs ls = fs :: prev ->
  new_localvar name n ls = Ok (u, ls') ->
  exists size lv,
    varname lv = name
    /\ ls' = set_ls_fs ls
               (set_fs_actloc
                  (set_fs_f (set_fs_nlocvars fs (fs_nlocvars fs + 1))
                     (set_f_locvars (set_f_sizelocvars (fs_f fs) size)
                        (<[fs_nlocvars fs := lv]> (f_locvars (fs_f fs)))))
                  (<[fs_nactloc fs + n := fs_nlocvars fs]> (fs_actloc fs))
                :: prev).
Proof.
  intros Hfs Hn. unfold new_localvar in Hn.
  binv Hn as fs0 ls0 Hg. apply getfs_inv in Hg as (-> & prev0 & Hfs0).
  rewrite Hfs in Hfs0. injection Hfs0 as <- <-.
  binv Hn as [] ls2 Hlim. apply luaX_checklimit_inv in Hlim as [_ ->].
  binv Hn as reg ls2 Hreg. unfold luaI_registerlocalvar in Hreg.
  binv Hreg as fs1 ls3 Hg. apply getfs_inv in Hg as (-> & prev1 & Hfs1).
  rewrite Hfs in Hfs1. injection Hfs1 as <- <-.
  binv Hreg as size ls4 Hsize.
  assert (ls4 = ls) as ->.
  { destruct (luaM_growvector _ _ _ _); simpl in Hsize; by simplify_eq. }
  binv Hreg as [] ls5 Hput. apply mret_inv in Hreg as [-> ->].
  apply putfs_inv in Hput as (old & prev2 & Hold & ->).
  rewrite Hfs in Hold. injection Hold as <- <-.
  binv Hn as fs2 ls6 Hg. apply getfs_inv in Hg as (-> & prev3 & Hfs3).
  simpl in Hfs3. injection Hfs3 as <- <-.
  apply putfs_inv in Hn as (old & prev4 & Hold & ->).
  simpl in Hold. injection Hold as <- <-.
  eexists size, _. split; [|reflexivity]. done.
Qed.

Lemma keeps_new_localvar name n :
  0 <= n -> keeps (chained steady) (new_localvar name n).
Proof.
  intros Hn ls u ls' H.
  destruct (ls_fs ls) as [|fs prev] eqn:Hfs.
  { unfold new_localvar in H. binv H as fs0 ls0 Hg.
    apply getfs_inv in Hg as (_ & ? & ?). congruence. }
  destruct (new_localvar_inv _ _ _ _ _ _ _ Hfs H) as (size & lv & Hlv & ->).
  rewrite ls_fs_set. apply chained_head; [|done].
  split; [|done]. split; simpl; try done; try lia.
  - intros i Hi. by rewrite lookup_insert_ne by lia.
  - intros a Ha. rewrite !lookup_fmap. by rewrite lookup_insert_ne by lia.
Qed.

Lemma keeps_new_localvarstr name n :
  0 <= n -> keeps (chained steady) (new_localvarstr name n).
Proof. apply keeps_new_localvar. Qed.

Lemma keeps_adjustlocalvars nvars :
  keeps (chained extends) (adjustlocalvars nvars).
Proof.
  intros ls u ls' H. unfold adjustlocalvars in H.
  binv H as fs ls0 Hg. apply getfs_inv in Hg as (-> & prev & Hfs).
  apply putfs_inv in H as (old & prev' & Hold & ->).
  rewrite Hfs in Hold. injection Hold as <- <-. rewrite Hfs, ls_fs_set.
  apply chained_head.
  - rewrite adjustlocalvars_iter_owned. apply extends_grow. simpl. lia.
  - pose proof (adjustlocalvars_iter_owned fs (Z.to_nat nvars)) as E.
    by apply (f_equal o_nupvalues) in E.
Qed.

Lemma keeps_indexupvalue v ls fs prev i ls' :
  ls_fs ls = fs :: prev -> prev <> [] ->
  indexupvalue v ls = Ok (i, ls') ->
  chained steady (ls_fs ls) (ls_fs ls').
Proof.
  intros Hfs Hp H. rewrite (indexupvalue_eq _ _ _ _ Hfs) in H.
  destruct (indexupvalue_loop _ _ _ _).
  { by injection H as <- <-. }
  destruct (_ >? _); [done|]. injection H as <- <-. rewrite Hfs. simpl.
  split; [|split; [apply outer_chain_refl|done]].
  split; [|done]. split; simpl; try done; try lia.
  intros j Hj. by rewrite lookup_insert_ne by lia.
Qed.

Lemma keeps_enterbreak : keeps enters enterbreak.
Proof.
  intros ls u ls' H. unfold enterbreak in H.
  binv H as fs ls0 Hg. apply getfs_inv in Hg as (-> & prev & Hfs).
  apply putfs_inv in H as (old & prev' & Hold & ->).
  rewrite Hfs in Hold. injection Hold as <- <-. rewrite Hfs.
  by eexists _, _, _.
Qed.

End Primitives.

Lemma same_fs_next : same_fs next.
Proof. exact next_fs. Qed.
Lemma same_fs_lookahead : same_fs lookahead.
Proof. exact lookahead_fs. Qed.
Lemma same_fs_check c : same_fs (check c).
Proof. exact (check_fs c). Qed.
Lemma same_fs_optional c : same_fs (optional c).
Proof. exact (optional_fs c). Qed.
Lemma same_fs_check_match what who where_ :
  same_fs (check_match what who where_).
Proof. exact (check_match_fs what who where_). Qed.
Lemma same_fs_str_checkname : same_fs str_checkname.
Proof. exact str_checkname_fs. Qed.
Lemma same_fs_token : same_fs token.
Proof. by intros ls a ls' [= <- <-]. Qed.
Lemma same_fs_get : same_fs get.
Proof. by intros ls a ls' [= <- <-]. Qed.
Lemma same_fs_getfs : same_fs getfs.
Proof. by intros ls a ls' (-> & _)%getfs_inv. Qed.
Lemma same_fs_check_condition c msg : same_fs (check_condition c msg).
Proof. by intros ls a ls' [_ ->]%check_condition_inv. Qed.
Lemma same_fs_checklimit v limit msg : same_fs (luaX_checklimit v limit msg).
Proof. by intros ls a ls' [_ ->]%luaX_checklimit_inv. Qed.
Lemma same_fs_grow n size limit msg :
  same_fs (fun ls => size ← luaM_growvector n size limit msg; Ok (size, ls)).
Proof.
  intros ls a ls' H. destruct (luaM_growvector _ _ _ _); by simplify_eq/=.
Qed.

Create HintDb samedb.
#[export] Hint Resolve same_fs_next same_fs_lookahead same_fs_check
  same_fs_optional same_fs_check_match same_fs_str_checkname same_fs_token
  same_fs_get same_fs_getfs same_fs_check_condition same_fs_checklimit
  same_fs_grow : samedb.

Lemma keeps_same_fs {A} R `{!Reflexive R} (m : P A) : same_fs m -> keeps R m.
Proof. apply keeps_same; done. Qed.

Create HintDb keepsdb.

Section Emit.
Context {emt : Emitter} {frm : EmitterFrame}.

Lemma keeps_emit {A} (op : LexState -> FuncState -> Res (A * FuncState)) :
  (forall ls fs, untouched fs (op ls fs)) -> keeps (chained steady) (emit op).
Proof.
  intros Hop ls a ls' H.
  apply emit_inv in H as (fs & prev & fs' & Hfs & Hop' & ->).
  specialize (Hop ls fs). rewrite Hop' in Hop.
  rewrite Hfs, ls_fs_set. by apply chained_owned.
Qed.

End Emit.

Ltac frame_tac :=
  intros; cbv beta;
  first [ apply frame_code1 | apply frame_code2 | apply frame_kstr
        | apply frame_number | apply frame_adjuststack
        | apply frame_deltastack | apply frame_setcallreturns
        | apply frame_tostack | apply frame_storevar | apply frame_getlabel
        | apply frame_jump | apply frame_patchlist | apply frame_concat
        | apply frame_goiftrue | apply frame_prefix | apply frame_infix
        | apply frame_posfix | apply frame_fixfor ].

#[export] Hint Extern 1 (keeps (chained steady) (emit _)) =>
  apply keeps_emit; frame_tac : keepsdb.
#[export] Hint Extern 1 (keeps (chained steady) _) =>
  apply keeps_same_fs; [apply _|solve [auto with samedb]] : keepsdb.

(** One step of a proof that a sequence of actions keeps a relation. *)
Ltac keeps_leaf :=
  first
    [ solve [eauto with keepsdb]
    | apply keeps_steady_extends; solve [eauto with keepsdb]
    | apply keeps_extends_labelled; solve [eauto with keepsdb]
    | apply keeps_extends_labelled, keeps_steady_extends;
      solve [eauto with keepsdb] ].

Ltac keeps_step :=
  lazymatch goal with
  | |- keeps _ (getfs ≫= _) => apply keeps_getfs; intros ?
  | |- keeps _ (_ ≫= _) => apply keeps_bind; [apply _| |intros ?]
  | |- keeps _ (mret _) => apply keeps_ret; apply _
  | |- keeps _ (throw _) => apply keeps_throw
  | |- keeps _ (luaK_error _) => apply keeps_throw
  | |- keeps _ (luaX_syntaxerror _ _) => apply keeps_throw
  | |- keeps _ (error_expected _) => apply keeps_throw
  | |- keeps _ timeout => apply keeps_timeout
  | |- keeps _ (if ?c then _ else _) => destruct c eqn:?
  | |- keeps _ (match ?x with _ => _ end) => destruct x eqn:?
  | |- keeps_at _ _ (putfs _) =>
      apply keeps_at_putfs; intros ?;
      first [ apply chained_owned; [apply _|reflexivity]
            | apply chained_head; [done|done]
            | idtac ]
  | |- keeps_at _ _ (_ ≫= _) =>
      first [ apply keeps_at_bind_same; [solve [auto with samedb]|intros ?]
            | apply keeps_at_bind; [apply _| |intros ?] ]
  | |- keeps_at _ _ (if ?c then _ else _) => destruct c eqn:?
  | |- keeps_at _ _ (match ?x with _ => _ end) => destruct x eqn:?
  | |- keeps_at _ _ _ => apply keeps_at_keeps
  | |- keeps _ _ => keeps_leaf
  end.

Ltac keeps_tac := repeat keeps_step.

Section Composites.
Context {cfg : Config} {emt : Emitter} {frm : EmitterFrame}.

#[local] Hint Resolve keeps_string_constant_fs keeps_string_constant_prev
  keeps_adjustlocalvars : keepsdb.

Lemma keeps_code_string s : keeps (chained steady) (code_string s).
Proof. unfold code_string. keeps_tac. Qed.

Lemma keeps_checkname : keeps (chained steady) checkname.
Proof. unfold checkname. keeps_tac. Qed.

Lemma keeps_singlevar n v : keeps (chained steady) (singlevar n v).
Proof. unfold singlevar. keeps_tac. Qed.

Lemma keeps_adjust_mult_assign nvars nexps :
  keeps (chained steady) (adjust_mult_assign nvars nexps).
Proof. unfold adjust_mult_assign. keeps_tac. Qed.

Lemma search_chain_level_bound chain n var level l v :
  search_chain chain n var level = (l, v) ->
  l = -1 \/ level <= l < level + Z.of_nat (length chain).
Proof.
  revert level. induction chain as [|fs prev IH]; intros level; simpl.
  { intros [= <- <-]. by left. }
  destruct (search_actloc fs n _).
  - intros [= <- <-]. right. lia.
  - intros H. destruct (IH _ H) as [?|?]; [by left|right; lia].
Qed.

Lemma keeps_pushupvalue_emit v ls fs prev u ls' :
  ls_fs ls = fs :: prev -> prev <> [] ->
  pushupvalue_emit v ls = Ok (u, ls') ->
  chained steady (ls_fs ls) (ls_fs ls').
Proof.
  intros Hfs Hp H. unfold pushupvalue_emit in H.
  binv H as i ls1 Hi. binv H as pc ls2 He. apply mret_inv in H as [_ ->].
  etrans; [by eapply keeps_indexupvalue|].
  eapply keeps_emit; [|done]. frame_tac.
Qed.

Lemma keeps_pushupvalue n : keeps (chained steady) (pushupvalue n).
Proof.
  intros ls u ls' H. rewrite pushupvalue_eq in H.
  destruct (search_local ls n expdesc_auto) as [level v] eqn:Hs.
  destruct (Z.eqb_spec level (-1)) as [->|Hl].
  - destruct (ls_fs ls) as [|fs [|pfs prev]] eqn:Hfs; try done.
    destruct (string_constant_prev n ls) as [[c ls1]| |] eqn:Hc; try done.
    pose proof (keeps_string_constant_prev _ _ _ _ Hc) as K1.
    rewrite Hfs in K1. etrans; [exact K1|].
    destruct (ls_fs ls1) as [|fs1 prev1] eqn:Hfs1; [done|].
    rewrite <- Hfs1. eapply keeps_pushupvalue_emit; [done| |done].
    destruct K1 as (_ & F & _). intros ->. by apply Forall2_nil_inv_r in F.
  - destruct (Z.eqb_spec level 1) as [->|?]; [|done]. simpl in H.
    unfold search_local in Hs.
    apply search_chain_level_bound in Hs as [?|Hb]; [done|].
    destruct (ls_fs ls) as [|fs [|pfs prev]] eqn:Hfs;
      [simpl in Hb; lia..|].
    rewrite <- Hfs. by eapply keeps_pushupvalue_emit.
Qed.

Lemma keeps_code_params nparams dots :
  keeps (chained labelled) (code_params nparams dots).
Proof.
  assert (forall name n, 0 <= n ->
            keeps (chained labelled) (new_localvarstr name n)) as Hn.
  { intros. by apply keeps_extends_labelled, keeps_steady_extends,
      keeps_new_localvarstr. }
  unfold code_params. keeps_tac. by apply Hn.
Qed.

Lemma keeps_pushclosure_loop func i count :
  keeps (chained steady) (pushclosure_loop func i count).
Proof.
  revert i. induction count as [|count IH]; intros i; simpl; keeps_tac.
Qed.

Lemma keeps_pushclosure func : keeps (chained steady) (pushclosure func).
Proof.
  pose proof keeps_pushclosure_loop.
  unfold pushclosure. keeps_tac.
  apply chained_head; [|done].
  split; [|done]. split; simpl; try done; try lia.
  intros c Hc. by rewrite lookup_insert_ne by lia.
Qed.

Lemma keeps_leavebreak : keeps leaves leavebreak.
Proof.
  intros ls u ls' H. unfold leavebreak in H.
  binv H as fs ls0 Hg. apply getfs_inv in Hg as (-> & prev & Hfs).
  destruct (fs_bl fs) as [|bl previous] eqn:Hbl; [done|].
  binv H as [] ls1 Hp. apply putfs_inv in Hp as (old & prev' & Hold & ->).
  rewrite Hfs in Hold. injection Hold as <- <-.
  binv H as target ls2 He1.
  split.
  { exists fs, prev. split; [done|]. by rewrite Hbl. }
  rewrite Hfs. simpl unlabel. rewrite Hbl. simpl tail.
  etrans; [|etrans].
  - reflexivity.
  - eapply keeps_emit in He1; [|frame_tac]. exact He1.
  - eapply keeps_emit in H; [|frame_tac]. exact H.
Qed.

Lemma keeps_breakstat : keeps (chained steady) breakstat.
Proof.
  unfold breakstat. keeps_tac.
  apply chained_head; [|done]. split; [|done].
  split; simpl; try done.
  unfold levels. simpl.
  match goal with
  | E : fs_bl ?f = _ :: _ |- context [fs_bl ?f] => by rewrite E
  end.
Qed.

End Composites.

(** ** Loops and nested functions *)

Lemma levels_tail fs :
  levels (owned (set_fs_bl fs (tail (fs_bl fs)))) = tail (levels (owned fs)).
Proof. unfold levels. simpl. by destruct (fs_bl fs). Qed.

Lemma steady_unlabel fs fs' :
  steady (owned fs) (owned fs') ->
  steady (owned (set_fs_bl fs (tail (fs_bl fs))))
         (owned (set_fs_bl fs' (tail (fs_bl fs')))).
Proof.
  intros [[] Hn]. split; [|done]. split; try done.
  rewrite !levels_tail. by f_equal.
Qed.

Lemma steady_leaves l1 l2 l3 :
  chained steady l1 l2 -> leaves l2 l3 -> leaves l1 l3.
Proof.
  intros H12 [(fs2 & prev2 & -> & Hbl) H23].
  destruct l1 as [|fs1 prev1]; [done|]. destruct H12 as (Hs & F & N).
  split.
  - exists fs1, prev1. split; [done|]. intros Hnil.
    destruct Hs as [[] _]. unfold levels in *. simpl in *.
    rewrite Hnil in *. by destruct (fs_bl fs2).
  - etrans; [|exact H23]. simpl. split; [by apply steady_unlabel|].
    split; [done|]. exact N.
Qed.

Lemma enters_leaves l1 l2 l3 :
  enters l1 l2 -> leaves l2 l3 -> chained steady l1 l3.
Proof.
  intros (fs & prev & b & -> & ->) [_ H].
  etrans; [|exact H]. cbn [unlabel].
  apply chained_owned; [apply _|]. by destruct fs.
Qed.

Lemma keeps_leaves_bind {A B} (m : P A) (g : A -> P B) :
  keeps (chained steady) m -> (forall a, keeps leaves (g a)) ->
  keeps leaves (m ≫= g).
Proof.
  intros Hm Hg ls b ls' H. binv H as a ls1 H1.
  eapply steady_leaves; [by eapply Hm|by eapply Hg].
Qed.

Lemma keeps_enter_leave {cfg : Config} {B} (g : P B) :
  keeps leaves g -> keeps (chained steady) (enterbreak;; g).
Proof.
  intros Hg ls b ls' H. binv H as a ls1 H1.
  eapply enters_leaves; [by eapply keeps_enterbreak|by eapply Hg].
Qed.

#[export] Instance inner_refl : Reflexive inner.
Proof. intros [|fs prev]; [done|]. apply outer_chain_refl. Qed.

#[export] Instance inner_trans : Transitive inner.
Proof.
  intros [|fs1 prev1] [|fs2 prev2] [|fs3 prev3]; simpl; try done.
  intros F12 F23. eapply Forall2_trans; [|done|done].
  intros ???. apply outer_trans.
Qed.

Lemma chained_inner H l l' : chained H l l' -> inner l l'.
Proof. destruct l, l'; simpl; try done. by intros (_ & ? & _). Qed.

Lemma keeps_inner {A} H (m : P A) : keeps (chained H) m -> keeps inner m.
Proof. apply keeps_mono. intros l l'. apply chained_inner. Qed.

Lemma outer_chain_steady prev prev' :
  Forall2 (fun g g' => outer (owned g) (owned g')) prev prev' ->
  chained steady prev prev'.
Proof.
  intros [|g g' t t' (Hs & Hn & _) F]; [done|]. simpl.
  split; [done|]. split; [done|]. intros _. exact Hn.
Qed.

Lemma inner_closes l1 l2 l3 : inner l1 l2 -> closes l2 l3 -> closes l1 l3.
Proof.
  destruct l1 as [|fs1 prev1], l2 as [|fs2 prev2]; simpl; try done.
  intros F H. etrans; [|exact H]. by apply outer_chain_steady.
Qed.

Lemma keeps_closes_bind {A B} (m : P A) (g : A -> P B) :
  keeps inner m -> (forall a, keeps closes (g a)) -> keeps closes (m ≫= g).
Proof.
  intros Hm Hg ls b ls' H. binv H as a ls1 H1.
  eapply inner_closes; [by eapply Hm|by eapply Hg].
Qed.

Lemma keeps_open_close {cfg : Config} {B} (g : P B) :
  keeps closes g -> keeps (chained steady) (open_func;; g).
Proof.
  intros Hg ls b ls' H. binv H as a ls1 H1.
  injection H1 as <- <-. apply Hg in H. exact H.
Qed.

Section CloseThenPush.
Context {cfg : Config} {emt : Emitter} {frm : EmitterFrame}.

Lemma keeps_close_push :
  keeps closes (new_fs ← close_func; pushclosure new_fs).
Proof.
  intros ls u ls' H. binv H as new_fs ls1 Hc.
  apply close_func_inv in Hc as (fs & prev & Hp & Ht & _).
  destruct (ls_fs ls) as [|fs0 prev0] eqn:Hfs.
  { simpl in Ht. rewrite <- Ht in Hp. unfold pushclosure in H.
    binv H as [] ls2 Hl. binv H as fs2 ls3 Hg.
    apply keeps_pushclosure_loop in Hl. rewrite Hp in Hl.
    apply getfs_inv in Hg as (-> & prev2 & Hfs2).
    rewrite Hfs2 in Hl. by destruct Hl. }
  simpl in Ht. rewrite <- Ht in Hp. cbn [closes]. rewrite <- Hp.
  by eapply keeps_pushclosure.
Qed.

End CloseThenPush.

Lemma chained_restore fs0 prev0 fs2 prev2 fs3 :
  chained extends (fs0 :: prev0) (fs2 :: prev2) ->
  owned fs3 = set_o_nactloc (owned fs2) (fs_nactloc fs0) ->
  chained steady (fs0 :: prev0) (fs3 :: prev2).
Proof.
  intros (He & F & N) E. simpl. split; [|split; [done|]].
  - rewrite E. destruct He. split; [|done]. by split.
  - intros Hp. rewrite <- (N Hp). by apply (f_equal o_nupvalues) in E.
Qed.

(** ** The grammar rules *)

Lemma keeps_inner_putfs g : keeps inner (putfs g).
Proof.
  intros ls u ls' H. apply putfs_inv in H as (old & prev & Hold & ->).
  rewrite Hold, ls_fs_set. cbn [inner]. apply outer_chain_refl.
Qed.

Ltac rule_step :=
  lazymatch goal with
  | |- keeps inner (putfs _) => apply keeps_inner_putfs
  | |- keeps (chained steady) (enterbreak ≫= _) => apply keeps_enter_leave
  | |- keeps leaves leavebreak => apply keeps_leavebreak
  | |- keeps leaves (_ ≫= _) => apply keeps_leaves_bind; [|intros ?]
  | |- keeps (chained steady) (open_func ≫= _) => apply keeps_open_close
  | |- keeps closes (close_func ≫= _) => apply keeps_close_push
  | |- keeps closes (_ ≫= _) => apply keeps_closes_bind; [|intros ?]
  | |- keeps_at _ inner (putfs _) =>
      apply keeps_at_putfs; intros ?; cbn [inner]; apply outer_chain_refl
  | |- keeps inner (getfs ≫= _) => keeps_step
  | |- keeps inner (_ ≫= _) => keeps_step
  | |- keeps inner (if _ then _ else _) => keeps_step
  | |- keeps inner (match _ with _ => _ end) => keeps_step
  | |- keeps inner (mret _) => keeps_step
  | |- keeps inner _ =>
      first [ eapply keeps_inner; solve [eauto with keepsdb]
            | eapply keeps_inner, keeps_steady_extends;
              solve [eauto with keepsdb] ]
  | |- _ => keeps_step
  end.

Ltac rule_tac := repeat rule_step.

Section RulesKeep.
Context {cfg : Config} {emt : Emitter} {frm : EmitterFrame}.
Variable body : Z -> Z -> P unit.
Variable chunk : P unit.
Variable constructor : P unit.
Variable expr : expdesc -> P expdesc.
Hypothesis H_body : forall needself line,
  keeps (chained steady) (body needself line).
Hypothesis H_chunk : keeps (chained extends) chunk.
Hypothesis H_constructor : keeps (chained steady) constructor.
Hypothesis H_expr : forall v, keeps (chained steady) (expr v).

#[local] Hint Resolve keeps_string_constant_fs keeps_string_constant_prev
  keeps_adjustlocalvars keeps_code_string keeps_checkname keeps_singlevar
  keeps_adjust_mult_assign keeps_pushupvalue keeps_breakstat
  keeps_pushclosure : keepsdb.
#[local] Hint Resolve H_body H_chunk H_constructor H_expr : keepsdb.

Lemma keeps_exp1 : keeps (chained steady) (exp1 expr).
Proof. unfold exp1. keeps_tac. Qed.
#[local] Hint Resolve keeps_exp1 : keepsdb.

Lemma keeps_explist1_loop turns v n :
  keeps (chained steady) (explist1_loop expr turns v n).
Proof.
  revert v n. induction turns as [|turns IH]; intros v n; simpl; keeps_tac.
Qed.
#[local] Hint Resolve keeps_explist1_loop : keepsdb.

Lemma keeps_explist1 fuel : keeps (chained steady) (explist1 expr fuel).
Proof. unfold explist1. keeps_tac. Qed.
#[local] Hint Resolve keeps_explist1 : keepsdb.

Lemma keeps_funcargs fuel slf :
  keeps (chained steady) (funcargs constructor expr fuel slf).
Proof. unfold funcargs. keeps_tac. Qed.
#[local] Hint Resolve keeps_funcargs : keepsdb.

Lemma keeps_recfield : keeps (chained steady) (recfield expr).
Proof. unfold recfield. keeps_tac. Qed.
#[local] Hint Resolve keeps_recfield : keepsdb.

Lemma keeps_recfields_loop turns t n :
  keeps (chained steady) (recfields_loop expr turns t n).
Proof.
  revert n. induction turns as [|turns IH]; intros n; simpl; keeps_tac.
Qed.
#[local] Hint Resolve keeps_recfields_loop : keepsdb.

Lemma keeps_recfields fuel : keeps (chained steady) (recfields expr fuel).
Proof. unfold recfields. keeps_tac. Qed.
#[local] Hint Resolve keeps_recfields : keepsdb.

Lemma keeps_listfields_loop turns t v n :
  keeps (chained steady) (listfields_loop expr turns t v n).
Proof.
  revert v n. induction turns as [|turns IH]; intros v n; simpl; keeps_tac.
Qed.
#[local] Hint Resolve keeps_listfields_loop : keepsdb.

Lemma keeps_listfields fuel : keeps (chained steady) (listfields expr fuel).
Proof. unfold listfields. keeps_tac. Qed.
#[local] Hint Resolve keeps_listfields : keepsdb.

Lemma keeps_constructor_part fuel :
  keeps (chained steady) (constructor_part expr fuel).
Proof. unfold constructor_part. keeps_tac. Qed.
#[local] Hint Resolve keeps_constructor_part : keepsdb.

Lemma keeps_constructor_def fuel :
  keeps (chained steady) (constructor_def expr fuel).
Proof. unfold constructor_def. keeps_tac. Qed.

Lemma keeps_primaryexp v :
  keeps (chained steady) (primaryexp body constructor expr v).
Proof. unfold primaryexp. keeps_tac. Qed.
#[local] Hint Resolve keeps_primaryexp : keepsdb.

Lemma keeps_simpleexp_loop fuel turns v :
  keeps (chained steady) (simpleexp_loop constructor expr fuel turns v).
Proof.
  revert v. induction turns as [|turns IH]; intros v; simpl; keeps_tac.
Qed.
#[local] Hint Resolve keeps_simpleexp_loop : keepsdb.

Lemma keeps_simpleexp fuel v :
  keeps (chained steady) (simpleexp body constructor expr fuel v).
Proof. unfold simpleexp. keeps_tac. Qed.
#[local] Hint Resolve keeps_simpleexp : keepsdb.

Lemma keeps_subexpr_loop sub limit turns op v :
  (forall v l, keeps (chained steady) (sub v l)) ->
  keeps (chained steady) (subexpr_loop sub limit turns op v).
Proof.
  intros Hsub. revert op v.
  induction turns as [|turns IH]; intros op v; simpl; keeps_tac.
Qed.

Lemma keeps_subexpr fuel depth v limit :
  keeps (chained steady) (subexpr body constructor expr fuel depth v limit).
Proof.
  revert v limit. induction depth as [|depth IH]; intros v limit; simpl;
    [keeps_tac|].
  keeps_tac. apply keeps_subexpr_loop. exact IH.
Qed.
#[local] Hint Resolve keeps_subexpr : keepsdb.

Lemma keeps_expr_def fuel v :
  keeps (chained steady) (expr_def body constructor expr fuel v).
Proof. unfold expr_def. keeps_tac. Qed.

(** A block ends with the active locals it began with. *)
Lemma keeps_block : keeps (chained steady) (block chunk).
Proof.
  intros ls u ls' H. unfold block in H.
  binv H as fs0 ls0 Hg. apply getfs_inv in Hg as (-> & prev0 & Hfs0).
  binv H as [] ls1 Hc. apply H_chunk in Hc.
  binv H as fs1 ls1' Hg. apply getfs_inv in Hg as (-> & prev1 & Hfs1).
  binv H as [] ls2 He. eapply keeps_emit in He; [|frame_tac].
  apply keeps_steady_extends_chain in He.
  binv H as fs2 ls2' Hg. apply getfs_inv in Hg as (-> & prev2 & Hfs2).
  apply removelocalvars_inv in H as (fs2' & prev2' & fs3 & Hfs2' & Hfs3 & E).
  rewrite Hfs2 in Hfs2'. injection Hfs2' as <- <-.
  assert (chained extends (fs0 :: prev0) (fs2 :: prev2)) as K.
  { rewrite <- Hfs0, <- Hfs2. by etrans. }
  rewrite Hfs0, Hfs3. eapply chained_restore; [exact K|].
  rewrite E. f_equal. destruct K as ([Hna _] & _). simpl in Hna. lia.
Qed.
#[local] Hint Resolve keeps_block : keepsdb.

Lemma keeps_assignment fuel depth v nvars :
  keeps (chained steady)
    (assignment body constructor expr fuel depth v nvars).
Proof.
  revert v nvars.
  induction depth as [|depth IH]; intros v nvars; simpl; keeps_tac.
Qed.
#[local] Hint Resolve keeps_assignment : keepsdb.

Lemma keeps_cond v : keeps (chained steady) (cond expr v).
Proof. unfold cond. keeps_tac. Qed.
#[local] Hint Resolve keeps_cond : keepsdb.

Lemma keeps_whilestat line : keeps (chained steady) (whilestat chunk expr line).
Proof. unfold whilestat. rule_tac. Qed.

Lemma keeps_repeatstat line :
  keeps (chained steady) (repeatstat chunk expr line).
Proof. unfold repeatstat. rule_tac. Qed.

(** The body of a [for] loop removes the [nvar] locals it activates. *)
Lemma keeps_forbody nvar prepfor loopfor :
  0 <= nvar ->
  keeps (chained steady) (forbody chunk nvar prepfor loopfor).
Proof.
  intros Hn ls u ls' H. unfold forbody in H.
  binv H as prep ls1 H1. eapply keeps_emit in H1; [|frame_tac].
  binv H as blockinit ls2 H2. eapply keeps_emit in H2; [|frame_tac].
  binv H as [] ls3 H3. apply check_fs in H3.
  binv H as [] ls4 H4. unfold adjustlocalvars in H4.
  binv H4 as fs3 ls3' Hg. apply getfs_inv in Hg as (-> & prev3 & Hfs3).
  apply putfs_inv in H4 as (old & prev' & Hold & ->).
  rewrite Hfs3 in Hold. injection Hold as <- <-.
  binv H as [] ls5 H5. apply keeps_block in H5. rewrite ls_fs_set in H5.
  binv H as j ls6 H6. eapply keeps_emit in H6; [|frame_tac].
  binv H as [] ls7 H7. eapply keeps_emit in H7; [|frame_tac].
  binv H as l ls8 H8. eapply keeps_emit in H8; [|frame_tac].
  binv H as [] ls9 H9. eapply keeps_emit in H9; [|frame_tac].
  apply removelocalvars_inv in H as (fs9 & prev9 & fs10 & Hfs9 & Hfs10 & E).
  etrans; [exact H1|]. etrans; [exact H2|]. rewrite <- H3, Hfs3, Hfs10.
  assert (chained steady
            (Nat.iter (Z.to_nat nvar) adjustlocalvars_step fs3 :: prev3)
            (fs9 :: prev9)) as K.
  { rewrite <- Hfs9. etrans; [exact H5|]. etrans; [exact H6|].
    etrans; [exact H7|]. by etrans. }
  eapply chained_restore.
  - etrans; [|apply (chained_mono steady); [apply steady_extends|exact K]].
    apply chained_head.
    + rewrite adjustlocalvars_iter_owned. apply extends_grow. simpl. lia.
    + pose proof (adjustlocalvars_iter_owned fs3 (Z.to_nat nvar)) as E'.
      by apply (f_equal o_nupvalues) in E'.
  - rewrite E. f_equal. destruct K as ((_ & Hna) & _).
    rewrite adjustlocalvars_iter_owned in Hna. simpl in Hna. lia.
Qed.

Lemma keeps_fornum varname_ :
  keeps (chained steady) (fornum chunk expr varname_).
Proof.
  pose proof (keeps_forbody 3 OP_FORPREP OP_FORLOOP ltac:(lia)).
  pose proof (keeps_new_localvar varname_ 0 ltac:(lia)).
  pose proof (keeps_new_localvarstr "(limit)" 1 ltac:(lia)).
  pose proof (keeps_new_localvarstr "(step)" 2 ltac:(lia)).
  unfold fornum. keeps_tac.
Qed.

Lemma keeps_forlist indexname :
  keeps (chained steady) (forlist chunk expr indexname).
Proof.
  pose proof (keeps_forbody 4 OP_LFORPREP OP_LFORLOOP ltac:(lia)).
  pose proof (keeps_new_localvarstr "(table)" 0 ltac:(lia)).
  pose proof (keeps_new_localvarstr "(index)" 1 ltac:(lia)).
  pose proof (keeps_new_localvar indexname 2 ltac:(lia)).
  pose proof (fun valname => keeps_new_localvar valname 3 ltac:(lia)).
  unfold forlist. keeps_tac.
Qed.
#[local] Hint Resolve keeps_fornum keeps_forlist : keepsdb.

Lemma keeps_forstat line : keeps (chained steady) (forstat chunk expr line).
Proof. unfold forstat. rule_tac. Qed.

Lemma keeps_test_then_block v :
  keeps (chained steady) (test_then_block chunk expr v).
Proof. unfold test_then_block. keeps_tac. Qed.
#[local] Hint Resolve keeps_test_then_block : keepsdb.

Lemma keeps_ifstat_loop turns v escapelist :
  keeps (chained steady) (ifstat_loop chunk expr turns v escapelist).
Proof.
  revert v escapelist.
  induction turns as [|turns IH]; intros v escapelist; simpl; keeps_tac.
Qed.
#[local] Hint Resolve keeps_ifstat_loop : keepsdb.

Lemma keeps_ifstat fuel line :
  keeps (chained steady) (ifstat chunk expr fuel line).
Proof. unfold ifstat. keeps_tac. Qed.

Lemma keeps_localstat_loop turns nvars :
  0 <= nvars -> keeps (chained steady) (localstat_loop turns nvars).
Proof.
  revert nvars. induction turns as [|turns IH]; intros nvars Hn; simpl;
    [keeps_tac|].
  pose proof (fun n => keeps_new_localvar n nvars Hn).
  assert (0 <= nvars + 1) as Hn' by lia. specialize (IH _ Hn').
  keeps_tac.
Qed.

(** A local declaration adds active locals and changes none. *)
Lemma keeps_localstat fuel : keeps (chained extends) (localstat expr fuel).
Proof.
  pose proof (keeps_localstat_loop fuel 0 ltac:(lia)).
  unfold localstat. keeps_tac.
Qed.

Lemma keeps_funcname_loop turns v :
  keeps (chained steady) (funcname_loop turns v).
Proof.
  revert v. induction turns as [|turns IH]; intros v; simpl; keeps_tac.
Qed.
#[local] Hint Resolve keeps_funcname_loop : keepsdb.

Lemma keeps_funcname fuel v : keeps (chained steady) (funcname fuel v).
Proof. unfold funcname. keeps_tac. Qed.
#[local] Hint Resolve keeps_funcname : keepsdb.

Lemma keeps_funcstat fuel line :
  keeps (chained steady) (funcstat body fuel line).
Proof. unfold funcstat. keeps_tac. Qed.

Lemma keeps_exprstat fuel :
  keeps (chained steady) (exprstat body constructor expr fuel).
Proof. unfold exprstat. keeps_tac. Qed.

Lemma keeps_retstat fuel : keeps (chained steady) (retstat expr fuel).
Proof. unfold retstat. keeps_tac. Qed.

#[local] Hint Resolve keeps_ifstat keeps_whilestat keeps_forstat
  keeps_repeatstat keeps_funcstat keeps_exprstat keeps_retstat
  keeps_localstat : keepsdb.

Lemma keeps_statement fuel :
  keeps (chained extends) (statement body chunk constructor expr fuel).
Proof. unfold statement. keeps_tac. Qed.
#[local] Hint Resolve keeps_statement : keepsdb.

(** Only a local declaration changes the number of active locals. *)
Lemma keeps_statement_steady fuel ls islast ls' :
  tk_token (ls_t ls) <> TK_LOCAL ->
  statement body chunk constructor expr fuel ls = Ok (islast, ls') ->
  chained steady (ls_fs ls) (ls_fs ls').
Proof.
  intros Hloc. unfold statement. rewrite bind_get. cbv zeta.
  apply Z.eqb_neq in Hloc. rewrite Hloc.
  repeat match goal with
         | |- (if ?c then _ else _) _ = _ -> _ => destruct c
         end.
  all: match goal with
       | |- ?m ?l = _ -> _ =>
           let K := fresh in
           assert (keeps (chained steady) m) as K by keeps_tac;
           apply K
       end.
Qed.

Lemma keeps_parlist_loop turns nparams :
  0 <= nparams -> keeps (chained steady) (parlist_loop turns nparams).
Proof.
  revert nparams. induction turns as [|turns IH]; intros nparams Hn;
    [simpl; keeps_tac|].
  intros ls r ls' H. cbn [parlist_loop] in H. rewrite bind_token in H.
  binv H as [np d] ls1 H1.
  assert (0 <= np /\ chained steady (ls_fs ls) (ls_fs ls1)) as [Hnp K1].
  { destruct (_ =? TK_DOTS).
    - binv H1 as [] ls2 H2. apply mret_inv in H1 as [[= -> ->] ->].
      split; [done|]. apply next_fs in H2. by rewrite H2.
    - destruct (_ =? TK_NAME); [|done].
      binv H1 as n ls2 H2. binv H1 as [] ls3 H3.
      apply mret_inv in H1 as [[= -> ->] ->]. split; [lia|].
      apply str_checkname_fs in H2. rewrite <- H2.
      by eapply keeps_new_localvar. }
  etrans; [exact K1|]. specialize (IH _ Hnp).
  revert H. generalize ls1 r ls'.
  change (keeps (chained steady)
            (if d =? 0
             then c ← optional (l_c ",");
                  if negb (c =? 0) then parlist_loop turns np
                  else mret (np, d)
             else mret (np, d))).
  keeps_tac.
Qed.

Lemma keeps_parlist fuel : keeps (chained labelled) (parlist fuel).
Proof.
  pose proof (keeps_parlist_loop fuel 0 ltac:(lia)).
  pose proof keeps_code_params.
  unfold parlist. keeps_tac.
Qed.

(** A function body leaves the enclosing function with the locals, the
    upvalues and the labels it had. *)
Lemma keeps_body_def fuel needself line :
  keeps (chained steady) (body_def chunk fuel needself line).
Proof.
  pose proof (keeps_parlist fuel).
  pose proof (keeps_new_localvarstr "self" 0 ltac:(lia)).
  unfold body_def. rule_tac.
Qed.

Lemma keeps_chunk_loop fuel turns islast :
  keeps (chained extends)
    (chunk_loop body chunk constructor expr fuel turns islast).
Proof.
  revert islast.
  induction turns as [|turns IH]; intros islast; simpl; keeps_tac.
Qed.

Lemma keeps_chunk_def fuel :
  keeps (chained extends) (chunk_def body chunk constructor expr fuel).
Proof. apply keeps_chunk_loop. Qed.

End RulesKeep.

(** ** The whole grammar *)

Section GrammarKeeps.
Context {cfg : Config} {emt : Emitter} {frm : EmitterFrame}.

Lemma keeps_grammar fuel :
  (forall needself line,
     keeps (chained steady) (g_body (grammar fuel) needself line))
  /\ keeps (chained extends) (g_chunk (grammar fuel))
  /\ keeps (chained steady) (g_constructor (grammar fuel))
  /\ forall v, keeps (chained steady) (g_expr (grammar fuel) v).
Proof.
  induction fuel as [|fuel (Hb & Hc & Hk & He)]; simpl.
  { split_and!; intros; apply keeps_timeout. }
  split_and!; intros.
  - by apply keeps_body_def.
  - by apply keeps_chunk_def.
  - by apply keeps_constructor_def.
  - by apply keeps_expr_def.
Qed.

Lemma keeps_the_statement fuel fuel' :
  keeps (chained extends)
    (statement (body fuel) (chunk fuel) (constructor fuel) (expr fuel) fuel').
Proof.
  destruct (keeps_grammar fuel) as (Hb & Hc & Hk & He).
  by apply keeps_statement.
Qed.

End GrammarKeeps.

(** Name resolution sees the active slots and their names only. *)
Lemma steady_search_actloc fs fs' n :
  wf_actloc fs -> steady (owned fs) (owned fs') ->
  search_actloc fs' n (Z.to_nat (fs_nactloc fs'))
  = search_actloc fs n (Z.to_nat (fs_nactloc fs)).
Proof.
  intros Hwf [E Hna].
  pose proof (ext_actloc _ _ E) as Hact. pose proof (ext_names _ _ E) as Hnm.
  clear E. simpl in *. rewrite Hna.
  apply search_actloc_names. intros i Hi. unfold actloc_name.
  rewrite Hact by lia.
  destruct (fs_actloc fs !! i) as [a|] eqn:Ha; [|done]. simpl.
  specialize (Hnm a ltac:(eapply Hwf; [|done]; lia)).
  rewrite !lookup_fmap in Hnm.
  destruct (f_locvars (fs_f fs') !! a), (f_locvars (fs_f fs) !! a);
    simpl in *; congruence.
Qed.

Lemma outer_search_chain prev prev' n v level :
  Forall wf_actloc prev ->
  Forall2 (fun g g' => outer (owned g) (owned g')) prev prev' ->
  search_chain prev' n v level = search_chain prev n v level.
Proof.
  intros Hwf F. revert level Hwf.
  induction F as [|g g' t t' Ho F IH]; intros level Hwf; [done|].
  apply Forall_cons in Hwf as [Hg Ht]. simpl.
  rewrite (steady_search_actloc g g') by (done || by apply outer_steady).
  by rewrite IH.
Qed.

Lemma steady_search_local ls ls' n v :
  Forall wf_actloc (ls_fs ls) ->
  chained steady (ls_fs ls) (ls_fs ls') ->
  search_local ls' n v = search_local ls n v.
Proof.
  unfold search_local. destruct (ls_fs ls) as [|fs prev].
  { by destruct (ls_fs ls'). }
  destruct (ls_fs ls') as [|fs' prev']; [done|].
  intros [Hfs Hprev]%Forall_cons (Hs & F & _). simpl.
  rewrite (steady_search_actloc fs fs') by done.
  by rewrite (outer_search_chain prev prev').
Qed.

Section Scope.
Context {cfg : Config} {emt : Emitter} {frm : EmitterFrame}.

(** X9.  Only a local declaration changes what names resolve to.  With a
    bytecode writer that writes none of the fields the parser owns, and
    in a chain of functions whose active slots name registered records:
    after a statement that does not begin with [local], and after an
    expression, every name resolves as it did before.  The locals that a
    block, a loop or a function body declares are gone when the
    statement ends, and the locals of the enclosing scopes are where
    they were. *)
Theorem statement_keeps_scope (fuel fuel' : nat) (ls : LexState) :
  Forall wf_actloc (ls_fs ls) ->
  (forall islast ls',
     tk_token (ls_t ls) <> TK_LOCAL ->
     statement (body fuel) (chunk fuel) (constructor fuel) (expr fuel) fuel'
       ls = Ok (islast, ls') ->
     forall n v, search_local ls' n v = search_local ls n v)
  /\ (forall v0 v1 ls',
        expr fuel v0 ls = Ok (v1, ls') ->
        forall n v, search_local ls' n v = search_local ls n v).
Proof.
  intros Hwf. destruct (keeps_grammar fuel) as (Hb & Hc & Hk & He).
  split.
  - intros islast ls' Hloc H n v. apply steady_search_local; [done|].
    by eapply keeps_statement_steady.
  - intros v0 v1 ls' H n v. apply steady_search_local; [done|].
    by eapply He.
Qed.

(** X10.  Loops nest properly.  With such a bytecode writer, a statement
    leaves the function with the break labels of the loops it was in: as
    many as before, with the same stack levels, in the function being
    compiled and in each enclosing function.  So every label that
    [enterbreak] pushes is taken off by the [leavebreak] of its loop. *)
Theorem statement_keeps_labels (fuel fuel' : nat) (ls : LexState)
    (islast : Z) (ls' : LexState) :
  statement (body fuel) (chunk fuel) (constructor fuel) (expr fuel) fuel' ls
  = Ok (islast, ls') ->
  Forall2 (fun g g' => map bl_stacklevel (fs_bl g')
                       = map bl_stacklevel (fs_bl g))
    (ls_fs ls) (ls_fs ls').
Proof.
  intros H. apply keeps_the_statement in H.
  destruct (ls_fs ls) as [|fs prev], (ls_fs ls') as [|fs' prev'];
    try done.
  destruct H as (He & F & _). constructor.
  - by destruct He.
  - eapply Forall2_impl; [exact F|]. intros g g' [[[] _] _]. done.
Qed.

(** X11.  What the parser has numbered keeps its number.  With such a
    bytecode writer, after a statement the function being compiled still
    has, at the same indices, the string constants, the nested
    prototypes, the upvalues and the names of the registered locals it
    had, and the active slots it had name the same records: the statement
    only adds to them.  So an index that was given to the bytecode writer
    as an operand still denotes the same thing. *)
Theorem statement_keeps_indices (fuel fuel' : nat) (ls : LexState)
    (fs : FuncState) (prev : list FuncState) (islast : Z) (ls' : LexState) :
  ls_fs ls = fs :: prev ->
  statement (body fuel) (chunk fuel) (constructor fuel) (expr fuel) fuel' ls
  = Ok (islast, ls') ->
  exists fs' prev',
    ls_fs ls' = fs' :: prev' /\ length prev' = length prev
    /\ fs_nkstr fs <= fs_nkstr fs'
    /\ (forall c, c < fs_nkstr fs ->
          f_kstr (fs_f fs') !! c = f_kstr (fs_f fs) !! c)
    /\ fs_nkproto fs <= fs_nkproto fs'
    /\ (forall c, c < fs_nkproto fs ->
          f_kproto (fs_f fs') !! c = f_kproto (fs_f fs) !! c)
    /\ f_nupvalues (fs_f fs) <= f_nupvalues (fs_f fs')
    /\ (forall i, i < f_nupvalues (fs_f fs) ->
          fs_upvalues fs' !! i = fs_upvalues fs !! i)
    /\ fs_nlocvars fs <= fs_nlocvars fs'
    /\ (forall a, a < fs_nlocvars fs ->
          varname <$> f_locvars (fs_f fs') !! a
          = varname <$> f_locvars (fs_f fs) !! a)
    /\ fs_nactloc fs <= fs_nactloc fs'
    /\ (forall i, i < fs_nactloc fs ->
          fs_actloc fs' !! i = fs_actloc fs !! i).
Proof.
  intros Hfs H. apply keeps_the_statement in H. rewrite Hfs in H.
  destruct (ls_fs ls') as [|fs' prev']; [done|].
  destruct H as (E & F & _). pose proof (ext_names _ _ E) as Hnm.
  destruct E. exists fs', prev'. simpl in *.
  split_and!; try done.
  - symmetry. by eapply Forall2_length.
  - intros a Ha. rewrite <- !lookup_fmap. by apply Hnm.
Qed.

End Scope.

(** ** The main function *)

Section MainFunction.
Context {cfg : Config} {emt : Emitter} {frm : EmitterFrame}.

Lemma emit_owned {A} (op : LexState -> FuncState -> Res (A * FuncState))
    ls fs prev a ls' :
  (forall ls fs, untouched fs (op ls fs)) ->
  ls_fs ls = fs :: prev ->
  emit op ls = Ok (a, ls') ->
  exists fs', ls_fs ls' = fs' :: prev /\ owned fs' = owned fs.
Proof.
  intros Hop Hfs H.
  apply emit_inv in H as (fs0 & prev0 & fs' & Hfs0 & Hop' & ->).
  rewrite Hfs in Hfs0. injection Hfs0 as <- <-.
  specialize (Hop ls fs). rewrite Hop' in Hop. by exists fs'.
Qed.

(** What [close_func] keeps of the function it closes. *)
Lemma close_func_owned ls fs0 prev fs' ls' :
  ls_fs ls = fs0 :: prev ->
  close_func ls = Ok (fs', ls') ->
  f_numparams (fs_f fs') = f_numparams (fs_f fs0)
  /\ f_is_vararg (fs_f fs') = f_is_vararg (fs_f fs0)
  /\ f_source (fs_f fs') = f_source (fs_f fs0)
  /\ f_lineDefined (fs_f fs') = f_lineDefined (fs_f fs0)
  /\ f_nupvalues (fs_f fs') = f_nupvalues (fs_f fs0).
Proof.
  intros Hfs H. unfold close_func in H.
  binv H as fs ls0 Hg. apply getfs_inv in Hg as (-> & prev0 & Hfs0).
  binv H as pc ls1 He1.
  eapply emit_owned in He1 as (fs1 & Hfs1 & E1); [|frame_tac|exact Hfs].
  binv H as l ls2 He2.
  eapply emit_owned in He2 as (fs2 & Hfs2 & E2); [|frame_tac|exact Hfs1].
  binv H as fs2' ls2' Hg. apply getfs_inv in Hg as (-> & prev2 & Hfs2').
  binv H as [] ls3 Hr.
  apply removelocalvars_inv in Hr as (fs2'' & prev2' & fs3 & Hfs2'' & Hfs3 & E).
  rewrite Hfs2 in Hfs2''. injection Hfs2'' as <- <-.
  binv H as fs3' ls3' Hg. apply getfs_inv in Hg as (-> & prev3 & Hfs3').
  rewrite Hfs3 in Hfs3'. injection Hfs3' as <- <-.
  binv H as ls4 ls4' Hget. injection Hget as <- <-.
  binv H as [] ls5 Hput. injection Hput as <-.
  apply mret_inv in H as [-> ->].
  rewrite E2, E1 in E.
  pose proof (f_equal o_numparams E) as X1.
  pose proof (f_equal o_is_vararg E) as X2.
  pose proof (f_equal o_source E) as X3.
  pose proof (f_equal o_lineDefined E) as X4.
  pose proof (f_equal o_nupvalues E) as X5.
  simpl in *. by split_and!.
Qed.

(** X12.  The main function is a function of no parameter that has no
    upvalue.  With a bytecode writer that writes none of the fields the
    parser owns, the prototype that [luaY_parser] returns is not vararg,
    has [numparams = 0] and the name of the chunk as its source, as
    [open_func] set them, and the [nupvalues] and [lineDefined] of a new
    prototype: no rule has added an upvalue to it (the assertion
    [nupvalues == 0] at the end of [luaY_parser], for a [luaF_newproto]
    that starts at 0). *)
Theorem main_function_shape (fuel : nat) (L : gmap string Z)
    (z : list LexItem) (zname : TString) (f : Proto) :
  luaY_parser fuel L z zname = Ok f ->
  f_numparams f = 0 /\ f_is_vararg f = 0 /\ f_source f = zname
  /\ f_nupvalues f = f_nupvalues luaF_newproto
  /\ f_lineDefined f = f_lineDefined luaF_newproto.
Proof.
  unfold luaY_parser. cbv zeta. intros H.
  destruct ((open_func;; _) _) as [[f' ls_end]| |] eqn:HM; [|done..].
  simpl in H. injection H as ->.
  binv HM as [] ls1 Ho. injection Ho as <-.
  binv HM as [] ls2 Hn. apply next_fs in Hn.
  binv HM as [] ls3 Hc. apply keeps_grammar in Hc.
  binv HM as tok ls3' Ht. injection Ht as <- <-.
  binv HM as [] ls4 Hk. apply check_condition_inv in Hk as [_ ->].
  binv HM as funcstate ls5 Hcl. apply mret_inv in HM as [-> ->].
  rewrite Hn, ls_fs_set in Hc.
  destruct (ls_fs ls3) as [|fs3 [|? ?]] eqn:Hfs3; try done.
  2: { destruct Hc as (_ & F & _). by apply Forall2_nil_inv_l in F. }
  destruct Hc as ([] & _ & Hnup). specialize (Hnup eq_refl).
  destruct (close_func_owned _ _ _ _ _ Hfs3 Hcl) as (-> & -> & -> & -> & ->).
  simpl in *. by split_and!.
Qed.

End MainFunction.

(** ** Function bodies *)

Section FunctionBodies.
Context {cfg : Config} {emt : Emitter} {frm : EmitterFrame}.

Lemma body_def_head chunk fuel needself line ls :
  body_def chunk fuel needself line ls
  = (body_head fuel needself line;;
     chunk;;
     check_match TK_END TK_FUNCTION line;;
     new_fs ← close_func;
     pushclosure new_fs) ls.
Proof.
  unfold body_def, body_head. symmetry.
  repeat (rewrite bind_assoc; apply bind_ext; intros).
  reflexivity.
Qed.

Lemma keeps_parameters fuel needself :
  keeps (chained labelled)
    (check (l_c "(");;
     (if negb (needself =? 0) then
        new_localvarstr "self" 0;;
        adjustlocalvars 1
      else mret tt);;
     parlist fuel;;
     check (l_c ")")).
Proof.
  pose proof (keeps_new_localvarstr "self" 0 ltac:(lia)).
  pose proof (keeps_parlist fuel).
  pose proof keeps_adjustlocalvars.
  keeps_tac.
Qed.

(** The function that [body_head] leaves open has no break label, and
    the line and the source it was given. *)
Lemma body_head_inv fuel needself line ls ls1 :
  body_head fuel needself line ls = Ok (tt, ls1) ->
  exists fs1 prev1,
    ls_fs ls1 = fs1 :: prev1 /\ fs_bl fs1 = []
    /\ f_lineDefined (fs_f fs1) = line
    /\ f_source (fs_f fs1) = ls_source ls
    /\ Forall2 (fun g g' => outer (owned g) (owned g')) (ls_fs ls) prev1.
Proof.
  intros H. unfold body_head in H.
  binv H as [] ls2 Ho. injection Ho as <-.
  binv H as fs ls2 Hg. apply getfs_inv in Hg as (-> & prev & Hfs).
  rewrite ls_fs_set in Hfs. injection Hfs as <- <-.
  binv H as [] ls3 Hp. apply putfs_inv in Hp as (old & prev' & Hold & ->).
  rewrite ls_fs_set in Hold. injection Hold as <- <-.
  apply keeps_parameters in H. rewrite ls_fs_set in H.
  destruct (ls_fs ls1) as [|fs1 prev1]; [done|].
  destruct H as ((Hl & Hd & Hs) & F & _). exists fs1, prev1.
  split_and!; try done.
  unfold levels in Hl. simpl in Hl. by apply map_eq_nil in Hl.
Qed.

(** X13.  A [break] cannot leave a function.  With a bytecode writer that
    writes none of the fields the parser owns: when the block of a
    function body begins with [break], [body] fails with "no loop to
    break", in whatever loops of the enclosing functions the function is
    defined.  The function that [open_func] opens has no break label, and
    parsing the parameters gives it none. *)
Theorem break_stops_at_function (fuel : nat) (needself line : Z)
    (ls ls1 : LexState) :
  body_head (S (S fuel)) needself line ls = Ok (tt, ls1) ->
  tk_token (ls_t ls1) = TK_BREAK ->
  body (S (S (S fuel))) needself line ls = Err (E_error "no loop to break").
Proof.
  intros Hh Ht. unfold body.
  change (g_body (grammar (S (S (S fuel)))))
    with (body_def (chunk (S (S fuel))) (S (S fuel))).
  rewrite body_def_head, (bind_Ok _ _ _ _ _ Hh). apply bind_Err.
  unfold chunk. cbn [grammar g_chunk].
  destruct (body_head_inv _ _ _ _ _ Hh) as (fs1 & prev1 & Hfs & Hbl & _).
  unfold chunk_def. cbn [chunk_loop]. rewrite bind_token, Ht.
  change (block_follow TK_BREAK) with false. cbn [Z.eqb andb negb].
  apply bind_Err. unfold statement. rewrite bind_get. cbv zeta. rewrite Ht.
  eval_eqb. cbv iota. apply bind_Err.
  unfold breakstat. rewrite (bind_Ok _ _ _ _ _ (getfs_eq _ _ _ Hfs)).
  by rewrite Hbl.
Qed.

Lemma cast_short_small x : 0 <= x < 2 ^ 15 -> cast_short x = x.
Proof.
  intros Hx. unfold cast_short. rewrite Z.mod_small; lia.
Qed.

(** X14.  What [code_params] records.  With such a bytecode writer, in a
    function with [nactloc >= 0] active locals ([self], if the function is
    a method) and [nparams >= 0] declared parameters, and for a limit
    [MAXPARAMS] that a [short] holds: when [code_params] returns, the
    parameters are active, [numparams] is their number, [self] included,
    which is at most [MAXPARAMS], and [is_vararg] is the flag it was
    given; a vararg function has one active local more, named [arg], in
    the slot after the parameters. *)
Theorem code_params_records (nparams dots : Z) (ls : LexState)
    (fs : FuncState) (prev : list FuncState) (ls' : LexState) :
  ls_fs ls = fs :: prev ->
  0 <= nparams -> 0 <= fs_nactloc fs -> MAXPARAMS < 2 ^ 15 ->
  code_params nparams dots ls = Ok (tt, ls') ->
  exists fs',
    ls_fs ls' = fs' :: prev
    /\ f_numparams (fs_f fs') = fs_nactloc fs + nparams
    /\ fs_nactloc fs + nparams <= MAXPARAMS
    /\ f_is_vararg (fs_f fs') = dots
    /\ (dots = 0 -> fs_nactloc fs' = fs_nactloc fs + nparams)
    /\ (dots <> 0 ->
        fs_nactloc fs' = fs_nactloc fs + nparams + 1
        /\ actloc_name fs' (fs_nactloc fs + nparams) = Some "arg"%string).
Proof.
  intros Hfs Hn Hna Hmax H. unfold code_params in H.
  binv H as [] ls1 Ha. unfold adjustlocalvars in Ha.
  binv Ha as fs0 ls0 Hg. apply getfs_inv in Hg as (-> & prev0 & Hfs0).
  rewrite Hfs in Hfs0. injection Hfs0 as <- <-.
  apply putfs_inv in Ha as (old & prev' & Hold & ->).
  rewrite Hfs in Hold. injection Hold as <- <-.
  set (fs1 := Nat.iter (Z.to_nat nparams) adjustlocalvars_step fs) in *.
  pose proof (adjustlocalvars_iter_owned fs (Z.to_nat nparams)) as E1.
  fold fs1 in E1. rewrite Z2Nat.id in E1 by done.
  assert (fs_nactloc fs1 = fs_nactloc fs + nparams) as Hna1
    by apply (f_equal o_nactloc E1).
  binv H as fs1' ls1' Hg. apply getfs_inv in Hg as (-> & prev1 & Hfs1).
  rewrite ls_fs_set in Hfs1. injection Hfs1 as <- <-.
  binv H as [] ls2 Hl. apply luaX_checklimit_inv in Hl as [Hlim ->].
  binv H as [] ls3 Hp. apply putfs_inv in Hp as (old & prev' & Hold & ->).
  rewrite ls_fs_set in Hold. injection Hold as <- <-.
  rewrite cast_short_small in H by lia.
  set (fs2 := set_fs_f fs1 _) in *.
  binv H as [] ls4 Hd.
  binv H as fs4 ls4' Hg. apply getfs_inv in Hg as (-> & prev4 & Hfs4).
  destruct (Z.eqb_spec dots 0) as [->|Hdots]; simpl in Hd.
  - apply mret_inv in Hd as [_ ->]. rewrite !ls_fs_set in Hfs4.
    injection Hfs4 as <- <-.
    eapply emit_owned in H as (fs' & Hfs' & E);
      [|frame_tac|by rewrite !ls_fs_set].
    exists fs'. split; [done|].
    pose proof (f_equal o_numparams E) as X1.
    pose proof (f_equal o_is_vararg E) as X2.
    pose proof (f_equal o_nactloc E) as X3. simpl in *.
    split_and!; try done; lia.
  - binv Hd as [] ls5 Hv.
    destruct (new_localvar_inv "arg" 0
                (set_ls_fs (set_ls_fs ls (fs1 :: prev)) (fs2 :: prev))
                fs2 prev tt ls5 eq_refl Hv)
      as (size & lv & Hlv & ->).
    unfold adjustlocalvars in Hd.
    binv Hd as fs5 ls5' Hg. apply getfs_inv in Hg as (-> & prev5 & Hfs5).
    rewrite !ls_fs_set in Hfs5. injection Hfs5 as <- <-.
    apply putfs_inv in Hd as (old & prev' & Hold & ->).
    rewrite !ls_fs_set in Hold. injection Hold as <- <-.
    rewrite !ls_fs_set in Hfs4. injection Hfs4 as <- <-.
    eapply emit_owned in H as (fs' & Hfs' & E);
      [|frame_tac|by rewrite !ls_fs_set].
    exists fs'. split; [done|].
    change (Z.to_nat 1) with 1%nat in E. cbn [Nat.iter] in E.
    rewrite adjustlocalvars_step_owned in E.
    pose proof (f_equal o_numparams E) as X1.
    pose proof (f_equal o_is_vararg E) as X2.
    pose proof (f_equal o_nactloc E) as X3.
    pose proof (f_equal o_actloc E) as X4.
    pose proof (f_equal o_names E) as X5. simpl in *.
    split_and!; try done; try lia. intros _. split; [lia|].
    unfold actloc_name. rewrite X4, Z.add_0_r, Hna1, lookup_insert_eq. simpl.
    apply (f_equal (fun m => m !! fs_nlocvars fs1)) in X5.
    rewrite !lookup_fmap, lookup_insert_eq in X5. simpl in X5.
    destruct (f_locvars (fs_f fs') !! fs_nlocvars fs1); simpl in *;
      congruence.
Qed.

Lemma pushclosure_loop_owned func i count ls fs prev u ls' :
  ls_fs ls = fs :: prev ->
  pushclosure_loop func i count ls = Ok (u, ls') ->
  exists fs', ls_fs ls' = fs' :: prev /\ owned fs' = owned fs.
Proof.
  revert i ls fs. induction count as [|count IH]; intros i ls fs Hfs H.
  { apply mret_inv in H as [_ ->]. by exists fs. }
  cbn [pushclosure_loop] in H. binv H as v ls1 He.
  eapply emit_owned in He as (fs1 & Hfs1 & E1); [|frame_tac|exact Hfs].
  destruct (IH _ _ _ Hfs1 H) as (fs' & Hfs' & E). exists fs'.
  split; [done|congruence].
Qed.

(** [pushclosure] stores the prototype of the function it is given as the
    next nested prototype of the function being compiled. *)
Lemma pushclosure_inv func ls fs prev u ls' :
  ls_fs ls = fs :: prev ->
  pushclosure func ls = Ok (u, ls') ->
  exists fs',
    ls_fs ls' = fs' :: prev
    /\ fs_nkproto fs' = fs_nkproto fs + 1
    /\ f_kproto (fs_f fs') !! fs_nkproto fs = Some (fs_f func)
    /\ forall c, c < fs_nkproto fs ->
         f_kproto (fs_f fs') !! c = f_kproto (fs_f fs) !! c.
Proof.
  intros Hfs H. unfold pushclosure in H.
  binv H as [] ls1 Hl.
  destruct (pushclosure_loop_owned _ _ _ _ _ _ _ _ Hfs Hl)
    as (fs1 & Hfs1 & E1).
  binv H as fs1' ls1' Hg. apply getfs_inv in Hg as (-> & prev1 & Hfs1').
  rewrite Hfs1 in Hfs1'. injection Hfs1' as <- <-.
  binv H as size ls2 Hs.
  assert (ls2 = ls1) as ->.
  { destruct (luaM_growvector _ _ _ _); simpl in Hs; by simplify_eq. }
  binv H as [] ls3 Hp. apply putfs_inv in Hp as (old & prev' & Hold & ->).
  rewrite Hfs1 in Hold. injection Hold as <- <-.
  binv H as pc ls4 He. apply mret_inv in H as [_ ->].
  eapply emit_owned in He as (fs' & Hfs' & E);
    [|frame_tac|by rewrite ls_fs_set].
  exists fs'. split; [done|].
  pose proof (f_equal o_nkproto E) as X1.
  pose proof (f_equal o_kproto E) as X2.
  pose proof (f_equal o_nkproto E1) as X3.
  pose proof (f_equal o_kproto E1) as X4. simpl in *.
  rewrite X1, X2, <- X3, <- X4. split_and!; [done| |].
  - by rewrite lookup_insert_eq.
  - intros c Hc. by rewrite lookup_insert_ne by lia.
Qed.

(** X15.  A function body adds one prototype to the enclosing function.
    With a bytecode writer that writes none of the fields the parser
    owns: when [body] returns, no function has been left open, and the
    function being compiled has exactly one nested prototype more, stored
    after the ones it had, which keep their indices; the new prototype
    has the line it was given as [lineDefined] and the source of the
    chunk. *)
Theorem body_adds_prototype (fuel : nat) (needself line : Z)
    (ls : LexState) (fs : FuncState) (prev : list FuncState)
    (ls' : LexState) :
  ls_fs ls = fs :: prev ->
  body fuel needself line ls = Ok (tt, ls') ->
  exists fs' prev' f,
    ls_fs ls' = fs' :: prev' /\ length prev' = length prev
    /\ fs_nkproto fs' = fs_nkproto fs + 1
    /\ f_kproto (fs_f fs') !! fs_nkproto fs = Some f
    /\ (forall c, c < fs_nkproto fs ->
          f_kproto (fs_f fs') !! c = f_kproto (fs_f fs) !! c)
    /\ f_lineDefined f = line
    /\ f_source f = ls_source ls.
Proof.
  intros Hfs H. destruct fuel as [|fuel]; [done|].
  unfold body in H. cbn [grammar g_body] in H.
  rewrite body_def_head in H.
  binv H as [] ls1 Hh.
  destruct (body_head_inv _ _ _ _ _ Hh)
    as (fs1 & prev1 & Hfs1 & _ & Hd & Hs & F1).
  binv H as [] ls2 Hc.
  apply (proj1 (proj2 (keeps_grammar fuel))) in Hc.
  binv H as [] ls3 Hm. apply check_match_fs in Hm.
  binv H as new_fs ls4 Hcl.
  rewrite Hfs1, <- Hm in Hc.
  destruct (ls_fs ls3) as [|fs3 prev3] eqn:Hfs3; [done|].
  destruct Hc as (E2 & F2 & _).
  pose proof (ext_lineDefined _ _ E2) as Hd2.
  pose proof (ext_source _ _ E2) as Hs2. clear E2.
  destruct (close_func_owned _ _ _ _ _ Hfs3 Hcl) as (_ & _ & Hs' & Hd' & _).
  apply close_func_inv in Hcl as (? & prev4 & Hp4 & Ht4 & _).
  rewrite Hfs3 in Ht4. simpl in Ht4. rewrite <- Ht4 in Hp4.
  rewrite Hfs in F1.
  assert (Forall2 (fun g g' => outer (owned g) (owned g')) (fs :: prev) prev3)
    as F.
  { eapply Forall2_trans; [|exact F1|exact F2]. intros ???. apply outer_trans. }
  destruct prev3 as [|g t]; [by apply Forall2_nil_inv_r in F|].
  apply Forall2_cons in F as [([E _] & _ & Hnk) Ft].
  pose proof (ext_kproto _ _ E) as Hkp. destruct E.
  destruct (pushclosure_inv _ _ _ _ _ _ Hp4 H) as (fs' & Hfs' & Hn & Hk & Hb).
  exists fs', t, (fs_f new_fs). simpl in *.
  split_and!; try done; try congruence.
  - symmetry. by eapply Forall2_length.
  - intros c Hc. rewrite Hb by lia. by apply Hkp.
Qed.

End FunctionBodies.

(** ** Examples *)

(** The statement [while x do local y = 1 end], the whole input. *)
Lemma statement_keeps_scope_witness :
  let z := [T TK_WHILE 1; NAME "x" 1; T TK_DO 1; T TK_LOCAL 1; NAME "y" 1;
            C "=" 1; NUMBER 1 1; T TK_END 1] in
  let stat := statement (cfg := Writer.config) (emt := Writer.emitter)
                (body 6) (chunk 6) (constructor 6) (expr 6) 6 in
  search_local (after stat (start z)) "y" expdesc_auto
  = search_local (start z) "y" expdesc_auto.
Proof.
  intros z stat.
  apply (proj1 (statement_keeps_scope (frm := Writer_frame) 6 6 (start z)
                  ltac:(repeat constructor; intros i a Hi; simpl in Hi; lia))
           0 (after stat (start z))).
  - vm_compute. discriminate.
  - vm_compute. reflexivity.
Defined.

Lemma statement_keeps_labels_witness :
  let z := [T TK_WHILE 1; NAME "x" 1; T TK_DO 1; T TK_BREAK 1; T TK_END 1] in
  let stat := statement (cfg := Writer.config) (emt := Writer.emitter)
                (body 6) (chunk 6) (constructor 6) (expr 6) 6 in
  Forall2 (fun g g' => map bl_stacklevel (fs_bl g')
                       = map bl_stacklevel (fs_bl g))
    (ls_fs (start z)) (ls_fs (after stat (start z))).
Proof.
  intros z stat.
  apply (statement_keeps_labels (frm := Writer_frame) 6 6 (start z) 0
           (after stat (start z))).
  vm_compute. reflexivity.
Defined.

(** The statement [x = "a"], after which the function has the two string
    constants [x] and [a]. *)
Lemma statement_keeps_indices_witness :
  let z := [NAME "x" 1; C "=" 1; STRING "a" 1] in
  let stat := statement (cfg := Writer.config) (emt := Writer.emitter)
                (body 6) (chunk 6) (constructor 6) (expr 6) 6 in
  exists fs fs',
    ls_fs (start z) = [fs] /\ ls_fs (after stat (start z)) = [fs']
    /\ fs_nkstr fs <= fs_nkstr fs' /\ fs_nactloc fs <= fs_nactloc fs'.
Proof.
  intros z stat.
  destruct (ls_fs (start z)) as [|fs prev] eqn:Hfs; [by vm_compute in Hfs|].
  destruct prev as [|? ?]; [|by vm_compute in Hfs].
  rewrite <- Hfs.
  assert (stat (start z) = Ok (0, after stat (start z))) as Hs
    by (vm_compute; reflexivity).
  destruct (statement_keeps_indices (frm := Writer_frame) 6 6 (start z)
              fs [] 0 (after stat (start z)) Hfs Hs)
    as (fs' & prev' & Hfs' & Hl & Hk & _ & _ & _ & _ & _ & _ & _ & Hn & _).
  destruct prev'; [|discriminate Hl].
  exists fs, fs'. split_and!; assumption.
Defined.

(** The program [f = function (a) return a end], whose main function has
    no parameter and no upvalue. *)
Lemma main_function_shape_witness :
  let z := [NAME "f" 1; C "=" 1; T TK_FUNCTION 1; C "(" 1; NAME "a" 1;
            C ")" 1; T TK_RETURN 1; NAME "a" 1; T TK_END 1] in
  exists f,
    luaY_parser (cfg := Writer.config) (emt := Writer.emitter) 8 ∅ z "chunk"
    = Ok f
    /\ f_numparams f = 0 /\ f_is_vararg f = 0 /\ f_source f = "chunk"%string
    /\ f_nupvalues f = 0.
Proof.
  intros z.
  destruct (luaY_parser (cfg := Writer.config) (emt := Writer.emitter) 8 ∅ z
              "chunk") as [f| |] eqn:E;
    [|vm_compute in E; discriminate E..].
  exists f. split; [reflexivity|].
  destruct (main_function_shape (frm := Writer_frame) _ _ _ _ _ E)
    as (H1 & H2 & H3 & H4 & _).
  split_and!; assumption.
Defined.

(** The body [() break end] of a function that is defined in a loop. *)
Lemma break_stops_at_function_witness :
  let ls := after (enterbreak (cfg := Writer.config))
              (start [C "(" 1; C ")" 1; T TK_BREAK 1; T TK_END 1]) in
  body (cfg := Writer.config) (emt := Writer.emitter) 3 0 1 ls
  = Err (E_error "no loop to break").
Proof.
  intros ls.
  apply (break_stops_at_function (frm := Writer_frame) 0 0 1 ls
           (after (body_head (cfg := Writer.config) (emt := Writer.emitter)
                     2 0 1) ls)).
  - vm_compute. reflexivity.
  - vm_compute. reflexivity.
Defined.

(** The parameters [(a, b, ...)] of a function. *)
Lemma code_params_records_witness :
  let ls := after (open_func (cfg := Writer.config);;
                   new_localvar "a" 0;; new_localvar "b" 1)
              (start []) in
  exists fs',
    ls_fs (after (code_params (cfg := Writer.config)
                    (emt := Writer.emitter) 2 1) ls)
    = fs' :: ls_fs (start [])
    /\ f_numparams (fs_f fs') = 2 /\ f_is_vararg (fs_f fs') = 1
    /\ fs_nactloc fs' = 3 /\ actloc_name fs' 2 = Some "arg"%string.
Proof.
  intros ls.
  destruct (ls_fs ls) as [|fs prev] eqn:Hfs;
    [vm_compute in Hfs; discriminate Hfs|].
  assert (prev = ls_fs (start []) /\ fs_nactloc fs = 0) as [-> Hna].
  { vm_compute in Hfs. injection Hfs as <- <-. split; reflexivity. }
  assert (code_params (cfg := Writer.config) (emt := Writer.emitter) 2 1 ls
          = Ok (tt, after (code_params (cfg := Writer.config)
                             (emt := Writer.emitter) 2 1) ls)) as Hc
    by (vm_compute; reflexivity).
  destruct (code_params_records (cfg := Writer.config)
              (emt := Writer.emitter) (frm := Writer_frame) 2 1 ls fs _ _
              Hfs ltac:(lia) ltac:(lia) ltac:(reflexivity) Hc)
    as (fs' & Hfs' & Hnp & _ & Hv & _ & Hd).
  destruct (Hd ltac:(lia)) as [Hn Ha]. rewrite Hna in *.
  exists fs'. split_and!; assumption.
Defined.

(** The function [function (a) return a end] at line 1. *)
Lemma body_adds_prototype_witness :
  let ls := start [C "(" 1; NAME "a" 1; C ")" 1; T TK_RETURN 1; NAME "a" 1;
                   T TK_END 1] in
  exists fs' f,
    ls_fs (after (body (cfg := Writer.config) (emt := Writer.emitter) 6 0 1)
             ls) = [fs']
    /\ fs_nkproto fs' = 1 /\ f_kproto (fs_f fs') !! 0 = Some f
    /\ f_lineDefined f = 1.
Proof.
  intros ls.
  destruct (ls_fs ls) as [|fs prev] eqn:Hfs;
    [vm_compute in Hfs; discriminate Hfs|].
  assert (prev = [] /\ fs_nkproto fs = 0) as [-> Hnk].
  { vm_compute in Hfs. injection Hfs as <- <-. split; reflexivity. }
  assert (body (cfg := Writer.config) (emt := Writer.emitter) 6 0 1 ls
          = Ok (tt, after (body (cfg := Writer.config)
                             (emt := Writer.emitter) 6 0 1) ls)) as Hb
    by (vm_compute; reflexivity).
  destruct (body_adds_prototype (frm := Writer_frame) 6 0 1 ls fs [] _
              Hfs Hb)
    as (fs' & prev' & f & Hfs' & Hl & Hn & Hk & _ & Hd & _).
  destruct prev'; [|discriminate Hl]. rewrite Hnk in *.
  exists fs', f. split_and!; assumption.
Defined.

(** * Progress through the input *)

(** ** Composing the actions *)

Lemma pending_eq ls ls' :
  ls_t ls' = ls_t ls -> ls_lookahead ls' = ls_lookahead ls ->
  ls_z ls' = ls_z ls -> pending ls' = pending ls.
Proof. unfold pending. by intros -> -> ->. Qed.

Lemma still_reads {A} (m : P A) : still m -> reads m.
Proof.
  intros Hm ls a ls' H. apply Hm in H as (Ht & Hl & Hz).
  rewrite (pending_eq _ _ Ht Hl Hz), Hl. by split.
Qed.

Lemma still_peeks {A} (m : P A) : still m -> peeks m.
Proof.
  intros Hm ls a ls' H. apply Hm in H as (Ht & Hl & Hz).
  by rewrite (pending_eq _ _ Ht Hl Hz).
Qed.

Lemma eats_reads {A} (m : P A) : eats m -> reads m.
Proof. intros Hm ls a ls' H. apply Hm in H as (? & _ & ?). by split. Qed.

Lemma reads_bind {A B} (m : P A) (g : A -> P B) :
  reads m -> (forall a, reads (g a)) -> reads (m ≫= g).
Proof.
  intros Hm Hg ls b ls' H. binv H as a ls1 H1.
  apply Hm in H1 as [Hle Hla]. apply Hg in H as [Hle' Hla'].
  split; [lia|auto].
Qed.

Lemma reads_ret {A} (a : A) : reads (mret a).
Proof. by intros ls b ls' [= <- <-]. Qed.

Lemma reads_throw {A} e : reads (throw e : P A).
Proof. by intros ls b ls'. Qed.

Lemma reads_timeout {A} : reads (timeout : P A).
Proof. by intros ls b ls'. Qed.

Lemma still_bind {A B} (m : P A) (g : A -> P B) :
  still m -> (forall a, still (g a)) -> still (m ≫= g).
Proof.
  intros Hm Hg ls b ls' H. binv H as a ls1 H1.
  apply Hm in H1 as (? & ? & ?). apply Hg in H as (? & ? & ?).
  split_and!; congruence.
Qed.

Lemma still_ret {A} (a : A) : still (mret a).
Proof. by intros ls b ls' [= <- <-]. Qed.

Lemma still_throw {A} e : still (throw e : P A).
Proof. by intros ls b ls'. Qed.

Lemma still_timeout {A} : still (timeout : P A).
Proof. by intros ls b ls'. Qed.

Lemma peeks_bind {A B} (m : P A) (g : A -> P B) :
  peeks m -> (forall a, peeks (g a)) -> peeks (m ≫= g).
Proof.
  intros Hm Hg ls b ls' H. binv H as a ls1 H1.
  apply Hm in H1 as [Ht1 Hp1]. apply Hg in H as [Ht Hp].
  split; [congruence|lia].
Qed.

Lemma eats_bind_first {A B} (m : P A) (g : A -> P B) :
  eats m -> (forall a, reads (g a)) -> eats (m ≫= g).
Proof.
  intros Hm Hg ls b ls' H. binv H as a ls1 H1.
  apply Hm in H1 as (Hle & Hlt & Hla). apply Hg in H as [Hle' Hla'].
  split_and!; [lia| |auto]. intros Ht. specialize (Hlt Ht). lia.
Qed.

Lemma eats_bind_peeks {A B} (m : P A) (g : A -> P B) :
  peeks m -> (forall a, eats (g a)) -> eats (m ≫= g).
Proof.
  intros Hm Hg ls b ls' H. binv H as a ls1 H1.
  apply Hm in H1 as [Ht1 Hp1]. apply Hg in H as (Hle & Hlt & Hla).
  split_and!; [lia| |done]. intros Ht. rewrite Ht1 in Hlt.
  specialize (Hlt Ht). lia.
Qed.

Lemma eats_throw {A} e : eats (throw e : P A).
Proof. by intros ls b ls'. Qed.

Lemma eats_timeout {A} : eats (timeout : P A).
Proof. by intros ls b ls'. Qed.

(** ** The lexer driver *)

Lemma eats_next : eats next.
Proof.
  intros ls [] ls'. unfold next, pending, luaX_lex. simpl.
  destruct (tk_token (ls_lookahead ls) =? TK_EOS) eqn:El; simpl.
  - destruct (ls_z ls) as [|it z] eqn:Ez; intros [= <-]; simpl;
      rewrite ?El, ?Ez; simpl; (split_and!; [| |by apply Z.eqb_eq]);
      try intros ?%Z.eqb_neq; repeat case_match; lia.
  - intros [= <-]. simpl. rewrite El.
    split_and!; [| |done]; try intros ?%Z.eqb_neq; repeat case_match; lia.
Qed.

Lemma reads_next : reads next.
Proof. apply eats_reads, eats_next. Qed.

Lemma peeks_lookahead : peeks lookahead.
Proof.
  intros ls [] ls'. unfold lookahead, pending, luaX_lex.
  destruct (ls_z ls) as [|it z] eqn:Ez; intros [= <-]; simpl;
    (split; [done|]); rewrite ?Ez; simpl; repeat case_match; lia.
Qed.

Lemma still_get : still get.
Proof. by intros ls a ls' [= <- <-]. Qed.

Lemma still_token : still token.
Proof. by intros ls a ls' [= <- <-]. Qed.

Lemma still_getfs : still getfs.
Proof. by intros ls a ls' [-> _]%getfs_inv. Qed.

Lemma still_putfs fs : still (putfs fs).
Proof. by intros ls a ls' (old & prev & _ & ->)%putfs_inv. Qed.

Lemma still_emit {emt : Emitter} {A}
    (op : LexState -> FuncState -> Res (A * FuncState)) :
  still (emit op).
Proof. by intros ls a ls' (fs & prev & fs' & _ & _ & ->)%emit_inv. Qed.

Lemma still_check_condition c msg : still (check_condition c msg).
Proof. by intros ls a ls' [_ ->]%check_condition_inv. Qed.

Lemma still_checklimit v limit msg : still (luaX_checklimit v limit msg).
Proof. by intros ls a ls' [_ ->]%luaX_checklimit_inv. Qed.

Lemma still_grow n size limit msg :
  still (fun ls => size ← luaM_growvector n size limit msg; Ok (size, ls)).
Proof.
  intros ls a ls' H. destruct (luaM_growvector _ _ _ _); by simplify_eq/=.
Qed.

Lemma still_get_put_fs {B} (g : LexState -> list FuncState) (m : P B) :
  still m -> still (ls ← get; put (set_ls_fs ls (g ls));; m).
Proof.
  intros Hm ls b ls' H. rewrite bind_get in H.
  binv H as [] ls1 H1. injection H1 as <-.
  by apply Hm in H as (-> & -> & ->).
Qed.

Create HintDb stilldb.
#[export] Hint Resolve still_get still_token still_getfs
  still_putfs still_emit still_check_condition still_checklimit still_grow
  : stilldb.

Create HintDb readsdb.
#[export] Hint Resolve reads_next : readsdb.

Create HintDb eatsdb.
#[export] Hint Resolve eats_next : eatsdb.

Ltac still_step :=
  lazymatch goal with
  | |- still (get ≫= _) =>
      first [ apply still_get_put_fs
            | apply still_bind; [apply still_get|intros ?] ]
  | |- still (_ ≫= _) => apply still_bind; [|intros ?]
  | |- still (mret _) => apply still_ret
  | |- still (throw _) => apply still_throw
  | |- still (luaK_error _) => apply still_throw
  | |- still (luaX_syntaxerror _ _) => apply still_throw
  | |- still (error_expected _) => apply still_throw
  | |- still timeout => apply still_timeout
  | |- still (if ?c then _ else _) => destruct c eqn:?
  | |- still (match ?x with _ => _ end) => destruct x eqn:?
  | |- still _ => solve [eauto with stilldb]
  end.

Ltac still_tac := repeat still_step.

Ltac peeks_step :=
  lazymatch goal with
  | |- peeks lookahead => apply peeks_lookahead
  | |- peeks (_ ≫= _) => apply peeks_bind; [|intros ?]
  | |- peeks (if ?c then _ else _) => destruct c eqn:?
  | |- peeks (match ?x with _ => _ end) => destruct x eqn:?
  | |- peeks _ => apply still_peeks; solve [still_tac]
  end.

Ltac peeks_tac := repeat peeks_step.

Ltac eats_tac :=
  lazymatch goal with
  | |- eats (_ ≫= _) =>
      first [ apply eats_bind_peeks; [solve [peeks_tac]|intros ?; eats_tac]
            | apply eats_bind_first;
              [solve [eats_tac]|intros ?; solve [reads_tac] ] ]
  | |- eats (throw _) => apply eats_throw
  | |- eats (luaK_error _) => apply eats_throw
  | |- eats (luaX_syntaxerror _ _) => apply eats_throw
  | |- eats (error_expected _) => apply eats_throw
  | |- eats timeout => apply eats_timeout
  | |- eats (if ?c then _ else _) => destruct c eqn:?; eats_tac
  | |- eats (match ?x with _ => _ end) => destruct x eqn:?; eats_tac
  | |- eats _ => solve [eauto with eatsdb]
  end
with reads_step :=
  lazymatch goal with
  | |- reads (lookahead ≫= _) => apply eats_reads; eats_tac
  | |- reads ((if _ then lookahead ≫= _ else _) ≫= _) =>
      apply eats_reads; eats_tac
  | |- reads (_ ≫= _) => apply reads_bind; [|intros ?]
  | |- reads (mret _) => apply reads_ret
  | |- reads (throw _) => apply reads_throw
  | |- reads (luaK_error _) => apply reads_throw
  | |- reads (luaX_syntaxerror _ _) => apply reads_throw
  | |- reads (error_expected _) => apply reads_throw
  | |- reads timeout => apply reads_timeout
  | |- reads (if ?c then _ else _) => destruct c eqn:?
  | |- reads (match ?x with _ => _ end) => destruct x eqn:?
  | |- reads _ =>
      first [ solve [eauto with readsdb]
            | apply still_reads; solve [eauto with stilldb] ]
  end
with reads_tac := repeat reads_step.

Lemma reads_check c : reads (check c).
Proof. unfold check. reads_tac. Qed.

Lemma eats_check c : eats (check c).
Proof. unfold check. eats_tac. Qed.

Lemma reads_optional c : reads (optional c).
Proof. unfold optional. reads_tac. Qed.

Lemma reads_check_match what who where_ :
  reads (check_match what who where_).
Proof. unfold check_match. reads_tac. Qed.

Lemma eats_check_match what who where_ :
  eats (check_match what who where_).
Proof. unfold check_match. eats_tac. Qed.

Lemma reads_str_checkname : reads str_checkname.
Proof. unfold str_checkname. reads_tac. Qed.

Lemma eats_str_checkname : eats str_checkname.
Proof. unfold str_checkname. eats_tac. Qed.

#[export] Hint Resolve reads_check reads_optional reads_check_match
  reads_str_checkname : readsdb.
#[export] Hint Resolve eats_check eats_check_match eats_str_checkname
  : eatsdb.

(** ** The actions on the function being compiled *)

Section StillPrimitives.
Context {cfg : Config} {emt : Emitter}.

Lemma still_open_func : still open_func.
Proof. by intros ls a ls' [= <- <-]. Qed.

Lemma still_string_constant_fs s : still (string_constant_fs s).
Proof.
  intros ls c ls' H. unfold string_constant_fs in H.
  destruct (ls_fs ls) as [|fs prev]; [done|].
  destruct (string_constant fs s (ls_constindex ls)) as [[[c' fs'] ci]| |];
    by simplify_eq/=.
Qed.

Lemma still_string_constant_prev s : still (string_constant_prev s).
Proof.
  intros ls c ls' H. unfold string_constant_prev in H.
  destruct (ls_fs ls) as [|fs [|pfs prev]]; [done..|].
  destruct (string_constant pfs s (ls_constindex ls)) as [[[c' fs'] ci]| |];
    by simplify_eq/=.
Qed.
#[local] Hint Resolve still_string_constant_fs still_string_constant_prev
  : stilldb.

Lemma still_code_string s : still (code_string s).
Proof. unfold code_string. still_tac. Qed.

Lemma still_luaI_registerlocalvar n : still (luaI_registerlocalvar n).
Proof. unfold luaI_registerlocalvar. still_tac. Qed.
#[local] Hint Resolve still_luaI_registerlocalvar : stilldb.

Lemma still_new_localvar name n : still (new_localvar name n).
Proof. unfold new_localvar. still_tac. Qed.

Lemma still_new_localvarstr name n : still (new_localvarstr name n).
Proof. apply still_new_localvar. Qed.

Lemma still_adjustlocalvars n : still (adjustlocalvars n).
Proof. unfold adjustlocalvars. still_tac. Qed.

Lemma still_removelocalvars n : still (removelocalvars n).
Proof. unfold removelocalvars. still_tac. Qed.
#[local] Hint Resolve still_code_string still_new_localvar
  still_new_localvarstr still_adjustlocalvars still_removelocalvars : stilldb.

Lemma still_singlevar n v : still (singlevar n v).
Proof. unfold singlevar. still_tac. Qed.

Lemma still_indexupvalue v : still (indexupvalue v).
Proof. unfold indexupvalue. still_tac. Qed.
#[local] Hint Resolve still_singlevar still_indexupvalue : stilldb.

Lemma still_pushupvalue n : still (pushupvalue n).
Proof. unfold pushupvalue. still_tac. Qed.

Lemma still_adjust_mult_assign nvars nexps :
  still (adjust_mult_assign nvars nexps).
Proof. unfold adjust_mult_assign. still_tac. Qed.

Lemma still_code_params nparams dots : still (code_params nparams dots).
Proof. unfold code_params. still_tac. Qed.

Lemma still_enterbreak : still enterbreak.
Proof. unfold enterbreak. still_tac. Qed.

Lemma still_leavebreak : still leavebreak.
Proof. unfold leavebreak. still_tac. Qed.

Lemma still_pushclosure_loop func i count :
  still (pushclosure_loop func i count).
Proof.
  revert i. induction count as [|count IH]; intros i; simpl; still_tac.
Qed.
#[local] Hint Resolve still_pushclosure_loop : stilldb.

Lemma still_pushclosure func : still (pushclosure func).
Proof. unfold pushclosure. still_tac. Qed.

Lemma still_close_func : still close_func.
Proof. unfold close_func. still_tac. Qed.

Lemma reads_checkname : reads checkname.
Proof. unfold checkname. reads_tac. Qed.

Lemma eats_checkname : eats checkname.
Proof. unfold checkname. eats_tac. Qed.

End StillPrimitives.

#[export] Hint Resolve still_string_constant_fs still_string_constant_prev
  still_code_string still_luaI_registerlocalvar still_new_localvar
  still_new_localvarstr still_adjustlocalvars still_removelocalvars
  still_singlevar still_indexupvalue still_pushupvalue
  still_adjust_mult_assign still_code_params still_enterbreak
  still_leavebreak still_pushclosure still_close_func still_open_func
  : stilldb.
#[export] Hint Resolve reads_checkname : readsdb.
#[export] Hint Resolve eats_checkname : eatsdb.

(** ** The grammar rules give no token back *)

Section RulesRead.
Context {cfg : Config} {emt : Emitter}.
Variable body : Z -> Z -> P unit.
Variable chunk : P unit.
Variable constructor : P unit.
Variable expr : expdesc -> P expdesc.
Hypothesis H_body : forall needself line, reads (body needself line).
Hypothesis H_chunk : reads chunk.
Hypothesis E_constructor : eats constructor.
Hypothesis E_expr : forall v, eats (expr v).

Lemma reads_constructor_var : reads constructor.
Proof. apply eats_reads, E_constructor. Qed.

Lemma reads_expr_var v : reads (expr v).
Proof. apply eats_reads, E_expr. Qed.

#[local] Hint Resolve H_body H_chunk reads_constructor_var reads_expr_var
  : readsdb.
#[local] Hint Resolve E_constructor E_expr : eatsdb.

Lemma reads_exp1 : reads (exp1 expr).
Proof. unfold exp1. reads_tac. Qed.
#[local] Hint Resolve reads_exp1 : readsdb.

Lemma reads_explist1_loop turns v n : reads (explist1_loop expr turns v n).
Proof.
  revert v n. induction turns as [|turns IH]; intros v n; simpl; reads_tac.
Qed.
#[local] Hint Resolve reads_explist1_loop : readsdb.

Lemma reads_explist1 fuel : reads (explist1 expr fuel).
Proof. unfold explist1. reads_tac. Qed.
#[local] Hint Resolve reads_explist1 : readsdb.

Lemma reads_funcargs fuel slf : reads (funcargs constructor expr fuel slf).
Proof. unfold funcargs. reads_tac. Qed.
#[local] Hint Resolve reads_funcargs : readsdb.

Lemma reads_recfield : reads (recfield expr).
Proof. unfold recfield. reads_tac. Qed.
#[local] Hint Resolve reads_recfield : readsdb.

Lemma eats_recfield : eats (recfield expr).
Proof. unfold recfield. eats_tac. Qed.
#[local] Hint Resolve eats_recfield : eatsdb.

Lemma reads_recfields_loop turns t n : reads (recfields_loop expr turns t n).
Proof.
  revert n. induction turns as [|turns IH]; intros n; simpl; reads_tac.
Qed.
#[local] Hint Resolve reads_recfields_loop : readsdb.

Lemma reads_recfields fuel : reads (recfields expr fuel).
Proof. unfold recfields. reads_tac. Qed.
#[local] Hint Resolve reads_recfields : readsdb.

Lemma eats_recfields fuel : eats (recfields expr fuel).
Proof. unfold recfields. eats_tac. Qed.
#[local] Hint Resolve eats_recfields : eatsdb.

Lemma reads_listfields_loop turns t v n :
  reads (listfields_loop expr turns t v n).
Proof.
  revert v n. induction turns as [|turns IH]; intros v n; simpl; reads_tac.
Qed.
#[local] Hint Resolve reads_listfields_loop : readsdb.

Lemma reads_listfields fuel : reads (listfields expr fuel).
Proof. unfold listfields. reads_tac. Qed.
#[local] Hint Resolve reads_listfields : readsdb.

Lemma eats_listfields fuel : eats (listfields expr fuel).
Proof. unfold listfields. eats_tac. Qed.
#[local] Hint Resolve eats_listfields : eatsdb.

Lemma reads_constructor_part fuel : reads (constructor_part expr fuel).
Proof. unfold constructor_part. reads_tac. Qed.
#[local] Hint Resolve reads_constructor_part : readsdb.

Lemma reads_constructor_def fuel : reads (constructor_def expr fuel).
Proof. unfold constructor_def. reads_tac. Qed.

Lemma eats_constructor_def fuel : eats (constructor_def expr fuel).
Proof. unfold constructor_def. eats_tac. Qed.

Lemma reads_primaryexp v : reads (primaryexp body constructor expr v).
Proof. unfold primaryexp. reads_tac. Qed.
#[local] Hint Resolve reads_primaryexp : readsdb.

Lemma eats_primaryexp v : eats (primaryexp body constructor expr v).
Proof. unfold primaryexp. eats_tac. Qed.
#[local] Hint Resolve eats_primaryexp : eatsdb.

Lemma reads_simpleexp_loop fuel turns v :
  reads (simpleexp_loop constructor expr fuel turns v).
Proof.
  revert v. induction turns as [|turns IH]; intros v; simpl; reads_tac.
Qed.
#[local] Hint Resolve reads_simpleexp_loop : readsdb.

Lemma reads_simpleexp fuel v :
  reads (simpleexp body constructor expr fuel v).
Proof. unfold simpleexp. reads_tac. Qed.
#[local] Hint Resolve reads_simpleexp : readsdb.

Lemma eats_simpleexp fuel v : eats (simpleexp body constructor expr fuel v).
Proof. unfold simpleexp. eats_tac. Qed.
#[local] Hint Resolve eats_simpleexp : eatsdb.

Lemma reads_subexpr_loop sub limit turns op v :
  (forall v l, reads (sub v l)) ->
  reads (subexpr_loop sub limit turns op v).
Proof.
  intros Hsub. revert op v.
  induction turns as [|turns IH]; intros op v; simpl; reads_tac.
Qed.

Lemma reads_subexpr fuel depth v limit :
  reads (subexpr body constructor expr fuel depth v limit).
Proof.
  revert v limit. induction depth as [|depth IH]; intros v limit; simpl;
    [reads_tac|].
  reads_tac. apply reads_subexpr_loop. exact IH.
Qed.
#[local] Hint Resolve reads_subexpr : readsdb.

Lemma eats_subexpr fuel depth v limit :
  eats (subexpr body constructor expr fuel depth v limit).
Proof.
  destruct depth as [|depth]; simpl; [apply eats_timeout|].
  apply eats_bind_peeks; [apply still_peeks, still_token|intros tok].
  apply eats_bind_first.
  - destruct (is_unopr (getunopr tok)).
    + apply eats_bind_first; [apply eats_next|intros ?]. reads_tac.
    + apply eats_simpleexp.
  - intros v1. reads_tac. apply reads_subexpr_loop. intros.
    apply reads_subexpr.
Qed.
#[local] Hint Resolve eats_subexpr : eatsdb.

Lemma eats_expr_def fuel v : eats (expr_def body constructor expr fuel v).
Proof. unfold expr_def. eats_tac. Qed.

Lemma reads_expr_def fuel v : reads (expr_def body constructor expr fuel v).
Proof. apply eats_reads, eats_expr_def. Qed.

Lemma reads_block : reads (block chunk).
Proof. unfold block. reads_tac. Qed.
#[local] Hint Resolve reads_block : readsdb.

Lemma reads_assignment fuel depth v nvars :
  reads (assignment body constructor expr fuel depth v nvars).
Proof.
  revert v nvars.
  induction depth as [|depth IH]; intros v nvars; simpl; reads_tac.
Qed.
#[local] Hint Resolve reads_assignment : readsdb.

Lemma reads_cond v : reads (cond expr v).
Proof. unfold cond. reads_tac. Qed.
#[local] Hint Resolve reads_cond : readsdb.

Lemma reads_whilestat line : reads (whilestat chunk expr line).
Proof. unfold whilestat. reads_tac. Qed.

Lemma reads_repeatstat line : reads (repeatstat chunk expr line).
Proof. unfold repeatstat. reads_tac. Qed.

Lemma reads_forbody nvar prepfor loopfor :
  reads (forbody chunk nvar prepfor loopfor).
Proof. unfold forbody. reads_tac. Qed.
#[local] Hint Resolve reads_forbody : readsdb.

Lemma reads_fornum varname_ : reads (fornum chunk expr varname_).
Proof. unfold fornum. reads_tac. Qed.

Lemma reads_forlist indexname : reads (forlist chunk expr indexname).
Proof. unfold forlist. reads_tac. Qed.
#[local] Hint Resolve reads_fornum reads_forlist : readsdb.

Lemma reads_forstat line : reads (forstat chunk expr line).
Proof. unfold forstat. reads_tac. Qed.

Lemma reads_test_then_block v : reads (test_then_block chunk expr v).
Proof. unfold test_then_block. reads_tac. Qed.
#[local] Hint Resolve reads_test_then_block : readsdb.

Lemma reads_ifstat_loop turns v escapelist :
  reads (ifstat_loop chunk expr turns v escapelist).
Proof.
  revert v escapelist.
  induction turns as [|turns IH]; intros v escapelist; simpl; reads_tac.
Qed.
#[local] Hint Resolve reads_ifstat_loop : readsdb.

Lemma reads_ifstat fuel line : reads (ifstat chunk expr fuel line).
Proof. unfold ifstat. reads_tac. Qed.

Lemma reads_localstat_loop turns nvars : reads (localstat_loop turns nvars).
Proof.
  revert nvars. induction turns as [|turns IH]; intros nvars; simpl;
    reads_tac.
Qed.
#[local] Hint Resolve reads_localstat_loop : readsdb.

Lemma reads_localstat fuel : reads (localstat expr fuel).
Proof. unfold localstat. reads_tac. Qed.

Lemma reads_funcname_loop turns v : reads (funcname_loop turns v).
Proof.
  revert v. induction turns as [|turns IH]; intros v; simpl; reads_tac.
Qed.
#[local] Hint Resolve reads_funcname_loop : readsdb.

Lemma reads_funcname fuel v : reads (funcname fuel v).
Proof. unfold funcname. reads_tac. Qed.
#[local] Hint Resolve reads_funcname : readsdb.

Lemma reads_funcstat fuel line : reads (funcstat body fuel line).
Proof. unfold funcstat. reads_tac. Qed.

Lemma eats_funcstat fuel line : eats (funcstat body fuel line).
Proof. unfold funcstat. eats_tac. Qed.

Lemma reads_exprstat fuel : reads (exprstat body constructor expr fuel).
Proof. unfold exprstat. reads_tac. Qed.

Lemma eats_exprstat fuel : eats (exprstat body constructor expr fuel).
Proof. unfold exprstat. eats_tac. Qed.
#[local] Hint Resolve eats_funcstat eats_exprstat : eatsdb.

Lemma reads_retstat fuel : reads (retstat expr fuel).
Proof. unfold retstat. reads_tac. Qed.

Lemma reads_breakstat : reads breakstat.
Proof. unfold breakstat. reads_tac. Qed.
#[local] Hint Resolve reads_whilestat reads_repeatstat reads_forstat
  reads_ifstat reads_localstat reads_funcstat reads_exprstat reads_retstat
  reads_breakstat : readsdb.

Lemma eats_localstat_loop turns nvars : eats (localstat_loop turns nvars).
Proof. destruct turns as [|turns]; simpl; eats_tac. Qed.
#[local] Hint Resolve eats_localstat_loop : eatsdb.

Lemma eats_statement fuel :
  eats (statement body chunk constructor expr fuel).
Proof.
  unfold statement.
  apply eats_bind_peeks; [apply still_peeks, still_get|intros ls0].
  cbv zeta.
  repeat match goal with
         | |- eats (if ?c then _ else _) => destruct c eqn:?
         end.
  - unfold ifstat, test_then_block. eats_tac.
  - unfold whilestat. eats_tac.
  - eats_tac.
  - unfold forstat. eats_tac.
  - unfold repeatstat. eats_tac.
  - eats_tac.
  - unfold localstat. eats_tac.
  - unfold retstat. eats_tac.
  - unfold breakstat. eats_tac.
  - eats_tac.
Qed.

Lemma reads_statement fuel :
  reads (statement body chunk constructor expr fuel).
Proof. apply eats_reads, eats_statement. Qed.
#[local] Hint Resolve reads_statement : readsdb.

Lemma reads_parlist_loop turns nparams : reads (parlist_loop turns nparams).
Proof.
  revert nparams. induction turns as [|turns IH]; intros nparams; simpl;
    reads_tac.
Qed.
#[local] Hint Resolve reads_parlist_loop : readsdb.

Lemma reads_parlist fuel : reads (parlist fuel).
Proof. unfold parlist. reads_tac. Qed.
#[local] Hint Resolve reads_parlist : readsdb.

Lemma reads_body_def fuel needself line :
  reads (body_def chunk fuel needself line).
Proof.
  unfold body_def. reads_tac.
Qed.

Lemma reads_chunk_loop fuel turns islast :
  reads (chunk_loop body chunk constructor expr fuel turns islast).
Proof.
  revert islast. induction turns as [|turns IH]; intros islast; simpl;
    reads_tac.
Qed.

Lemma reads_chunk_def fuel :
  reads (chunk_def body chunk constructor expr fuel).
Proof. apply reads_chunk_loop. Qed.

Lemma eats_body_def fuel needself line :
  eats (body_def chunk fuel needself line).
Proof. unfold body_def. eats_tac. Qed.

End RulesRead.


Section GrammarReads.
Context {cfg : Config} {emt : Emitter}.

Lemma reads_grammar fuel :
  (forall needself line, reads (g_body (grammar fuel) needself line))
  /\ reads (g_chunk (grammar fuel))
  /\ eats (g_constructor (grammar fuel))
  /\ forall v, eats (g_expr (grammar fuel) v).
Proof.
  induction fuel as [|fuel (Hb & Hc & Hk & He)]; simpl.
  { split_and!; intros; first [apply reads_timeout|apply eats_timeout]. }
  split_and!; intros.
  - by apply reads_body_def.
  - by apply reads_chunk_def.
  - by apply eats_constructor_def.
  - by apply eats_expr_def.
Qed.

Lemma eats_the_statement fuel fuel' :
  eats (statement (body fuel) (chunk fuel) (constructor fuel) (expr fuel)
          fuel').
Proof.
  destruct (reads_grammar fuel) as (Hb & Hc & Hk & He).
  by apply eats_statement.
Qed.

(** At the end of the stream no statement and no expression begins. *)
Lemma statement_at_eos body chunk constructor expr fuel ls :
  tk_token (ls_t ls) = TK_EOS ->
  statement body chunk constructor expr fuel ls
  = Err (E_error "unexpected symbol").
Proof.
  intros Ht. unfold statement. rewrite bind_get. cbv zeta. rewrite Ht.
  eval_eqb. cbv iota. apply bind_Err. unfold exprstat. apply bind_Err.
  apply simpleexp_unexpected. by rewrite Ht.
Qed.

Lemma expr_at_eos fuel v ls r :
  tk_token (ls_t ls) = TK_EOS -> expr fuel v ls <> Ok r.
Proof.
  intros Ht. destruct fuel as [|fuel]; [done|].
  unfold expr. cbn [grammar g_expr]. unfold expr_def.
  destruct fuel as [|fuel]; [done|].
  cbn [subexpr]. rewrite bind_assoc, bind_token, Ht. cbv zeta.
  change (is_unopr (getunopr TK_EOS)) with false. cbv iota.
  rewrite !bind_assoc.
  erewrite bind_Err; [done|]. apply simpleexp_unexpected. by rewrite Ht.
Qed.

(** X16.  The parser only moves forward, and a statement or an expression
    that parses has taken at least one token: where [pending] counts the
    tokens still to be parsed (the current one, the look-ahead one and
    the input not read), a statement and an expression that succeed leave
    fewer of them than they found, and [chunk] leaves no more, whatever
    the bytecode writer is.  So each turn of the loops over statements
    and over expressions gets nearer to the end of the input. *)
Theorem rules_consume_input (fuel fuel' : nat) (ls : LexState) :
  (forall islast ls',
     statement (body fuel) (chunk fuel) (constructor fuel) (expr fuel) fuel'
       ls = Ok (islast, ls') ->
     pending ls' < pending ls)
  /\ (forall v v' ls',
        expr fuel v ls = Ok (v', ls') -> pending ls' < pending ls)
  /\ (forall ls', chunk fuel ls = Ok (tt, ls') -> pending ls' <= pending ls).
Proof.
  destruct (reads_grammar fuel) as (Hb & Hc & Hk & He).
  split_and!.
  - intros islast ls' H.
    destruct (decide (tk_token (ls_t ls) = TK_EOS)) as [Ht|Ht].
    + by rewrite statement_at_eos in H.
    + apply eats_the_statement in H as (_ & Hlt & _). auto.
  - intros v v' ls' H.
    destruct (decide (tk_token (ls_t ls) = TK_EOS)) as [Ht|Ht].
    + by apply expr_at_eos in H.
    + apply He in H as (_ & Hlt & _). auto.
  - intros ls' H. by apply Hc in H as [? _].
Qed.

(** X18.  No rule leaves a token in the look-ahead buffer.  Whatever the
    bytecode writer is, after a statement and after an expression the
    buffer is empty ([lookahead.token] is [TK_EOS]): the token that
    [statement] peeks at behind [function], or [constructor_part] behind
    a name, is taken by the [next] that follows.  [chunk] leaves the
    buffer empty if it finds it empty.  So the statements of a chunk
    begin with the buffer empty, which the assertion of [lookahead]
    requires where [statement] calls it. *)
Theorem lookahead_left_empty (fuel fuel' : nat) (ls : LexState) :
  (forall islast ls',
     statement (body fuel) (chunk fuel) (constructor fuel) (expr fuel) fuel'
       ls = Ok (islast, ls') ->
     tk_token (ls_lookahead ls') = TK_EOS)
  /\ (forall v v' ls',
        expr fuel v ls = Ok (v', ls') ->
        tk_token (ls_lookahead ls') = TK_EOS)
  /\ (forall ls',
        tk_token (ls_lookahead ls) = TK_EOS ->
        chunk fuel ls = Ok (tt, ls') ->
        tk_token (ls_lookahead ls') = TK_EOS).
Proof.
  destruct (reads_grammar fuel) as (Hb & Hc & Hk & He).
  split_and!.
  - intros islast ls' H. by apply eats_the_statement in H as (_ & _ & ?).
  - intros v v' ls' H. by apply He in H as (_ & _ & ?).
  - intros ls' Hl H. apply Hc in H as [_ H]. auto.
Qed.

End GrammarReads.

(** ** The operator an expression stops at *)

Section Operators.
Context {cfg : Config} {emt : Emitter}.

Lemma subexpr_loop_stops sub limit turns op v ls op' v' ls' :
  (forall v l ls0 o v1 ls1,
     sub v l ls0 = Ok ((o, v1), ls1) ->
     o = getbinopr (tk_token (ls_t ls1))) ->
  op = getbinopr (tk_token (ls_t ls)) ->
  subexpr_loop sub limit turns op v ls = Ok ((op', v'), ls') ->
  op' = getbinopr (tk_token (ls_t ls'))
  /\ (is_binopr op' = true -> (priority op').1 <= limit).
Proof.
  intros Hsub. revert op v ls.
  induction turns as [|turns IH]; intros op v ls Hop H; [done|].
  cbn [subexpr_loop] in H.
  destruct (is_binopr op && ((priority op).1 >? limit)) eqn:Ec.
  - binv H as [] ls1 Hn. binv H as v1 ls2 He.
    binv H as [nextop v2] ls3 Hs. apply Hsub in Hs.
    binv H as v3 ls4 Hp. apply still_emit in Hp as [Hp _].
    apply (IH _ _ _ (eq_trans Hs (eq_sym (f_equal _ (f_equal _ Hp)))) H).
  - apply mret_inv in H as [[= <- <-] <-]. split; [done|].
    intros Hb. rewrite Hb in Ec. simpl in Ec. lia.
Qed.

Lemma subexpr_stops body constructor expr fuel depth v limit ls op v' ls' :
  subexpr body constructor expr fuel depth v limit ls = Ok ((op, v'), ls') ->
  op = getbinopr (tk_token (ls_t ls'))
  /\ (is_binopr op = true -> (priority op).1 <= limit).
Proof.
  revert v limit ls op v' ls'.
  induction depth as [|depth IH]; intros v limit ls op v' ls' H; [done|].
  cbn [subexpr] in H. rewrite bind_token in H. cbv zeta in H.
  binv H as v1 ls1 H1. rewrite bind_token in H.
  eapply subexpr_loop_stops; [|reflexivity|exact H].
  intros v0 l ls0 o v2 ls2 Hs. by apply IH in Hs as [-> _].
Qed.

(** X17.  The operator that [subexpr] returns is the one the parse stopped
    at.  When [subexpr] returns, the operator it returns is the binary
    operator that the current token denotes ([OPR_NOBINOPR] if it denotes
    none), and if it is an operator its left priority is not higher than
    [limit]: every operator of higher priority has been taken into the
    expression.  So [expr], which calls it with the limit -1, ends at a
    token that is no binary operator. *)
Theorem subexpr_first_untreated (fuel depth : nat) (v : expdesc) (limit : Z)
    (ls : LexState) :
  (forall op v' ls',
     subexpr (body fuel) (constructor fuel) (expr fuel) fuel depth v limit ls
     = Ok ((op, v'), ls') ->
     op = getbinopr (tk_token (ls_t ls'))
     /\ (is_binopr op = true -> (priority op).1 <= limit))
  /\ (forall v' ls',
        expr fuel v ls = Ok (v', ls') ->
        getbinopr (tk_token (ls_t ls')) = OPR_NOBINOPR).
Proof.
  split.
  - intros op v' ls'. apply subexpr_stops.
  - intros v' ls' H. destruct fuel as [|fuel']; [done|].
    unfold expr in H. cbn [grammar g_expr] in H. unfold expr_def in H.
    binv H as [op v1] ls1 Hs. apply mret_inv in H as [-> ->].
    apply subexpr_stops in Hs as [<- Hp].
    destruct op; try done; specialize (Hp eq_refl); simpl in Hp; lia.
Qed.

End Operators.

(** ** Examples *)

(** The statement [while x do break end] takes its five tokens. *)
Lemma rules_consume_input_witness :
  let z := [T TK_WHILE 1; NAME "x" 1; T TK_DO 1; T TK_BREAK 1; T TK_END 1] in
  let stat := statement (cfg := Writer.config) (emt := Writer.emitter)
                (body 6) (chunk 6) (constructor 6) (expr 6) 6 in
  pending (start z) = 5 /\ pending (after stat (start z)) = 0
  /\ pending (after stat (start z)) < pending (start z).
Proof.
  intros z stat. split; [reflexivity|]. split; [reflexivity|].
  apply (proj1 (rules_consume_input (cfg := Writer.config)
                  (emt := Writer.emitter) 6 6 (start z)) 0).
  vm_compute. reflexivity.
Defined.

(** In [1 + 2 * 3 )], the expression takes [1 + 2 * 3] and stops at [)]. *)
Lemma subexpr_first_untreated_witness :
  let z := [NUMBER 1 1; C "+" 1; NUMBER 2 1; C "*" 1; NUMBER 3 1; C ")" 1] in
  let e := expr (cfg := Writer.config) (emt := Writer.emitter) 6
             expdesc_auto in
  getbinopr (tk_token (ls_t (after e (start z)))) = OPR_NOBINOPR
  /\ tk_token (ls_t (after e (start z))) = l_c ")".
Proof.
  intros z e. split; [|reflexivity].
  assert (e (start z) = Ok (set_VEXP (cfg := Writer.config) expdesc_auto,
                            after e (start z))) as He
    by (vm_compute; reflexivity).
  exact (proj2 (subexpr_first_untreated (cfg := Writer.config)
                  (emt := Writer.emitter) 6 0 expdesc_auto 0 (start z))
           _ _ He).
Defined.

(** The statement [function f () end]: [statement] peeks at [f], and the
    buffer is empty again when the statement ends. *)
Lemma lookahead_left_empty_witness :
  let z := [T TK_FUNCTION 1; NAME "f" 1; C "(" 1; C ")" 1; T TK_END 1] in
  let stat := statement (cfg := Writer.config) (emt := Writer.emitter)
                (body 6) (chunk 6) (constructor 6) (expr 6) 6 in
  tk_token (ls_lookahead (after lookahead (start z))) = TK_NAME
  /\ tk_token (ls_lookahead (after stat (start z))) = TK_EOS.
Proof.
  intros z stat. split; [reflexivity|].
  apply (proj1 (lookahead_left_empty (cfg := Writer.config)
                  (emt := Writer.emitter) 6 6 (start z)) 0).
  vm_compute. reflexivity.
Defined.
